(** * SVU: value graph and data-quality engine

    A shallow embedding of the parts of the SVU repository that merge
    observations ([pipeline/ingest.py]), validate record batches
    ([pipeline/validate.py]) and build and query the value graph
    ([models/graph_structure.py]), with the properties proved about them.

    Conventions of the embedding.
    - A Python float is written as a rational [Q] and stands for the
      binary64 nearest to it; a missing or NaN cell is [None].  Floats
      that are only compared are compared as rationals; where the code
      computes with them (a product of rates, a sum of edge costs) the
      results are rounded as binary64 arithmetic rounds them
      ([Float64]).
    - Quantities that need a square root (the volatility of a node) are
      reals lifted from the rationals, with the non-finite results of
      float arithmetic ([NaN], infinities) as constructors of their own.
    - A [pandas] frame is the list of its rows in index order; a row
      carries its index label where the code uses it.
    - [try: ... except Exception] blocks are an error result that the
      wrapper turns into the fallback value the code returns. *)

From Stdlib Require Import List ZArith QArith Bool String Lia Psatz.
From Stdlib Require Import Qabs Qround Qpower Permutation Sorted.
From Stdlib Require Import Reals Qreals.
Import ListNotations.


(** ** Shared vocabulary *)

(** Exceptions that the modelled code raises or lets through. *)
Inductive exn : Type :=
| ValueError (msg : string)
| KeyError
| TypeError
| NodeNotFound
| NetworkXNoPath.

Inductive result (A : Type) : Type :=
| Ok (a : A)
| Raise (e : exn).
Arguments Ok {A} a.
Arguments Raise {A} e.

Definition bind {A B} (m : result A) (k : A -> result B) : result B :=
  match m with
  | Ok a => k a
  | Raise e => Raise e
  end.

Notation "x <- m ;; k" := (bind m (fun x => k))
  (at level 61, m at next level, right associativity).

(** Strict comparison of rationals as a boolean. *)
Definition Qltb (x y : Q) : bool := negb (Qle_bool y x).

(** ** Floats *)

Module Float64.

(** A Python float is an IEEE 754 binary64.  It is kept here by its
    value: a rational, an infinity or a NaN.  The sign of a zero is not
    kept; no operation below tells [-0.0] from [0.0]. *)
Inductive float : Type :=
| Num (q : Q)
| Inf (negative : bool)
| NaN.

Definition pow2 (e : Z) : Q := (2 ^ e)%Q.

(** The exponent of a positive rational: the [e] with
    [2 ^ e <= x < 2 ^ (e + 1)]. *)

Definition ilog2 (x : Q) : Z :=
  let p := Qnum x in
  let q := Z.pos (Qden x) in
  let a := Z.log2 p in
  let b := Z.log2 q in
  if (p * 2 ^ b <? q * 2 ^ a)%Z then (a - b - 1)%Z else (a - b)%Z.

(** The integer nearest to [m], the even one of the two when [m] is half
    way between them. *)
Definition rne (m : Q) : Z :=
  let n := Qfloor m in
  match (m - inject_Z n ?= 1 # 2)%Q with
  | Lt => n
  | Gt => (n + 1)%Z
  | Eq => if Z.even n then n else (n + 1)%Z
  end.

(** The binary64 nearest to a positive rational: 53 significant bits,
    the exponent not below -1022 (below it the spacing stays that of the
    subnormal numbers), and an infinity from [2 ^ 1024] on. *)
Definition round_pos (x : Q) : float :=
  let e := Z.max (-1022) (ilog2 x) in
  let u := pow2 (e - 52) in
  let y := Qred (inject_Z (rne (x / u)) * u) in
  if Qle_bool (pow2 1024) y then Inf false else Num y.

Definition opp (a : float) : float :=
  match a with
  | Num q => Num (- q)
  | Inf s => Inf (negb s)
  | NaN => NaN
  end.

(** The float that a decimal literal or an exact result becomes. *)
Definition round (x : Q) : float :=
  match (x ?= 0)%Q with
  | Eq => Num 0
  | Gt => round_pos x
  | Lt => opp (round_pos (- x))
  end.

(** [a + b], [a - b] and [a * b]: the exact result, rounded. *)
Definition add (a b : float) : float :=
  match a, b with
  | Num x, Num y => round (x + y)
  | NaN, _ | _, NaN => NaN
  | Inf s, Inf s' => if Bool.eqb s s' then Inf s else NaN
  | Inf s, Num _ | Num _, Inf s => Inf s
  end.

Definition sub (a b : float) : float := add a (opp b).

Definition mul (a b : float) : float :=
  match a, b with
  | Num x, Num y => round (x * y)
  | NaN, _ | _, NaN => NaN
  | Inf s, Inf s' => Inf (xorb s s')
  | Inf s, Num y | Num y, Inf s =>
      match (y ?= 0)%Q with
      | Eq => NaN
      | Gt => Inf s
      | Lt => Inf (negb s)
      end
  end.

Definition abs (a : float) : float :=
  match a with
  | Num q => Num (Qabs q)
  | Inf _ => Inf false
  | NaN => NaN
  end.

(** [a < b] and [a == b]: false as soon as one side is a NaN. *)
Definition ltb (a b : float) : bool :=
  match a, b with
  | Num x, Num y => Qltb x y
  | Inf true, Num _ | Num _, Inf false | Inf true, Inf false => true
  | _, _ => false
  end.

Definition eqb (a b : float) : bool :=
  match a, b with
  | Num x, Num y => Qeq_bool x y
  | Inf s, Inf s' => Bool.eqb s s'
  | _, _ => false
  end.

End Float64.


(** Insertion into a sorted list and the sort built on it; the frames
    here are sorted on one column in ascending order. *)
Fixpoint insert_by {A} (leb : A -> A -> bool) (x : A) (l : list A) : list A :=
  match l with
  | [] => [x]
  | h :: t => if leb x h then x :: l else h :: insert_by leb x t
  end.

Definition sort_by {A} (leb : A -> A -> bool) (l : list A) : list A :=
  fold_right (insert_by leb) [] l.

(** [Series.unique()]: the distinct values in order of first appearance. *)
Fixpoint unique_from (seen : list Z) (l : list Z) : list Z :=
  match l with
  | [] => []
  | x :: t =>
      if existsb (Z.eqb x) seen then unique_from seen t
      else x :: unique_from (x :: seen) t
  end.

Definition unique (l : list Z) : list Z := unique_from [] l.

(** ** pipeline/ingest.py *)

Module Ingest.

(** The [type] field of a data point: ['price'] or ['exchange_rate']. *)
Inductive data_type : Type := price | exchange_rate.

Definition data_type_eqb (a b : data_type) : bool :=
  match a, b with
  | price, price | exchange_rate, exchange_rate => true
  | _, _ => false
  end.

(** [class DataPoint]. *)
Record DataPoint : Type := mkDataPoint {
  timestamp : Z;
  item_id : Z;
  value : Q;
  source : string;
  confidence : Q;
  type : data_type;
  source_item_id : option Z;
  target_item_id : option Z
}.

(** [DataPoint.to_dict]: the pair columns are written only for an
    exchange rate, so that in the frame built from the dictionaries they
    are empty for a price. *)
Definition to_dict (dp : DataPoint) : DataPoint :=
  match type dp with
  | exchange_rate => dp
  | price =>
      mkDataPoint (timestamp dp) (item_id dp) (value dp) (source dp)
        (confidence dp) price None None
  end.

(** A frame: rows with their index labels, in index order. *)
Definition Row : Type := (nat * DataPoint)%type.
Definition DataFrame : Type := list Row.

(** [pd.DataFrame([dp.to_dict() for dp in self.data_points])]: the label
    of a row is its position in the buffer, that is its ingestion rank. *)
Definition frame_of (data_points : list DataPoint) : DataFrame :=
  combine (seq 0 (List.length data_points)) (map to_dict data_points).

(** The grouping key of [df.groupby(['timestamp', 'item_id'])]. *)
Definition key : Type := (Z * Z)%type.

Definition row_key (r : Row) : key := (timestamp (snd r), item_id (snd r)).

Definition key_eqb (a b : key) : bool :=
  (fst a =? fst b)%Z && (snd a =? snd b)%Z.

Definition key_leb (a b : key) : bool :=
  (fst a <? fst b)%Z || ((fst a =? fst b)%Z && (snd a <=? snd b)%Z).

Definition key_eq_dec (a b : key) : {a = b} + {a <> b}.
Proof. decide equality; apply Z.eq_dec. Defined.

(** [groupby] sorts the distinct keys. *)
Definition group_keys (df : DataFrame) : list key :=
  sort_by key_leb (nodup key_eq_dec (map row_key df)).

(** The rows of one group, in frame order. *)
Definition group_rows (df : DataFrame) (k : key) : DataFrame :=
  filter (fun r => key_eqb (row_key r) k) df.

Definition groupby (df : DataFrame) : list (key * DataFrame) :=
  map (fun k => (k, group_rows df k)) (group_keys df).

(** [group['confidence'].idxmax()] followed by [group.loc[...]]: the
    first row that reaches the maximum. *)
Fixpoint idxmax_from (best : Row) (l : DataFrame) : Row :=
  match l with
  | [] => best
  | r :: t =>
      if Qltb (confidence (snd best)) (confidence (snd r))
      then idxmax_from r t
      else idxmax_from best t
  end.

Definition idxmax (l : DataFrame) : option Row :=
  match l with
  | [] => None
  | r :: t => Some (idxmax_from r t)
  end.

(** [if priority_sources:] holds for a list that is given and not empty. *)
Definition truthy (priority_sources : option (list string)) : bool :=
  match priority_sources with
  | Some (_ :: _) => true
  | _ => false
  end.

Definition isin (s : string) (priority_sources : option (list string)) : bool :=
  match priority_sources with
  | Some l => existsb (String.eqb s) l
  | None => false
  end.

(** The candidates of a group: what is left of it when [idxmax] runs. *)
Definition candidates (priority_sources : option (list string))
    (min_confidence : Q) (group : DataFrame) : DataFrame :=
  let group := filter (fun r => Qle_bool min_confidence (confidence (snd r))) group in
  if truthy priority_sources then
    let priority_group := filter (fun r => isin (source (snd r)) priority_sources) group in
    match priority_group with
    | [] => group
    | _ :: _ => priority_group
    end
  else group.

(** The loop of [merge_data] over the groups. *)
Fixpoint merge_groups (priority_sources : option (list string))
    (min_confidence : Q) (groups : list (key * DataFrame)) : DataFrame :=
  match groups with
  | [] => []
  | (_, group) :: rest =>
      match idxmax (candidates priority_sources min_confidence group) with
      | None => merge_groups priority_sources min_confidence rest
      | Some best_data =>
          best_data :: merge_groups priority_sources min_confidence rest
      end
  end.

(** The body of the [try] block of [merge_data]. *)
Definition merge_data_body (data_points : list DataPoint)
    (priority_sources : option (list string)) (min_confidence : Q)
    : result DataFrame :=
  match data_points with
  | [] => Raise (ValueError "no data points to merge")
  | _ :: _ =>
      let df := frame_of data_points in
      Ok (merge_groups priority_sources min_confidence (groupby df))
  end.

(** [merge_data]: any exception is logged and an empty frame returned. *)
Definition merge_data (data_points : list DataPoint)
    (priority_sources : option (list string)) (min_confidence : Q)
    : DataFrame :=
  match merge_data_body data_points priority_sources min_confidence with
  | Ok df => df
  | Raise _ => []
  end.

(** [clear_data]. *)
Definition clear_data (data_points : list DataPoint) : list DataPoint := [].

(** The dictionary returned by [get_statistics]. *)
Record confidence_stats : Type := mkConfidenceStats {
  mean : Q;
  min : Q;
  max : Q
}.

Record statistics : Type := mkStatistics {
  total_points : nat;
  price_points : nat;
  rate_points : nat;
  sources : list (string * nat);
  conf_stats : confidence_stats
}.

(** [df['source'].value_counts().to_dict()], as counts per source in order
    of first appearance (the order of the keys of the dictionary is not
    modelled). *)
Fixpoint count_source (s : string) (counts : list (string * nat))
    : list (string * nat) :=
  match counts with
  | [] => [(s, 1%nat)]
  | (s', n) :: t =>
      if String.eqb s s' then (s', S n) :: t else (s', n) :: count_source s t
  end.

Definition value_counts (l : list string) : list (string * nat) :=
  fold_left (fun acc s => count_source s acc) l [].

Definition Qsum (l : list Q) : Q := fold_right Qplus 0%Q l.

Definition Qmin_list (x : Q) (l : list Q) : Q :=
  fold_left (fun m y => if Qltb y m then y else m) l x.

Definition Qmax_list (x : Q) (l : list Q) : Q :=
  fold_left (fun m y => if Qltb m y then y else m) l x.

(** [get_statistics]; [None] stands for the empty dictionary of the
    [except] branch, which no typed buffer reaches. *)
Definition get_statistics (data_points : list DataPoint) : option statistics :=
  match data_points with
  | [] =>
      Some (mkStatistics 0 0 0 [] (mkConfidenceStats 0%Q 0%Q 0%Q))
  | dp :: rest =>
      let df := map to_dict data_points in
      let confs := map confidence df in
      Some (mkStatistics
        (List.length df)
        (List.length (filter (fun r => data_type_eqb (type r) price) df))
        (List.length (filter (fun r => data_type_eqb (type r) exchange_rate) df))
        (value_counts (map source df))
        (mkConfidenceStats
           (Qsum confs / inject_Z (Z.of_nat (List.length confs)))%Q
           (Qmin_list (confidence (to_dict dp)) (map confidence (map to_dict rest)))
           (Qmax_list (confidence (to_dict dp)) (map confidence (map to_dict rest)))))
  end.

(** A frame handed to [ingest_data]: the names of its columns and its
    rows.  A cell is read by the name of its column, and reading a column
    that the frame does not have raises [KeyError]. *)
Record InRow : Type := mkInRow {
  in_timestamp : Z;
  in_value : Q;
  in_item_id : Z;
  in_source_item_id : Z;
  in_target_item_id : Z
}.

Record InFrame : Type := mkInFrame {
  columns : list string;
  rows : list InRow
}.

Definition has_column (data : InFrame) (c : string) : bool :=
  existsb (String.eqb c) (columns data).

(** [row[c]]. *)
Definition getitem {A} (data : InFrame) (c : string) (field : InRow -> A)
    (row : InRow) : result A :=
  if has_column data c then Ok (field row) else Raise KeyError.

(** The columns that [ingest_data] checks before it reads a row. *)
Definition required_columns (data_type : string) : list string :=
  if String.eqb data_type "price"%string then ["timestamp"%string; "value"%string; "item_id"%string]
  else if String.eqb data_type "exchange_rate"%string
       then ["timestamp"%string; "value"%string; "source_item_id"%string; "target_item_id"%string]
       else ["timestamp"%string; "value"%string].

(** The data point built from one row: a price for the type ['price'],
    an exchange rate for any other type. *)
Definition make_data_point (data : InFrame) (source_name : string)
    (data_type : string) (conf : Q) (row : InRow) : result DataPoint :=
  if String.eqb data_type "price"%string then
    ts <- getitem data "timestamp"%string in_timestamp row ;;
    it <- getitem data "item_id"%string in_item_id row ;;
    v <- getitem data "value"%string in_value row ;;
    Ok (mkDataPoint ts it v source_name conf price None None)
  else
    ts <- getitem data "timestamp"%string in_timestamp row ;;
    it <- getitem data "source_item_id"%string in_source_item_id row ;;
    v <- getitem data "value"%string in_value row ;;
    si <- getitem data "source_item_id"%string in_source_item_id row ;;
    ti <- getitem data "target_item_id"%string in_target_item_id row ;;
    Ok (mkDataPoint ts it v source_name conf exchange_rate (Some si) (Some ti)).

(** The loop of [ingest_data]: every point is appended to the buffer as
    soon as it is built. *)
Fixpoint ingest_rows (data : InFrame) (source_name : string)
    (data_type : string) (conf : Q) (todo : list InRow)
    (data_points : list DataPoint) : result unit * list DataPoint :=
  match todo with
  | [] => (Ok tt, data_points)
  | row :: rest =>
      match make_data_point data source_name data_type conf row with
      | Raise e => (Raise e, data_points)
      | Ok data_point =>
          ingest_rows data source_name data_type conf rest
            (data_points ++ [data_point])
      end
  end.

(** [ingest_data]: the outcome and the buffer as the call leaves it; an
    exception is logged and raised again. *)
Definition ingest_data (data_points : list DataPoint) (data : InFrame)
    (source_name : string) (data_type : string) (conf : Q)
    : result unit * list DataPoint :=
  if forallb (has_column data) (required_columns data_type)
  then ingest_rows data source_name data_type conf (rows data) data_points
  else (Raise (ValueError "required columns are missing"), data_points).

End Ingest.

(** ** pipeline/validate.py *)

Module Validate.

Local Open Scope Z_scope.

(** A cell of the [timestamp] column.  Before [pd.to_datetime] it can be an
    integer (read as nanoseconds since the epoch), a datetime already, a
    null, or an object that [pd.to_datetime] rejects; after it, a datetime
    or a null. *)
Inductive ts_cell : Type :=
| TsEpoch (n : Z)
| TsStamp (ns : Z)
| TsNull
| TsBad.

(** A cell of a column that the validators do not read by name. *)
Inductive cell : Type :=
| CNull
| CInt (z : Z)
| CFloat (q : Q)
| CText (s : string).

(** A bound given as a float: [float('inf')] is the default upper bound. *)
Inductive bound : Type :=
| NegInf
| Fin (q : Q)
| PosInf.

(** A row of the price frame: the columns read by name and the others.
    The identifier columns are integer columns without nulls, as
    [models/database.py] declares them. *)
Record PriceRow : Type := mkPriceRow {
  p_timestamp : ts_cell;
  p_item_id : Z;
  p_price : option Q;
  p_others : list cell
}.

(** A row of the exchange-rate frame. *)
Record RateRow : Type := mkRateRow {
  r_timestamp : ts_cell;
  r_source_item_id : Z;
  r_target_item_id : Z;
  r_rate : option Q;
  r_others : list cell
}.

(** [pd.to_datetime] on one cell.  A timestamp is a number of
    nanoseconds kept in 64 bits: an integer outside that range cannot be
    converted, and the least 64-bit integer is the value that stands for
    a missing timestamp. *)
Definition int64_min : Z := (- 2 ^ 63)%Z.
Definition int64_max : Z := (2 ^ 63 - 1)%Z.

Definition to_datetime_cell (c : ts_cell) : result ts_cell :=
  match c with
  | TsEpoch n =>
      if (n =? int64_min)%Z then Ok TsNull
      else if (int64_min <? n)%Z && (n <=? int64_max)%Z then Ok (TsStamp n)
      else Raise (ValueError "Out of bounds nanosecond timestamp")
  | TsStamp n => Ok (TsStamp n)
  | TsNull => Ok TsNull
  | TsBad => Raise (ValueError "unknown datetime format")
  end.

(** [pd.to_datetime] on a column: it fails as a whole on the first cell
    that it cannot convert. *)
Fixpoint to_datetime (col : list ts_cell) : result (list ts_cell) :=
  match col with
  | [] => Ok []
  | c :: t =>
      c' <- to_datetime_cell c ;;
      t' <- to_datetime t ;;
      Ok (c' :: t')
  end.

Definition set_p_timestamp (r : PriceRow) (c : ts_cell) : PriceRow :=
  mkPriceRow c (p_item_id r) (p_price r) (p_others r).

Definition set_r_timestamp (r : RateRow) (c : ts_cell) : RateRow :=
  mkRateRow c (r_source_item_id r) (r_target_item_id r) (r_rate r) (r_others r).

(** [frame['timestamp'] = col]: the assignment writes the column into the
    frame that the caller passed. *)
Fixpoint assign_p_timestamp (frame : list PriceRow) (col : list ts_cell)
    : list PriceRow :=
  match frame, col with
  | r :: t, c :: ct => set_p_timestamp r c :: assign_p_timestamp t ct
  | _, _ => frame
  end.

Fixpoint assign_r_timestamp (frame : list RateRow) (col : list ts_cell)
    : list RateRow :=
  match frame, col with
  | r :: t, c :: ct => set_r_timestamp r c :: assign_r_timestamp t ct
  | _, _ => frame
  end.

(** Equality of cells as [DataFrame.duplicated] sees it: two nulls are
    equal, floats are compared by value. *)
Definition ts_cell_eqb (a b : ts_cell) : bool :=
  match a, b with
  | TsEpoch x, TsEpoch y => (x =? y)%Z
  | TsStamp x, TsStamp y => (x =? y)%Z
  | TsNull, TsNull => true
  | TsBad, TsBad => true
  | _, _ => false
  end.

Definition cell_eqb (a b : cell) : bool :=
  match a, b with
  | CNull, CNull => true
  | CInt x, CInt y => (x =? y)%Z
  | CFloat x, CFloat y => Qeq_bool x y
  | CText x, CText y => String.eqb x y
  | _, _ => false
  end.

Definition float_eqb (a b : option Q) : bool :=
  match a, b with
  | None, None => true
  | Some x, Some y => Qeq_bool x y
  | _, _ => false
  end.

Fixpoint cells_eqb (a b : list cell) : bool :=
  match a, b with
  | [], [] => true
  | x :: a', y :: b' => cell_eqb x y && cells_eqb a' b'
  | _, _ => false
  end.

Definition price_row_eqb (a b : PriceRow) : bool :=
  ts_cell_eqb (p_timestamp a) (p_timestamp b)
  && (p_item_id a =? p_item_id b)%Z
  && float_eqb (p_price a) (p_price b)
  && cells_eqb (p_others a) (p_others b).

Definition rate_row_eqb (a b : RateRow) : bool :=
  ts_cell_eqb (r_timestamp a) (r_timestamp b)
  && (r_source_item_id a =? r_source_item_id b)%Z
  && (r_target_item_id a =? r_target_item_id b)%Z
  && float_eqb (r_rate a) (r_rate b)
  && cells_eqb (r_others a) (r_others b).

(** Counting the rows that satisfy a test, as [mask.sum()] does. *)
Definition count {A} (f : A -> bool) (l : list A) : Z :=
  Z.of_nat (List.length (filter f l)).

Definition ts_isnull (c : ts_cell) : bool :=
  match c with TsNull => true | _ => false end.

Definition cell_isnull (c : cell) : bool :=
  match c with CNull => true | _ => false end.

Definition float_isnull (c : option Q) : bool :=
  match c with None => true | Some _ => false end.

Definition b2z (b : bool) : Z := if b then 1 else 0.

(** [frame.isnull().sum().sum()]: the null cells, not the rows with one. *)
Definition price_row_nulls (r : PriceRow) : Z :=
  b2z (ts_isnull (p_timestamp r)) + b2z (float_isnull (p_price r))
  + count cell_isnull (p_others r).

Definition rate_row_nulls (r : RateRow) : Z :=
  b2z (ts_isnull (r_timestamp r)) + b2z (float_isnull (r_rate r))
  + count cell_isnull (r_others r).

Definition Zsum (l : list Z) : Z := fold_right Z.add 0 l.

(** [(col < lo) | (col > hi)] on one cell; a comparison with a null is
    false. *)
Definition below (v : Q) (lo : bound) : bool :=
  match lo with
  | NegInf => false
  | Fin q => Qltb v q
  | PosInf => true
  end.

Definition above (v : Q) (hi : bound) : bool :=
  match hi with
  | NegInf => true
  | Fin q => Qltb q v
  | PosInf => false
  end.

Definition is_out_of_range (lo hi : bound) (c : option Q) : bool :=
  match c with
  | None => false
  | Some v => below v lo || above v hi
  end.

(** [frame.duplicated().sum()]: the rows equal to an earlier row. *)
Fixpoint duplicated_from {A} (eqb : A -> A -> bool) (seen : list A)
    (l : list A) : Z :=
  match l with
  | [] => 0
  | x :: t =>
      b2z (existsb (eqb x) seen) + duplicated_from eqb (seen ++ [x]) t
  end.

Definition duplicated {A} (eqb : A -> A -> bool) (l : list A) : Z :=
  duplicated_from eqb [] l.

(** The value of a converted timestamp cell; [None] is [NaT]. *)
Definition stamp (c : ts_cell) : option Z :=
  match c with
  | TsStamp n => Some n
  | _ => None
  end.

(** [sort_values('timestamp')] keeps the nulls last. *)
Definition stamp_leb (a b : option Z) : bool :=
  match a, b with
  | Some x, Some y => (x <=? y)%Z
  | Some _, None => true
  | None, Some _ => false
  | None, None => true
  end.

(** [(col.diff() > pd.Timedelta(max_gap)).sum()] on a sorted column: the
    first difference and any difference with a null are [NaT], which
    compares false. *)
Fixpoint count_gaps (max_gap : Z) (col : list (option Z)) : Z :=
  match col with
  | Some a :: ((Some b :: _) as t) =>
      b2z (max_gap <? b - a)%Z + count_gaps max_gap t
  | _ :: t => count_gaps max_gap t
  | [] => 0
  end.

(** [pd.Timedelta(max_gap)]: the text of the gap is parsed each time the
    loop body runs; [None] is a text that [pd.Timedelta] rejects. *)
Definition Timedelta (max_gap : option Z) : result Z :=
  match max_gap with
  | Some d => Ok d
  | None => Raise (ValueError "invalid unit abbreviation")
  end.

(** One turn of the gap loop on the rows selected for an item or a pair. *)
Definition gaps_of (max_gap : option Z) (stamps : list (option Z)) : result Z :=
  d <- Timedelta max_gap ;;
  Ok (count_gaps d (sort_by stamp_leb stamps)).

Fixpoint price_large_gaps (prices : list PriceRow) (max_gap : option Z)
    (items : list Z) (large_gaps : Z) : result Z :=
  match items with
  | [] => Ok large_gaps
  | item_id :: rest =>
      let item_prices := filter (fun r => (p_item_id r =? item_id)%Z) prices in
      g <- gaps_of max_gap (map (fun r => stamp (p_timestamp r)) item_prices) ;;
      price_large_gaps prices max_gap rest (large_gaps + g)
  end.

(** The dictionary that the price and rate validators return. *)
Record report : Type := mkReport {
  total_records : Z;
  valid_records : Z;
  invalid_records : Z;
  missing_values : Z;
  out_of_range : Z;
  large_gaps : Z;
  duplicates : Z;
  validation_passed : bool
}.

(** The counts of a report from the parts computed by a validator. *)
Definition make_report (total missing oor gaps dups : Z) : report :=
  let valid := total - missing - oor - dups in
  let invalid := total - valid in
  mkReport total valid invalid missing oor gaps dups
    ((0 <? valid)%Z && (invalid =? 0)%Z).

(** [validate_price_data].  The result is the dictionary ([None] for the
    empty one of the [except] branch) and the frame of the caller as the
    call leaves it. *)
Definition validate_price_data (prices : list PriceRow)
    (min_price max_price : bound) (max_gap : option Z)
    : option report * list PriceRow :=
  match to_datetime (map p_timestamp prices) with
  | Raise _ => (None, prices)
  | Ok col =>
      let prices := assign_p_timestamp prices col in
      let total := Z.of_nat (List.length prices) in
      let missing := Zsum (map price_row_nulls prices) in
      let oor := count (fun r => is_out_of_range min_price max_price (p_price r)) prices in
      let dups := duplicated price_row_eqb prices in
      match price_large_gaps prices max_gap (unique (map p_item_id prices)) 0 with
      | Raise _ => (None, prices)
      | Ok gaps => (Some (make_report total missing oor gaps dups), prices)
      end
  end.

(** The gap loop of [validate_exchange_rate_data]: every source against
    every target; a pair without rows is skipped before the gap text is
    parsed. *)
Definition pair_rows (rates : list RateRow) (source_id target_id : Z)
    : list RateRow :=
  filter (fun r => (r_source_item_id r =? source_id)
                   && (r_target_item_id r =? target_id)) rates.

Fixpoint rate_gaps_targets (rates : list RateRow) (max_gap : option Z)
    (source_id : Z) (targets : list Z) (large_gaps : Z) : result Z :=
  match targets with
  | [] => Ok large_gaps
  | target_id :: rest =>
      match pair_rows rates source_id target_id with
      | [] => rate_gaps_targets rates max_gap source_id rest large_gaps
      | pair_rates =>
          g <- gaps_of max_gap (map (fun r => stamp (r_timestamp r)) pair_rates) ;;
          rate_gaps_targets rates max_gap source_id rest (large_gaps + g)
      end
  end.

Fixpoint rate_large_gaps (rates : list RateRow) (max_gap : option Z)
    (sources targets : list Z) (large_gaps : Z) : result Z :=
  match sources with
  | [] => Ok large_gaps
  | source_id :: rest =>
      g <- rate_gaps_targets rates max_gap source_id targets large_gaps ;;
      rate_large_gaps rates max_gap rest targets g
  end.

(** [validate_exchange_rate_data]. *)
Definition validate_exchange_rate_data (rates : list RateRow)
    (min_rate max_rate : bound) (max_gap : option Z)
    : option report * list RateRow :=
  match to_datetime (map r_timestamp rates) with
  | Raise _ => (None, rates)
  | Ok col =>
      let rates := assign_r_timestamp rates col in
      let total := Z.of_nat (List.length rates) in
      let missing := Zsum (map rate_row_nulls rates) in
      let oor := count (fun r => is_out_of_range min_rate max_rate (r_rate r)) rates in
      let dups := duplicated rate_row_eqb rates in
      match rate_large_gaps rates max_gap
              (unique (map r_source_item_id rates))
              (unique (map r_target_item_id rates)) 0 with
      | Raise _ => (None, rates)
      | Ok gaps => (Some (make_report total missing oor gaps dups), rates)
      end
  end.

(** The dictionary of [validate_data_consistency]. *)
Record consistency_report : Type := mkConsistencyReport {
  total_items : Z;
  total_rate_pairs : Z;
  missing_items : Z;
  inconsistent_rates : Z;
  consistency_passed : bool
}.

(** [a.union(b)] on sets kept as lists without repetition. *)
Definition union (a b : list Z) : list Z :=
  a ++ filter (fun x => negb (existsb (Z.eqb x) a)) b.

(** The distinct (source, target) pairs: the groups of
    [rates.groupby(['source_item_id', 'target_item_id'])]. *)
Fixpoint unique_pairs_from (seen : list (Z * Z)) (l : list (Z * Z))
    : list (Z * Z) :=
  match l with
  | [] => []
  | x :: t =>
      if existsb (fun y => (fst x =? fst y) && (snd x =? snd y)) seen
      then unique_pairs_from seen t
      else x :: unique_pairs_from (x :: seen) t
  end.

Definition rate_pairs (rates : list RateRow) : list (Z * Z) :=
  unique_pairs_from []
    (map (fun r => (r_source_item_id r, r_target_item_id r)) rates).

(** [abs(direct['rate'] * reverse['rate'] - 1.0) > 0.01] on floats: the
    product and the difference are rounded, [0.01] is the float nearest
    to one hundredth, and the comparison is false when a rate is a
    NaN. *)
Definition tolerance : Float64.float := Float64.round (1 # 100).

Definition off_tolerance (d r : Q) : bool :=
  Float64.ltb tolerance
    (Float64.abs
       (Float64.sub (Float64.mul (Float64.round d) (Float64.round r))
                    (Float64.Num 1))).

Definition inconsistent (direct reverse : RateRow) : bool :=
  match r_rate direct, r_rate reverse with
  | Some d, Some r => off_tolerance d r
  | _, _ => false
  end.

(** The two innermost loops: every direct row against every reverse row. *)
Definition count_inconsistent (direct_rates reverse_rates : list RateRow) : Z :=
  Zsum (map (fun direct => count (inconsistent direct) reverse_rates)
            direct_rates).

Definition consistency_pair (rates : list RateRow) (source_id target_id : Z)
    : Z :=
  match pair_rows rates source_id target_id with
  | [] => 0
  | direct_rates =>
      match pair_rows rates target_id source_id with
      | [] => 0
      | reverse_rates => count_inconsistent direct_rates reverse_rates
      end
  end.

Definition consistency_loop (rates : list RateRow) (sources targets : list Z)
    : Z :=
  Zsum (map (fun source_id =>
               Zsum (map (consistency_pair rates source_id) targets))
            sources).

(** [validate_data_consistency], with the two frames as the call leaves
    them: it assigns to neither. *)
Definition validate_data_consistency (prices : list PriceRow)
    (rates : list RateRow)
    : option consistency_report * list PriceRow * list RateRow :=
  let price_items := unique (map p_item_id prices) in
  let rate_source_items := unique (map r_source_item_id rates) in
  let rate_target_items := unique (map r_target_item_id rates) in
  let all_items := union (union price_items rate_source_items) rate_target_items in
  let missing := Z.of_nat (List.length all_items) - Z.of_nat (List.length price_items) in
  let inconsistent_rates := consistency_loop rates rate_source_items rate_target_items in
  (Some (mkConsistencyReport
           (Z.of_nat (List.length price_items))
           (Z.of_nat (List.length (rate_pairs rates)))
           missing
           inconsistent_rates
           ((missing =? 0) && (inconsistent_rates =? 0))),
   prices, rates).

(** The dictionary of [validate_data_completeness]. *)
Record completeness_report : Type := mkCompletenessReport {
  total_periods : Z;
  missing_price_periods : Z;
  missing_rate_periods : Z;
  completeness_passed : bool
}.

(** [pd.date_range(start, end, freq)] for a frequency that is a fixed
    step: the instants [start + k * freq] up to [end_date]; [None] is a
    frequency text that pandas rejects. *)
Definition date_range (start_date end_date : Z) (frequency : option positive)
    : result (list Z) :=
  match frequency with
  | None => Raise (ValueError "invalid frequency")
  | Some step =>
      Ok (map (fun k => start_date + Z.of_nat k * Z.pos step)
              (seq 0 (Z.to_nat ((end_date - start_date) / Z.pos step + 1))))
  end.

(** [len(set(date_range) - dates)]. *)
Definition missing_dates (range : list Z) (dates : list (option Z)) : Z :=
  count (fun d => negb (existsb (fun c => match c with
                                          | Some x => x =? d
                                          | None => false
                                          end) dates)) range.

Definition missing_price_loop (prices : list PriceRow) (range : list Z)
    (items : list Z) : Z :=
  Zsum (map (fun item_id =>
               missing_dates range
                 (map (fun r => stamp (p_timestamp r))
                      (filter (fun r => p_item_id r =? item_id) prices)))
            items).

Definition missing_rate_loop (rates : list RateRow) (range : list Z)
    (sources targets : list Z) : Z :=
  Zsum (map (fun source_id =>
               Zsum (map (fun target_id =>
                            missing_dates range
                              (map (fun r => stamp (r_timestamp r))
                                   (pair_rows rates source_id target_id)))
                         targets))
            sources).

(** [validate_data_completeness], with the two frames as the call leaves
    them. *)
Definition validate_data_completeness (prices : list PriceRow)
    (rates : list RateRow) (start_date end_date : Z)
    (frequency : option positive)
    : option completeness_report * list PriceRow * list RateRow :=
  match to_datetime (map p_timestamp prices) with
  | Raise _ => (None, prices, rates)
  | Ok pcol =>
      let prices := assign_p_timestamp prices pcol in
      match to_datetime (map r_timestamp rates) with
      | Raise _ => (None, prices, rates)
      | Ok rcol =>
          let rates := assign_r_timestamp rates rcol in
          match date_range start_date end_date frequency with
          | Raise _ => (None, prices, rates)
          | Ok range =>
              let mp := missing_price_loop prices range
                          (unique (map p_item_id prices)) in
              let mr := missing_rate_loop rates range
                          (unique (map r_source_item_id rates))
                          (unique (map r_target_item_id rates)) in
              (Some (mkCompletenessReport
                       (Z.of_nat (List.length range)) mp mr
                       ((mp =? 0) && (mr =? 0))),
               prices, rates)
          end
      end
  end.

End Validate.

(** ** models/graph_structure.py *)

Module Graph.

(** *** Floats that can be non-finite

    The volatility of a node is computed by [pandas] on floats and can be
    a NaN or an infinity. *)
Inductive fval : Type :=
| FNaN
| FPosInf
| FNegInf
| FNum (r : R).

Definition Rsum (l : list R) : R := fold_right Rplus 0%R l.

(** [pd.Series(l).mean()]. *)
Definition mean (l : list Q) : fval :=
  match l with
  | [] => FNaN
  | _ :: _ => FNum (Rsum (map Q2R l) / INR (List.length l))%R
  end.

(** [pd.Series(l).std()]: the sample standard deviation (one degree of
    freedom removed), a NaN for fewer than two values. *)
Definition std (l : list Q) : fval :=
  match l with
  | [] | [_] => FNaN
  | _ :: _ :: _ =>
      let m := (Rsum (map Q2R l) / INR (List.length l))%R in
      FNum (sqrt (Rsum (map (fun x => (Q2R x - m) * (Q2R x - m)) l)
                  / INR (List.length l - 1)))%R
  end.

(** Division of floats: a NaN operand gives a NaN, a zero divisor gives an
    infinity (or a NaN under a zero).  Infinite operands do not arise from
    [std] and [mean] and give a NaN here. *)
Definition fdiv (a b : fval) : fval :=
  match a, b with
  | FNum x, FNum y =>
      if Req_dec_T y 0 then
        if Req_dec_T x 0 then FNaN
        else if Rlt_dec 0 x then FPosInf else FNegInf
      else FNum (x / y)%R
  | _, _ => FNaN
  end.

(** *** The graph *)

(** A node is the string ['SVU'] or the integer identifier of an item. *)
Inductive node : Type :=
| SVU
| Item (id : Z).

Definition node_eqb (a b : node) : bool :=
  match a, b with
  | SVU, SVU => true
  | Item x, Item y => (x =? y)%Z
  | _, _ => false
  end.

(** The [type] attribute of an edge. *)
Inductive edge_type : Type := price_edge | exchange_rate_edge.

(** The attributes that [build_graph] writes on every edge. *)
Record edge_attrs : Type := mkEdge {
  weight : Q;
  timestamp : Z;
  source : string;
  confidence : Q;
  type : edge_type
}.

(** The attributes of a node: those of the item when the node was added
    for one, and those that [_compute_node_attributes] writes. *)
Record node_attrs : Type := mkNode {
  name : option string;
  symbol : option string;
  item_type : option string;
  volatility : option fval;
  in_degree : option nat;
  out_degree : option nat
}.

Definition no_attrs : node_attrs := mkNode None None None None None None.

(** [nx.DiGraph]: the nodes and the edges in insertion order; there is one
    attribute dictionary per node and one per ordered pair of nodes. *)
Record DiGraph : Type := mkDiGraph {
  nodes : list (node * node_attrs);
  edges : list (node * node * edge_attrs)
}.

Definition empty_graph : DiGraph := mkDiGraph [] [].

Definition has_node (g : DiGraph) (n : node) : bool :=
  existsb (fun x => node_eqb (fst x) n) (nodes g).

Definition edge_is (u v : node) (e : node * node * edge_attrs) : bool :=
  node_eqb (fst (fst e)) u && node_eqb (snd (fst e)) v.

Definition has_edge (g : DiGraph) (u v : node) : bool :=
  existsb (edge_is u v) (edges g).

(** [G.edges[u, v]]. *)
Definition get_edge (g : DiGraph) (u v : node) : option edge_attrs :=
  option_map snd (find (edge_is u v) (edges g)).

(** [G.nodes[n]]. *)
Definition get_node (g : DiGraph) (n : node) : option node_attrs :=
  option_map snd (find (fun x => node_eqb (fst x) n) (nodes g)).

(** Updating the attribute dictionary of a node that is in the graph. *)
Definition update_node (n : node) (f : node_attrs -> node_attrs)
    (l : list (node * node_attrs)) : list (node * node_attrs) :=
  map (fun x => if node_eqb (fst x) n then (fst x, f (snd x)) else x) l.

(** [G.add_node(n, name=..., symbol=..., type=...)]. *)
Definition add_node (g : DiGraph) (n : node) (nm sy ty : string) : DiGraph :=
  let set a := mkNode (Some nm) (Some sy) (Some ty)
                 (volatility a) (in_degree a) (out_degree a) in
  if has_node g n
  then mkDiGraph (update_node n set (nodes g)) (edges g)
  else mkDiGraph (nodes g ++ [(n, set no_attrs)]) (edges g).

(** A node that [add_edge] meets for the first time is added bare. *)
Definition touch_node (g : DiGraph) (n : node) : DiGraph :=
  if has_node g n then g
  else mkDiGraph (nodes g ++ [(n, no_attrs)]) (edges g).

(** [G.add_edge(u, v, weight=..., timestamp=..., source=...,
    confidence=..., type=...)]: on a pair that has an edge already the
    attributes are written over the old ones. *)
Definition add_edge (g : DiGraph) (u v : node) (a : edge_attrs) : DiGraph :=
  let g := touch_node (touch_node g u) v in
  if has_edge g u v
  then mkDiGraph (nodes g)
         (map (fun e => if edge_is u v e then (u, v, a) else e) (edges g))
  else mkDiGraph (nodes g) (edges g ++ [(u, v, a)]).

(** [G.in_edges(n, data=True)] and [G.out_edges(n, data=True)]: tuples
    [(u, v, data)]. *)
Definition in_edges (g : DiGraph) (n : node) : list (node * node * edge_attrs) :=
  filter (fun e => node_eqb (snd (fst e)) n) (edges g).

Definition out_edges (g : DiGraph) (n : node) : list (node * node * edge_attrs) :=
  filter (fun e => node_eqb (fst (fst e)) n) (edges g).

(** *** The database rows that [build_graph] reads *)

Record ItemRow : Type := mkItem {
  i_id : Z;
  i_name : string;
  i_symbol : string;
  i_type : string
}.

Record PriceRow : Type := mkPrice {
  p_item_id : Z;
  p_price : Q;
  p_timestamp : Z;
  p_source : string;
  p_confidence : option Q
}.

Record ExchangeRateRow : Type := mkRate {
  r_source_item_id : Z;
  r_target_item_id : Z;
  r_rate : Q;
  r_timestamp : Z;
  r_source : string;
  r_confidence : option Q
}.

Record Session : Type := mkSession {
  items : list ItemRow;
  prices : list PriceRow;
  rates : list ExchangeRateRow
}.

(** [class ValueGraph]: the session, the graph and the time stamp. *)
Record ValueGraph : Type := mkValueGraph {
  db : Session;
  graph : DiGraph;
  vg_timestamp : option Z
}.

(** [__init__]. *)
Definition init (db_session : Session) : ValueGraph :=
  mkValueGraph db_session empty_graph None.

(** The filter of the two queries: [timestamp.between(start_date,
    end_date)] and [confidence >= min_confidence]; a null confidence
    fails the comparison. *)
Definition qualifies (start_date end_date : Z) (min_confidence : Q)
    (ts : Z) (conf : option Q) : bool :=
  (start_date <=? ts)%Z && (ts <=? end_date)%Z
  && match conf with
     | Some c => Qle_bool min_confidence c
     | None => false
     end.

Definition conf_of (c : option Q) : Q :=
  match c with Some q => q | None => 0%Q end.

(** The call of [add_edge] for a price and for a rate. *)
Definition add_price_edge (g : DiGraph) (p : PriceRow) : DiGraph :=
  add_edge g SVU (Item (p_item_id p))
    (mkEdge (p_price p) (p_timestamp p) (p_source p)
            (conf_of (p_confidence p)) price_edge).

Definition add_rate_edge (g : DiGraph) (r : ExchangeRateRow) : DiGraph :=
  add_edge g (Item (r_source_item_id r)) (Item (r_target_item_id r))
    (mkEdge (r_rate r) (r_timestamp r) (r_source r)
            (conf_of (r_confidence r)) exchange_rate_edge).

(** [edge['weight']] where [edge] is a tuple [(u, v, data)]: a tuple is
    not indexed by a string. *)
Definition tuple_getitem (edge : node * node * edge_attrs) (k : string)
    : result Q :=
  Raise TypeError.

Fixpoint map_result {A B} (f : A -> result B) (l : list A) : result (list B) :=
  match l with
  | [] => Ok []
  | x :: t =>
      y <- f x ;;
      t' <- map_result f t ;;
      Ok (y :: t')
  end.

(** [if prices: volatility = pd.Series(prices).std() /
    pd.Series(prices).mean() else: volatility = 0.0]. *)
Definition volatility_of (prices : list Q) : fval :=
  match prices with
  | [] => FNum 0
  | _ :: _ => fdiv (std prices) (mean prices)
  end.

(** The body of the loop of [_compute_node_attributes] for one node. *)
Definition node_attributes_step (g : DiGraph) (n : node) : result DiGraph :=
  let ins := in_edges g n in
  let outs := out_edges g n in
  ps <- map_result (fun edge => tuple_getitem edge "weight") (ins ++ outs) ;;
  let vol := volatility_of ps in
  Ok (mkDiGraph
        (update_node n
           (fun a => mkNode (name a) (symbol a) (item_type a) (Some vol)
                       (Some (List.length ins)) (Some (List.length outs)))
           (nodes g))
        (edges g)).

(** [_compute_node_attributes]: the exception of a step is logged and
    raised again; the graph keeps what the steps before it wrote. *)
Fixpoint node_attributes_loop (todo : list node) (g : DiGraph)
    : result unit * DiGraph :=
  match todo with
  | [] => (Ok tt, g)
  | n :: rest =>
      match node_attributes_step g n with
      | Ok g' => node_attributes_loop rest g'
      | Raise e => (Raise e, g)
      end
  end.

Definition compute_node_attributes (g : DiGraph) : result unit * DiGraph :=
  node_attributes_loop (map fst (nodes g)) g.

(** The rows that the two queries of [build_graph] return. *)
Definition qualifying_prices (db_session : Session) (start_date end_date : Z)
    (min_confidence : Q) : list PriceRow :=
  filter (fun p => qualifies start_date end_date min_confidence
                     (p_timestamp p) (p_confidence p))
         (prices db_session).

Definition qualifying_rates (db_session : Session) (start_date end_date : Z)
    (min_confidence : Q) : list ExchangeRateRow :=
  filter (fun r => qualifies start_date end_date min_confidence
                     (r_timestamp r) (r_confidence r))
         (rates db_session).

(** The graph of [build_graph] when the two loops over the observations
    are done. *)
Definition build_edges (db_session : Session) (start_date end_date : Z)
    (min_confidence : Q) : DiGraph :=
  let g := fold_left (fun g item =>
                        add_node g (Item (i_id item)) (i_name item)
                          (i_symbol item) (i_type item))
                     (items db_session) empty_graph in
  let ps := qualifying_prices db_session start_date end_date min_confidence in
  let rs := qualifying_rates db_session start_date end_date min_confidence in
  let g := fold_left add_price_edge ps g in
  fold_left add_rate_edge rs g.

(** [build_graph]: the outcome of the call and the object as the call
    leaves it; an exception is logged and raised again, and leaves the
    graph as it was when it was raised. *)
Definition build_graph (self : ValueGraph) (start_date end_date : Z)
    (min_confidence : Q) : result unit * ValueGraph :=
  let g := build_edges (db self) start_date end_date min_confidence in
  match compute_node_attributes g with
  | (Ok _, g') => (Ok tt, mkValueGraph (db self) g' (Some end_date))
  | (Raise e, g') => (Raise e, mkValueGraph (db self) g' (vg_timestamp self))
  end.

(** *** Shortest paths

    [nx.shortest_path(G, source, target, weight)] with the name of an
    attribute as [weight] is [nx.bidirectional_dijkstra]: Dijkstra's
    algorithm run from [source] along the edges and from [target]
    against them, one turn each, until a node is settled in both
    directions. *)

(** The name of the attribute read as the cost of an edge; the cost is
    [data.get(weight, 1)], so a name that no edge has costs one. *)
Inductive weight_name : Type :=
| by_confidence
| by_weight
| by_absent.

Definition edge_cost (w : weight_name) (e : edge_attrs) : Q :=
  match w with
  | by_confidence => confidence e
  | by_weight => weight e
  | by_absent => 1%Q
  end.

(** The cost as the search computes with it: the float in the
    attribute, or the integer one. *)
Definition read_cost (w : weight_name) (e : edge_attrs) : Float64.float :=
  Float64.round (edge_cost w e).

(** The sum of two distances.  Costs read from an attribute are floats
    and every sum of them is rounded; when no edge has the attribute all
    the costs are the integer one, and Python adds integers exactly. *)
Definition plus (w : weight_name) (a b : Float64.float) : Float64.float :=
  match w, a, b with
  | by_absent, Float64.Num x, Float64.Num y => Float64.Num (Qred (x + y))
  | _, _, _ => Float64.add a b
  end.

(** [n in G]: the nodes of a graph are those added as such and the ends
    of its edges, which [add_edge] adds when they are new. *)
Definition contains (g : DiGraph) (n : node) : bool :=
  has_node g n
  || existsb (fun e => node_eqb (fst (fst e)) n || node_eqb (snd (fst e)) n)
       (edges g).

(** Dictionaries keyed by nodes; the last value written for a key is the
    one that is read. *)
Definition lookup {A} (m : list (node * A)) (k : node) : option A :=
  option_map snd (find (fun x => node_eqb (fst x) k) m).

Definition insert {A} (k : node) (v : A) (m : list (node * A))
    : list (node * A) :=
  (k, v) :: m.

(** An entry of a heap: [(distance, count, node)]. *)
Definition entry : Type := (Float64.float * nat * node)%type.

Definition entry_dist (e : entry) : Float64.float := fst (fst e).
Definition entry_count (e : entry) : nat := snd (fst e).
Definition entry_node (e : entry) : node := snd e.

(** The order of the tuples on a heap: by distance, then by count; the
    counts are all different, so the nodes are never compared. *)
Definition entry_leb (a b : entry) : bool :=
  Float64.ltb (entry_dist a) (entry_dist b)
  || (Float64.eqb (entry_dist a) (entry_dist b)
      && (entry_count a <=? entry_count b)%nat).

(** [heappop]: the least entry and the entries that stay. *)
Fixpoint pop_min (l : list entry) : option (entry * list entry) :=
  match l with
  | [] => None
  | x :: t =>
      match pop_min t with
      | None => Some (x, [])
      | Some (m, r) =>
          if entry_leb x m then Some (x, t) else Some (m, x :: r)
      end
  end.

(** What the search keeps for one direction: [dists[dir]], [seen[dir]],
    [paths[dir]] and [fringe[dir]]. *)
Record side : Type := mkSide {
  dists : list (node * Float64.float);
  seen : list (node * Float64.float);
  paths : list (node * list node);
  fringe : list entry
}.

(** The state of the search: the two directions (index 0 runs from the
    source, index 1 from the target), the counter that numbers the heap
    entries of both, and the best path found so far with its length.
    [finaldist] is not bound before the first path is found. *)
Record bstate : Type := mkB {
  forward : side;
  backward : side;
  counter : nat;
  finaldist : option Float64.float;
  finalpath : list node
}.

(** [dir] is [false] for the direction 0 and [true] for the direction 1. *)
Definition side_of (dir : bool) (st : bstate) : side :=
  if dir then backward st else forward st.

Definition with_side (dir : bool) (sd : side) (st : bstate) : bstate :=
  if dir
  then mkB (forward st) sd (counter st) (finaldist st) (finalpath st)
  else mkB sd (backward st) (counter st) (finaldist st) (finalpath st).

(** [neighs[dir][v].items()]: the successors of [v] in the direction 0
    and its predecessors in the direction 1, each with the data of the
    edge, in the order in which the edges were added. *)
Definition neighbours (g : DiGraph) (dir : bool) (v : node)
    : list (node * edge_attrs) :=
  if dir
  then map (fun e => (fst (fst e), snd e)) (in_edges g v)
  else map (fun e => (snd (fst e), snd e)) (out_edges g v).

(** The test made on a node [x] that has just been reached in one
    direction: when it has been reached in the other one too, the two
    paths to it make a path from the source to the target, which is kept
    if it is the first one or shorter than the one kept so far. *)
Definition meet (w : weight_name) (x : node) (st : bstate) : result bstate :=
  match lookup (seen (forward st)) x, lookup (seen (backward st)) x with
  | Some a, Some b =>
      let totaldist := plus w a b in
      let better :=
        match finalpath st, finaldist st with
        | [], _ | _, None => true
        | _ :: _, Some d => Float64.ltb totaldist d
        end in
      if better then
        match lookup (paths (forward st)) x, lookup (paths (backward st)) x with
        | Some pf, Some pb =>
            Ok (mkB (forward st) (backward st) (counter st)
                    (Some totaldist) (pf ++ tl (rev pb)))
        | _, _ => Raise KeyError
        end
      else Ok st
  | _, _ => Ok st
  end.

(** The loop over the neighbours of [v], the node just settled at
    distance [d] in the direction [dir]. *)
Fixpoint relax (w : weight_name) (dir : bool) (v : node) (d : Float64.float)
    (nbrs : list (node * edge_attrs)) (st : bstate) : result bstate :=
  match nbrs with
  | [] => Ok st
  | (x, e) :: rest =>
      let me := side_of dir st in
      let vwLength := plus w d (read_cost w e) in
      match lookup (dists me) x with
      | Some x_dist =>
          if Float64.ltb vwLength x_dist
          then Raise (ValueError "Contradictory paths found: negative weights?")
          else relax w dir v d rest st
      | None =>
          let better :=
            match lookup (seen me) x with
            | None => true
            | Some x_seen => Float64.ltb vwLength x_seen
            end in
          if better then
            match lookup (paths me) v with
            | None => Raise KeyError
            | Some pv =>
                let me' :=
                  mkSide (dists me)
                         (insert x vwLength (seen me))
                         (insert x (pv ++ [x]) (paths me))
                         ((vwLength, counter st, x) :: fringe me) in
                match meet w x
                        (with_side dir me'
                           (mkB (forward st) (backward st) (S (counter st))
                                (finaldist st) (finalpath st))) with
                | Raise err => Raise err
                | Ok st' => relax w dir v d rest st'
                end
            end
          else relax w dir v d rest st
      end
  end.

Definition is_empty {A} (l : list A) : bool :=
  match l with
  | [] => true
  | _ :: _ => false
  end.

(** The [while fringe[0] and fringe[1]:] loop; [dir] is the direction of
    the turn before.  [None] says that the bound on the number of turns
    was reached; the bound used below is never reached.  Inside the loop
    both heaps hold an entry, so that [pop_min] returns one. *)
Fixpoint search (turns : nat) (g : DiGraph) (w : weight_name) (dir : bool)
    (st : bstate) : option (result (list node)) :=
  match turns with
  | O => None
  | S turns' =>
      if is_empty (fringe (forward st)) || is_empty (fringe (backward st))
      then Some (Raise NetworkXNoPath)
      else
        let dir := negb dir in
        match pop_min (fringe (side_of dir st)) with
        | None => Some (Raise NetworkXNoPath)
        | Some ((d, _, v), rest) =>
            let me := side_of dir st in
            let st := with_side dir
                        (mkSide (dists me) (seen me) (paths me) rest) st in
            match lookup (dists me) v with
            | Some _ => search turns' g w dir st
            | None =>
                let st := with_side dir
                            (mkSide (insert v d (dists me)) (seen me)
                                    (paths me) rest) st in
                match lookup (dists (side_of (negb dir) st)) v with
                | Some _ => Some (Ok (finalpath st))
                | None =>
                    match relax w dir v d (neighbours g dir v) st with
                    | Raise e => Some (Raise e)
                    | Ok st' => search turns' g w dir st'
                    end
                end
            end
        end
  end.

Definition initial_state (source_id target_id : node) : bstate :=
  mkB (mkSide [] [(source_id, Float64.Num 0)] [(source_id, [source_id])]
              [(Float64.Num 0, 0%nat, source_id)])
      (mkSide [] [(target_id, Float64.Num 0)] [(target_id, [target_id])]
              [(Float64.Num 0, 1%nat, target_id)])
      2 None [].

(** Every turn takes an entry off a heap, and an entry is put on a heap
    at most once per edge and direction after the first two. *)
Definition turns_bound (g : DiGraph) : nat :=
  S (S (S (2 * List.length (edges g)))).

(** [nx.shortest_path(G, source, target, weight)]: the two nodes have to
    be in the graph; the search starts with direction 1 as the direction
    of the turn before, so that its first turn is made from the source. *)
Definition shortest_path (g : DiGraph) (source_id target_id : node)
    (w : weight_name) : option (result (list node)) :=
  if negb (contains g source_id) then Some (Raise NodeNotFound)
  else if negb (contains g target_id) then Some (Raise NodeNotFound)
  else if node_eqb source_id target_id then Some (Ok [source_id])
  else search (turns_bound g) g w true (initial_state source_id target_id).

(** [get_shortest_path]: the weight defaults to ['confidence']; only the
    exception for a missing path is caught, and turned into an empty
    list. *)
Definition get_shortest_path (self : ValueGraph) (source_id target_id : node)
    (weight : option weight_name) : option (result (list node)) :=
  let weight := match weight with
                | Some w => w
                | None => by_confidence
                end in
  match shortest_path (graph self) source_id target_id weight with
  | None => None
  | Some (Ok path) => Some (Ok path)
  | Some (Raise NetworkXNoPath) => Some (Ok [])
  | Some (Raise e) => Some (Raise e)
  end.

(** [get_node_attributes]: [self.graph.nodes[node_id]], a [KeyError] for
    a node that the graph does not have. *)
Definition get_node_attributes (self : ValueGraph) (node_id : node)
    : result node_attrs :=
  match get_node (graph self) node_id with
  | Some a => Ok a
  | None => Raise KeyError
  end.

(** [get_edge_attributes]: [self.graph.edges[source_id, target_id]]. *)
Definition get_edge_attributes (self : ValueGraph) (source_id target_id : node)
    : result edge_attrs :=
  match get_edge (graph self) source_id target_id with
  | Some a => Ok a
  | None => Raise KeyError
  end.

(** [vol >= threshold] and [a < b] on floats: every comparison with a
    NaN is false. *)
Definition fge (v : fval) (threshold : R) : bool :=
  match v with
  | FNum r => if Rle_dec threshold r then true else false
  | FPosInf => true
  | FNegInf | FNaN => false
  end.

Definition flt (a b : fval) : bool :=
  match a, b with
  | FNum x, FNum y => if Rlt_dec x y then true else false
  | FNum _, FPosInf | FNegInf, FNum _ | FNegInf, FPosInf => true
  | _, _ => false
  end.

(** [l[:top_n]]: a negative bound counts from the end. *)
Definition slice_to {A} (top_n : Z) (l : list A) : list A :=
  if (0 <=? top_n)%Z then firstn (Z.to_nat top_n) l
  else firstn (List.length l - Z.to_nat (- top_n)) l.

(** [(node, self.graph.nodes[node]['volatility'])]. *)
Definition volatility_item (g : DiGraph) (n : node) : result (node * fval) :=
  match get_node g n with
  | Some a =>
      match volatility a with
      | Some v => Ok (n, v)
      | None => Raise KeyError
      end
  | None => Raise KeyError
  end.

(** [list.sort(key=..., reverse=True)]: by falling key, the entries with
    the same key in the order they had. *)
Definition sort_by_volatility (l : list (node * fval)) : list (node * fval) :=
  sort_by (fun a b => negb (flt (snd a) (snd b))) l.

(** [get_volatile_nodes]: any exception is logged and an empty list
    returned. *)
Definition get_volatile_nodes (self : ValueGraph) (threshold : R)
    (top_n : Z) : list (node * fval) :=
  match map_result (volatility_item (graph self))
          (map fst (nodes (graph self))) with
  | Raise _ => []
  | Ok volatilities =>
      let volatile_nodes :=
        filter (fun x => fge (snd x) threshold) volatilities in
      slice_to top_n (sort_by_volatility volatile_nodes)
  end.

End Graph.

(** * Properties *)

(** ** Comparisons of rationals *)

Lemma Qltb_lt (x y : Q) : Qltb x y = true <-> (x < y)%Q.
Proof.
  unfold Qltb. rewrite negb_true_iff. split; intro H.
  - apply Qnot_le_lt. intro L. apply Qle_bool_iff in L. congruence.
  - destruct (Qle_bool y x) eqn:E; [|reflexivity].
    apply Qle_bool_iff in E. exfalso. apply (Qlt_not_le _ _ H E).
Qed.

Lemma Qltb_false (x y : Q) : Qltb x y = false <-> (y <= x)%Q.
Proof.
  unfold Qltb. rewrite negb_false_iff. apply Qle_bool_iff.
Qed.

(** ** Floats *)

Module Float64Facts.
Import Float64.

Lemma pow2_pos (e : Z) : 0 < pow2 e.
Proof. unfold pow2. apply Qpower_0_lt. reflexivity. Qed.

Lemma pow2_add (a b : Z) : pow2 (a + b) == pow2 a * pow2 b.
Proof. unfold pow2. apply Qpower_plus. discriminate. Qed.

Lemma pow2_sub (a b : Z) : pow2 (a - b) == pow2 a / pow2 b.
Proof. unfold pow2. apply Qpower_minus. discriminate. Qed.

Lemma pow2_le (a b : Z) : (a <= b)%Z -> pow2 a <= pow2 b.
Proof. intro H. unfold pow2. apply Qpower_le_compat_l; [exact H|discriminate]. Qed.

Lemma pow2_lt (a b : Z) : (a < b)%Z -> pow2 a < pow2 b.
Proof. intro H. unfold pow2. apply Qpower_lt_compat_l; [exact H|reflexivity]. Qed.

Lemma pow2_lt_inv (a b : Z) : pow2 a < pow2 b -> (a < b)%Z.
Proof. intro H. unfold pow2 in H. apply (Qpower_lt_compat_l_inv 2); [exact H|reflexivity]. Qed.

Lemma pow2_Z (n : Z) : (0 <= n)%Z -> pow2 n == inject_Z (2 ^ n).
Proof. intro H. unfold pow2. symmetry. apply (Zpower_Qpower 2 n H). Qed.

Lemma pow2_succ (a : Z) : pow2 (a + 1) == 2 * pow2 a.
Proof. rewrite pow2_add. unfold pow2 at 2. simpl. ring. Qed.


Lemma Qdiv_Z (n d : Z) :
  (0 < d)%Z -> inject_Z n / inject_Z d == n # Z.to_pos d.
Proof.
  intro H. rewrite (Qmake_Qdiv n (Z.to_pos d)), Z2Pos.id by exact H.
  reflexivity.
Qed.

Lemma pow2_quot (a b : Z) :
  (0 <= a)%Z -> (0 <= b)%Z ->
  pow2 (a - b) == (2 ^ a)%Z # Z.to_pos (2 ^ b).
Proof.
  intros Ha Hb. rewrite pow2_sub, (pow2_Z a Ha), (pow2_Z b Hb).
  apply Qdiv_Z. apply Z.pow_pos_nonneg; lia.
Qed.

Lemma ilog2_spec (x : Q) :
  0 < x -> pow2 (ilog2 x) <= x /\ x < pow2 (ilog2 x + 1).
Proof.
  destruct x as [p q]. intro Hx.
  assert (Hp : (0 < p)%Z) by (unfold Qlt in Hx; simpl in Hx; lia).
  unfold ilog2. cbn [Qnum Qden].
  set (a := Z.log2 p). set (b := Z.log2 (Z.pos q)).
  assert (Ha : (0 <= a)%Z) by apply Z.log2_nonneg.
  assert (Hb : (0 <= b)%Z) by apply Z.log2_nonneg.
  destruct (Z.log2_spec p Hp) as [Ha1 Ha2]. fold a in Ha1, Ha2.
  destruct (Z.log2_spec (Z.pos q) (Pos2Z.is_pos q)) as [Hb1 Hb2].
  fold b in Hb1, Hb2.
  rewrite Z.pow_succ_r in Ha2, Hb2 by assumption.
  assert (HA : (0 < 2 ^ a)%Z) by (apply Z.pow_pos_nonneg; lia).
  assert (HB : (0 < 2 ^ b)%Z) by (apply Z.pow_pos_nonneg; lia).
  pose proof (pow2_quot a b Ha Hb) as Hq.
  assert (HBp : Z.pos (Z.to_pos (2 ^ b)) = (2 ^ b)%Z)
    by (apply Z2Pos.id; exact HB).
  destruct (p * 2 ^ b <? Z.pos q * 2 ^ a)%Z eqn:E.
  - apply Z.ltb_lt in E. split.
    + replace (a - b - 1)%Z with ((a - b) - 1)%Z by lia.
      rewrite pow2_sub, Hq. unfold pow2. simpl (2 ^ 1)%Q.
      unfold Qle, Qdiv, Qmult, Qinv. simpl. rewrite Pos2Z.inj_mul, HBp.
      assert (2 ^ a * Z.pos q <= 2 ^ a * (2 * 2 ^ b))%Z
        by (apply Z.mul_le_mono_nonneg_l; lia).
      assert (2 ^ a * (2 * 2 ^ b) <= p * (2 * 2 ^ b))%Z
        by (apply Z.mul_le_mono_nonneg_r; lia).
      lia.
    + replace (a - b - 1 + 1)%Z with (a - b)%Z by lia.
      rewrite Hq. unfold Qlt. simpl. rewrite HBp. lia.
  - apply Z.ltb_ge in E. split.
    + rewrite Hq. unfold Qle. simpl. rewrite HBp. lia.
    + rewrite pow2_succ, Hq. unfold Qlt, Qmult. cbn [Qnum Qden].
      rewrite Pos.mul_1_l, HBp.
      assert (p * 2 ^ b <= p * Z.pos q)%Z
        by (apply Z.mul_le_mono_nonneg_l; lia).
      assert (p * Z.pos q < (2 * 2 ^ a) * Z.pos q)%Z
        by (apply Z.mul_lt_mono_pos_r; lia).
      lia.
Qed.


(** *** Rounding to the nearest integer *)

Lemma rne_bounds (m : Q) : (Qfloor m <= rne m <= Qfloor m + 1)%Z.
Proof.
  unfold rne. destruct (m - inject_Z (Qfloor m) ?= 1 # 2);
    [destruct (Z.even (Qfloor m))| |]; lia.
Qed.

Lemma rne_Z (m : Q) (k : Z) : m == inject_Z k -> rne m = k.
Proof.
  intro H. unfold rne.
  assert (F : Qfloor m = k) by (rewrite H; apply Qfloor_Z).
  rewrite F.
  assert (E : (m - inject_Z k ?= 1 # 2) = Lt).
  { apply (proj1 (Qlt_alt _ _)). rewrite H.
    setoid_replace (inject_Z k - inject_Z k) with 0 by ring. reflexivity. }
  rewrite E. reflexivity.
Qed.

Lemma Qfloor_nonneg (m : Q) : 0 <= m -> (0 <= Qfloor m)%Z.
Proof. intro H. apply (Qfloor_resp_le 0 m H). Qed.

Lemma Qfloor_lt (m : Q) (k : Z) : m < inject_Z k -> (Qfloor m < k)%Z.
Proof.
  intro H. rewrite Zlt_Qlt. apply Qle_lt_trans with m; [apply Qfloor_le|exact H].
Qed.

Lemma Qfloor_ge (m : Q) (k : Z) : inject_Z k <= m -> (k <= Qfloor m)%Z.
Proof.
  intro H. rewrite <- (Qfloor_Z k). apply Qfloor_resp_le. exact H.
Qed.

(** *** The scale of a positive number *)

Definition scale (x : Q) : Z := Z.max (-1022) (ilog2 x).

Definition ulp (x : Q) : Q := pow2 (scale x - 52).

Lemma ulp_pos (x : Q) : 0 < ulp x.
Proof. apply pow2_pos. Qed.

Lemma scale_ge (x : Q) : (-1022 <= scale x)%Z.
Proof. unfold scale. lia. Qed.

Lemma scaled_nonneg (x : Q) : 0 < x -> 0 <= x / ulp x.
Proof.
  intro H. apply Qle_shift_div_l; [apply ulp_pos|].
  rewrite Qmult_0_l. apply Qlt_le_weak. exact H.
Qed.

Lemma scaled_lt (x : Q) : 0 < x -> x / ulp x < inject_Z (2 ^ 53).
Proof.
  intro H. apply Qlt_shift_div_r; [apply ulp_pos|].
  rewrite <- (pow2_Z 53) by lia. unfold ulp. rewrite <- pow2_add.
  apply Qlt_le_trans with (pow2 (ilog2 x + 1)).
  - apply (ilog2_spec x H).
  - apply pow2_le. unfold scale. lia.
Qed.

Lemma scaled_ge (x : Q) :
  0 < x -> scale x = ilog2 x -> inject_Z (2 ^ 52) <= x / ulp x.
Proof.
  intros H E. apply Qle_shift_div_l; [apply ulp_pos|].
  rewrite <- (pow2_Z 52) by lia. unfold ulp. rewrite <- pow2_add.
  replace (52 + (scale x - 52))%Z with (ilog2 x) by lia.
  apply (ilog2_spec x H).
Qed.

Lemma round_pos_unfold (x : Q) :
  round_pos x
  = let y := Qred (inject_Z (rne (x / ulp x)) * ulp x) in
    if Qle_bool (pow2 1024) y then Inf false else Num y.
Proof. reflexivity. Qed.


(** *** The numbers that a binary64 holds *)

(** The non-negative finite values: [k * 2 ^ (e - 52)] with a mantissa
    [k] of at most 53 bits and an exponent [e] from -1022 to 1023. *)
Definition rep (y : Q) : Prop :=
  exists k e : Z,
    y == inject_Z k * pow2 (e - 52)
    /\ (0 <= k < 2 ^ 53)%Z /\ (-1022 <= e <= 1023)%Z.

Lemma rep_nonneg (y : Q) : rep y -> 0 <= y.
Proof.
  intros (k & e & Hy & Hk & _). rewrite Hy.
  apply Qmult_le_0_compat.
  - unfold Qle. simpl. lia.
  - apply Qlt_le_weak. apply pow2_pos.
Qed.

Lemma rep_below (y : Q) (k e : Z) :
  y == inject_Z k * pow2 (e - 52) -> (k < 2 ^ 53)%Z -> y < pow2 (e + 1).
Proof.
  intros Hy Hk. rewrite Hy.
  replace (e + 1)%Z with (53 + (e - 52))%Z by lia.
  rewrite pow2_add, (pow2_Z 53) by lia.
  apply Qmult_lt_compat_r; [apply pow2_pos|].
  rewrite <- Zlt_Qlt. exact Hk.
Qed.

Lemma rep_zero : rep 0.
Proof.
  exists 0%Z, 0%Z. split; [ring|]. split; lia.
Qed.

Lemma round_pos_cases (x : Q) :
  (round_pos x = Inf false
   /\ pow2 1024 <= inject_Z (rne (x / ulp x)) * ulp x)
  \/ exists y, round_pos x = Num y
               /\ y == inject_Z (rne (x / ulp x)) * ulp x
               /\ y < pow2 1024.
Proof.
  rewrite round_pos_unfold. cbv zeta.
  destruct (Qle_bool _ _) eqn:E.
  - left. split; [reflexivity|]. apply Qle_bool_iff in E.
    rewrite Qred_correct in E. exact E.
  - right. eexists. split; [reflexivity|]. split; [apply Qred_correct|].
    apply Qnot_le_lt. intro H. apply Qle_bool_iff in H. congruence.
Qed.

Lemma rescale (f : Q) (k ef sc : Z) :
  f == inject_Z k * pow2 (ef - 52) -> (sc <= ef)%Z ->
  f / pow2 (sc - 52) == inject_Z (k * 2 ^ (ef - sc)).
Proof.
  intros Hf Hs. rewrite Hf.
  replace (ef - 52)%Z with ((ef - sc) + (sc - 52))%Z by lia.
  rewrite pow2_add, (pow2_Z (ef - sc)) by lia.
  rewrite inject_Z_mult. field.
  intro H. pose proof (pow2_pos (sc - 52)) as Hp. rewrite H in Hp.
  discriminate Hp.
Qed.

Lemma scaled_value (x : Q) (k : Z) :
  x / ulp x == inject_Z k -> inject_Z k * ulp x == x.
Proof.
  intro H. rewrite <- H. field.
  intro E. pose proof (ulp_pos x) as Hp. rewrite E in Hp. discriminate Hp.
Qed.

Lemma rne_nonneg (x : Q) : 0 < x -> (0 <= rne (x / ulp x))%Z.
Proof.
  intro H. pose proof (rne_bounds (x / ulp x)) as Hb.
  pose proof (Qfloor_nonneg _ (scaled_nonneg x H)). lia.
Qed.

Lemma rne_le (x : Q) : 0 < x -> (rne (x / ulp x) <= 2 ^ 53)%Z.
Proof.
  intro H. pose proof (rne_bounds (x / ulp x)) as Hb.
  pose proof (Qfloor_lt _ _ (scaled_lt x H)). lia.
Qed.

(** What [round_pos] returns is a binary64. *)
Lemma round_pos_rep (x y : Q) : 0 < x -> round_pos x = Num y -> rep y.
Proof.
  intros Hx Hr.
  destruct (round_pos_cases x) as [[Hi _]|(y' & Hy' & Hv & Hlt)];
    [congruence|].
  rewrite Hr in Hy'. injection Hy' as <-.
  pose proof (rne_nonneg x Hx) as H0. pose proof (rne_le x Hx) as H1.
  pose proof (scale_ge x) as Hs.
  destruct (Z.eq_dec (rne (x / ulp x)) (2 ^ 53)) as [E|E].
  - assert (Hy : y == pow2 (scale x + 1)).
    { rewrite Hv, E. unfold ulp.
      replace (scale x + 1)%Z with (53 + (scale x - 52))%Z by lia.
      rewrite pow2_add, (pow2_Z 53) by lia. reflexivity. }
    exists (2 ^ 52)%Z, (scale x + 1)%Z. split; [|split].
    + rewrite Hy.
      replace (scale x + 1 - 52)%Z with (scale x + 1 + - 52)%Z by lia.
      replace (scale x + 1)%Z with (52 + (scale x + 1 + - 52))%Z at 1 by lia.
      rewrite pow2_add, (pow2_Z 52) by lia. reflexivity.
    + lia.
    + split; [lia|]. rewrite Hy in Hlt. apply pow2_lt_inv in Hlt. lia.
  - exists (rne (x / ulp x)), (scale x). split; [exact Hv|]. split; [lia|].
    split; [exact Hs|].
    destruct (Z_le_gt_dec (scale x) 1023) as [L|G]; [exact L|exfalso].
    assert (Hsc : scale x = ilog2 x) by (unfold scale in *; lia).
    pose proof (Qfloor_ge _ _ (scaled_ge x Hx Hsc)) as Hf.
    pose proof (rne_bounds (x / ulp x)) as Hb.
    assert (Hge : pow2 1024 <= y).
    { rewrite Hv. apply Qle_trans with (pow2 (scale x)).
      - apply pow2_le. lia.
      - replace (scale x) with (52 + (scale x - 52))%Z at 1 by lia.
        rewrite pow2_add, (pow2_Z 52) by lia. fold (ulp x).
        apply Qmult_le_compat_r; [|apply Qlt_le_weak; apply ulp_pos].
        rewrite <- Zle_Qle. lia. }
    apply (Qlt_not_le _ _ Hlt Hge).
Qed.

(** A binary64 rounds to itself. *)
Lemma round_pos_exact (x : Q) :
  0 < x -> rep x -> exists y, round_pos x = Num y /\ y == x.
Proof.
  intros Hx (k & ef & Hk & Hkb & Heb).
  pose proof (rep_below x k ef Hk (proj2 Hkb)) as Hlt.
  assert (Hi : (ilog2 x <= ef)%Z).
  { assert (pow2 (ilog2 x) < pow2 (ef + 1))
      by (apply Qle_lt_trans with x; [apply (ilog2_spec x Hx)|exact Hlt]).
    apply pow2_lt_inv in H. lia. }
  assert (Hs : (scale x <= ef)%Z) by (unfold scale; lia).
  pose proof (rescale x k ef (scale x) Hk Hs) as Hm. fold (ulp x) in Hm.
  pose proof (rne_Z _ _ Hm) as Hr.
  pose proof (scaled_value x _ Hm) as Hv.
  destruct (round_pos_cases x) as [[_ Hge]|(y & Hy & Hyv & _)].
  - exfalso. rewrite Hr, Hv in Hge.
    apply (Qlt_not_le _ _ Hlt). apply Qle_trans with (pow2 1024); [|exact Hge].
    apply pow2_le. lia.
  - exists y. split; [exact Hy|]. rewrite Hyv, Hr. exact Hv.
Qed.

(** Rounding does not cross a binary64: one that is at most [x] is at
    most the rounded [x]. *)
Lemma round_pos_above (f x y : Q) :
  rep f -> 0 < x -> f <= x -> round_pos x = Num y -> f <= y.
Proof.
  intros (k & ef & Hk & Hkb & Heb) Hx Hfx Hr.
  destruct (round_pos_cases x) as [[Hi _]|(y' & Hy' & Hv & _)];
    [congruence|].
  rewrite Hr in Hy'. injection Hy' as <-.
  pose proof (rne_bounds (x / ulp x)) as Hb.
  destruct (Z_le_gt_dec (scale x) ef) as [L|G].
  - pose proof (rescale f k ef (scale x) Hk L) as Hm. fold (ulp x) in Hm.
    assert (Hle : f / ulp x <= x / ulp x).
    { unfold Qdiv. apply Qmult_le_compat_r; [exact Hfx|].
      apply Qlt_le_weak. apply Qinv_lt_0_compat. apply ulp_pos. }
    rewrite Hm in Hle. apply Qfloor_ge in Hle.
    assert (Hf : f == inject_Z (k * 2 ^ (ef - scale x)) * ulp x).
    { rewrite <- Hm. field. intro E. pose proof (ulp_pos x) as Hp.
      rewrite E in Hp. discriminate Hp. }
    rewrite Hf, Hv.
    apply Qmult_le_compat_r; [|apply Qlt_le_weak; apply ulp_pos].
    rewrite <- Zle_Qle. lia.
  - assert (Hsc : scale x = ilog2 x) by (unfold scale in *; lia).
    pose proof (Qfloor_ge _ _ (scaled_ge x Hx Hsc)) as Hf.
    apply Qlt_le_weak.
    apply Qlt_le_trans with (pow2 (ef + 1));
      [apply (rep_below f k ef Hk (proj2 Hkb))|].
    apply Qle_trans with (pow2 (scale x)); [apply pow2_le; lia|].
    rewrite Hv.
    replace (scale x) with (52 + (scale x - 52))%Z at 1 by lia.
    rewrite pow2_add, (pow2_Z 52) by lia. fold (ulp x).
    apply Qmult_le_compat_r; [|apply Qlt_le_weak; apply ulp_pos].
    rewrite <- Zle_Qle. lia.
Qed.

(** *** Rounding a number that is not negative *)

Lemma round_zero (x : Q) : x == 0 -> round x = Num 0.
Proof. intro H. unfold round. apply Qeq_alt in H. rewrite H. reflexivity. Qed.

Lemma round_of_pos (x : Q) : 0 < x -> round x = round_pos x.
Proof.
  intro H. unfold round. apply (proj1 (Qgt_alt x 0)) in H. rewrite H.
  reflexivity.
Qed.

Lemma rep_eq (x y : Q) : x == y -> rep x -> rep y.
Proof.
  intros E (k & e & H & Hk). exists k, e. split; [|exact Hk].
  rewrite <- E. exact H.
Qed.

Lemma round_nonneg (x : Q) :
  0 <= x -> round x = Inf false \/ exists y, round x = Num y /\ rep y.
Proof.
  intro H. destruct (Qle_lt_or_eq _ _ H) as [L|E].
  - rewrite (round_of_pos x L).
    destruct (round_pos_cases x) as [[Hi _]|(y & Hy & _)].
    + left. exact Hi.
    + right. exists y. split; [exact Hy|]. exact (round_pos_rep x y L Hy).
  - right. exists 0. split; [apply round_zero; symmetry; exact E|].
    exact rep_zero.
Qed.

Lemma round_exact (x : Q) : rep x -> exists y, round x = Num y /\ y == x.
Proof.
  intro H. destruct (Qle_lt_or_eq _ _ (rep_nonneg x H)) as [L|E].
  - rewrite (round_of_pos x L). exact (round_pos_exact x L H).
  - exists 0. split; [apply round_zero; symmetry; exact E|exact E].
Qed.

Lemma round_above (f x y : Q) :
  rep f -> f <= x -> round x = Num y -> f <= y.
Proof.
  intros Hf Hfx Hr. pose proof (rep_nonneg f Hf) as H0.
  destruct (Qle_lt_or_eq 0 x) as [L|E].
  - apply Qle_trans with f; assumption.
  - rewrite (round_of_pos x L) in Hr. exact (round_pos_above f x y Hf L Hfx Hr).
  - rewrite round_zero in Hr by (symmetry; exact E). injection Hr as <-.
    rewrite E. exact Hfx.
Qed.

(** The numbers [m / 2 ^ k] with [m] of at most 53 bits are binary64s. *)
Lemma rep_dyadic (m k : Z) :
  (0 <= m < 2 ^ 53)%Z -> (0 <= k <= 1074)%Z ->
  rep (inject_Z m * pow2 (- k)).
Proof.
  intros Hm Hk. destruct (Z.eq_dec m 0) as [->|Hne].
  - apply (rep_eq 0); [ring|exact rep_zero].
  - set (x := inject_Z m * pow2 (- k)).
    assert (Hx : 0 < x).
    { unfold x. apply Qmult_lt_0_compat; [|apply pow2_pos].
      unfold Qlt. simpl. lia. }
    destruct (ilog2_spec x Hx) as [Hlo Hhi].
    assert (Hxlt : x < pow2 (53 - k)).
    { unfold x. replace (53 - k)%Z with (53 + - k)%Z by lia.
      rewrite pow2_add, (pow2_Z 53) by lia.
      apply Qmult_lt_compat_r; [apply pow2_pos|].
      rewrite <- Zlt_Qlt. lia. }
    assert (Hi : (ilog2 x < 53 - k)%Z).
    { apply pow2_lt_inv. apply Qle_lt_trans with x; assumption. }
    pose proof (scale_ge x) as Hs.
    assert (Hs' : (scale x <= 52 - k \/ scale x = -1022)%Z)
      by (unfold scale in *; lia).
    assert (He : (0 <= 52 - scale x - k)%Z) by lia.
    assert (Hv : x == inject_Z (m * 2 ^ (52 - scale x - k)) * pow2 (scale x - 52)).
    { rewrite inject_Z_mult.
      pose proof (pow2_Z _ He) as Hp. rewrite <- Hp.
      rewrite <- Qmult_assoc, <- pow2_add.
      replace (52 - scale x - k + (scale x - 52))%Z with (- k)%Z by lia.
      reflexivity. }
    exists (m * 2 ^ (52 - scale x - k))%Z, (scale x). split; [exact Hv|].
    split; [split|split].
    + apply Z.mul_nonneg_nonneg; [lia|]. apply Z.pow_nonneg. lia.
    + rewrite Zlt_Qlt.
      apply Qmult_lt_r with (pow2 (scale x - 52)); [apply pow2_pos|].
      rewrite <- Hv, <- (pow2_Z 53), <- pow2_add by lia.
      apply Qlt_le_trans with (pow2 (ilog2 x + 1)); [exact Hhi|].
      apply pow2_le. unfold scale. lia.
    + exact Hs.
    + unfold scale in *. lia.
Qed.

(** *** The order of the floats that are not negative *)

Definition nonneg (a : float) : Prop :=
  match a with
  | Num q => 0 <= q
  | Inf false => True
  | _ => False
  end.

Definition fle (a b : float) : Prop :=
  match a, b with
  | Num x, Num y => x <= y
  | Num _, Inf false | Inf false, Inf false => True
  | _, _ => False
  end.

Lemma fle_refl (a : float) : nonneg a -> fle a a.
Proof. destruct a as [q|[|]|]; simpl; try tauto. intros _. apply Qle_refl. Qed.

Lemma fle_trans (a b c : float) : fle a b -> fle b c -> fle a c.
Proof.
  destruct a as [x|[|]|], b as [y|[|]|], c as [z|[|]|]; simpl; try tauto.
  apply Qle_trans.
Qed.

Lemma ltb_false_fle (a b : float) :
  nonneg a -> nonneg b -> ltb a b = false -> fle b a.
Proof.
  destruct a as [x|[|]|], b as [y|[|]|]; simpl; try tauto; try discriminate.
  intros _ _ H. apply Qltb_false. exact H.
Qed.

Lemma ltb_true_fle (a b : float) :
  nonneg a -> nonneg b -> ltb a b = true -> fle a b.
Proof.
  destruct a as [x|[|]|], b as [y|[|]|]; simpl; try tauto; try discriminate.
  intros _ _ H. apply Qlt_le_weak. apply Qltb_lt. exact H.
Qed.

Lemma fle_ltb (a b : float) : fle a b -> ltb b a = false.
Proof.
  destruct a as [x|[|]|], b as [y|[|]|]; simpl; try tauto.
  apply Qltb_false.
Qed.

Lemma eqb_fle (a b : float) : nonneg a -> eqb a b = true -> fle a b.
Proof.
  destruct a as [x|[|]|], b as [y|[|]|]; simpl; try tauto; try discriminate.
  intros _ H. apply Qeq_bool_iff in H. rewrite H. apply Qle_refl.
Qed.

(** The binary64s that are not negative, with the positive infinity. *)
Definition binary64 (a : float) : Prop :=
  match a with
  | Num q => rep q
  | Inf false => True
  | _ => False
  end.

Lemma binary64_nonneg (a : float) : binary64 a -> nonneg a.
Proof. destruct a as [q|[|]|]; simpl; try tauto. apply rep_nonneg. Qed.

Lemma round_binary64 (x : Q) : 0 <= x -> binary64 (round x).
Proof.
  intro H. destruct (round_nonneg x H) as [->|(y & -> & Hy)]; simpl; auto.
Qed.

(** A sum is not below its first term when the second is not negative,
    whatever the rounding. *)
Lemma add_above (a c : float) :
  binary64 a -> nonneg c -> binary64 (add a c) /\ fle a (add a c).
Proof.
  destruct a as [x|[|]|], c as [y|[|]|]; simpl; try tauto.
  intros Hx Hy. pose proof (rep_nonneg x Hx) as H0.
  assert (Hs : 0 <= x + y) by lra.
  destruct (round_nonneg _ Hs) as [E|(z & E & Hz)]; rewrite E; simpl.
  - tauto.
  - split; [exact Hz|]. apply (round_above x (x + y) z Hx); [lra|exact E].
Qed.

(** *** Some values *)

Example round_tenth :
  round (1 # 10) = Num (3602879701896397 # 36028797018963968).
Proof. vm_compute. reflexivity. Qed.

Example add_tenth_fifth :
  add (round (1 # 10)) (round (2 # 10))
  = Num (1351079888211149 # 4503599627370496)
  /\ round (3 # 10) = Num (5404319552844595 # 18014398509481984).
Proof. split; vm_compute; reflexivity. Qed.

Example mul_rates :
  mul (round (625 # 1000)) (round (1584 # 1000)) = round (99 # 100).
Proof. vm_compute. reflexivity. Qed.

Example round_ties_to_even :
  round (inject_Z (2 ^ 53 + 1)) = Num (inject_Z (2 ^ 53))
  /\ round (inject_Z (2 ^ 53 + 3)) = Num (inject_Z (2 ^ 53 + 4)).
Proof. split; vm_compute; reflexivity. Qed.

Example round_overflow :
  round (pow2 1024) = Inf false
  /\ round (pow2 1024 - pow2 970) = Inf false
  /\ round (pow2 1024 - pow2 971) = Num (Qred (pow2 1024 - pow2 971)).
Proof. repeat split; vm_compute; reflexivity. Qed.

Example round_subnormal :
  round (pow2 (-1075)) = Num 0
  /\ round (3 * pow2 (-1075)) = Num (Qred (pow2 (-1073)))
  /\ round (pow2 (-1074)) = Num (Qred (pow2 (-1074))).
Proof. repeat split; vm_compute; reflexivity. Qed.

End Float64Facts.

(** ** Sorting and filtering *)

Lemma insert_by_perm {A} (leb : A -> A -> bool) (x : A) (l : list A) :
  Permutation (insert_by leb x l) (x :: l).
Proof.
  induction l as [|h t IH]; simpl.
  - apply Permutation_refl.
  - destruct (leb x h).
    + apply Permutation_refl.
    + apply Permutation_trans with (h :: x :: t).
      * apply perm_skip. exact IH.
      * apply perm_swap.
Qed.

Lemma sort_by_perm {A} (leb : A -> A -> bool) (l : list A) :
  Permutation (sort_by leb l) l.
Proof.
  induction l as [|h t IH]; simpl.
  - apply perm_nil.
  - apply Permutation_trans with (h :: sort_by leb t).
    + apply insert_by_perm.
    + apply perm_skip. exact IH.
Qed.

Lemma filter_strongly_sorted {A} (R : A -> A -> Prop) (f : A -> bool)
    (l : list A) :
  StronglySorted R l -> StronglySorted R (filter f l).
Proof.
  induction 1 as [|a l Hs IH Hall]; simpl.
  - constructor.
  - destruct (f a).
    + constructor; [exact IH|].
      apply Forall_forall. intros x Hx. apply filter_In in Hx.
      rewrite Forall_forall in Hall. apply Hall. apply Hx.
    + exact IH.
Qed.

(** ** The merge of the observation buffer *)

Module IngestFacts.

Import Ingest.

Definition conf (r : Row) : Q := confidence (snd r).

Definition label_lt (a b : Row) : Prop := (fst a < fst b)%nat.

(** *** [idxmax] returns the first row that reaches the maximum *)

Lemma idxmax_from_split (best : Row) (l : DataFrame) :
  exists l1 l2,
    best :: l = l1 ++ idxmax_from best l :: l2
    /\ (forall r, In r l1 -> (conf r < conf (idxmax_from best l))%Q)
    /\ (forall r, In r l2 -> (conf r <= conf (idxmax_from best l))%Q).
Proof.
  revert best. induction l as [|x t IH]; intro best; simpl.
  - exists [], []. repeat split; simpl; intros r [].
  - destruct (Qltb (confidence (snd best)) (confidence (snd x))) eqn:E.
    + destruct (IH x) as (l1 & l2 & Heq & H1 & H2).
      exists (best :: l1), l2. repeat split.
      * simpl. rewrite Heq. reflexivity.
      * intros r [<-|Hr]; [|apply H1; exact Hr].
        apply Qltb_lt in E.
        assert (Hx : (conf x <= conf (idxmax_from x t))%Q).
        { destruct l1 as [|y l1'].
          - simpl in Heq. injection Heq as Hx _. rewrite <- Hx. apply Qle_refl.
          - simpl in Heq. injection Heq as Hy _. subst y.
            apply Qlt_le_weak. apply H1. left. reflexivity. }
        unfold conf in *. eapply Qlt_le_trans; eassumption.
      * exact H2.
    + destruct (IH best) as (l1 & l2 & Heq & H1 & H2).
      apply Qltb_false in E.
      destruct l1 as [|y l1'].
      * simpl in Heq. injection Heq as Hb Ht.
        exists [], (x :: l2). repeat split.
        -- simpl. congruence.
        -- intros r [].
        -- intros r [<-|Hr]; [|apply H2; exact Hr].
           rewrite <- Hb. exact E.
      * simpl in Heq. injection Heq as Hy Ht. subst y.
        exists (best :: x :: l1'), l2. repeat split.
        -- simpl. do 2 f_equal. exact Ht.
        -- intros r [<-|[<-|Hr]].
           ++ apply H1. left. reflexivity.
           ++ eapply Qle_lt_trans; [exact E|]. apply H1. left. reflexivity.
           ++ apply H1. right. exact Hr.
        -- exact H2.
Qed.

Lemma idxmax_split (l : DataFrame) (row : Row) :
  idxmax l = Some row ->
  exists l1 l2,
    l = l1 ++ row :: l2
    /\ (forall r, In r l1 -> (conf r < conf row)%Q)
    /\ (forall r, In r l2 -> (conf r <= conf row)%Q).
Proof.
  destruct l as [|x t]; simpl; [discriminate|].
  intro H. injection H as <-. apply idxmax_from_split.
Qed.

Lemma idxmax_some (l : DataFrame) :
  l <> [] -> exists row, idxmax l = Some row.
Proof.
  destruct l as [|x t]; [congruence|]. intros _. eexists. reflexivity.
Qed.

(** *** The labels of a frame are the ingestion ranks *)

Lemma combine_seq_sorted {A} (l : list A) (n : nat) :
  StronglySorted (fun a b : nat * A => (fst a < fst b)%nat)
    (combine (seq n (List.length l)) l).
Proof.
  revert n. induction l as [|x t IH]; intro n; simpl.
  - constructor.
  - constructor; [apply IH|].
    apply Forall_forall. intros [i y] Hin. simpl.
    apply in_combine_l in Hin. apply in_seq in Hin. lia.
Qed.

Lemma frame_of_sorted (buf : list DataPoint) :
  StronglySorted label_lt (frame_of buf).
Proof.
  unfold frame_of.
  replace (List.length buf) with (List.length (map to_dict buf))
    by apply length_map.
  apply combine_seq_sorted.
Qed.

Lemma combine_seq_nth {A} (l : list A) (n i : nat) (x : A) :
  In (i, x) (combine (seq n (List.length l)) l) ->
  (n <= i)%nat /\ nth_error l (i - n) = Some x.
Proof.
  revert n. induction l as [|y t IH]; intro n; simpl.
  - intros [].
  - intros [H|H].
    + injection H as <- <-. split; [lia|]. rewrite Nat.sub_diag. reflexivity.
    + apply IH in H. destruct H as [Hle Hn]. split; [lia|].
      replace (i - n)%nat with (S (i - S n)) by lia. exact Hn.
Qed.

Lemma frame_of_nth (buf : list DataPoint) (row : Row) :
  In row (frame_of buf) ->
  nth_error (map to_dict buf) (fst row) = Some (snd row).
Proof.
  destruct row as [i r]. unfold frame_of. intro H.
  replace (List.length buf) with (List.length (map to_dict buf)) in H
    by apply length_map.
  apply combine_seq_nth in H. destruct H as [_ H].
  rewrite Nat.sub_0_r in H. exact H.
Qed.

(** *** Candidates and groups *)

Lemma candidates_incl ps mc (group : DataFrame) (r : Row) :
  In r (candidates ps mc group) ->
  In r group /\ Qle_bool mc (confidence (snd r)) = true.
Proof.
  unfold candidates. intro H.
  assert (F : In r (filter (fun r => Qle_bool mc (confidence (snd r))) group)).
  { destruct (truthy ps); [|exact H].
    destruct (filter (fun r0 => isin (source (snd r0)) ps) _) eqn:E.
    - exact H.
    - rewrite <- E in H. apply filter_In in H. apply H. }
  apply filter_In in F. exact F.
Qed.

Lemma candidates_sorted ps mc (group : DataFrame) :
  StronglySorted label_lt group ->
  StronglySorted label_lt (candidates ps mc group).
Proof.
  intro H. unfold candidates.
  pose proof (filter_strongly_sorted label_lt
    (fun r => Qle_bool mc (confidence (snd r))) group H) as H1.
  destruct (truthy ps); [|exact H1].
  destruct (filter (fun r0 => isin (source (snd r0)) ps) _) eqn:E.
  - exact H1.
  - rewrite <- E. apply filter_strongly_sorted. exact H1.
Qed.

Lemma candidates_nonempty ps mc (group : DataFrame) (r : Row) :
  In r group -> Qle_bool mc (confidence (snd r)) = true ->
  candidates ps mc group <> [].
Proof.
  intros Hin Hc. unfold candidates.
  assert (F : filter (fun r => Qle_bool mc (confidence (snd r))) group <> []).
  { intro E. assert (In r (filter (fun r => Qle_bool mc (confidence (snd r))) group))
      by (apply filter_In; split; assumption).
    rewrite E in H. destruct H. }
  destruct (truthy ps); [|exact F].
  destruct (filter (fun r0 => isin (source (snd r0)) ps) _) eqn:E.
  - exact F.
  - discriminate.
Qed.

Lemma key_eqb_eq (a b : key) : key_eqb a b = true <-> a = b.
Proof.
  destruct a as [a1 a2], b as [b1 b2]. unfold key_eqb. simpl.
  rewrite andb_true_iff, !Z.eqb_eq. split.
  - intros [-> ->]. reflexivity.
  - intro H. injection H as -> ->. split; reflexivity.
Qed.

Lemma group_rows_key (df : DataFrame) (k : key) (r : Row) :
  In r (group_rows df k) <-> In r df /\ row_key r = k.
Proof.
  unfold group_rows. rewrite filter_In, key_eqb_eq. reflexivity.
Qed.

Lemma group_keys_nodup (df : DataFrame) : NoDup (group_keys df).
Proof.
  unfold group_keys.
  eapply Permutation_NoDup.
  - apply Permutation_sym. apply sort_by_perm.
  - apply NoDup_nodup.
Qed.

Lemma group_keys_in (df : DataFrame) (k : key) :
  In k (group_keys df) <-> exists r, In r df /\ row_key r = k.
Proof.
  unfold group_keys. split.
  - intro H. apply (Permutation_in _ (sort_by_perm key_leb _)) in H.
    apply nodup_In in H. apply in_map_iff in H.
    destruct H as (r & Hk & Hr). exists r. split; assumption.
  - intros (r & Hr & Hk).
    apply (Permutation_in _ (Permutation_sym (sort_by_perm key_leb _))).
    apply nodup_In. apply in_map_iff. exists r. split; assumption.
Qed.

(** A merged row is the [idxmax] of the candidates of the group of one of
    the keys, and every key with candidates gives a merged row. *)
Lemma merge_groups_in ps mc (df : DataFrame) (ks : list key) (row : Row) :
  In row (merge_groups ps mc (map (fun k => (k, group_rows df k)) ks)) <->
  exists k, In k ks /\ idxmax (candidates ps mc (group_rows df k)) = Some row.
Proof.
  induction ks as [|k ks IH]; simpl.
  - split; [intros []|intros (k & [] & _)].
  - destruct (idxmax (candidates ps mc (group_rows df k))) as [best|] eqn:E.
    + simpl. rewrite IH. split.
      * intros [<-|(k' & Hk & Hi)].
        -- exists k. split; [left; reflexivity|exact E].
        -- exists k'. split; [right; exact Hk|exact Hi].
      * intros (k' & [<-|Hk] & Hi).
        -- left. congruence.
        -- right. exists k'. split; assumption.
    + rewrite IH. split.
      * intros (k' & Hk & Hi). exists k'. split; [right; exact Hk|exact Hi].
      * intros (k' & [<-|Hk] & Hi); [congruence|].
        exists k'. split; assumption.
Qed.

Lemma idxmax_in (l : DataFrame) (row : Row) :
  idxmax l = Some row -> In row l.
Proof.
  intro H. apply idxmax_split in H. destruct H as (l1 & l2 & -> & _).
  apply in_or_app. right. left. reflexivity.
Qed.

Lemma idxmax_key ps mc (df : DataFrame) (k : key) (row : Row) :
  idxmax (candidates ps mc (group_rows df k)) = Some row -> row_key row = k.
Proof.
  intro H. apply idxmax_in in H. apply candidates_incl in H.
  destruct H as [H _]. apply group_rows_key in H. apply H.
Qed.

Lemma merge_groups_keys_nodup ps mc (df : DataFrame) (ks : list key) :
  NoDup ks ->
  NoDup (map row_key
           (merge_groups ps mc (map (fun k => (k, group_rows df k)) ks))).
Proof.
  induction 1 as [|k ks Hk Hnd IH]; simpl.
  - constructor.
  - destruct (idxmax (candidates ps mc (group_rows df k))) as [best|] eqn:E.
    + simpl. constructor; [|exact IH].
      rewrite (idxmax_key _ _ _ _ _ E). intro Hin.
      apply in_map_iff in Hin. destruct Hin as (row & Hrk & Hrow).
      apply merge_groups_in in Hrow. destruct Hrow as (k' & Hk' & Hi).
      apply idxmax_key in Hi. apply Hk. congruence.
    + exact IH.
Qed.

Lemma merge_data_in (buf : list DataPoint) ps mc (row : Row) :
  In row (merge_data buf ps mc) <->
  exists k, In k (group_keys (frame_of buf))
            /\ idxmax (candidates ps mc (group_rows (frame_of buf) k)) = Some row.
Proof.
  unfold merge_data, merge_data_body. destruct buf as [|dp buf'].
  - simpl. split; [intros []|].
    intros (k & Hk & _). exact Hk.
  - unfold groupby. apply merge_groups_in.
Qed.

Lemma sorted_app_right {A} (R : A -> A -> Prop) (l1 l2 : list A) (x y : A) :
  StronglySorted R (l1 ++ x :: l2) -> In y l2 -> R x y.
Proof.
  induction l1 as [|h t IH]; simpl; intros H Hy.
  - inversion H as [|? ? _ Hall]; subst.
    rewrite Forall_forall in Hall. apply Hall. exact Hy.
  - inversion H as [|? ? Hs _]; subst. apply IH; assumption.
Qed.

Lemma combine_seq_in {A} (l : list A) (n : nat) (x : A) :
  In x l -> exists i, In (i, x) (combine (seq n (List.length l)) l).
Proof.
  revert n. induction l as [|y t IH]; intros n; simpl.
  - intros [].
  - intros [->|H].
    + exists n. left. reflexivity.
    + destruct (IH (S n) H) as [i Hi]. exists i. right. exact Hi.
Qed.

Lemma frame_of_in (buf : list DataPoint) (dp : DataPoint) :
  In dp buf -> exists i, In (i, to_dict dp) (frame_of buf).
Proof.
  intro H. unfold frame_of.
  replace (List.length buf) with (List.length (map to_dict buf))
    by apply length_map.
  apply combine_seq_in. apply in_map. exact H.
Qed.

Lemma to_dict_key (dp : DataPoint) (i : nat) :
  row_key (i, to_dict dp) = (timestamp dp, item_id dp).
Proof.
  unfold row_key, to_dict. simpl. destruct (type dp); reflexivity.
Qed.

Lemma to_dict_confidence (dp : DataPoint) :
  confidence (to_dict dp) = confidence dp.
Proof.
  unfold to_dict. destruct (type dp); reflexivity.
Qed.

(** *** The tie-break of the merge *)

(** The tie-break as the specification words it: no candidate of the group
    that ties with the returned row was ingested after it. *)
Definition last_ingested_wins (buf : list DataPoint)
    (ps : option (list string)) (mc : Q) : Prop :=
  forall row, In row (merge_data buf ps mc) ->
  forall r, In r (candidates ps mc (group_rows (frame_of buf) (row_key row))) ->
    (conf r == conf row)%Q -> (fst r <= fst row)%nat.

(** What the code returns for a group: a candidate of the group, at its
    ingestion rank, that no candidate beats and that no candidate of the
    same confidence precedes. *)
Definition first_maximum (buf : list DataPoint)
    (ps : option (list string)) (mc : Q) (row : Row) : Prop :=
  let cand := candidates ps mc (group_rows (frame_of buf) (row_key row)) in
  nth_error (map to_dict buf) (fst row) = Some (snd row)
  /\ In row cand
  /\ (forall r, In r cand -> (conf r <= conf row)%Q)
  /\ (forall r, In r cand -> (conf r == conf row)%Q -> (fst row <= fst r)%nat).

(** Two readings of item 1 at instant 0 with the same confidence, from
    two sources, ingested in this order. *)
Definition tied_first : DataPoint :=
  mkDataPoint 0 1 (10 # 1) "alpha" (9 # 10) price None None.

Definition tied_second : DataPoint :=
  mkDataPoint 0 1 (11 # 1) "beta" (9 # 10) price None None.

Definition tied_buffer : list DataPoint := [tied_first; tied_second].

(** C2, counterexample: on two readings that tie at the maximum the merge
    returns the one ingested first, so the last-ingested reading does not
    win. *)
Lemma merge_tie_returns_first_ingested :
  merge_data tied_buffer None (7 # 10) = [(0%nat, tied_first)]
  /\ ~ last_ingested_wins tied_buffer None (7 # 10).
Proof.
  split; [reflexivity|].
  intro H.
  specialize (H (0%nat, tied_first)).
  assert (Hin : In (0%nat, tied_first) (merge_data tied_buffer None (7 # 10)))
    by (left; reflexivity).
  specialize (H Hin (1%nat, tied_second)).
  assert (Hc : In (1%nat, tied_second)
                 (candidates None (7 # 10)
                    (group_rows (frame_of tied_buffer)
                       (row_key (0%nat, tied_first)))))
    by (right; left; reflexivity).
  specialize (H Hc (Qeq_refl _)). simpl in H. lia.
Qed.

Lemma merged_row_first_maximum (buf : list DataPoint)
    (ps : option (list string)) (mc : Q) (row : Row) :
  In row (merge_data buf ps mc) -> first_maximum buf ps mc row.
Proof.
  intro H. apply merge_data_in in H. destruct H as (k & Hk & Hi).
  pose proof (idxmax_key _ _ _ _ _ Hi) as Hkey.
  unfold first_maximum. rewrite Hkey.
  pose proof (idxmax_in _ _ Hi) as Hin.
  assert (Hs : StronglySorted label_lt
                 (candidates ps mc (group_rows (frame_of buf) k))).
  { apply candidates_sorted. unfold group_rows.
    apply filter_strongly_sorted. apply frame_of_sorted. }
  apply idxmax_split in Hi. destruct Hi as (l1 & l2 & Heq & H1 & H2).
  split.
  { apply frame_of_nth. apply candidates_incl in Hin.
    destruct Hin as [Hin _]. apply group_rows_key in Hin. apply Hin. }
  split; [exact Hin|].
  rewrite Heq in *. split.
  - intros r Hr. apply in_app_or in Hr. destruct Hr as [Hr|[<-|Hr]].
    + apply Qlt_le_weak. apply H1. exact Hr.
    + apply Qle_refl.
    + apply H2. exact Hr.
  - intros r Hr Heqc. apply in_app_or in Hr. destruct Hr as [Hr|[<-|Hr]].
    + exfalso. apply H1 in Hr. rewrite Heqc in Hr.
      apply (Qlt_irrefl _ Hr).
    + apply Nat.le_refl.
    + apply Nat.lt_le_incl. change (label_lt row r).
      eapply sorted_app_right; eassumption.
Qed.

(** C2, amended: within each merge group the member returned has the
    maximum confidence among the candidates, and when several candidates
    tie at the maximum it is the one ingested first. *)
Theorem merge_returns_first_maximum (buf : list DataPoint)
    (ps : option (list string)) (mc : Q) (row : Row) :
  In row (merge_data buf ps mc) -> first_maximum buf ps mc row.
Proof.
  apply merged_row_first_maximum.
Qed.

Lemma merge_returns_first_maximum_witness :
  In (0%nat, tied_first) (merge_data tied_buffer None (7 # 10))
  /\ first_maximum tied_buffer None (7 # 10) (0%nat, tied_first).
Proof.
  split.
  - left. reflexivity.
  - apply (merge_returns_first_maximum tied_buffer None (7 # 10)
             (0%nat, tied_first)).
    left. reflexivity.
Defined.

(** *** The grouping key of the merge *)

(** The key that the specification gives to a merged point: the instant,
    the pair of items and the kind. *)
Definition full_key (dp : DataPoint) : Z * Z * option Z * data_type :=
  (timestamp dp, item_id dp, target_item_id dp, type dp).

(** Grouping by the full key, as the specification words it: one merged
    point at most per full key, and observations that differ in target or
    in kind are never put in one group, so that every full key with an
    observation that passes the threshold has its merged point. *)
Definition groups_by_full_key (buf : list DataPoint)
    (ps : option (list string)) (mc : Q) : Prop :=
  NoDup (map (fun row => full_key (snd row)) (merge_data buf ps mc))
  /\ forall dp, In dp buf -> (mc <= confidence dp)%Q ->
       exists row, In row (merge_data buf ps mc)
                   /\ full_key (snd row) = full_key (to_dict dp).

(** A price of item 1 and a rate from item 1 to item 2 at one instant. *)
Definition a_price : DataPoint :=
  mkDataPoint 0 1 (10 # 1) "alpha" (9 # 10) price None None.

Definition a_rate : DataPoint :=
  mkDataPoint 0 1 (2 # 1) "beta" (8 # 10) exchange_rate (Some 1%Z) (Some 2%Z).

Definition mixed_buffer : list DataPoint := [a_price; a_rate].

(** C3, counterexample: a price and a rate with the same instant and the
    same source item fall into one group, and the rate is lost. *)
Lemma merge_collapses_price_and_rate :
  merge_data mixed_buffer None (7 # 10) = [(0%nat, a_price)]
  /\ ~ groups_by_full_key mixed_buffer None (7 # 10).
Proof.
  split; [reflexivity|].
  intros [_ H].
  destruct (H a_rate) as (row & Hin & Hk).
  - right. left. reflexivity.
  - unfold Qle. simpl. lia.
  - destruct Hin as [<-|[]]. discriminate Hk.
Qed.

(** C3, amended: the merge groups the observations by (timestamp,
    item_id), where [item_id] is the priced item of a price and the source
    item of a rate; the frame returned has one row at most per such key,
    every row is an observation of the buffer, and every key with an
    observation that passes the threshold has its row. *)
Theorem merge_groups_by_timestamp_and_item (buf : list DataPoint)
    (ps : option (list string)) (mc : Q) :
  NoDup (map row_key (merge_data buf ps mc))
  /\ (forall row, In row (merge_data buf ps mc) ->
        nth_error (map to_dict buf) (fst row) = Some (snd row))
  /\ (forall dp, In dp buf -> (mc <= confidence dp)%Q ->
        exists row, In row (merge_data buf ps mc)
                    /\ row_key row = (timestamp dp, item_id dp)).
Proof.
  split; [|split].
  - unfold merge_data, merge_data_body. destruct buf as [|dp buf'].
    + constructor.
    + unfold groupby. apply merge_groups_keys_nodup. apply group_keys_nodup.
  - intros row H. apply (merged_row_first_maximum _ _ _ _ H).
  - intros dp Hdp Hc.
    destruct (frame_of_in _ _ Hdp) as [i Hi].
    set (k := (timestamp dp, item_id dp)).
    assert (Hg : In (i, to_dict dp) (group_rows (frame_of buf) k)).
    { apply group_rows_key. split; [exact Hi|apply to_dict_key]. }
    assert (Hne : candidates ps mc (group_rows (frame_of buf) k) <> []).
    { apply (candidates_nonempty _ _ _ _ Hg). simpl.
      rewrite to_dict_confidence. apply Qle_bool_iff. exact Hc. }
    destruct (idxmax_some _ Hne) as [row Hrow].
    exists row. split.
    + apply merge_data_in. exists k. split; [|exact Hrow].
      apply group_keys_in. exists (i, to_dict dp).
      split; [exact Hi|apply to_dict_key].
    + apply (idxmax_key _ _ _ _ _ Hrow).
Qed.

(** *** The empty buffer *)

(** C9: on an empty buffer the merge returns the empty frame (the
    [ValueError] raised in the body is caught), the statistics are the
    dictionary of zeros, and neither call raises. *)
Theorem empty_buffer_merge_and_statistics
    (ps : option (list string)) (mc : Q) :
  (exists msg, merge_data_body [] ps mc = Raise (ValueError msg))
  /\ merge_data [] ps mc = []
  /\ get_statistics [] =
       Some (mkStatistics 0 0 0 [] (mkConfidenceStats 0%Q 0%Q 0%Q)).
Proof.
  split; [|split].
  - eexists. reflexivity.
  - reflexivity.
  - reflexivity.
Qed.

(** *** Further properties of the merge *)

(** No row below the threshold is returned. *)
Theorem merge_respects_threshold (buf : list DataPoint)
    (ps : option (list string)) (mc : Q) :
  Forall (fun row => (mc <= conf row)%Q) (merge_data buf ps mc).
Proof.
  apply Forall_forall. intros row H.
  apply merged_row_first_maximum in H. destruct H as (_ & Hin & _).
  apply candidates_incl in Hin. destruct Hin as [_ Hc].
  apply Qle_bool_iff. exact Hc.
Qed.

Lemma candidates_priority ps mc (group : DataFrame) (r row : Row) :
  In r group -> Qle_bool mc (confidence (snd r)) = true ->
  isin (source (snd r)) ps = true ->
  In row (candidates ps mc group) ->
  isin (source (snd row)) ps = true.
Proof.
  intros Hr Hc Hp. unfold candidates.
  assert (Ht : truthy ps = true).
  { destruct ps as [[|x l]|]; simpl in *; try discriminate; reflexivity. }
  rewrite Ht.
  assert (Hin : In r (filter (fun r0 => isin (source (snd r0)) ps)
                        (filter (fun r0 => Qle_bool mc (confidence (snd r0)))
                           group))).
  { apply filter_In. split; [|exact Hp]. apply filter_In. split; assumption. }
  destruct (filter (fun r0 => isin (source (snd r0)) ps) _) as [|y t] eqn:E.
  - destruct Hin.
  - rewrite <- E. intro H. apply filter_In in H. apply H.
Qed.

(** When a group has an observation at or above the threshold that comes
    from a priority source, the row returned for the group comes from a
    priority source. *)
Theorem merge_prefers_priority_sources (buf : list DataPoint)
    (ps : option (list string)) (mc : Q) (row r : Row) :
  In row (merge_data buf ps mc) ->
  In r (frame_of buf) -> row_key r = row_key row ->
  (mc <= conf r)%Q -> isin (source (snd r)) ps = true ->
  isin (source (snd row)) ps = true.
Proof.
  intros H Hr Hk Hc Hp.
  apply merged_row_first_maximum in H. destruct H as (_ & Hin & _).
  apply (candidates_priority ps mc
           (group_rows (frame_of buf) (row_key row)) r row).
  - apply group_rows_key. split; assumption.
  - apply Qle_bool_iff. exact Hc.
  - exact Hp.
  - exact Hin.
Qed.

(** Two readings of one item at one instant: the first has the higher
    confidence, the second comes from the priority source. *)
Definition trusted_buffer : list DataPoint :=
  [ mkDataPoint 0 1 (10 # 1) "alpha" (95 # 100) price None None;
    mkDataPoint 0 1 (11 # 1) "beta" (8 # 10) price None None ].

Definition trusted_row : Row :=
  (1%nat, mkDataPoint 0 1 (11 # 1) "beta" (8 # 10) price None None).

Lemma merge_prefers_priority_sources_witness :
  In trusted_row (merge_data trusted_buffer (Some ["beta"%string]) (7 # 10))
  /\ In trusted_row (frame_of trusted_buffer)
  /\ row_key trusted_row = row_key trusted_row
  /\ (7 # 10 <= conf trusted_row)%Q
  /\ isin (source (snd trusted_row)) (Some ["beta"%string]) = true
  /\ isin (source (snd trusted_row)) (Some ["beta"%string]) = true.
Proof.
  assert (H1 : In trusted_row
                 (merge_data trusted_buffer (Some ["beta"%string]) (7 # 10)))
    by (left; reflexivity).
  assert (H2 : In trusted_row (frame_of trusted_buffer))
    by (right; left; reflexivity).
  assert (H3 : (7 # 10 <= conf trusted_row)%Q)
    by (unfold Qle; simpl; lia).
  split; [exact H1|]. split; [exact H2|]. split; [reflexivity|].
  split; [exact H3|]. split; [reflexivity|].
  exact (merge_prefers_priority_sources trusted_buffer
           (Some ["beta"%string]) (7 # 10) trusted_row trusted_row
           H1 H2 eq_refl H3 eq_refl).
Defined.

(** *** The order of the merged rows *)

Definition key_le (a b : key) : Prop :=
  (fst a < fst b)%Z \/ (fst a = fst b /\ (snd a <= snd b)%Z).

Definition key_lt (a b : key) : Prop :=
  (fst a < fst b)%Z \/ (fst a = fst b /\ (snd a < snd b)%Z).

Lemma key_leb_le (a b : key) : key_leb a b = true <-> key_le a b.
Proof.
  unfold key_leb, key_le.
  rewrite orb_true_iff, andb_true_iff, Z.ltb_lt, Z.eqb_eq, Z.leb_le.
  reflexivity.
Qed.

Lemma key_leb_total (a b : key) : key_leb a b = false -> key_le b a.
Proof.
  unfold key_leb, key_le. intro H. apply orb_false_iff in H.
  destruct H as [H1 H2]. apply Z.ltb_ge in H1.
  apply andb_false_iff in H2. destruct H2 as [H2|H2].
  - apply Z.eqb_neq in H2. left. lia.
  - apply Z.leb_gt in H2. destruct (Z.eq_dec (fst a) (fst b)); [right|left]; lia.
Qed.

Lemma key_le_trans (a b c : key) : key_le a b -> key_le b c -> key_le a c.
Proof. unfold key_le. intros [H|[H H']] [K|[K K']]; [left|left|left|right]; lia. Qed.

Lemma insert_key_sorted (k : key) (l : list key) :
  StronglySorted key_le l -> StronglySorted key_le (insert_by key_leb k l).
Proof.
  induction 1 as [|h t Hs IH Hall]; simpl.
  - constructor; constructor.
  - destruct (key_leb k h) eqn:E.
    + apply key_leb_le in E. constructor; [constructor; assumption|].
      constructor; [exact E|].
      rewrite Forall_forall in Hall |- *. intros x Hx.
      eapply key_le_trans; [exact E|]. apply Hall. exact Hx.
    + apply key_leb_total in E. constructor; [exact IH|].
      apply Forall_forall. intros x Hx.
      apply (Permutation_in _ (insert_by_perm key_leb k t)) in Hx.
      destruct Hx as [<-|Hx]; [exact E|].
      rewrite Forall_forall in Hall. apply Hall. exact Hx.
Qed.

Lemma sort_keys_sorted (l : list key) :
  StronglySorted key_le (sort_by key_leb l).
Proof.
  induction l as [|k t IH]; simpl; [constructor|].
  apply insert_key_sorted. exact IH.
Qed.

Lemma sorted_nodup_strict (l : list key) :
  StronglySorted key_le l -> NoDup l -> StronglySorted key_lt l.
Proof.
  induction 1 as [|h t Hs IH Hall]; intro Hnd; [constructor|].
  inversion Hnd as [|? ? Hnot Hnd']; subst.
  constructor; [apply IH; exact Hnd'|].
  rewrite Forall_forall in Hall |- *. intros x Hx.
  specialize (Hall x Hx). unfold key_le in Hall. unfold key_lt.
  destruct Hall as [H|[H1 H2]]; [left; exact H|].
  destruct (Z.eq_dec (snd h) (snd x)) as [E|E].
  - exfalso. apply Hnot. destruct h, x. simpl in *. subst. exact Hx.
  - right. split; [exact H1|lia].
Qed.

Lemma group_keys_sorted (df : DataFrame) :
  StronglySorted key_lt (group_keys df).
Proof.
  apply sorted_nodup_strict; [apply sort_keys_sorted|apply group_keys_nodup].
Qed.

Lemma merge_groups_sorted ps mc (df : DataFrame) (ks : list key) :
  StronglySorted key_lt ks ->
  StronglySorted key_lt
    (map row_key (merge_groups ps mc (map (fun k => (k, group_rows df k)) ks))).
Proof.
  induction 1 as [|k ks Hs IH Hall]; simpl; [constructor|].
  destruct (idxmax (candidates ps mc (group_rows df k))) as [best|] eqn:E;
    [|exact IH].
  simpl. constructor; [exact IH|].
  rewrite (idxmax_key _ _ _ _ _ E).
  apply Forall_forall. intros x Hx. apply in_map_iff in Hx.
  destruct Hx as (row & <- & Hrow). apply merge_groups_in in Hrow.
  destruct Hrow as (k' & Hk' & Hi). rewrite (idxmax_key _ _ _ _ _ Hi).
  rewrite Forall_forall in Hall. apply Hall. exact Hk'.
Qed.

(** The merged rows come in the order of their keys: by instant, then by
    item, each key once. *)
Theorem merge_rows_ordered_by_key (buf : list DataPoint)
    (ps : option (list string)) (mc : Q) :
  StronglySorted key_lt (map row_key (merge_data buf ps mc)).
Proof.
  unfold merge_data, merge_data_body. destruct buf as [|dp buf'].
  - constructor.
  - unfold groupby. apply merge_groups_sorted. apply group_keys_sorted.
Qed.

(** *** Ingestion *)

(** Whether a row can be read does not depend on the row. *)
Lemma make_data_point_uniform (data : InFrame) (src dt : string) (c : Q)
    (r1 r2 : InRow) (e : exn) :
  make_data_point data src dt c r1 = Raise e ->
  make_data_point data src dt c r2 = Raise e.
Proof.
  unfold make_data_point, getitem.
  destruct (String.eqb dt "price");
    destruct (has_column data "timestamp"); simpl; try (intro H; exact H);
    try destruct (has_column data "item_id"); simpl; try (intro H; exact H);
    try destruct (has_column data "source_item_id"); simpl;
    try (intro H; exact H);
    destruct (has_column data "value"); simpl; try (intro H; exact H);
    try discriminate;
    destruct (has_column data "target_item_id"); simpl;
    try (intro H; exact H); discriminate.
Qed.

Lemma make_data_point_fields (data : InFrame) (src dt : string) (c : Q)
    (row : InRow) (dp : DataPoint) :
  make_data_point data src dt c row = Ok dp ->
  source dp = src /\ confidence dp = c
  /\ timestamp dp = in_timestamp row /\ value dp = in_value row
  /\ type dp = (if String.eqb dt "price" then price else exchange_rate).
Proof.
  unfold make_data_point, getitem.
  destruct (String.eqb dt "price");
    destruct (has_column data "timestamp"); simpl; try discriminate;
    try destruct (has_column data "item_id"); simpl; try discriminate;
    try destruct (has_column data "source_item_id"); simpl; try discriminate;
    destruct (has_column data "value"); simpl; try discriminate;
    try destruct (has_column data "target_item_id"); simpl; try discriminate;
    intro H; injection H as <-; simpl; repeat split; reflexivity.
Qed.

Lemma ingest_rows_outcome (data : InFrame) (src dt : string) (c : Q)
    (todo : list InRow) (buf : list DataPoint) :
  (exists pts,
     ingest_rows data src dt c todo buf = (Ok tt, buf ++ pts)
     /\ Forall2 (fun row dp => make_data_point data src dt c row = Ok dp)
          todo pts)
  \/ (exists e row,
        In row todo
        /\ make_data_point data src dt c row = Raise e
        /\ ingest_rows data src dt c todo buf = (Raise e, buf)).
Proof.
  revert buf. induction todo as [|row rest IH]; intro buf; simpl.
  - left. exists []. rewrite app_nil_r. split; [reflexivity|constructor].
  - destruct (make_data_point data src dt c row) as [dp|e] eqn:E.
    + destruct (IH (buf ++ [dp])) as [(pts & Hr & Hf)|(e & row' & Hin & Hm & Hr)].
      * left. exists (dp :: pts). rewrite Hr, <- app_assoc. simpl.
        split; [reflexivity|]. constructor; assumption.
      * exfalso. apply (make_data_point_uniform _ _ _ _ row' row) in Hm.
        congruence.
    + right. exists e, row. split; [left; reflexivity|].
      split; [exact E|reflexivity].
Qed.

(** A call of [ingest_data] either appends one data point per row of the
    frame, in the order of the rows and with the source and the
    confidence of the call, or raises and leaves the buffer as it was:
    the buffer never holds a part of a frame. *)
Theorem ingest_appends_all_or_nothing (buf : list DataPoint)
    (data : InFrame) (src dt : string) (c : Q) :
  (exists pts,
     ingest_data buf data src dt c = (Ok tt, buf ++ pts)
     /\ List.length pts = List.length (rows data)
     /\ Forall2 (fun row dp =>
                   source dp = src /\ confidence dp = c
                   /\ timestamp dp = in_timestamp row
                   /\ value dp = in_value row
                   /\ type dp = (if String.eqb dt "price" then price
                                 else exchange_rate))
          (rows data) pts)
  \/ (exists e, ingest_data buf data src dt c = (Raise e, buf)).
Proof.
  unfold ingest_data.
  destruct (forallb (has_column data) (required_columns dt)).
  - destruct (ingest_rows_outcome data src dt c (rows data) buf)
      as [(pts & Hr & Hf)|(e & row & _ & _ & Hr)].
    + left. exists pts. split; [exact Hr|]. split.
      * symmetry. apply (Forall2_length Hf).
      * clear Hr. induction Hf as [|r0 d0 rs0 ps0 H Hf IH]; constructor.
        -- apply (make_data_point_fields _ _ _ _ _ _ H).
        -- exact IH.
    + right. exists e. exact Hr.
  - right. eexists. reflexivity.
Qed.

(** A type that is neither ['price'] nor ['exchange_rate'] passes the
    check of the columns with two columns only, and the first row then
    fails on a column of the pair. *)
Example ingest_unknown_type_raises_key_error :
  ingest_data [] (mkInFrame ["timestamp"%string; "value"%string]
                    [mkInRow 0 (1 # 1) 0 0 0]) "alpha" "rate" (1 # 1)
  = (Raise KeyError, []).
Proof. reflexivity. Qed.

(** *** Statistics of the buffer *)

Definition total_count (counts : list (string * nat)) : nat :=
  fold_right (fun x acc => (snd x + acc)%nat) 0%nat counts.

Lemma count_source_total (s0 : string) (counts : list (string * nat)) :
  total_count (count_source s0 counts) = S (total_count counts).
Proof.
  induction counts as [|[s' n] t IH]; simpl; [reflexivity|].
  destruct (String.eqb s0 s'); simpl; [reflexivity|]. rewrite IH. lia.
Qed.

Lemma value_counts_total (l : list string) :
  total_count (value_counts l) = List.length l.
Proof.
  unfold value_counts.
  assert (H : forall acc,
            total_count (fold_left (fun acc s0 => count_source s0 acc) l acc)
            = (total_count acc + List.length l)%nat).
  { induction l as [|x t IH]; intro acc; simpl; [lia|].
    rewrite IH, count_source_total. lia. }
  rewrite H. reflexivity.
Qed.

Lemma Qmin_list_le (x : Q) (l : list Q) :
  (Qmin_list x l <= x)%Q /\ forall y, In y l -> (Qmin_list x l <= y)%Q.
Proof.
  unfold Qmin_list. revert x. induction l as [|h t IH]; intro x; simpl.
  - split; [apply Qle_refl|intros y []].
  - destruct (Qltb h x) eqn:E.
    + apply Qltb_lt in E. destruct (IH h) as [H1 H2]. split.
      * eapply Qle_trans; [exact H1|]. apply Qlt_le_weak. exact E.
      * intros y [<-|Hy]; [exact H1|apply H2; exact Hy].
    + apply Qltb_false in E. destruct (IH x) as [H1 H2]. split; [exact H1|].
      intros y [<-|Hy]; [|apply H2; exact Hy].
      eapply Qle_trans; eassumption.
Qed.

Lemma Qmax_list_ge (x : Q) (l : list Q) :
  (x <= Qmax_list x l)%Q /\ forall y, In y l -> (y <= Qmax_list x l)%Q.
Proof.
  unfold Qmax_list. revert x. induction l as [|h t IH]; intro x; simpl.
  - split; [apply Qle_refl|intros y []].
  - destruct (Qltb x h) eqn:E.
    + apply Qltb_lt in E. destruct (IH h) as [H1 H2]. split.
      * eapply Qle_trans; [|exact H1]. apply Qlt_le_weak. exact E.
      * intros y [<-|Hy]; [exact H1|apply H2; exact Hy].
    + apply Qltb_false in E. destruct (IH x) as [H1 H2]. split; [exact H1|].
      intros y [<-|Hy]; [|apply H2; exact Hy].
      eapply Qle_trans; eassumption.
Qed.

Lemma filter_types_length (l : list DataPoint) :
  (List.length (filter (fun r => data_type_eqb (type r) price) l)
   + List.length (filter (fun r => data_type_eqb (type r) exchange_rate) l))%nat
  = List.length l.
Proof.
  induction l as [|x t IH]; simpl; [reflexivity|].
  destruct (type x); simpl; lia.
Qed.

(** The statistics are always returned, the points are counted once as a
    price or as a rate and once under their source, and every confidence
    of the buffer lies between the minimum and the maximum reported. *)
Theorem statistics_account_for_every_point (buf : list DataPoint) :
  exists st,
    get_statistics buf = Some st
    /\ total_points st = List.length buf
    /\ (price_points st + rate_points st)%nat = total_points st
    /\ total_count (sources st) = total_points st
    /\ forall dp, In dp buf ->
         (min (conf_stats st) <= confidence dp)%Q
         /\ (confidence dp <= max (conf_stats st))%Q.
Proof.
  destruct buf as [|dp0 rest].
  - eexists. split; [reflexivity|]. simpl.
    split; [reflexivity|]. split; [reflexivity|]. split; [reflexivity|].
    intros dp [].
  - eexists. split; [reflexivity|]. cbn [total_points price_points rate_points
      sources conf_stats min max].
    split; [apply length_map|]. split; [apply filter_types_length|].
    split; [rewrite value_counts_total, !length_map; reflexivity|].
    intros dp Hdp.
    destruct (Qmin_list_le (confidence (to_dict dp0))
                (map confidence (map to_dict rest))) as [Hm1 Hm2].
    destruct (Qmax_list_ge (confidence (to_dict dp0))
                (map confidence (map to_dict rest))) as [HM1 HM2].
    destruct Hdp as [<-|Hdp].
    + pose proof (to_dict_confidence dp0) as E. split.
      * eapply Qle_trans; [exact Hm1|]. rewrite E. apply Qle_refl.
      * eapply Qle_trans; [|exact HM1]. rewrite E. apply Qle_refl.
    + assert (Hin : In (confidence dp) (map confidence (map to_dict rest))).
      { rewrite map_map. apply in_map_iff. exists dp.
        split; [apply to_dict_confidence|exact Hdp]. }
      split; [apply Hm2|apply HM2]; exact Hin.
Qed.

(** *** What the merge keeps *)

Lemma idxmax_of_member (l : DataFrame) (r : Row) :
  In r l -> exists row, idxmax l = Some row.
Proof.
  destruct l as [|x t]; [intros []|]. intros _. eexists. reflexivity.
Qed.

Lemma candidates_keep ps mc (group : DataFrame) (r : Row) :
  In r group -> Qle_bool mc (confidence (snd r)) = true ->
  exists r', In r' (candidates ps mc group).
Proof.
  intros Hr Hc. unfold candidates.
  assert (F : In r (filter (fun r => Qle_bool mc (confidence (snd r))) group))
    by (apply filter_In; split; assumption).
  destruct (truthy ps); [|exists r; exact F].
  destruct (filter (fun r0 => isin (source (snd r0)) ps) _) as [|y t] eqn:E.
  - exists r. exact F.
  - exists y. left. reflexivity.
Qed.

Lemma frame_of_row (buf : list DataPoint) (row : Row) :
  In row (frame_of buf) -> exists dp, In dp buf /\ snd row = to_dict dp.
Proof.
  intro H. apply frame_of_nth in H. apply nth_error_In in H.
  apply in_map_iff in H. destruct H as (dp & Hd & Hin).
  exists dp. split; [exact Hin|symmetry; exact Hd].
Qed.

Lemma merge_covers_keys_aux (buf : list DataPoint)
    (ps : option (list string)) (mc : Q) (k : key) :
  (exists row, In row (merge_data buf ps mc) /\ row_key row = k)
  <-> (exists dp, In dp buf /\ (timestamp dp, item_id dp) = k
                  /\ (mc <= confidence dp)%Q).
Proof.
  split.
  - intros (row & Hrow & Hk). apply merge_data_in in Hrow.
    destruct Hrow as (k' & _ & Hi). apply idxmax_in in Hi.
    apply candidates_incl in Hi. destruct Hi as [Hg Hc].
    apply group_rows_key in Hg. destruct Hg as [Hf _].
    destruct (frame_of_row _ _ Hf) as (dp & Hdp & Hs).
    exists dp. split; [exact Hdp|]. split.
    + rewrite <- Hk. destruct row as [i r]. simpl in Hs. subst r.
      symmetry. apply to_dict_key.
    + apply Qle_bool_iff in Hc. rewrite Hs, to_dict_confidence in Hc.
      exact Hc.
  - intros (dp & Hdp & Hk & Hc).
    destruct (frame_of_in _ _ Hdp) as (i & Hi).
    assert (Hkey : row_key (i, to_dict dp) = k)
      by (rewrite to_dict_key; exact Hk).
    assert (Hg : In (i, to_dict dp) (group_rows (frame_of buf) k))
      by (apply group_rows_key; split; assumption).
    assert (Hq : Qle_bool mc (confidence (snd (i, to_dict dp))) = true).
    { apply Qle_bool_iff. simpl. rewrite to_dict_confidence. exact Hc. }
    destruct (candidates_keep ps mc _ _ Hg Hq) as (r' & Hr').
    destruct (idxmax_of_member _ _ Hr') as (row & Hrow).
    exists row. split; [|apply (idxmax_key _ _ _ _ _ Hrow)].
    apply merge_data_in. exists k. split; [|exact Hrow].
    apply group_keys_in. exists (i, to_dict dp). split; assumption.
Qed.

(** The keys of the merged frame are exactly the pairs of an instant and
    an item for which the buffer holds a point at or above the threshold:
    no such pair is dropped, whatever the priority sources. *)
Theorem merge_covers_qualifying_keys (buf : list DataPoint)
    (ps : option (list string)) (mc : Q) (k : key) :
  (exists row, In row (merge_data buf ps mc) /\ row_key row = k)
  <-> (exists dp, In dp buf /\ (timestamp dp, item_id dp) = k
                  /\ (mc <= confidence dp)%Q).
Proof. apply merge_covers_keys_aux. Qed.

Lemma make_data_point_item (data : InFrame) (src dt : string) (c : Q)
    (row : InRow) (dp : DataPoint) :
  make_data_point data src dt c row = Ok dp ->
  item_id dp = (if String.eqb dt "price" then in_item_id row
                else in_source_item_id row).
Proof.
  unfold make_data_point, getitem.
  destruct (String.eqb dt "price");
    destruct (has_column data "timestamp"); simpl; try discriminate;
    try destruct (has_column data "item_id"); simpl; try discriminate;
    try destruct (has_column data "source_item_id"); simpl; try discriminate;
    destruct (has_column data "value"); simpl; try discriminate;
    try destruct (has_column data "target_item_id"); simpl; try discriminate;
    intro H; injection H as <-; reflexivity.
Qed.

Lemma Forall2_in_left {A B} (R : A -> B -> Prop) (l1 : list A) (l2 : list B)
    (x : A) :
  Forall2 R l1 l2 -> In x l1 -> exists y, In y l2 /\ R x y.
Proof.
  induction 1 as [|a b t1 t2 Hab Hf IH]; [intros []|].
  intros [<-|Hin].
  - exists b. split; [left; reflexivity|exact Hab].
  - destruct (IH Hin) as (y & Hy & Hr). exists y.
    split; [right; exact Hy|exact Hr].
Qed.

(** Ingestion followed by the merge: when [ingest_data] returns normally
    with a confidence at or above the threshold of the merge, every row
    of the frame is represented in the merged frame by a row with its
    instant and its item (for a rate, the source item of the pair). *)
Theorem ingested_rows_reach_the_merge (buf buf' : list DataPoint)
    (data : InFrame) (src dt : string) (c : Q)
    (ps : option (list string)) (mc : Q) (row : InRow) :
  ingest_data buf data src dt c = (Ok tt, buf') ->
  (mc <= c)%Q ->
  In row (rows data) ->
  exists m,
    In m (merge_data buf' ps mc)
    /\ row_key m = (in_timestamp row,
                    if String.eqb dt "price" then in_item_id row
                    else in_source_item_id row)
    /\ (mc <= conf m)%Q.
Proof.
  unfold ingest_data. intros Hi Hc Hrow.
  destruct (forallb (has_column data) (required_columns dt));
    [|discriminate].
  destruct (ingest_rows_outcome data src dt c (rows data) buf)
    as [(pts & Hr & Hf)|(e & row' & _ & _ & Hr)];
    rewrite Hr in Hi; [|discriminate].
  injection Hi as <-.
  destruct (Forall2_in_left _ _ _ _ Hf Hrow) as (dp & Hdp & Hm).
  pose proof (make_data_point_fields _ _ _ _ _ _ Hm)
    as (_ & Hconf & Hts & _ & _).
  pose proof (make_data_point_item _ _ _ _ _ _ Hm) as Hit.
  destruct (proj2 (merge_covers_keys_aux (buf ++ pts) ps mc
                     (timestamp dp, item_id dp))) as (m & Hin & Hk).
  { exists dp. split; [apply in_or_app; right; exact Hdp|].
    split; [reflexivity|]. rewrite Hconf. exact Hc. }
  exists m. split; [exact Hin|]. split.
  - rewrite Hk, Hts, Hit. reflexivity.
  - apply merged_row_first_maximum in Hin. destruct Hin as (_ & Hcand & _).
    apply candidates_incl in Hcand. destruct Hcand as [_ Hq].
    apply Qle_bool_iff. exact Hq.
Qed.

(** A frame of one price, ingested with the default confidence. *)
Definition one_price_frame : InFrame :=
  mkInFrame ["timestamp"%string; "item_id"%string; "value"%string]
            [mkInRow 3 (5 # 1) 1 0 0].

Lemma ingested_rows_reach_the_merge_witness :
  ingest_data [] one_price_frame "alpha" "price" (1 # 1)
  = (Ok tt, [mkDataPoint 3 1 (5 # 1) "alpha" (1 # 1) price None None])
  /\ (7 # 10 <= 1 # 1)%Q
  /\ In (mkInRow 3 (5 # 1) 1 0 0) (rows one_price_frame)
  /\ exists m,
       In m (merge_data
               [mkDataPoint 3 1 (5 # 1) "alpha" (1 # 1) price None None]
               None (7 # 10))
       /\ row_key m = (3%Z, 1%Z)
       /\ (7 # 10 <= conf m)%Q.
Proof.
  assert (H1 : ingest_data [] one_price_frame "alpha" "price" (1 # 1)
               = (Ok tt, [mkDataPoint 3 1 (5 # 1) "alpha" (1 # 1) price
                            None None])) by reflexivity.
  assert (H2 : (7 # 10 <= 1 # 1)%Q) by (unfold Qle; simpl; lia).
  assert (H3 : In (mkInRow 3 (5 # 1) 1 0 0) (rows one_price_frame))
    by (left; reflexivity).
  split; [exact H1|]. split; [exact H2|]. split; [exact H3|].
  exact (ingested_rows_reach_the_merge [] _ one_price_frame "alpha" "price"
           (1 # 1) None (7 # 10) (mkInRow 3 (5 # 1) 1 0 0) H1 H2 H3).
Defined.

End IngestFacts.

(** ** The validators *)

Module ValidateFacts.

Import Validate.

Local Open Scope Z_scope.

(** *** Counting *)

Lemma count_nonneg {A} (f : A -> bool) (l : list A) : 0 <= count f l.
Proof. unfold count. lia. Qed.

Lemma count_pos {A} (f : A -> bool) (l : list A) :
  0 < count f l <-> exists x, In x l /\ f x = true.
Proof.
  unfold count. split.
  - intro H. destruct (filter f l) as [|x t] eqn:E; [simpl in H; lia|].
    exists x. apply filter_In. rewrite E. left. reflexivity.
  - intros (x & Hx & Hf).
    assert (Hin : In x (filter f l)) by (apply filter_In; split; assumption).
    destruct (filter f l); [destruct Hin|simpl; lia].
Qed.

Lemma Zsum_nonneg (l : list Z) : (forall x, In x l -> 0 <= x) -> 0 <= Zsum l.
Proof.
  induction l as [|h t IH]; simpl; intro H; [lia|].
  assert (0 <= h) by (apply H; left; reflexivity).
  assert (0 <= Zsum t) by (apply IH; intros x Hx; apply H; right; exact Hx).
  lia.
Qed.

Lemma Zsum_pos (l : list Z) :
  (forall x, In x l -> 0 <= x) ->
  (0 < Zsum l <-> exists x, In x l /\ 0 < x).
Proof.
  induction l as [|h t IH]; simpl; intro H.
  - split; [lia|intros (x & [] & _)].
  - assert (Hh : 0 <= h) by (apply H; left; reflexivity).
    assert (Ht : forall x, In x t -> 0 <= x)
      by (intros x Hx; apply H; right; exact Hx).
    pose proof (Zsum_nonneg t Ht) as Hs.
    specialize (IH Ht). split.
    + intro Hp. destruct (Z_lt_le_dec 0 h) as [Hlt|Hle].
      * exists h. split; [left; reflexivity|exact Hlt].
      * assert (0 < Zsum t) by lia.
        apply IH in H0. destruct H0 as (x & Hx & Hxp).
        exists x. split; [right; exact Hx|exact Hxp].
    + intros (x & [<-|Hx] & Hxp); [lia|].
      assert (0 < Zsum t) by (apply IH; exists x; split; assumption).
      lia.
Qed.

(** *** [unique] *)

Lemma existsb_Zeqb (x : Z) (l : list Z) :
  existsb (Z.eqb x) l = true <-> In x l.
Proof.
  rewrite existsb_exists. split.
  - intros (y & Hy & He). apply Z.eqb_eq in He. subst. exact Hy.
  - intro H. exists x. split; [exact H|apply Z.eqb_refl].
Qed.

Lemma unique_from_in (seen l : list Z) (x : Z) :
  In x (unique_from seen l) <-> In x l /\ ~ In x seen.
Proof.
  revert seen. induction l as [|h t IH]; intro seen; simpl.
  - tauto.
  - destruct (existsb (Z.eqb h) seen) eqn:E.
    + apply existsb_Zeqb in E. rewrite IH. split.
      * intros [H1 H2]. tauto.
      * intros [[<-|H1] H2]; tauto.
    + assert (Hn : ~ In h seen).
      { intro Hin. apply existsb_Zeqb in Hin. congruence. }
      simpl. rewrite IH. simpl. split.
      * intros [<-|[H1 H2]]; [tauto|]. split; [tauto|]. tauto.
      * intros [[<-|H1] H2]; [tauto|].
        destruct (Z.eq_dec h x) as [->|Hne]; [tauto|]. right.
        split; [exact H1|]. intros [?|?]; tauto.
Qed.

Lemma unique_from_nodup (seen l : list Z) : NoDup (unique_from seen l).
Proof.
  revert seen. induction l as [|h t IH]; intro seen; simpl.
  - constructor.
  - destruct (existsb (Z.eqb h) seen); [apply IH|].
    constructor; [|apply IH].
    rewrite unique_from_in. simpl. tauto.
Qed.

Lemma unique_in (l : list Z) (x : Z) : In x (unique l) <-> In x l.
Proof. unfold unique. rewrite unique_from_in. simpl. tauto. Qed.

Lemma unique_nodup (l : list Z) : NoDup (unique l).
Proof. apply unique_from_nodup. Qed.

(** *** The report of the price validator *)

Lemma make_report_counts (total missing oor gaps dups : Z) :
  let r := make_report total missing oor gaps dups in
  valid_records r
    = total_records r - missing_values r - out_of_range r - duplicates r
  /\ invalid_records r = total_records r - valid_records r
  /\ (validation_passed r = true
      <-> 0 < valid_records r /\ invalid_records r = 0).
Proof.
  unfold make_report. simpl. split; [reflexivity|]. split; [reflexivity|].
  rewrite andb_true_iff, Z.ltb_lt, Z.eqb_eq. reflexivity.
Qed.

(** What the price validator reports, in terms of the frame after the
    conversion of its time stamps. *)
Lemma validate_price_data_report (prices : list PriceRow)
    (lo hi : bound) (gap : option Z) (r : report) (after : list PriceRow) :
  validate_price_data prices lo hi gap = (Some r, after) ->
  exists gaps,
    r = make_report (Z.of_nat (List.length prices))
          (Zsum (map price_row_nulls after))
          (count (fun x => is_out_of_range lo hi (p_price x)) after)
          gaps
          (duplicated price_row_eqb after).
Proof.
  unfold validate_price_data.
  destruct (to_datetime (map p_timestamp prices)) as [col|e]; [|discriminate].
  destruct (price_large_gaps _ _ _ _) as [gaps|e]; [|discriminate].
  intro H. injection H as <- <-. exists gaps. f_equal.
  clear. revert col. induction prices as [|x t IH]; intros [|c ct]; simpl;
    try reflexivity.
  f_equal. specialize (IH ct). lia.
Qed.

(** The price validator returns a report whenever every time stamp
    converts and the text of the gap parses. *)
Definition convertible (c : ts_cell) : bool :=
  match c with
  | TsBad => false
  | TsEpoch n => (int64_min <=? n)%Z && (n <=? int64_max)%Z
  | _ => true
  end.

Lemma to_datetime_returns (col : list ts_cell) :
  forallb convertible col = true -> exists col', to_datetime col = Ok col'.
Proof.
  induction col as [|c t IH]; simpl; intro H.
  - exists []. reflexivity.
  - apply andb_true_iff in H. destruct H as [Hc Ht].
    destruct (IH Ht) as [t' Ht']. rewrite Ht'.
    destruct c as [n| | |]; try discriminate; simpl;
      try (eexists; reflexivity).
    simpl in Hc. apply andb_true_iff in Hc. destruct Hc as [H1 H2].
    apply Z.leb_le in H1. destruct (n =? int64_min)%Z eqn:E.
    + eexists. reflexivity.
    + apply Z.eqb_neq in E.
      assert (H3 : (int64_min <? n)%Z = true) by (apply Z.ltb_lt; lia).
      rewrite H3, H2. eexists. reflexivity.
Qed.

Lemma price_large_gaps_returns (prices : list PriceRow) (d : Z)
    (items : list Z) (acc : Z) :
  exists gaps, price_large_gaps prices (Some d) items acc = Ok gaps.
Proof.
  revert acc. induction items as [|i t IH]; intro acc; simpl.
  - exists acc. reflexivity.
  - apply IH.
Qed.

Lemma validate_price_data_returns (prices : list PriceRow) (lo hi : bound)
    (d : Z) :
  forallb convertible (map p_timestamp prices) = true ->
  exists r after, validate_price_data prices lo hi (Some d) = (Some r, after).
Proof.
  intro H. unfold validate_price_data.
  destruct (to_datetime_returns _ H) as [col Hc]. rewrite Hc.
  destruct (price_large_gaps_returns (assign_p_timestamp prices col) d
              (unique (map p_item_id (assign_p_timestamp prices col))) 0)
    as [gaps Hg].
  rewrite Hg. eexists. eexists. reflexivity.
Qed.

(** A frame in which the gap of ten days between two readings of item 7
    exceeds the seven days allowed. *)
Definition day : Z := 86400000000000.

Definition gapped_prices : list PriceRow :=
  [ mkPriceRow (TsStamp 0) 7 (Some (5 # 1)%Q) [];
    mkPriceRow (TsStamp (10 * day)) 7 (Some (6 # 1)%Q) [] ].

Definition gapped_report : report := mkReport 2 2 0 0 0 1 0 true.

Lemma gapped_prices_validate :
  validate_price_data gapped_prices (Fin 0%Q) PosInf (Some (7 * day))
  = (Some gapped_report, gapped_prices).
Proof. reflexivity. Qed.

(** C4: in the report of the price validator the valid records are the
    total less the missing values, the values out of range and the
    duplicates (the large gaps are not taken off), and the validation
    passes exactly when there are valid records and no invalid one. *)
Theorem price_report_valid_count (prices : list PriceRow)
    (min_price max_price : bound) (max_gap : option Z)
    (r : report) (after : list PriceRow) :
  validate_price_data prices min_price max_price max_gap = (Some r, after) ->
  valid_records r
    = total_records r - missing_values r - out_of_range r - duplicates r
  /\ invalid_records r = total_records r - valid_records r
  /\ (validation_passed r = true
      <-> 0 < valid_records r /\ invalid_records r = 0).
Proof.
  intro H. apply validate_price_data_report in H.
  destruct H as [gaps ->]. apply make_report_counts.
Qed.

Lemma price_report_valid_count_witness :
  validate_price_data gapped_prices (Fin 0%Q) PosInf (Some (7 * day))
    = (Some gapped_report, gapped_prices)
  /\ (valid_records gapped_report
        = total_records gapped_report - missing_values gapped_report
          - out_of_range gapped_report - duplicates gapped_report
      /\ invalid_records gapped_report
           = total_records gapped_report - valid_records gapped_report
      /\ (validation_passed gapped_report = true
          <-> 0 < valid_records gapped_report
              /\ invalid_records gapped_report = 0)).
Proof.
  split.
  - reflexivity.
  - apply (price_report_valid_count gapped_prices (Fin 0%Q) PosInf
             (Some (7 * day)) gapped_report gapped_prices). reflexivity.
Defined.

(** *** The consistency validator *)

Lemma pair_rows_in (rates : list RateRow) (s t : Z) (r : RateRow) :
  In r (pair_rows rates s t)
  <-> In r rates /\ r_source_item_id r = s /\ r_target_item_id r = t.
Proof.
  unfold pair_rows. rewrite filter_In, andb_true_iff, !Z.eqb_eq. reflexivity.
Qed.

(** The test of the code on two rates, written out: the product of the
    two floats less one, in absolute value, is greater than the float
    0.01. *)
Definition product_off_one (x y : Q) : Prop :=
  Float64.ltb (Float64.round (1 # 100))
    (Float64.abs
       (Float64.sub (Float64.mul (Float64.round x) (Float64.round y))
                    (Float64.Num 1)))
  = true.

Lemma inconsistent_true (d e : RateRow) :
  inconsistent d e = true
  <-> exists x y, r_rate d = Some x /\ r_rate e = Some y
                  /\ product_off_one x y.
Proof.
  unfold inconsistent. destruct (r_rate d) as [x|], (r_rate e) as [y|].
  - unfold product_off_one, off_tolerance, tolerance. split.
    + intro H. exists x, y. repeat split. exact H.
    + intros (x' & y' & Hx & Hy & H). injection Hx as <-. injection Hy as <-.
      exact H.
  - split; [discriminate|]. intros (x' & y' & _ & Hy & _). discriminate.
  - split; [discriminate|]. intros (x' & y' & Hx & _). discriminate.
  - split; [discriminate|]. intros (x' & y' & Hx & _). discriminate.
Qed.

Lemma count_inconsistent_nonneg (ds es : list RateRow) :
  0 <= count_inconsistent ds es.
Proof.
  unfold count_inconsistent. apply Zsum_nonneg.
  intros x Hx. apply in_map_iff in Hx. destruct Hx as (d & <- & _).
  apply count_nonneg.
Qed.

Lemma count_inconsistent_pos (ds es : list RateRow) :
  0 < count_inconsistent ds es
  <-> exists d e, In d ds /\ In e es /\ inconsistent d e = true.
Proof.
  unfold count_inconsistent. rewrite Zsum_pos.
  - split.
    + intros (x & Hx & Hp). apply in_map_iff in Hx.
      destruct Hx as (d & <- & Hd). apply count_pos in Hp.
      destruct Hp as (e & He & Hi). exists d, e. repeat split; assumption.
    + intros (d & e & Hd & He & Hi).
      exists (count (inconsistent d) es). split.
      * apply in_map_iff. exists d. split; [reflexivity|exact Hd].
      * apply count_pos. exists e. split; assumption.
  - intros x Hx. apply in_map_iff in Hx. destruct Hx as (d & <- & _).
    apply count_nonneg.
Qed.

Lemma consistency_pair_count (rates : list RateRow) (s t : Z) :
  consistency_pair rates s t
  = count_inconsistent (pair_rows rates s t) (pair_rows rates t s).
Proof.
  unfold consistency_pair.
  destruct (pair_rows rates s t) as [|d ds]; [reflexivity|].
  destruct (pair_rows rates t s) as [|e es]; [|reflexivity].
  unfold count_inconsistent. simpl.
  induction ds as [|x xs IH]; simpl; [reflexivity|]. simpl in IH. lia.
Qed.

Lemma consistency_loop_nonneg (rates : list RateRow) (ss ts : list Z) :
  0 <= consistency_loop rates ss ts.
Proof.
  unfold consistency_loop. apply Zsum_nonneg.
  intros x Hx. apply in_map_iff in Hx. destruct Hx as (s & <- & _).
  apply Zsum_nonneg. intros y Hy. apply in_map_iff in Hy.
  destruct Hy as (t & <- & _). rewrite consistency_pair_count.
  apply count_inconsistent_nonneg.
Qed.

Lemma consistency_loop_pos (rates : list RateRow) (ss ts : list Z) :
  0 < consistency_loop rates ss ts
  <-> exists s t, In s ss /\ In t ts /\ 0 < consistency_pair rates s t.
Proof.
  unfold consistency_loop. rewrite Zsum_pos.
  - split.
    + intros (x & Hx & Hp). apply in_map_iff in Hx.
      destruct Hx as (s & <- & Hs). apply Zsum_pos in Hp.
      * destruct Hp as (y & Hy & Hyp). apply in_map_iff in Hy.
        destruct Hy as (t & <- & Ht). exists s, t. repeat split; assumption.
      * intros y Hy. apply in_map_iff in Hy. destruct Hy as (t & <- & _).
        rewrite consistency_pair_count. apply count_inconsistent_nonneg.
    + intros (s & t & Hs & Ht & Hp).
      exists (Zsum (map (consistency_pair rates s) ts)). split.
      * apply in_map_iff. exists s. split; [reflexivity|exact Hs].
      * apply Zsum_pos.
        -- intros y Hy. apply in_map_iff in Hy. destruct Hy as (t' & <- & _).
           rewrite consistency_pair_count. apply count_inconsistent_nonneg.
        -- exists (consistency_pair rates s t). split; [|exact Hp].
           apply in_map_iff. exists t. split; [reflexivity|exact Ht].
  - intros x Hx. apply in_map_iff in Hx. destruct Hx as (s & <- & _).
    apply Zsum_nonneg. intros y Hy. apply in_map_iff in Hy.
    destruct Hy as (t & <- & _). rewrite consistency_pair_count.
    apply count_inconsistent_nonneg.
Qed.

(** A direct rate and its inverse whose product is off by more than the
    tolerance. *)
Definition inconsistent_pair (rates : list RateRow) : Prop :=
  exists direct reverse x y,
    In direct rates /\ In reverse rates
    /\ r_source_item_id direct = r_target_item_id reverse
    /\ r_target_item_id direct = r_source_item_id reverse
    /\ r_rate direct = Some x /\ r_rate reverse = Some y
    /\ product_off_one x y.

Definition in_rates (rates : list RateRow) (x : Z) : Prop :=
  exists r, In r rates /\ (r_source_item_id r = x \/ r_target_item_id r = x).

Definition in_prices (prices : list PriceRow) (x : Z) : Prop :=
  exists p, In p prices /\ p_item_id p = x.

Lemma in_map_field {A} (f : A -> Z) (l : list A) (x : Z) :
  In x (map f l) <-> exists r, In r l /\ f r = x.
Proof.
  rewrite in_map_iff. split; intros (r & H1 & H2); exists r; tauto.
Qed.

Lemma inconsistent_rates_flag (rates : list RateRow) :
  0 < consistency_loop rates (unique (map r_source_item_id rates))
        (unique (map r_target_item_id rates))
  <-> inconsistent_pair rates.
Proof.
  rewrite consistency_loop_pos. unfold inconsistent_pair. split.
  - intros (s & t & _ & _ & Hp). rewrite consistency_pair_count in Hp.
    apply count_inconsistent_pos in Hp. destruct Hp as (d & e & Hd & He & Hi).
    apply pair_rows_in in Hd. apply pair_rows_in in He.
    apply inconsistent_true in Hi. destruct Hi as (x & y & Hx & Hy & Hxy).
    exists d, e, x, y. destruct Hd as (Hd & Hds & Hdt).
    destruct He as (He & Hes & Het). repeat split; try assumption; congruence.
  - intros (d & e & x & y & Hd & He & Hs & Ht & Hx & Hy & Hxy).
    exists (r_source_item_id d), (r_target_item_id d). split; [|split].
    + apply unique_in. apply in_map. exact Hd.
    + apply unique_in. apply in_map. exact Hd.
    + rewrite consistency_pair_count. apply count_inconsistent_pos.
      exists d, e. split; [|split].
      * apply pair_rows_in. repeat split; [exact Hd].
      * apply pair_rows_in. repeat split; [exact He| |]; congruence.
      * apply inconsistent_true. exists x, y. repeat split; assumption.
Qed.

Lemma union_length (a b : list Z) :
  List.length (union a b)
  = (List.length a
     + List.length (filter (fun x => negb (existsb (Z.eqb x) a)) b))%nat.
Proof. unfold union. apply length_app. Qed.

Lemma filter_not_in (a b : list Z) (x : Z) :
  In x (filter (fun x => negb (existsb (Z.eqb x) a)) b)
  <-> In x b /\ ~ In x a.
Proof.
  rewrite filter_In, negb_true_iff. split; intros [H1 H2]; split; try exact H1.
  - intro Hin. apply existsb_Zeqb in Hin. congruence.
  - destruct (existsb (Z.eqb x) a) eqn:E; [|reflexivity].
    apply existsb_Zeqb in E. contradiction.
Qed.

Lemma union_in (a b : list Z) (x : Z) : In x (union a b) <-> In x a \/ In x b.
Proof.
  unfold union. rewrite in_app_iff, filter_not_in.
  destruct (in_dec Z.eq_dec x a); tauto.
Qed.

Lemma missing_items_meaning (prices : list PriceRow) (rates : list RateRow) :
  let price_items := unique (map p_item_id prices) in
  let all_items :=
    union (union price_items (unique (map r_source_item_id rates)))
          (unique (map r_target_item_id rates)) in
  exists l,
    NoDup l
    /\ (forall x, In x l <-> in_rates rates x /\ ~ in_prices prices x)
    /\ Z.of_nat (List.length all_items) - Z.of_nat (List.length price_items)
       = Z.of_nat (List.length l).
Proof.
  intros price_items all_items.
  set (ss := unique (map r_source_item_id rates)).
  set (ts := unique (map r_target_item_id rates)).
  set (l1 := filter (fun x => negb (existsb (Z.eqb x) price_items)) ss).
  set (l2 := filter (fun x => negb (existsb (Z.eqb x) (union price_items ss))) ts).
  exists (l1 ++ l2). split; [|split].
  - apply NoDup_app.
    + apply NoDup_filter. apply unique_nodup.
    + apply NoDup_filter. apply unique_nodup.
    + intros x H1 H2. unfold l1, l2 in *.
      apply filter_not_in in H1. apply filter_not_in in H2.
      apply (proj2 H2). apply union_in. right. apply H1.
  - intro x. rewrite in_app_iff. unfold l1, l2.
    rewrite !filter_not_in, union_in. unfold ss, ts, price_items.
    rewrite !unique_in, !in_map_field. unfold in_rates, in_prices. split.
    + intros [[(r & Hr & Hs) Hn]|[(r & Hr & Ht) Hn]].
      * split; [exists r; tauto|exact Hn].
      * split; [exists r; tauto|]. tauto.
    + intros [(r & Hr & [Hs|Ht]) Hn].
      * left. split; [exists r; tauto|exact Hn].
      * destruct (in_dec Z.eq_dec x (map r_source_item_id rates)) as [Hi|Hi].
        -- apply in_map_field in Hi. left. split; assumption.
        -- right. split; [exists r; tauto|].
           intros [Hp|Hs]; [exact (Hn Hp)|].
           apply Hi. apply in_map_field. exact Hs.
  - unfold all_items. rewrite !union_length, length_app.
    fold ss ts l1 l2. lia.
Qed.

(** The two rates of the scenario that fails: the product is 1.80. *)
Definition off_rates : list RateRow :=
  [ mkRateRow (TsStamp 0) 1 2 (Some (9 # 10)%Q) [];
    mkRateRow (TsStamp 0) 2 1 (Some (2 # 1)%Q) [] ].

Definition both_prices : list PriceRow :=
  [ mkPriceRow (TsStamp 0) 1 (Some (1 # 1)%Q) [];
    mkPriceRow (TsStamp 0) 2 (Some (1 # 1)%Q) [] ].

Definition off_report : consistency_report :=
  mkConsistencyReport 2 2 0 2 false.

(** C5: the consistency validator counts an inconsistency exactly when a
    direct rate and its inverse are both in the batch with a product that
    is off one by more than 0.01, the product, the difference and the
    comparison being those of the floats; [missing_items] is the number
    of the items that are in the rates and not in the prices; and the
    validation passes exactly when both counts are zero. *)
Theorem consistency_report_meaning (prices : list PriceRow)
    (rates : list RateRow) (r : consistency_report)
    (prices' : list PriceRow) (rates' : list RateRow) :
  validate_data_consistency prices rates = (Some r, prices', rates') ->
  (0 < inconsistent_rates r <-> inconsistent_pair rates)
  /\ 0 <= inconsistent_rates r
  /\ (exists l,
        NoDup l
        /\ (forall x, In x l <-> in_rates rates x /\ ~ in_prices prices x)
        /\ missing_items r = Z.of_nat (List.length l))
  /\ (consistency_passed r = true
      <-> inconsistent_rates r = 0 /\ missing_items r = 0).
Proof.
  unfold validate_data_consistency. intro H. injection H as <- _ _. simpl.
  split; [apply inconsistent_rates_flag|].
  split; [apply consistency_loop_nonneg|].
  split; [apply missing_items_meaning|].
  rewrite andb_true_iff, !Z.eqb_eq. tauto.
Qed.

Lemma consistency_report_meaning_witness :
  validate_data_consistency both_prices off_rates
    = (Some off_report, both_prices, off_rates)
  /\ ((0 < inconsistent_rates off_report <-> inconsistent_pair off_rates)
      /\ 0 <= inconsistent_rates off_report
      /\ (exists l,
            NoDup l
            /\ (forall x, In x l
                          <-> in_rates off_rates x /\ ~ in_prices both_prices x)
            /\ missing_items off_report = Z.of_nat (List.length l))
      /\ (consistency_passed off_report = true
          <-> inconsistent_rates off_report = 0
              /\ missing_items off_report = 0)).
Proof.
  split.
  - reflexivity.
  - apply (consistency_report_meaning both_prices off_rates off_report
             both_prices off_rates). reflexivity.
Defined.

(** The scenario within the tolerance: 0.90 * 1.10 = 0.99 passes. *)
Example near_rates_pass :
  validate_data_consistency both_prices
    [ mkRateRow (TsStamp 0) 1 2 (Some (9 # 10)%Q) [];
      mkRateRow (TsStamp 0) 2 1 (Some (11 # 10)%Q) [] ]
  = (Some (mkConsistencyReport 2 2 0 0 true), both_prices,
     [ mkRateRow (TsStamp 0) 1 2 (Some (9 # 10)%Q) [];
       mkRateRow (TsStamp 0) 2 1 (Some (11 # 10)%Q) [] ]).
Proof. reflexivity. Qed.

(** Rounding decides at the edge of the tolerance.  The product of the
    floats 0.625 and 1.584 is the float 0.99, and one less that float is
    0.010000000000000009 in absolute value, which is greater than the
    float 0.01: the pair is counted, from both sides.  The exact product
    of the two floats is within a hundredth of one. *)
Definition edge_rates : list RateRow :=
  [ mkRateRow (TsStamp 0) 1 2 (Some (625 # 1000)%Q) [];
    mkRateRow (TsStamp 0) 2 1 (Some (1584 # 1000)%Q) [] ].

Example edge_rates_fail :
  validate_data_consistency both_prices edge_rates
  = (Some (mkConsistencyReport 2 2 0 2 false), both_prices, edge_rates).
Proof. vm_compute. reflexivity. Qed.

Example edge_rates_exact_product :
  (Qabs ((625 # 1000) * (3566850904877433 # 2251799813685248) - 1)
   < 1 # 100)%Q
  /\ Float64.round (1584 # 1000)
     = Float64.Num (3566850904877433 # 2251799813685248).
Proof. split; [reflexivity|vm_compute; reflexivity]. Qed.

(** *** What the validators do to the frames they are given *)

(** A cell that is a datetime (or a null) already. *)
Definition converted (c : ts_cell) : bool :=
  match c with
  | TsStamp _ | TsNull => true
  | TsEpoch _ | TsBad => false
  end.

Lemma to_datetime_length (col col' : list ts_cell) :
  to_datetime col = Ok col' -> List.length col' = List.length col.
Proof.
  revert col'. induction col as [|c t IH]; simpl; intros col' H.
  - injection H as <-. reflexivity.
  - destruct (to_datetime_cell c) as [c'|e]; simpl in H; [|discriminate].
    destruct (to_datetime t) as [t'|e]; simpl in H; [|discriminate].
    injection H as <-. simpl. f_equal. apply IH. reflexivity.
Qed.

Lemma to_datetime_fixed (col : list ts_cell) :
  forallb converted col = true -> to_datetime col = Ok col.
Proof.
  induction col as [|c t IH]; simpl; intro H; [reflexivity|].
  apply andb_true_iff in H. destruct H as [Hc Ht].
  rewrite (IH Ht). destruct c; try discriminate; reflexivity.
Qed.

Lemma to_datetime_converted (col col' : list ts_cell) :
  to_datetime col = Ok col' -> forallb converted col' = true.
Proof.
  revert col'. induction col as [|c t IH]; simpl; intros col' H.
  - injection H as <-. reflexivity.
  - destruct (to_datetime_cell c) as [c'|e] eqn:Ec; simpl in H; [|discriminate].
    destruct (to_datetime t) as [t'|e]; simpl in H; [|discriminate].
    injection H as <-. simpl. rewrite (IH t' eq_refl), andb_true_r.
    destruct c as [n| | |]; simpl in Ec; try discriminate;
      try (injection Ec as <-; reflexivity).
    destruct (n =? int64_min)%Z; [injection Ec as <-; reflexivity|].
    destruct ((int64_min <? n)%Z && (n <=? int64_max)%Z); [|discriminate].
    injection Ec as <-. reflexivity.
Qed.

Lemma to_datetime_idempotent (col col' : list ts_cell) :
  to_datetime col = Ok col' -> to_datetime col' = Ok col'.
Proof.
  intro H. apply to_datetime_fixed. apply (to_datetime_converted _ _ H).
Qed.

(** Frames of prices. *)

Lemma assign_p_same (frame : list PriceRow) :
  assign_p_timestamp frame (map p_timestamp frame) = frame.
Proof.
  induction frame as [|r t IH]; simpl; [reflexivity|].
  rewrite IH. destruct r; reflexivity.
Qed.

Lemma assign_p_column (frame : list PriceRow) (col : list ts_cell) :
  List.length col = List.length frame ->
  map p_timestamp (assign_p_timestamp frame col) = col.
Proof.
  revert col. induction frame as [|r t IH]; intros [|c ct]; simpl;
    try discriminate; try reflexivity.
  intro H. injection H as H. rewrite (IH ct H). reflexivity.
Qed.

Lemma assign_p_twice (frame : list PriceRow) (col : list ts_cell) :
  assign_p_timestamp (assign_p_timestamp frame col) col
  = assign_p_timestamp frame col.
Proof.
  revert col. induction frame as [|r t IH]; intros [|c ct]; simpl;
    try reflexivity.
  rewrite IH. reflexivity.
Qed.

(** Frames of rates. *)

Lemma assign_r_same (frame : list RateRow) :
  assign_r_timestamp frame (map r_timestamp frame) = frame.
Proof.
  induction frame as [|r t IH]; simpl; [reflexivity|].
  rewrite IH. destruct r; reflexivity.
Qed.

Lemma assign_r_column (frame : list RateRow) (col : list ts_cell) :
  List.length col = List.length frame ->
  map r_timestamp (assign_r_timestamp frame col) = col.
Proof.
  revert col. induction frame as [|r t IH]; intros [|c ct]; simpl;
    try discriminate; try reflexivity.
  intro H. injection H as H. rewrite (IH ct H). reflexivity.
Qed.

Lemma assign_r_twice (frame : list RateRow) (col : list ts_cell) :
  assign_r_timestamp (assign_r_timestamp frame col) col
  = assign_r_timestamp frame col.
Proof.
  revert col. induction frame as [|r t IH]; intros [|c ct]; simpl;
    try reflexivity.
  rewrite IH. reflexivity.
Qed.

(** The columns that an assignment to [timestamp] leaves alone. *)
Definition p_rest (r : PriceRow) : Z * option Q * list cell :=
  (p_item_id r, p_price r, p_others r).

Definition r_rest (r : RateRow) : Z * Z * option Q * list cell :=
  (r_source_item_id r, r_target_item_id r, r_rate r, r_others r).

Lemma assign_p_rest (frame : list PriceRow) (col : list ts_cell) :
  map p_rest (assign_p_timestamp frame col) = map p_rest frame.
Proof.
  revert col. induction frame as [|r t IH]; intros [|c ct]; simpl;
    try reflexivity.
  rewrite IH. reflexivity.
Qed.

Lemma assign_r_rest (frame : list RateRow) (col : list ts_cell) :
  map r_rest (assign_r_timestamp frame col) = map r_rest frame.
Proof.
  revert col. induction frame as [|r t IH]; intros [|c ct]; simpl;
    try reflexivity.
  rewrite IH. reflexivity.
Qed.

(** The frame that a conversion leaves to the caller: converted when
    every cell converts, untouched when the conversion raises. *)
Definition convert_prices (prices : list PriceRow) : list PriceRow :=
  match to_datetime (map p_timestamp prices) with
  | Ok col => assign_p_timestamp prices col
  | Raise _ => prices
  end.

Definition convert_rates (rates : list RateRow) : list RateRow :=
  match to_datetime (map r_timestamp rates) with
  | Ok col => assign_r_timestamp rates col
  | Raise _ => rates
  end.

Lemma convert_prices_fixed (prices : list PriceRow) :
  forallb converted (map p_timestamp prices) = true ->
  convert_prices prices = prices.
Proof.
  intro H. unfold convert_prices. rewrite (to_datetime_fixed _ H).
  apply assign_p_same.
Qed.

Lemma convert_rates_fixed (rates : list RateRow) :
  forallb converted (map r_timestamp rates) = true ->
  convert_rates rates = rates.
Proof.
  intro H. unfold convert_rates. rewrite (to_datetime_fixed _ H).
  apply assign_r_same.
Qed.

Lemma convert_prices_rest (prices : list PriceRow) :
  map p_rest (convert_prices prices) = map p_rest prices.
Proof.
  unfold convert_prices. destruct (to_datetime _); [apply assign_p_rest|reflexivity].
Qed.

Lemma convert_rates_rest (rates : list RateRow) :
  map r_rest (convert_rates rates) = map r_rest rates.
Proof.
  unfold convert_rates. destruct (to_datetime _); [apply assign_r_rest|reflexivity].
Qed.

(** The price validator leaves the converted frame, and validating that
    frame again gives the same report and the same frame. *)
Lemma validate_price_data_frame (prices : list PriceRow) (lo hi : bound)
    (gap : option Z) :
  snd (validate_price_data prices lo hi gap) = convert_prices prices.
Proof.
  unfold validate_price_data, convert_prices.
  destruct (to_datetime (map p_timestamp prices)) as [col|e]; [|reflexivity].
  destruct (price_large_gaps _ _ _ _); reflexivity.
Qed.

Lemma validate_price_data_again (prices : list PriceRow) (lo hi : bound)
    (gap : option Z) :
  validate_price_data (snd (validate_price_data prices lo hi gap)) lo hi gap
  = validate_price_data prices lo hi gap.
Proof.
  rewrite validate_price_data_frame. unfold convert_prices.
  destruct (to_datetime (map p_timestamp prices)) as [col|e] eqn:E;
    [|reflexivity].
  unfold validate_price_data. rewrite E.
  pose proof (to_datetime_length _ _ E) as Hl. rewrite length_map in Hl.
  rewrite (assign_p_column _ _ Hl), (to_datetime_idempotent _ _ E).
  rewrite assign_p_twice. reflexivity.
Qed.

Lemma validate_rate_data_frame (rates : list RateRow) (lo hi : bound)
    (gap : option Z) :
  snd (validate_exchange_rate_data rates lo hi gap) = convert_rates rates.
Proof.
  unfold validate_exchange_rate_data, convert_rates.
  destruct (to_datetime (map r_timestamp rates)) as [col|e]; [|reflexivity].
  destruct (rate_large_gaps _ _ _ _ _); reflexivity.
Qed.

Lemma validate_rate_data_again (rates : list RateRow) (lo hi : bound)
    (gap : option Z) :
  validate_exchange_rate_data
    (snd (validate_exchange_rate_data rates lo hi gap)) lo hi gap
  = validate_exchange_rate_data rates lo hi gap.
Proof.
  rewrite validate_rate_data_frame. unfold convert_rates.
  destruct (to_datetime (map r_timestamp rates)) as [col|e] eqn:E;
    [|reflexivity].
  unfold validate_exchange_rate_data. rewrite E.
  pose proof (to_datetime_length _ _ E) as Hl. rewrite length_map in Hl.
  rewrite (assign_r_column _ _ Hl), (to_datetime_idempotent _ _ E).
  rewrite assign_r_twice. reflexivity.
Qed.

(** The completeness validator converts the prices, then the rates. *)
Definition completeness_frames (prices : list PriceRow) (rates : list RateRow)
    : list PriceRow * list RateRow :=
  match to_datetime (map p_timestamp prices) with
  | Raise _ => (prices, rates)
  | Ok _ => (convert_prices prices, convert_rates rates)
  end.

Definition frames_of {A} (out : A * list PriceRow * list RateRow)
    : list PriceRow * list RateRow :=
  (snd (fst out), snd out).

Lemma validate_completeness_frames (prices : list PriceRow)
    (rates : list RateRow) (start_date end_date : Z) (freq : option positive) :
  frames_of (validate_data_completeness prices rates start_date end_date freq)
  = completeness_frames prices rates.
Proof.
  unfold validate_data_completeness, completeness_frames, convert_prices,
    convert_rates, frames_of.
  destruct (to_datetime (map p_timestamp prices)) as [pcol|e]; [|reflexivity].
  destruct (to_datetime (map r_timestamp rates)) as [rcol|e]; [|reflexivity].
  destruct (date_range start_date end_date freq); reflexivity.
Qed.

Lemma validate_completeness_again (prices : list PriceRow)
    (rates : list RateRow) (start_date end_date : Z) (freq : option positive) :
  let out := validate_data_completeness prices rates start_date end_date freq in
  validate_data_completeness (fst (frames_of out)) (snd (frames_of out))
    start_date end_date freq
  = out.
Proof.
  intro out. subst out. rewrite validate_completeness_frames.
  unfold completeness_frames, convert_prices, convert_rates.
  destruct (to_datetime (map p_timestamp prices)) as [pcol|e] eqn:Ep;
    [|reflexivity].
  simpl fst. simpl snd.
  pose proof (to_datetime_length _ _ Ep) as Hp. rewrite length_map in Hp.
  unfold validate_data_completeness. rewrite Ep.
  rewrite (assign_p_column _ _ Hp), (to_datetime_idempotent _ _ Ep).
  rewrite assign_p_twice.
  destruct (to_datetime (map r_timestamp rates)) as [rcol|e] eqn:Er;
    [|rewrite Er; reflexivity].
  pose proof (to_datetime_length _ _ Er) as Hr. rewrite length_map in Hr.
  rewrite (assign_r_column _ _ Hr), (to_datetime_idempotent _ _ Er).
  rewrite assign_r_twice. reflexivity.
Qed.

Lemma completeness_frames_rest (prices : list PriceRow) (rates : list RateRow) :
  map p_rest (fst (completeness_frames prices rates)) = map p_rest prices
  /\ map r_rest (snd (completeness_frames prices rates)) = map r_rest rates.
Proof.
  unfold completeness_frames.
  destruct (to_datetime (map p_timestamp prices)) eqn:E; simpl.
  - split; [apply convert_prices_rest|apply convert_rates_rest].
  - split; reflexivity.
Qed.

Lemma completeness_frames_fixed (prices : list PriceRow) (rates : list RateRow) :
  forallb converted (map p_timestamp prices) = true ->
  forallb converted (map r_timestamp rates) = true ->
  completeness_frames prices rates = (prices, rates).
Proof.
  intros Hp Hr. unfold completeness_frames.
  rewrite (to_datetime_fixed _ Hp).
  rewrite (convert_prices_fixed _ Hp), (convert_rates_fixed _ Hr). reflexivity.
Qed.

(** Purity as the specification words it: no validator changes a frame
    that it is given. *)
Definition validators_leave_frames_unchanged : Prop :=
  (forall prices lo hi gap,
     snd (validate_price_data prices lo hi gap) = prices)
  /\ (forall rates lo hi gap,
        snd (validate_exchange_rate_data rates lo hi gap) = rates)
  /\ (forall prices rates,
        frames_of (validate_data_consistency prices rates) = (prices, rates))
  /\ (forall prices rates start_date end_date freq,
        frames_of (validate_data_completeness prices rates start_date
                     end_date freq)
        = (prices, rates)).

(** A frame whose time stamp is still an integer. *)
Definition raw_prices : list PriceRow :=
  [ mkPriceRow (TsEpoch 0) 7 (Some (5 # 1)%Q) [] ].

(** C8, counterexample: the price validator writes the converted time
    stamps into the frame of the caller. *)
Lemma price_validator_rewrites_timestamps :
  snd (validate_price_data raw_prices (Fin 0%Q) PosInf (Some (7 * day)))
    = [ mkPriceRow (TsStamp 0) 7 (Some (5 # 1)%Q) [] ]
  /\ ~ validators_leave_frames_unchanged.
Proof.
  split; [reflexivity|].
  intros [H _].
  specialize (H raw_prices (Fin 0%Q) PosInf (Some (7 * day))).
  discriminate H.
Qed.

(** C8, amended: the consistency validator changes neither frame.  The
    price, rate and completeness validators assign the converted
    [timestamp] column to the frames they are given and change no other
    column, so a frame whose time stamps are datetimes already is left as
    it was; and calling a validator again on the frames that it left
    returns the same report and leaves the same frames. *)
Theorem validators_frame_effect :
  (forall prices rates,
     frames_of (validate_data_consistency prices rates) = (prices, rates))
  /\ (forall prices lo hi gap,
        let out := validate_price_data prices lo hi gap in
        map p_rest (snd out) = map p_rest prices
        /\ (forallb converted (map p_timestamp prices) = true ->
            snd out = prices)
        /\ validate_price_data (snd out) lo hi gap = out)
  /\ (forall rates lo hi gap,
        let out := validate_exchange_rate_data rates lo hi gap in
        map r_rest (snd out) = map r_rest rates
        /\ (forallb converted (map r_timestamp rates) = true ->
            snd out = rates)
        /\ validate_exchange_rate_data (snd out) lo hi gap = out)
  /\ (forall prices rates start_date end_date freq,
        let out := validate_data_completeness prices rates start_date
                     end_date freq in
        map p_rest (fst (frames_of out)) = map p_rest prices
        /\ map r_rest (snd (frames_of out)) = map r_rest rates
        /\ (forallb converted (map p_timestamp prices) = true ->
            forallb converted (map r_timestamp rates) = true ->
            frames_of out = (prices, rates))
        /\ validate_data_completeness (fst (frames_of out))
             (snd (frames_of out)) start_date end_date freq
           = out).
Proof.
  split; [reflexivity|]. split; [|split].
  - intros prices lo hi gap out. subst out. split; [|split].
    + rewrite validate_price_data_frame. apply convert_prices_rest.
    + intro H. rewrite validate_price_data_frame.
      apply convert_prices_fixed. exact H.
    + apply validate_price_data_again.
  - intros rates lo hi gap out. subst out. split; [|split].
    + rewrite validate_rate_data_frame. apply convert_rates_rest.
    + intro H. rewrite validate_rate_data_frame.
      apply convert_rates_fixed. exact H.
    + apply validate_rate_data_again.
  - intros prices rates start_date end_date freq out. subst out.
    rewrite validate_completeness_frames.
    split; [apply completeness_frames_rest|].
    split; [apply completeness_frames_rest|].
    split; [apply completeness_frames_fixed|].
    rewrite <- validate_completeness_frames
      with (start_date := start_date) (end_date := end_date) (freq := freq).
    apply validate_completeness_again.
Qed.

(** *** When a batch passes the price or the rate validator *)

Lemma b2z_nonneg (b : bool) : 0 <= b2z b.
Proof. destruct b; simpl; lia. Qed.





(** *** What the counts of a report say of the rows *)
























(** *** A bound on the large gaps *)

Lemma count_gaps_bounds (d : Z) (col : list (option Z)) :
  0 <= count_gaps d col <= Z.of_nat (Nat.pred (List.length col)).
Proof.
  induction col as [|x t IH]; [simpl; lia|].
  destruct t as [|y t'].
  - destruct x; simpl; lia.
  - assert (H : count_gaps d (x :: y :: t')
                = count_gaps d (y :: t')
                  \/ exists a b, x = Some a /\ y = Some b
                       /\ count_gaps d (x :: y :: t')
                          = b2z (d <? b - a) + count_gaps d (y :: t')).
    { destruct x as [a|]; [|left; reflexivity].
      destruct y as [b|]; [|left; reflexivity].
      right. exists a, b. repeat split. }
    simpl List.length in *. simpl Nat.pred in *.
    destruct H as [H|(a & b & _ & _ & H)]; rewrite H.
    + lia.
    + pose proof (b2z_nonneg (d <? b - a)).
      assert (b2z (d <? b - a) <= 1) by (destruct (d <? b - a); simpl; lia).
      lia.
Qed.

Definition item_rows (prices : list PriceRow) (item_id : Z) : list PriceRow :=
  filter (fun r => p_item_id r =? item_id) prices.

Lemma price_large_gaps_bounds (prices : list PriceRow) (gap : option Z)
    (items : list Z) (acc g : Z) :
  (forall i, In i items -> item_rows prices i <> []) ->
  price_large_gaps prices gap items acc = Ok g ->
  acc <= g
  /\ g + Z.of_nat (List.length items)
     <= acc + Z.of_nat (list_sum (map (fun i => List.length (item_rows prices i))
                                      items)).
Proof.
  revert acc. induction items as [|i t IH]; intros acc Hne; simpl.
  - intro H. injection H as <-. lia.
  - unfold gaps_of. destruct gap as [d|]; simpl; [|discriminate].
    intro H. apply IH in H; [|intros j Hj; apply Hne; right; exact Hj].
    fold (item_rows prices i) in H.
    pose proof (count_gaps_bounds d
      (sort_by stamp_leb (map (fun r => stamp (p_timestamp r))
                              (item_rows prices i)))) as Hb.
    rewrite (Permutation_length (sort_by_perm stamp_leb _)), length_map in Hb.
    assert (Hlen : (0 < List.length (item_rows prices i))%nat).
    { specialize (Hne i (or_introl eq_refl)).
      destruct (item_rows prices i); [congruence|simpl; lia]. }
    lia.
Qed.

Lemma list_sum_indicator (items : list Z) (x : Z) :
  NoDup items -> In x items ->
  list_sum (map (fun i => if x =? i then 1%nat else 0%nat) items) = 1%nat.
Proof.
  induction 1 as [|i t Hnot Hnd IH]; intro Hx; [destruct Hx|].
  destruct Hx as [Hx|Hx]; simpl.
  - subst i. rewrite Z.eqb_refl.
    assert (H0 : list_sum (map (fun i => if x =? i then 1%nat else 0%nat) t)
                 = 0%nat).
    { clear IH Hnd. induction t as [|j t' IHt]; simpl; [reflexivity|].
      destruct (x =? j) eqn:E.
      - apply Z.eqb_eq in E. subst j. exfalso. apply Hnot. left. reflexivity.
      - apply IHt. intro H. apply Hnot. right. exact H. }
    rewrite H0. reflexivity.
  - destruct (x =? i) eqn:E.
    + apply Z.eqb_eq in E. subst i. contradiction.
    + simpl. apply IH. exact Hx.
Qed.

Lemma list_sum_split (f g h : Z -> nat) (items : list Z) :
  (forall i, f i = (g i + h i)%nat) ->
  list_sum (map f items)
  = (list_sum (map g items) + list_sum (map h items))%nat.
Proof.
  intro H. induction items as [|i t IH]; simpl; [reflexivity|].
  rewrite H, IH. lia.
Qed.

Lemma item_rows_cons (x : PriceRow) (t : list PriceRow) (i : Z) :
  List.length (item_rows (x :: t) i)
  = ((if (p_item_id x =? i)%Z then 1 else 0) + List.length (item_rows t i))%nat.
Proof.
  unfold item_rows. simpl. destruct (p_item_id x =? i); reflexivity.
Qed.

Lemma item_rows_partition (prices : list PriceRow) (items : list Z) :
  NoDup items ->
  (forall r, In r prices -> In (p_item_id r) items) ->
  list_sum (map (fun i => List.length (item_rows prices i)) items)
  = List.length prices.
Proof.
  intros Hnd. induction prices as [|x t IH]; intro Hall.
  - clear. induction items as [|i t IHi]; simpl; [reflexivity|exact IHi].
  - rewrite (list_sum_split _ _ _ items (item_rows_cons x t)).
    rewrite list_sum_indicator, IH; [reflexivity| | |].
    + intros r Hr. apply Hall. right. exact Hr.
    + exact Hnd.
    + apply Hall. left. reflexivity.
Qed.

Lemma validate_price_data_gaps (prices : list PriceRow) (lo hi : bound)
    (gap : option Z) (r : report) (after : list PriceRow) :
  validate_price_data prices lo hi gap = (Some r, after) ->
  total_records r = Z.of_nat (List.length after)
  /\ price_large_gaps after gap (unique (map p_item_id after)) 0
     = Ok (large_gaps r).
Proof.
  unfold validate_price_data.
  destruct (to_datetime (map p_timestamp prices)) as [col|e]; [|discriminate].
  destruct (price_large_gaps _ _ _ _) as [gaps|e] eqn:E; [|discriminate].
  intro H. injection H as <- <-. split; [reflexivity|exact E].
Qed.

(** The gaps lie between the readings of one item, so the count of the
    large gaps is at most the number of rows less the number of items;
    it is never negative. *)
Theorem large_gaps_bounded (prices : list PriceRow)
    (min_price max_price : bound) (max_gap : option Z)
    (r : report) (after : list PriceRow) :
  validate_price_data prices min_price max_price max_gap = (Some r, after) ->
  0 <= large_gaps r
  /\ large_gaps r + Z.of_nat (List.length (unique (map p_item_id after)))
     <= total_records r.
Proof.
  intro H. apply validate_price_data_gaps in H. destruct H as [Ht Hg].
  apply price_large_gaps_bounds in Hg.
  - rewrite item_rows_partition in Hg.
    + rewrite Ht. lia.
    + apply unique_nodup.
    + intros row Hrow. apply unique_in. apply in_map. exact Hrow.
  - intros i Hi. apply (proj1 (unique_in _ _)) in Hi. apply in_map_iff in Hi.
    destruct Hi as (row & Hid & Hrow). intro E.
    assert (Hin : In row (item_rows after i)).
    { apply filter_In. split; [exact Hrow|]. apply Z.eqb_eq. exact Hid. }
    rewrite E in Hin. destruct Hin.
Qed.

Lemma large_gaps_bounded_witness :
  validate_price_data gapped_prices (Fin 0%Q) PosInf (Some (7 * day))
    = (Some gapped_report, gapped_prices)
  /\ (0 <= large_gaps gapped_report
      /\ large_gaps gapped_report
         + Z.of_nat (List.length (unique (map p_item_id gapped_prices)))
         <= total_records gapped_report).
Proof.
  split.
  - reflexivity.
  - apply (large_gaps_bounded gapped_prices (Fin 0%Q) PosInf
             (Some (7 * day)) gapped_report gapped_prices). reflexivity.
Defined.

(** *** When a batch is complete *)

(** The instant that a cell of the time stamps stands for. *)
Definition instant_of (c : ts_cell) : option Z :=
  match c with
  | TsEpoch n => if (n =? int64_min)%Z then None else Some n
  | TsStamp n => Some n
  | TsNull | TsBad => None
  end.

Lemma to_datetime_instants (col col' : list ts_cell) :
  to_datetime col = Ok col' -> map stamp col' = map instant_of col.
Proof.
  revert col'. induction col as [|c t IH]; simpl; intros col' H.
  - injection H as <-. reflexivity.
  - destruct (to_datetime_cell c) as [c'|e] eqn:Ec; simpl in H; [|discriminate].
    destruct (to_datetime t) as [t'|e]; simpl in H; [|discriminate].
    injection H as <-. simpl. rewrite (IH t' eq_refl). f_equal.
    destruct c as [n| | |]; simpl in Ec; try discriminate;
      try (injection Ec as <-; reflexivity).
    simpl. destruct (n =? int64_min)%Z; [injection Ec as <-; reflexivity|].
    destruct ((int64_min <? n)%Z && (n <=? int64_max)%Z); [|discriminate].
    injection Ec as <-. reflexivity.
Qed.

Definition price_sightings (frame : list PriceRow) : list (Z * option Z) :=
  map (fun r => (p_item_id r, stamp (p_timestamp r))) frame.

Definition rate_sightings (frame : list RateRow) : list (Z * Z * option Z) :=
  map (fun r => (r_source_item_id r, r_target_item_id r,
                 stamp (r_timestamp r))) frame.

Lemma converted_price_sightings (prices : list PriceRow) (col : list ts_cell) :
  to_datetime (map p_timestamp prices) = Ok col ->
  price_sightings (assign_p_timestamp prices col)
  = map (fun r => (p_item_id r, instant_of (p_timestamp r))) prices.
Proof.
  intro H. pose proof (to_datetime_instants _ _ H) as Hi.
  pose proof (to_datetime_length _ _ H) as Hl. rewrite length_map in Hl.
  clear H. revert col Hi Hl.
  induction prices as [|r t IH]; intros [|c ct] Hi Hl; simpl in *;
    try discriminate; [reflexivity|].
  injection Hi as Hc Hi. injection Hl as Hl.
  unfold price_sightings in *. simpl. rewrite Hc, (IH ct Hi Hl). reflexivity.
Qed.

Lemma converted_rate_sightings (rates : list RateRow) (col : list ts_cell) :
  to_datetime (map r_timestamp rates) = Ok col ->
  rate_sightings (assign_r_timestamp rates col)
  = map (fun r => (r_source_item_id r, r_target_item_id r,
                   instant_of (r_timestamp r))) rates.
Proof.
  intro H. pose proof (to_datetime_instants _ _ H) as Hi.
  pose proof (to_datetime_length _ _ H) as Hl. rewrite length_map in Hl.
  clear H. revert col Hi Hl.
  induction rates as [|r t IH]; intros [|c ct] Hi Hl; simpl in *;
    try discriminate; [reflexivity|].
  injection Hi as Hc Hi. injection Hl as Hl.
  unfold rate_sightings in *. simpl. rewrite Hc, (IH ct Hi Hl). reflexivity.
Qed.

Lemma count_zero {A} (f : A -> bool) (l : list A) :
  count f l = 0 <-> forall x, In x l -> f x = false.
Proof.
  split.
  - intros H x Hx. destruct (f x) eqn:E; [|reflexivity].
    assert (0 < count f l) by (apply count_pos; exists x; split; assumption).
    lia.
  - intro H. pose proof (count_nonneg f l).
    destruct (Z.eq_dec (count f l) 0) as [E|E]; [exact E|].
    assert (Hp : 0 < count f l) by lia.
    apply count_pos in Hp. destruct Hp as (x & Hx & Hf).
    rewrite (H x Hx) in Hf. discriminate.
Qed.

Lemma Zsum_zero (l : list Z) :
  (forall x, In x l -> 0 <= x) ->
  (Zsum l = 0 <-> forall x, In x l -> x = 0).
Proof.
  intro Hn. split.
  - intros H x Hx. specialize (Hn x Hx) as Hx0.
    destruct (Z.eq_dec x 0) as [E|E]; [exact E|].
    assert (0 < Zsum l) by (apply (Zsum_pos l Hn); exists x; split; [exact Hx|lia]).
    lia.
  - intro H. pose proof (Zsum_nonneg l Hn).
    destruct (Z.eq_dec (Zsum l) 0) as [E|E]; [exact E|].
    assert (Hp : 0 < Zsum l) by lia.
    apply (Zsum_pos l Hn) in Hp. destruct Hp as (x & Hx & Hxp).
    rewrite (H x Hx) in Hxp. lia.
Qed.

Lemma missing_dates_nonneg (range : list Z) (dates : list (option Z)) :
  0 <= missing_dates range dates.
Proof. apply count_nonneg. Qed.

Lemma missing_dates_zero (range : list Z) (dates : list (option Z)) :
  missing_dates range dates = 0 <-> forall d, In d range -> In (Some d) dates.
Proof.
  unfold missing_dates. rewrite count_zero. split; intros H d Hd.
  - specialize (H d Hd). apply negb_false_iff in H.
    apply existsb_exists in H. destruct H as ([x|] & Hx & E); [|discriminate].
    apply Z.eqb_eq in E. subst x. exact Hx.
  - apply negb_false_iff. apply existsb_exists. exists (Some d).
    split; [apply H; exact Hd|apply Z.eqb_refl].
Qed.

Lemma date_range_in (start_date end_date : Z) (step : positive) (d : Z) :
  In d (map (fun k => start_date + Z.of_nat k * Z.pos step)
            (seq 0 (Z.to_nat ((end_date - start_date) / Z.pos step + 1))))
  <-> exists k : nat, d = start_date + Z.of_nat k * Z.pos step /\ d <= end_date.
Proof.
  rewrite in_map_iff. split.
  - intros (k & <- & Hk). apply in_seq in Hk. exists k. split; [reflexivity|].
    assert (Hq : Z.of_nat k <= (end_date - start_date) / Z.pos step) by lia.
    pose proof (Z.mul_div_le (end_date - start_date) (Z.pos step)
                  (Pos2Z.is_pos step)).
    nia.
  - intros (k & -> & Hle). exists k. split; [reflexivity|].
    apply in_seq. split; [lia|].
    assert (Hq : Z.of_nat k <= (end_date - start_date) / Z.pos step).
    { apply Z.div_le_lower_bound; [apply Pos2Z.is_pos|]. nia. }
    lia.
Qed.

Lemma price_item_dates (frame : list PriceRow) (i d : Z) :
  In (Some d) (map (fun r => stamp (p_timestamp r))
                   (filter (fun r => p_item_id r =? i) frame))
  <-> In (i, Some d) (price_sightings frame).
Proof.
  unfold price_sightings. rewrite !in_map_iff. split.
  - intros (r & Hs & Hr). apply filter_In in Hr. destruct Hr as [Hr Hi].
    apply Z.eqb_eq in Hi. exists r. split; [congruence|exact Hr].
  - intros (r & Hp & Hr). injection Hp as Hi Hs. exists r.
    split; [exact Hs|]. apply filter_In. split; [exact Hr|].
    apply Z.eqb_eq. exact Hi.
Qed.

Lemma rate_pair_dates (frame : list RateRow) (a b d : Z) :
  In (Some d) (map (fun r => stamp (r_timestamp r)) (pair_rows frame a b))
  <-> In (a, b, Some d) (rate_sightings frame).
Proof.
  unfold rate_sightings. rewrite !in_map_iff. split.
  - intros (r & Hs & Hr). apply pair_rows_in in Hr.
    destruct Hr as (Hr & Ha & Hb). exists r. split; [congruence|exact Hr].
  - intros (r & Hp & Hr). injection Hp as Ha Hb Hs. exists r.
    split; [exact Hs|]. apply pair_rows_in. repeat split; assumption.
Qed.

Lemma missing_price_loop_zero (frame : list PriceRow) (range items : list Z) :
  missing_price_loop frame range items = 0
  <-> forall i d, In i items -> In d range ->
        In (i, Some d) (price_sightings frame).
Proof.
  unfold missing_price_loop. rewrite Zsum_zero.
  - split.
    + intros H i d Hi Hd. apply price_item_dates.
      apply (proj1 (missing_dates_zero range _)); [|exact Hd].
      apply H. apply in_map_iff. exists i. split; [reflexivity|exact Hi].
    + intros H x Hx. apply in_map_iff in Hx. destruct Hx as (i & <- & Hi).
      apply missing_dates_zero. intros d Hd. apply price_item_dates.
      apply H; assumption.
  - intros x Hx. apply in_map_iff in Hx. destruct Hx as (i & <- & _).
    apply missing_dates_nonneg.
Qed.

Lemma missing_rate_loop_zero (frame : list RateRow)
    (range sources targets : list Z) :
  missing_rate_loop frame range sources targets = 0
  <-> forall a b d, In a sources -> In b targets -> In d range ->
        In (a, b, Some d) (rate_sightings frame).
Proof.
  unfold missing_rate_loop.
  assert (Hinner : forall a x,
            In x (map (fun b => missing_dates range
                        (map (fun r => stamp (r_timestamp r))
                             (pair_rows frame a b))) targets) -> 0 <= x).
  { intros a x Hx. apply in_map_iff in Hx. destruct Hx as (b & <- & _).
    apply missing_dates_nonneg. }
  rewrite Zsum_zero.
  - split.
    + intros H a b d Ha Hb Hd. apply rate_pair_dates.
      apply (proj1 (missing_dates_zero range _)); [|exact Hd].
      apply (proj1 (Zsum_zero _ (Hinner a))).
      * apply H. apply in_map_iff. exists a. split; [reflexivity|exact Ha].
      * apply in_map_iff. exists b. split; [reflexivity|exact Hb].
    + intros H x Hx. apply in_map_iff in Hx. destruct Hx as (a & <- & Ha).
      apply (Zsum_zero _ (Hinner a)). intros y Hy. apply in_map_iff in Hy.
      destruct Hy as (b & <- & Hb). apply missing_dates_zero.
      intros d Hd. apply rate_pair_dates. apply H; assumption.
  - intros x Hx. apply in_map_iff in Hx. destruct Hx as (a & <- & _).
    apply Zsum_nonneg. apply Hinner.
Qed.

(** A price row, or a rate row, seen at an instant in the frame as it was
    given. *)
Definition price_seen (prices : list PriceRow) (i d : Z) : Prop :=
  exists row, In row prices /\ p_item_id row = i
              /\ instant_of (p_timestamp row) = Some d.

Definition rate_seen (rates : list RateRow) (a b d : Z) : Prop :=
  exists row, In row rates /\ r_source_item_id row = a
              /\ r_target_item_id row = b
              /\ instant_of (r_timestamp row) = Some d.

(** What it takes to pass: at every instant of the range every item of
    the prices has a price, and every source item of the rates has a rate
    to every target item of the rates, also to those it is never paired
    with. *)
Definition complete (prices : list PriceRow) (rates : list RateRow)
    (start_date end_date : Z) (step : positive) : Prop :=
  forall k : nat,
    start_date + Z.of_nat k * Z.pos step <= end_date ->
    (forall row, In row prices ->
       price_seen prices (p_item_id row)
         (start_date + Z.of_nat k * Z.pos step))
    /\ (forall ra rb, In ra rates -> In rb rates ->
          rate_seen rates (r_source_item_id ra) (r_target_item_id rb)
            (start_date + Z.of_nat k * Z.pos step)).

Lemma sightings_price_seen (prices : list PriceRow) (i d : Z) :
  In (i, Some d) (map (fun r => (p_item_id r, instant_of (p_timestamp r)))
                      prices)
  <-> price_seen prices i d.
Proof.
  unfold price_seen. rewrite in_map_iff. split.
  - intros (r & Hp & Hr). injection Hp as Hi Hs. exists r. repeat split;
      assumption.
  - intros (r & Hr & Hi & Hs). exists r. split; [congruence|exact Hr].
Qed.

Lemma sightings_rate_seen (rates : list RateRow) (a b d : Z) :
  In (a, b, Some d)
     (map (fun r => (r_source_item_id r, r_target_item_id r,
                     instant_of (r_timestamp r))) rates)
  <-> rate_seen rates a b d.
Proof.
  unfold rate_seen. rewrite in_map_iff. split.
  - intros (r & Hp & Hr). injection Hp as Ha Hb Hs. exists r. repeat split;
      assumption.
  - intros (r & Hr & Ha & Hb & Hs). exists r. split; [congruence|exact Hr].
Qed.

Lemma assign_p_ids (frame : list PriceRow) (col : list ts_cell) :
  map p_item_id (assign_p_timestamp frame col) = map p_item_id frame.
Proof.
  revert col. induction frame as [|r t IH]; intros [|c ct]; simpl;
    try reflexivity.
  rewrite IH. reflexivity.
Qed.

Lemma assign_r_ids (frame : list RateRow) (col : list ts_cell) :
  map r_source_item_id (assign_r_timestamp frame col)
    = map r_source_item_id frame
  /\ map r_target_item_id (assign_r_timestamp frame col)
     = map r_target_item_id frame.
Proof.
  revert col. induction frame as [|r t IH]; intros [|c ct]; simpl;
    try (split; reflexivity).
  destruct (IH ct) as [H1 H2]. rewrite H1, H2. split; reflexivity.
Qed.

(** Five daily instants and a frame that has item 7 at each of them. *)
Definition five_days : list PriceRow :=
  map (fun k => mkPriceRow (TsEpoch (k * day)) 7 (Some (5 # 1)%Q) [])
      [0; 1; 2; 3; 4].

Definition five_days_report : completeness_report :=
  mkCompletenessReport 5 0 0 true.

(** The completeness validator passes exactly when the batch is
    complete, and it reports as many periods as the range has instants. *)
Theorem completeness_passes_iff_complete (prices : list PriceRow)
    (rates : list RateRow) (start_date end_date : Z) (step : positive)
    (r : completeness_report) (prices' : list PriceRow)
    (rates' : list RateRow) :
  validate_data_completeness prices rates start_date end_date (Some step)
    = (Some r, prices', rates') ->
  total_periods r
    = Z.max 0 ((end_date - start_date) / Z.pos step + 1)
  /\ (completeness_passed r = true
      <-> complete prices rates start_date end_date step).
Proof.
  unfold validate_data_completeness.
  destruct (to_datetime (map p_timestamp prices)) as [pcol|e] eqn:Ep;
    [|discriminate].
  destruct (to_datetime (map r_timestamp rates)) as [rcol|e] eqn:Er;
    [|discriminate].
  unfold date_range. intro H. injection H as <- _ _.
  cbn [total_periods completeness_passed]. split.
  - rewrite length_map, length_seq. lia.
  - rewrite andb_true_iff, !Z.eqb_eq.
    rewrite missing_price_loop_zero, missing_rate_loop_zero.
    rewrite (converted_price_sightings _ _ Ep).
    rewrite (converted_rate_sightings _ _ Er).
    rewrite assign_p_ids.
    destruct (assign_r_ids rates rcol) as [Hs Ht]. rewrite Hs, Ht.
    unfold complete. split.
    + intros [Hp Hr] k Hk.
      assert (Hd : In (start_date + Z.of_nat k * Z.pos step)
                     (map (fun k => start_date + Z.of_nat k * Z.pos step)
                        (seq 0 (Z.to_nat ((end_date - start_date)
                                          / Z.pos step + 1)))))
        by (apply date_range_in; exists k; split; [reflexivity|exact Hk]).
      split.
      * intros row Hrow. apply sightings_price_seen. apply Hp; [|exact Hd].
        apply unique_in. apply in_map. exact Hrow.
      * intros ra rb Hra Hrb. apply sightings_rate_seen.
        apply Hr; [| |exact Hd]; apply unique_in; apply in_map; assumption.
    + intro H. split.
      * intros i d Hi Hd. apply (proj1 (unique_in _ _)) in Hi.
        apply in_map_iff in Hi. destruct Hi as (row & <- & Hrow).
        apply date_range_in in Hd. destruct Hd as (k & -> & Hk).
        apply sightings_price_seen. apply (proj1 (H k Hk)). exact Hrow.
      * intros a b d Ha Hb Hd.
        apply (proj1 (unique_in _ _)) in Ha.
        apply (proj1 (unique_in _ _)) in Hb.
        apply in_map_iff in Ha. destruct Ha as (ra & <- & Hra).
        apply in_map_iff in Hb. destruct Hb as (rb & <- & Hrb).
        apply date_range_in in Hd. destruct Hd as (k & -> & Hk).
        apply sightings_rate_seen. apply (proj2 (H k Hk)); assumption.
Qed.

Lemma completeness_passes_iff_complete_witness :
  validate_data_completeness five_days [] 0 (4 * day)
      (Some 86400000000000%positive)
    = (Some five_days_report,
       map (fun k => mkPriceRow (TsStamp (k * day)) 7 (Some (5 # 1)%Q) [])
           [0; 1; 2; 3; 4], [])
  /\ (total_periods five_days_report
        = Z.max 0 ((4 * day - 0) / Z.pos 86400000000000 + 1)
      /\ (completeness_passed five_days_report = true
          <-> complete five_days [] 0 (4 * day) 86400000000000)).
Proof.
  split.
  - reflexivity.
  - apply (completeness_passes_iff_complete five_days [] 0 (4 * day)
             86400000000000 five_days_report
             (map (fun k => mkPriceRow (TsStamp (k * day)) 7 (Some (5 # 1)%Q) [])
                  [0; 1; 2; 3; 4]) []).
    reflexivity.
Defined.

End ValidateFacts.

(** ** The value graph *)

Module GraphFacts.

Import Graph.

Lemma node_eqb_eq (a b : node) : node_eqb a b = true <-> a = b.
Proof.
  destruct a, b; simpl; try (split; [discriminate|discriminate]).
  - split; reflexivity.
  - rewrite Z.eqb_eq. split; [intros ->; reflexivity|intro H; injection H; auto].
Qed.

Lemma node_eqb_refl (a : node) : node_eqb a a = true.
Proof. apply node_eqb_eq. reflexivity. Qed.

Lemma node_eqb_neq (a b : node) : node_eqb a b = false <-> a <> b.
Proof.
  split.
  - intros H E. apply node_eqb_eq in E. congruence.
  - intro H. destruct (node_eqb a b) eqn:E; [|reflexivity].
    apply node_eqb_eq in E. contradiction.
Qed.

Lemma node_eqb_sym (a b : node) : node_eqb a b = node_eqb b a.
Proof.
  destruct (node_eqb a b) eqn:E.
  - apply node_eqb_eq in E. subst. symmetry. apply node_eqb_refl.
  - apply node_eqb_neq in E. symmetry. apply node_eqb_neq. congruence.
Qed.

(** *** Dictionaries *)

Lemma lookup_insert {A} (m : list (node * A)) (k k' : node) (v : A) :
  lookup (insert k v m) k' = if node_eqb k k' then Some v else lookup m k'.
Proof.
  unfold lookup, insert. simpl. destruct (node_eqb k k'); reflexivity.
Qed.

Lemma lookup_insert_eq {A} (m : list (node * A)) (k : node) (v : A) :
  lookup (insert k v m) k = Some v.
Proof. rewrite lookup_insert, node_eqb_refl. reflexivity. Qed.

Lemma lookup_insert_neq {A} (m : list (node * A)) (k k' : node) (v : A) :
  k <> k' -> lookup (insert k v m) k' = lookup m k'.
Proof.
  intro H. rewrite lookup_insert. apply node_eqb_neq in H. rewrite H.
  reflexivity.
Qed.

(** *** The heap *)

Lemma entry_leb_true (a b : entry) :
  Float64Facts.nonneg (entry_dist a) -> Float64Facts.nonneg (entry_dist b) ->
  entry_leb a b = true -> Float64Facts.fle (entry_dist a) (entry_dist b).
Proof.
  intros Ha Hb H. unfold entry_leb in H. apply orb_true_iff in H.
  destruct H as [H|H].
  - apply Float64Facts.ltb_true_fle; assumption.
  - apply andb_true_iff in H. destruct H as [H _].
    apply Float64Facts.eqb_fle; assumption.
Qed.

Lemma entry_leb_false (a b : entry) :
  Float64Facts.nonneg (entry_dist a) -> Float64Facts.nonneg (entry_dist b) ->
  entry_leb a b = false -> Float64Facts.fle (entry_dist b) (entry_dist a).
Proof.
  intros Ha Hb H. unfold entry_leb in H. apply orb_false_iff in H.
  destruct H as [H _]. apply Float64Facts.ltb_false_fle; assumption.
Qed.

Lemma pop_min_none (l : list entry) : pop_min l = None -> l = [].
Proof.
  destruct l as [|x t]; [reflexivity|]. simpl.
  destruct (pop_min t) as [[m r]|]; [|discriminate].
  destruct (entry_leb x m); discriminate.
Qed.

Lemma pop_min_some (l : list entry) (m : entry) (r : list entry) :
  pop_min l = Some (m, r) ->
  (forall e, In e l <-> e = m \/ In e r)
  /\ List.length l = S (List.length r).
Proof.
  revert m r. induction l as [|x t IH]; intros m r; simpl; [discriminate|].
  destruct (pop_min t) as [[m' r']|] eqn:E.
  - destruct (IH m' r' eq_refl) as (Hin & Hlen).
    destruct (entry_leb x m') eqn:L; intro H; injection H as <- <-.
    + split.
      * intro e. split; intros [H|H]; auto.
      * reflexivity.
    + split.
      * intro e. simpl. rewrite Hin. split.
        -- intros [H|[H|H]]; auto.
        -- intros [H|[H|H]]; auto.
      * simpl. rewrite Hlen. reflexivity.
  - intro H. injection H as <- <-. apply pop_min_none in E. subst t.
    split.
    + intro e. simpl. split; intros [H|H]; auto.
    + reflexivity.
Qed.

(** The entry taken off the heap is a least one, when no distance on
    the heap is negative or a NaN. *)
Lemma pop_min_least (l : list entry) (m : entry) (r : list entry) :
  (forall e, In e l -> Float64Facts.nonneg (entry_dist e)) ->
  pop_min l = Some (m, r) ->
  forall e, In e l -> Float64Facts.fle (entry_dist m) (entry_dist e).
Proof.
  revert m r. induction l as [|x t IH]; intros m r Hn; simpl; [discriminate|].
  assert (Hx : Float64Facts.nonneg (entry_dist x))
    by (apply Hn; left; reflexivity).
  assert (Ht : forall e, In e t -> Float64Facts.nonneg (entry_dist e))
    by (intros e He; apply Hn; right; exact He).
  destruct (pop_min t) as [[m' r']|] eqn:E.
  - pose proof (IH m' r' Ht eq_refl) as Hmin.
    assert (Hm' : Float64Facts.nonneg (entry_dist m')).
    { apply Ht. apply (proj1 (pop_min_some t m' r' E)). left. reflexivity. }
    destruct (entry_leb x m') eqn:L; intro H; injection H as <- <-.
    + intros e [<-|He]; [apply Float64Facts.fle_refl; exact Hx|].
      apply Float64Facts.fle_trans with (entry_dist m').
      * apply entry_leb_true; assumption.
      * apply Hmin. exact He.
    + intros e [<-|He]; [apply entry_leb_false; assumption|].
      apply Hmin. exact He.
  - intro H. injection H as <- <-. apply pop_min_none in E. subst t.
    intros e [<-|[]]. apply Float64Facts.fle_refl. exact Hx.
Qed.

(** *** The two directions of a state *)

Lemma side_of_with_side (dir : bool) (sd : side) (st : bstate) :
  side_of dir (with_side dir sd st) = sd.
Proof. destruct dir; reflexivity. Qed.

Lemma side_of_with_side_other (dir : bool) (sd : side) (st : bstate) :
  side_of (negb dir) (with_side dir sd st) = side_of (negb dir) st.
Proof. destruct dir; reflexivity. Qed.

Lemma side_of_ext (dir : bool) (st st' : bstate) :
  forward st' = forward st -> backward st' = backward st ->
  side_of dir st' = side_of dir st.
Proof. intros Hf Hb. destruct dir; simpl; assumption. Qed.

(** The state after the push of [x] at distance [a], with the path [p],
    in the direction [dir]. *)
Definition push (dir : bool) (x : node) (a : Float64.float) (p : list node)
    (st : bstate) : bstate :=
  with_side dir
    (mkSide (dists (side_of dir st))
            (insert x a (seen (side_of dir st)))
            (insert x p (paths (side_of dir st)))
            ((a, counter st, x) :: fringe (side_of dir st)))
    (mkB (forward st) (backward st) (S (counter st))
         (finaldist st) (finalpath st)).

(** The state after an entry was taken off the heap of [dir], and after
    its node was settled. *)
Definition popped (dir : bool) (rest : list entry) (st : bstate) : bstate :=
  with_side dir
    (mkSide (dists (side_of dir st)) (seen (side_of dir st))
            (paths (side_of dir st)) rest) st.

Definition settled (dir : bool) (v : node) (d : Float64.float)
    (rest : list entry) (st : bstate) : bstate :=
  with_side dir
    (mkSide (insert v d (dists (side_of dir st))) (seen (side_of dir st))
            (paths (side_of dir st)) rest)
    (popped dir rest st).

Lemma side_of_push (dir : bool) (x : node) (a : Float64.float)
    (p : list node) (st : bstate) :
  side_of dir (push dir x a p st)
  = mkSide (dists (side_of dir st))
           (insert x a (seen (side_of dir st)))
           (insert x p (paths (side_of dir st)))
           ((a, counter st, x) :: fringe (side_of dir st)).
Proof. destruct dir; reflexivity. Qed.

Lemma side_of_push_other (dir : bool) (x : node) (a : Float64.float)
    (p : list node) (st : bstate) :
  side_of (negb dir) (push dir x a p st) = side_of (negb dir) st.
Proof. destruct dir; reflexivity. Qed.

Lemma final_of_push (dir : bool) (x : node) (a : Float64.float)
    (p : list node) (st : bstate) :
  finalpath (push dir x a p st) = finalpath st
  /\ finaldist (push dir x a p st) = finaldist st.
Proof. destruct dir; split; reflexivity. Qed.

Lemma side_of_popped (dir : bool) (rest : list entry) (st : bstate) :
  side_of dir (popped dir rest st)
  = mkSide (dists (side_of dir st)) (seen (side_of dir st))
           (paths (side_of dir st)) rest.
Proof. destruct dir; reflexivity. Qed.

Lemma side_of_popped_other (dir : bool) (rest : list entry) (st : bstate) :
  side_of (negb dir) (popped dir rest st) = side_of (negb dir) st.
Proof. destruct dir; reflexivity. Qed.

Lemma final_of_popped (dir : bool) (rest : list entry) (st : bstate) :
  finalpath (popped dir rest st) = finalpath st
  /\ finaldist (popped dir rest st) = finaldist st.
Proof. destruct dir; split; reflexivity. Qed.

Lemma side_of_settled (dir : bool) (v : node) (d : Float64.float)
    (rest : list entry) (st : bstate) :
  side_of dir (settled dir v d rest st)
  = mkSide (insert v d (dists (side_of dir st))) (seen (side_of dir st))
           (paths (side_of dir st)) rest.
Proof. destruct dir; reflexivity. Qed.

Lemma side_of_settled_other (dir : bool) (v : node) (d : Float64.float)
    (rest : list entry) (st : bstate) :
  side_of (negb dir) (settled dir v d rest st) = side_of (negb dir) st.
Proof. destruct dir; reflexivity. Qed.

Lemma final_of_settled (dir : bool) (v : node) (d : Float64.float)
    (rest : list entry) (st : bstate) :
  finalpath (settled dir v d rest st) = finalpath st
  /\ finaldist (settled dir v d rest st) = finaldist st.
Proof. destruct dir; split; reflexivity. Qed.

(** One neighbour of the loop of [relax], and one turn of [search]. *)
Lemma relax_cons (w : weight_name) (dir : bool) (v : node)
    (d : Float64.float) (x : node) (e : edge_attrs)
    (rest : list (node * edge_attrs)) (st : bstate) :
  relax w dir v d ((x, e) :: rest) st
  = let a := plus w d (read_cost w e) in
    match lookup (dists (side_of dir st)) x with
    | Some x_dist =>
        if Float64.ltb a x_dist
        then Raise (ValueError "Contradictory paths found: negative weights?")
        else relax w dir v d rest st
    | None =>
        if match lookup (seen (side_of dir st)) x with
           | None => true
           | Some x_seen => Float64.ltb a x_seen
           end
        then
          match lookup (paths (side_of dir st)) v with
          | None => Raise KeyError
          | Some pv =>
              match meet w x (push dir x a (pv ++ [x]) st) with
              | Raise err => Raise err
              | Ok st' => relax w dir v d rest st'
              end
          end
        else relax w dir v d rest st
    end.
Proof. reflexivity. Qed.

Lemma search_turn (turns : nat) (g : DiGraph) (w : weight_name) (dir : bool)
    (st : bstate) :
  search (S turns) g w dir st
  = if is_empty (fringe (forward st)) || is_empty (fringe (backward st))
    then Some (Raise NetworkXNoPath)
    else
      match pop_min (fringe (side_of (negb dir) st)) with
      | None => Some (Raise NetworkXNoPath)
      | Some ((d, _, v), rest) =>
          match lookup (dists (side_of (negb dir) st)) v with
          | Some _ => search turns g w (negb dir) (popped (negb dir) rest st)
          | None =>
              match lookup (dists (side_of (negb (negb dir))
                                     (settled (negb dir) v d rest st))) v with
              | Some _ => Some (Ok (finalpath (settled (negb dir) v d rest st)))
              | None =>
                  match relax w (negb dir) v d (neighbours g (negb dir) v)
                          (settled (negb dir) v d rest st) with
                  | Raise e => Some (Raise e)
                  | Ok st' => search turns g w (negb dir) st'
                  end
              end
          end
      end.
Proof. reflexivity. Qed.

Lemma meet_sides (w : weight_name) (x : node) (st st' : bstate) :
  meet w x st = Ok st' ->
  forward st' = forward st /\ backward st' = backward st
  /\ counter st' = counter st.
Proof.
  unfold meet.
  destruct (lookup (seen (forward st)) x) as [a|];
    [|intro H; injection H as <-; auto].
  destruct (lookup (seen (backward st)) x) as [b|];
    [|intro H; injection H as <-; auto].
  cbv zeta.
  match goal with |- context [if ?c then _ else _] => destruct c end;
    [|intro H; injection H as <-; auto].
  destruct (lookup (paths (forward st)) x) as [pf|]; [|discriminate].
  destruct (lookup (paths (backward st)) x) as [pb|]; [|discriminate].
  intro H. injection H as <-. simpl. auto.
Qed.

(** [relax] leaves the settled nodes of its direction and the whole of
    the other direction as they are, and pushes at most one entry per
    neighbour. *)
Lemma relax_frame (w : weight_name) (dir : bool) (v : node)
    (d : Float64.float) (nbrs : list (node * edge_attrs)) (st st' : bstate) :
  relax w dir v d nbrs st = Ok st' ->
  dists (side_of dir st') = dists (side_of dir st)
  /\ side_of (negb dir) st' = side_of (negb dir) st
  /\ (List.length (fringe (side_of dir st'))
      <= List.length (fringe (side_of dir st)) + List.length nbrs)%nat.
Proof.
  revert st. induction nbrs as [|[x e] rest IH]; intros st.
  - simpl. intro H. injection H as <-. repeat split; lia.
  - rewrite relax_cons. cbv zeta.
    destruct (lookup (dists (side_of dir st)) x) as [dx|].
    + destruct (Float64.ltb _ dx); [discriminate|].
      intro H. apply IH in H. destruct H as (H1 & H2 & H3).
      repeat split; [exact H1|exact H2|simpl; lia].
    + match goal with |- context [if ?c then _ else _] => destruct c end.
      * destruct (lookup (paths (side_of dir st)) v) as [pv|]; [|discriminate].
        destruct (meet w x _) as [st1|err] eqn:Em; [|discriminate].
        apply meet_sides in Em. destruct Em as (Ef & Eb & _).
        intro H. apply IH in H. destruct H as (H1 & H2 & H3).
        rewrite (side_of_ext dir _ _ Ef Eb) in H1, H3.
        rewrite (side_of_ext (negb dir) _ _ Ef Eb) in H2.
        rewrite side_of_push in H1, H3. rewrite side_of_push_other in H2.
        simpl in H1, H3. repeat split; [exact H1|exact H2|simpl; lia].
      * intro H. apply IH in H. destruct H as (H1 & H2 & H3).
        repeat split; [exact H1|exact H2|simpl; lia].
Qed.

(** *** The search takes fewer turns than its bound *)

Section Turns.

Variable g : DiGraph.
Variable w : weight_name.

(** The end of an edge from which the search of direction [dir] follows
    it. *)
Definition tail_of (dir : bool) (e : node * node * edge_attrs) : node :=
  if dir then snd (fst e) else fst (fst e).

Definition unsettled (dir : bool) (dm : list (node * Float64.float))
    (e : node * node * edge_attrs) : bool :=
  match lookup dm (tail_of dir e) with
  | None => true
  | Some _ => false
  end.

(** The edges that the search of direction [dir] has still to follow. *)
Definition pending (dir : bool) (dm : list (node * Float64.float)) : nat :=
  List.length (filter (unsettled dir dm) (edges g)).

Lemma neighbours_length (dir : bool) (v : node) :
  List.length (neighbours g dir v)
  = List.length (filter (fun e => node_eqb (tail_of dir e) v) (edges g)).
Proof.
  unfold neighbours, in_edges, out_edges, tail_of.
  destruct dir; rewrite length_map; reflexivity.
Qed.

Lemma unsettled_insert (dir : bool) (dm : list (node * Float64.float))
    (v : node) (d : Float64.float) (e : node * node * edge_attrs) :
  unsettled dir (insert v d dm) e
  = unsettled dir dm e && negb (node_eqb (tail_of dir e) v).
Proof.
  unfold unsettled. rewrite lookup_insert, (node_eqb_sym v).
  destruct (node_eqb (tail_of dir e) v); simpl.
  - destruct (lookup dm (tail_of dir e)); reflexivity.
  - destruct (lookup dm (tail_of dir e)); reflexivity.
Qed.

Lemma pending_settle (dir : bool) (dm : list (node * Float64.float))
    (v : node) (d : Float64.float) :
  lookup dm v = None ->
  (pending dir (insert v d dm) + List.length (neighbours g dir v))%nat
  = pending dir dm.
Proof.
  intro Hv. rewrite neighbours_length. unfold pending.
  induction (edges g) as [|e t IH]; simpl; [reflexivity|].
  rewrite unsettled_insert.
  destruct (node_eqb (tail_of dir e) v) eqn:E.
  - assert (Hu : unsettled dir dm e = true).
    { unfold unsettled. apply node_eqb_eq in E. rewrite E, Hv. reflexivity. }
    rewrite Hu. simpl. lia.
  - destruct (unsettled dir dm e); simpl; lia.
Qed.

(** What a direction has still to do, and the two together. *)
Definition side_work (dir : bool) (sd : side) : nat :=
  (List.length (fringe sd) + pending dir (dists sd))%nat.

Definition work (st : bstate) : nat :=
  (side_work false (forward st) + side_work true (backward st))%nat.

Lemma work_sides (dir : bool) (st : bstate) :
  work st
  = (side_work dir (side_of dir st)
     + side_work (negb dir) (side_of (negb dir) st))%nat.
Proof. unfold work. destruct dir; simpl; lia. Qed.

Lemma search_within_work (turns : nat) (dir : bool) (st : bstate) :
  (work st < turns)%nat -> search turns g w dir st <> None.
Proof.
  revert dir st. induction turns as [|turns IH]; intros dir st Hm; [lia|].
  rewrite search_turn.
  destruct (is_empty (fringe (forward st)) || is_empty (fringe (backward st)));
    [discriminate|].
  destruct (pop_min (fringe (side_of (negb dir) st)))
    as [[[[d c] v] rest]|] eqn:Ep; [|discriminate].
  apply pop_min_some in Ep. destruct Ep as (_ & Hlen).
  rewrite (work_sides (negb dir)) in Hm. unfold side_work at 1 in Hm.
  destruct (lookup (dists (side_of (negb dir) st)) v) as [dv|] eqn:Ev.
  - apply IH. rewrite (work_sides (negb dir)).
    rewrite side_of_popped, side_of_popped_other. unfold side_work at 1.
    simpl. lia.
  - destruct (lookup (dists (side_of (negb (negb dir)) _)) v); [discriminate|].
    destruct (relax w (negb dir) v d _ _) as [st'|e] eqn:Er; [|discriminate].
    apply relax_frame in Er. destruct Er as (Hd & Ho & Hf).
    rewrite side_of_settled in Hd, Hf. rewrite side_of_settled_other in Ho.
    simpl in Hd, Hf.
    apply IH. rewrite (work_sides (negb dir)). unfold side_work at 1.
    rewrite Hd, Ho.
    pose proof (pending_settle (negb dir) (dists (side_of (negb dir) st)) v d Ev).
    lia.
Qed.

Lemma search_within_turns (source_id target_id : node) :
  search (turns_bound g) g w true (initial_state source_id target_id) <> None.
Proof.
  apply search_within_work.
  unfold turns_bound, initial_state, work, side_work, pending. simpl.
  pose proof (filter_length_le (unsettled false []) (edges g)).
  pose proof (filter_length_le (unsettled true []) (edges g)). lia.
Qed.

End Turns.

(** *** Walks and their costs *)

(** [walk g w s v p c]: [p] lists the nodes of a directed walk of [g] from
    [s] to [v], and [c] is the sum of the costs of its edges. *)
Inductive walk (g : DiGraph) (w : weight_name) (s : node)
    : node -> list node -> Q -> Prop :=
| walk_start : walk g w s s [s] 0%Q
| walk_step (v x : node) (e : edge_attrs) (p : list node) (c : Q) :
    walk g w s v p c ->
    In (v, x, e) (edges g) ->
    walk g w s x (p ++ [x]) (c + edge_cost w e)%Q.

(** The costs read by the search are not negative. *)
Definition nonneg_costs (g : DiGraph) (w : weight_name) : Prop :=
  forall u x e, In (u, x, e) (edges g) -> (0 <= edge_cost w e)%Q.

Lemma walk_cost_nonneg (g : DiGraph) (w : weight_name) (s v : node)
    (p : list node) (c : Q) :
  nonneg_costs g w -> walk g w s v p c -> (0 <= c)%Q.
Proof.
  intros Hn H. induction H as [|v x e p c H IH Hin].
  - apply Qle_refl.
  - pose proof (Hn _ _ _ Hin). lra.
Qed.

(** *** Walks in the direction of a search *)

(** An edge as the search of direction [dir] follows it: from [u] to a
    successor [x] in the direction 0, to a predecessor in the
    direction 1. *)
Definition dedge (g : DiGraph) (dir : bool) (u x : node) (e : edge_attrs)
    : Prop :=
  if dir then In (x, u, e) (edges g) else In (u, x, e) (edges g).

Inductive dwalk (g : DiGraph) (w : weight_name) (dir : bool) (r : node)
    : node -> list node -> Q -> Prop :=
| dwalk_start : dwalk g w dir r r [r] 0%Q
| dwalk_step (v x : node) (e : edge_attrs) (p : list node) (c : Q) :
    dwalk g w dir r v p c ->
    dedge g dir v x e ->
    dwalk g w dir r x (p ++ [x]) (c + edge_cost w e)%Q.

Lemma dedge_flip (g : DiGraph) (dir : bool) (u x : node) (e : edge_attrs) :
  dedge g (negb dir) x u e <-> dedge g dir u x e.
Proof. destruct dir; simpl; tauto. Qed.

Lemma neighbours_dedge (g : DiGraph) (dir : bool) (v x : node)
    (e : edge_attrs) :
  In (x, e) (neighbours g dir v) <-> dedge g dir v x e.
Proof.
  unfold neighbours, dedge, in_edges, out_edges. destruct dir.
  - rewrite in_map_iff. split.
    + intros ([[a b] e'] & Heq & Hin). simpl in Heq. injection Heq as <- <-.
      apply filter_In in Hin. destruct Hin as [Hin Hb]. simpl in Hb.
      apply node_eqb_eq in Hb. subst b. exact Hin.
    + intro Hin. exists (x, v, e). split; [reflexivity|].
      apply filter_In. split; [exact Hin|]. simpl. apply node_eqb_refl.
  - rewrite in_map_iff. split.
    + intros ([[a b] e'] & Heq & Hin). simpl in Heq. injection Heq as <- <-.
      apply filter_In in Hin. destruct Hin as [Hin Ha]. simpl in Ha.
      apply node_eqb_eq in Ha. subst a. exact Hin.
    + intro Hin. exists (v, x, e). split; [reflexivity|].
      apply filter_In. split; [exact Hin|]. simpl. apply node_eqb_refl.
Qed.

Lemma dwalk_forward (g : DiGraph) (w : weight_name) (s x : node)
    (p : list node) (c : Q) :
  dwalk g w false s x p c <-> walk g w s x p c.
Proof.
  split; induction 1 as [|v y e p c H IH Hin].
  - constructor.
  - apply walk_step with v; assumption.
  - constructor.
  - apply dwalk_step with v; assumption.
Qed.

Lemma dwalk_not_nil (g : DiGraph) (w : weight_name) (dir : bool)
    (r x : node) (p : list node) (c : Q) :
  dwalk g w dir r x p c -> p <> [].
Proof.
  intros H E. destruct H as [|v y e p c H Hin]; [discriminate|].
  destruct p; discriminate.
Qed.

Lemma dwalk_cost_nonneg (g : DiGraph) (w : weight_name) (dir : bool)
    (r x : node) (p : list node) (c : Q) :
  nonneg_costs g w -> dwalk g w dir r x p c -> (0 <= c)%Q.
Proof.
  intros Hn H. induction H as [|v y e p c H IH Hin].
  - apply Qle_refl.
  - assert (0 <= edge_cost w e)%Q.
    { destruct dir; simpl in Hin; exact (Hn _ _ _ Hin). }
    lra.
Qed.

(** An edge put before a walk. *)
Lemma dwalk_cons (g : DiGraph) (w : weight_name) (dir : bool)
    (r v x : node) (e : edge_attrs) (p : list node) (c : Q) :
  dedge g dir r v e -> dwalk g w dir v x p c ->
  exists c', dwalk g w dir r x (r :: p) c' /\ (c' == edge_cost w e + c)%Q.
Proof.
  intros He H. induction H as [|y z e' p c H IH Hin].
  - exists (0 + edge_cost w e)%Q. split; [|ring].
    exact (dwalk_step g w dir r r v e [r] 0%Q (dwalk_start g w dir r) He).
  - destruct IH as (c' & Hw & Hc).
    exists (c' + edge_cost w e')%Q. split.
    + exact (dwalk_step g w dir r y z e' (r :: p) c' Hw Hin).
    + rewrite Hc. ring.
Qed.

(** A walk read from its end is a walk of the other direction. *)
Lemma dwalk_rev (g : DiGraph) (w : weight_name) (dir : bool)
    (r x : node) (p : list node) (c : Q) :
  dwalk g w dir r x p c ->
  exists c', dwalk g w (negb dir) x r (rev p) c' /\ (c' == c)%Q.
Proof.
  induction 1 as [|v y e p c H IH Hin].
  - exists 0%Q. split; [constructor|reflexivity].
  - destruct IH as (c' & Hw & Hc).
    apply dedge_flip in Hin.
    destruct (dwalk_cons g w (negb dir) y v r e (rev p) c' Hin Hw)
      as (c'' & Hw' & Hc').
    exists c''. rewrite rev_app_distr. simpl. split; [exact Hw'|].
    rewrite Hc', Hc. ring.
Qed.

(** Two walks put end to end. *)
Lemma dwalk_app (g : DiGraph) (w : weight_name) (dir : bool)
    (r x y : node) (p q : list node) (c1 c2 : Q) :
  dwalk g w dir r x p c1 -> dwalk g w dir x y q c2 ->
  exists c, dwalk g w dir r y (p ++ tl q) c /\ (c == c1 + c2)%Q.
Proof.
  intros H1 H2. induction H2 as [|v z e q c2 H2 IH Hin].
  - exists c1. simpl. rewrite app_nil_r. split; [exact H1|ring].
  - destruct IH as (c & Hw & Hc).
    exists (c + edge_cost w e)%Q. split.
    + assert (Hq : tl (q ++ [z]) = tl q ++ [z]).
      { pose proof (dwalk_not_nil _ _ _ _ _ _ _ H2). destruct q; [contradiction|].
        reflexivity. }
      rewrite Hq, app_assoc.
      exact (dwalk_step g w dir r v z e (p ++ tl q) c Hw Hin).
    + rewrite Hc. ring.
Qed.

(** The path of the direction 0 to a node and the path of the
    direction 1 to it make a walk from the source to the target. *)
Lemma walk_join (g : DiGraph) (w : weight_name) (s t x : node)
    (pf pb : list node) (c1 c2 : Q) :
  dwalk g w false s x pf c1 -> dwalk g w true t x pb c2 ->
  exists c, walk g w s t (pf ++ tl (rev pb)) c /\ (c == c1 + c2)%Q.
Proof.
  intros H1 H2. destruct (dwalk_rev _ _ _ _ _ _ _ H2) as (c2' & H2' & Hc2).
  simpl in H2'.
  destruct (dwalk_app _ _ _ _ _ _ _ _ _ _ H1 H2') as (c & Hw & Hc).
  exists c. split; [apply dwalk_forward; exact Hw|]. rewrite Hc, Hc2.
  reflexivity.
Qed.

(** A walk to the target is a walk of the direction 1 from it. *)
Lemma walk_backward (g : DiGraph) (w : weight_name) (x t : node)
    (q : list node) (c : Q) :
  walk g w x t q c ->
  exists c', dwalk g w true t x (rev q) c' /\ (c' == c)%Q.
Proof.
  intro H. apply dwalk_forward in H.
  exact (dwalk_rev _ _ _ _ _ _ _ H).
Qed.

(** *** The distances that the search holds *)

Lemma read_cost_absent (e : edge_attrs) :
  read_cost by_absent e = Float64.Num 1.
Proof. vm_compute. reflexivity. Qed.

Lemma plus_absent (x y : Q) :
  plus by_absent (Float64.Num x) (Float64.Num y) = Float64.Num (Qred (x + y)).
Proof. reflexivity. Qed.

Lemma plus_float (w : weight_name) (a b : Float64.float) :
  w <> by_absent -> plus w a b = Float64.add a b.
Proof. intro H. destruct w; [reflexivity|reflexivity|contradiction]. Qed.

(** *** The invariant of one direction *)

Section Search.

Variable g : DiGraph.
Variable w : weight_name.
Hypothesis costs_nonneg : nonneg_costs g w.

Local Abbreviation fle := Float64Facts.fle.
Local Abbreviation Num := Float64.Num.

(** The distances of a search whose costs are not negative: floats that
    are neither negative nor a NaN; with the default cost, integers. *)
Definition sound (a : Float64.float) : Prop :=
  match w with
  | by_absent => exists q, a = Num q /\ 0 <= q
  | _ => Float64Facts.binary64 a
  end.

Lemma sound_nonneg (a : Float64.float) : sound a -> Float64Facts.nonneg a.
Proof.
  unfold sound. destruct w; try apply Float64Facts.binary64_nonneg.
  intros (q & -> & Hq). exact Hq.
Qed.

Lemma sound_zero : sound (Num 0).
Proof.
  unfold sound. destruct w; try exact Float64Facts.rep_zero.
  exists 0. split; [reflexivity|apply Qle_refl].
Qed.

Lemma sound_refl (a : Float64.float) : sound a -> fle a a.
Proof. intro H. apply Float64Facts.fle_refl. apply sound_nonneg. exact H. Qed.

Lemma dedge_cost (dir : bool) (u x : node) (e : edge_attrs) :
  dedge g dir u x e -> 0 <= edge_cost w e.
Proof. destruct dir; simpl; intro H; exact (costs_nonneg _ _ _ H). Qed.

(** A distance and the cost of an edge: the sum is a distance again, and
    not below the first one. *)
Lemma plus_sound (a : Float64.float) (e : edge_attrs) :
  sound a -> 0 <= edge_cost w e ->
  sound (plus w a (read_cost w e)) /\ fle a (plus w a (read_cost w e)).
Proof.
  intros Ha Hc. unfold sound in *. destruct w eqn:Ew.
  - rewrite plus_float by discriminate. unfold read_cost.
    apply Float64Facts.add_above; [exact Ha|].
    apply Float64Facts.binary64_nonneg, Float64Facts.round_binary64. exact Hc.
  - rewrite plus_float by discriminate. unfold read_cost.
    apply Float64Facts.add_above; [exact Ha|].
    apply Float64Facts.binary64_nonneg, Float64Facts.round_binary64. exact Hc.
  - destruct Ha as (q & -> & Hq). rewrite read_cost_absent, plus_absent.
    split.
    + exists (Qred (q + 1)). split; [reflexivity|]. rewrite Qred_correct. lra.
    + change (q <= Qred (q + 1)). rewrite Qred_correct. lra.
Qed.

Section Side.

Variable dir : bool.
Variable root : node.

(** The state of one direction between two of its turns, and, with
    [todo] not empty, inside the loop over the neighbours of the node just
    settled: [todo] holds its edges that are still to be looked at. *)
Record SInv (todo : list (node * node * edge_attrs)) (sd : side) : Prop := {
  inv_sound_fringe : forall a cnt x, In (a, cnt, x) (fringe sd) -> sound a;
  inv_sound_dists : forall x a, lookup (dists sd) x = Some a -> sound a;
  inv_dists_seen : forall x a, lookup (dists sd) x = Some a ->
    exists a', lookup (seen sd) x = Some a' /\ fle a a' /\ fle a' a;
  inv_seen_walk : forall x a, lookup (seen sd) x = Some a ->
    sound a
    /\ exists p c, lookup (paths sd) x = Some p /\ dwalk g w dir root x p c;
  inv_seen_fringe : forall x a, lookup (seen sd) x = Some a ->
    lookup (dists sd) x = None ->
    exists a' cnt, In (a', cnt, x) (fringe sd) /\ fle a a' /\ fle a' a;
  inv_fringe_seen : forall a cnt x, In (a, cnt, x) (fringe sd) ->
    exists sx, lookup (seen sd) x = Some sx /\ fle sx a;
  inv_relaxed : forall u du x e, lookup (dists sd) u = Some du ->
    dedge g dir u x e ->
    In (u, x, e) todo
    \/ exists sx, lookup (seen sd) x = Some sx
                  /\ fle sx (plus w du (read_cost w e));
  inv_mono : forall u du a cnt x, lookup (dists sd) u = Some du ->
    In (a, cnt, x) (fringe sd) -> fle du a;
  inv_root : exists a0, lookup (seen sd) root = Some a0 /\ fle a0 (Num 0)
}.

Arguments inv_sound_fringe {todo sd}.
Arguments inv_sound_dists {todo sd}.
Arguments inv_dists_seen {todo sd}.
Arguments inv_seen_walk {todo sd}.
Arguments inv_seen_fringe {todo sd}.
Arguments inv_fringe_seen {todo sd}.
Arguments inv_relaxed {todo sd}.
Arguments inv_mono {todo sd}.
Arguments inv_root {todo sd}.

Lemma initial_side_inv (cnt : nat) :
  SInv [] (mkSide [] [(root, Num 0)] [(root, [root])] [(Num 0, cnt, root)]).
Proof.
  constructor; simpl.
  - intros a c x [H|[]]. injection H as <- _ _. exact sound_zero.
  - intros x a H. discriminate H.
  - intros x a H. discriminate H.
  - intros x a H. unfold lookup in *. simpl in *.
    destruct (node_eqb root x) eqn:E; [|discriminate].
    apply node_eqb_eq in E. subst x. simpl in H. injection H as <-.
    split; [exact sound_zero|].
    exists [root], 0. split; [reflexivity|constructor].
  - intros x a H _. unfold lookup in H. simpl in H.
    destruct (node_eqb root x) eqn:E; [|discriminate].
    apply node_eqb_eq in E. subst x. simpl in H. injection H as <-.
    exists (Num 0), cnt. split; [left; reflexivity|].
    split; apply Qle_refl.
  - intros a c x [H|[]]. injection H as <- _ <-.
    exists (Num 0). split; [|apply Qle_refl].
    unfold lookup. simpl. rewrite node_eqb_refl. reflexivity.
  - intros u du x e H. discriminate H.
  - intros u du a c x H. discriminate H.
  - exists (Num 0). split; [|apply Qle_refl].
    unfold lookup. simpl. rewrite node_eqb_refl. reflexivity.
Qed.

(** A walk from the root ends at a settled node when the heap is
    empty. *)
Lemma closure (sd : side) (x : node) (p : list node) (c : Q) :
  SInv [] sd -> fringe sd = [] -> dwalk g w dir root x p c ->
  exists a, lookup (dists sd) x = Some a.
Proof.
  intros I Hf H. induction H as [|v x e p c H IH Hin].
  - destruct (inv_root I) as (a0 & Hs & _).
    destruct (lookup (dists sd) root) as [a|] eqn:Ed; [exists a; reflexivity|].
    destruct (inv_seen_fringe I _ _ Hs Ed) as (a' & cnt & Hi & _).
    rewrite Hf in Hi. destruct Hi.
  - destruct IH as (dv & Hdv).
    destruct (inv_relaxed I _ _ _ _ Hdv Hin) as [[]|(sx & Hsx & _)].
    destruct (lookup (dists sd) x) as [a|] eqn:Ed; [exists a; reflexivity|].
    destruct (inv_seen_fringe I _ _ Hsx Ed) as (a' & cnt & Hi & _).
    rewrite Hf in Hi. destruct Hi.
Qed.

(** One neighbour that improves: the state after the three writes and
    the push. *)
Lemma push_inv (v x : node) (d : Float64.float) (e : edge_attrs)
    (rest : list (node * node * edge_attrs)) (sd : side) (pv : list node)
    (cnt : nat) :
  SInv ((v, x, e) :: rest) sd ->
  lookup (dists sd) v = Some d ->
  (forall u du, lookup (dists sd) u = Some du -> fle du d) ->
  dedge g dir v x e ->
  lookup (dists sd) x = None ->
  (forall sx, lookup (seen sd) x = Some sx ->
     Float64.ltb (plus w d (read_cost w e)) sx = true) ->
  lookup (paths sd) v = Some pv ->
  SInv rest
    (mkSide (dists sd)
            (insert x (plus w d (read_cost w e)) (seen sd))
            (insert x (pv ++ [x]) (paths sd))
            ((plus w d (read_cost w e), cnt, x) :: fringe sd)).
Proof.
  intros I Hv Hmax Hin Hx Hbetter Hpv.
  pose proof (dedge_cost _ _ _ _ Hin) as Hc.
  pose proof (inv_sound_dists I _ _ Hv) as Hd.
  destruct (plus_sound d e Hd Hc) as [Ha Hda].
  set (a := plus w d (read_cost w e)) in *.
  assert (Hlow : forall sx, lookup (seen sd) x = Some sx -> fle a sx).
  { intros sx Hsx. apply Float64Facts.ltb_true_fle.
    - apply sound_nonneg. exact Ha.
    - apply sound_nonneg. exact (proj1 (inv_seen_walk I _ _ Hsx)).
    - exact (Hbetter _ Hsx). }
  destruct (inv_dists_seen I _ _ Hv) as (sv & Hsv & _).
  destruct (inv_seen_walk I _ _ Hsv) as (_ & p0 & cv & Hp0 & Hwalk).
  rewrite Hpv in Hp0. injection Hp0 as <-.
  constructor; simpl.
  - intros a' c x' [H|H].
    + injection H as <- _ _. exact Ha.
    + exact (inv_sound_fringe I _ _ _ H).
  - exact (inv_sound_dists I).
  - intros x' a' H. destruct (inv_dists_seen I _ _ H) as (s' & Hs' & Heq).
    exists s'. split; [|exact Heq]. rewrite lookup_insert_neq; [exact Hs'|].
    intros ->. congruence.
  - intros x' a' H. rewrite lookup_insert in H. rewrite lookup_insert.
    destruct (node_eqb x x') eqn:E.
    + injection H as <-. apply node_eqb_eq in E. subst x'.
      split; [exact Ha|]. exists (pv ++ [x]), (cv + edge_cost w e).
      split; [reflexivity|]. eapply dwalk_step; eassumption.
    + exact (inv_seen_walk I _ _ H).
  - intros x' a' H Hd'. rewrite lookup_insert in H.
    destruct (node_eqb x x') eqn:E.
    + injection H as <-. apply node_eqb_eq in E. subst x'.
      exists a, cnt. split; [left; reflexivity|].
      split; apply sound_refl; exact Ha.
    + destruct (inv_seen_fringe I _ _ H Hd') as (a'' & c & Hf & Heq).
      exists a'', c. split; [right; exact Hf|exact Heq].
  - intros a' c x' [H|H].
    + injection H as <- _ <-. exists a.
      rewrite lookup_insert_eq. split; [reflexivity|apply sound_refl; exact Ha].
    + destruct (inv_fringe_seen I _ _ _ H) as (sx & Hsx & Hle).
      rewrite lookup_insert. destruct (node_eqb x x') eqn:E.
      * apply node_eqb_eq in E. subst x'. exists a.
        split; [reflexivity|].
        apply Float64Facts.fle_trans with sx; [apply Hlow; exact Hsx|exact Hle].
      * exists sx. split; assumption.
  - intros u du x' e' Hu Hin'.
    destruct (inv_relaxed I _ _ _ _ Hu Hin') as [[Heq|Hr]|(sx & Hsx & Hle)].
    + injection Heq as <- <- <-. rewrite Hv in Hu. injection Hu as <-.
      right. exists a. rewrite lookup_insert_eq.
      split; [reflexivity|apply sound_refl; exact Ha].
    + left. exact Hr.
    + right. rewrite lookup_insert. destruct (node_eqb x x') eqn:E.
      * apply node_eqb_eq in E. subst x'. exists a.
        split; [reflexivity|].
        apply Float64Facts.fle_trans with sx; [apply Hlow; exact Hsx|exact Hle].
      * exists sx. split; assumption.
  - intros u du a' c x' Hu [H|H].
    + injection H as <- _ _.
      apply Float64Facts.fle_trans with d; [exact (Hmax _ _ Hu)|exact Hda].
    + exact (inv_mono I _ _ _ _ _ Hu H).
  - destruct (inv_root I) as (a0 & Hs & Hs0).
    rewrite lookup_insert. destruct (node_eqb x root) eqn:E.
    + apply node_eqb_eq in E. subst x. exists a. split; [reflexivity|].
      apply Float64Facts.fle_trans with a0; [apply Hlow; exact Hs|exact Hs0].
    + exists a0. split; assumption.
Qed.

(** One neighbour that does not improve. *)
Lemma skip_inv (v x : node) (d : Float64.float) (e : edge_attrs)
    (rest : list (node * node * edge_attrs)) (sd : side) :
  SInv ((v, x, e) :: rest) sd ->
  lookup (dists sd) v = Some d ->
  (exists sx, lookup (seen sd) x = Some sx
              /\ fle sx (plus w d (read_cost w e))) ->
  SInv rest sd.
Proof.
  intros I Hv Hsx. constructor.
  - exact (inv_sound_fringe I).
  - exact (inv_sound_dists I).
  - exact (inv_dists_seen I).
  - exact (inv_seen_walk I).
  - exact (inv_seen_fringe I).
  - exact (inv_fringe_seen I).
  - intros u du x' e' Hu Hin'.
    destruct (inv_relaxed I _ _ _ _ Hu Hin') as [[Heq|Hr]|H].
    + injection Heq as <- <- <-. rewrite Hv in Hu. injection Hu as <-.
      right. exact Hsx.
    + left. exact Hr.
    + right. exact H.
  - exact (inv_mono I).
  - exact (inv_root I).
Qed.

(** Dropping an entry of a settled node from the heap. *)
Lemma drop_entry_inv (sd : side) (m : entry) (rest : list entry)
    (dv : Float64.float) :
  SInv [] sd ->
  (forall e, In e (fringe sd) <-> e = m \/ In e rest) ->
  lookup (dists sd) (entry_node m) = Some dv ->
  SInv [] (mkSide (dists sd) (seen sd) (paths sd) rest).
Proof.
  intros I Hin Hm. constructor; simpl.
  - intros a cnt x H. apply (inv_sound_fringe I a cnt x). apply Hin.
    right. exact H.
  - exact (inv_sound_dists I).
  - exact (inv_dists_seen I).
  - exact (inv_seen_walk I).
  - intros x a Hsx Hd.
    destruct (inv_seen_fringe I _ _ Hsx Hd) as (a' & cnt & Hf & Heq).
    exists a', cnt. split; [|exact Heq].
    apply Hin in Hf. destruct Hf as [Hf|Hf]; [|exact Hf].
    subst m. unfold entry_node in Hm. simpl in Hm. congruence.
  - intros a cnt x H. apply (inv_fringe_seen I a cnt x).
    apply Hin. right. exact H.
  - exact (inv_relaxed I).
  - intros u du a cnt x Hu H. apply (inv_mono I u du a cnt x Hu).
    apply Hin. right. exact H.
  - exact (inv_root I).
Qed.

(** What holds of the least entry when its node is not settled yet. *)
Lemma least_entry_facts (sd : side) (d : Float64.float) (cnt : nat)
    (v : node) (rest : list entry) :
  SInv [] sd ->
  (forall e, In e (fringe sd) <-> e = (d, cnt, v) \/ In e rest) ->
  (forall e, In e (fringe sd) -> fle d (entry_dist e)) ->
  lookup (dists sd) v = None ->
  sound d
  /\ (exists sv, lookup (seen sd) v = Some sv /\ fle sv d /\ fle d sv)
  /\ (forall u du, lookup (dists sd) u = Some du -> fle du d).
Proof.
  intros I Hin Hmin Hv.
  assert (Hpop : In (d, cnt, v) (fringe sd)) by (apply Hin; left; reflexivity).
  split; [exact (inv_sound_fringe I _ _ _ Hpop)|]. split.
  - destruct (inv_fringe_seen I _ _ _ Hpop) as (sv & Hsv & Hle).
    exists sv. split; [exact Hsv|]. split; [exact Hle|].
    destruct (inv_seen_fringe I _ _ Hsv Hv) as (a' & cnt' & Hf & H1 & H2).
    pose proof (Hmin _ Hf) as Hm. unfold entry_dist in Hm. simpl in Hm.
    apply Float64Facts.fle_trans with a'; assumption.
  - intros u du Hu. exact (inv_mono I _ _ _ _ _ Hu Hpop).
Qed.

(** Settling the node of the least entry, before its neighbours are
    looked at. *)
Lemma settle_inv (sd : side) (d : Float64.float) (cnt : nat) (v : node)
    (rest : list entry) :
  SInv [] sd ->
  (forall e, In e (fringe sd) <-> e = (d, cnt, v) \/ In e rest) ->
  (forall e, In e (fringe sd) -> fle d (entry_dist e)) ->
  lookup (dists sd) v = None ->
  SInv (map (fun n => (v, fst n, snd n)) (neighbours g dir v))
    (mkSide (insert v d (dists sd)) (seen sd) (paths sd) rest).
Proof.
  intros I Hin Hmin Hv.
  destruct (least_entry_facts sd d cnt v rest I Hin Hmin Hv)
    as (Hd & (sv & Hsv & Hsvd & Hdsv) & Hmax).
  constructor; simpl.
  - intros a c x H. apply (inv_sound_fringe I a c x). apply Hin.
    right. exact H.
  - intros x a H. rewrite lookup_insert in H.
    destruct (node_eqb v x); [injection H as <-; exact Hd|].
    exact (inv_sound_dists I _ _ H).
  - intros x a H. rewrite lookup_insert in H.
    destruct (node_eqb v x) eqn:E.
    + apply node_eqb_eq in E. subst x. injection H as <-.
      exists sv. split; [exact Hsv|]. split; assumption.
    + exact (inv_dists_seen I _ _ H).
  - exact (inv_seen_walk I).
  - intros x a Hs Hd'. rewrite lookup_insert in Hd'.
    destruct (node_eqb v x) eqn:E; [discriminate|].
    destruct (inv_seen_fringe I _ _ Hs Hd') as (a' & cnt' & Hf & Heq).
    exists a', cnt'. split; [|exact Heq].
    apply Hin in Hf. destruct Hf as [Hf|Hf]; [|exact Hf].
    injection Hf as _ _ ->. rewrite node_eqb_refl in E. discriminate.
  - intros a c x H. apply (inv_fringe_seen I a c x).
    apply Hin. right. exact H.
  - intros u du x e Hu Hine. rewrite lookup_insert in Hu.
    destruct (node_eqb v u) eqn:E.
    + apply node_eqb_eq in E. subst u. left.
      apply in_map_iff. exists (x, e). split; [reflexivity|].
      apply neighbours_dedge. exact Hine.
    + destruct (inv_relaxed I _ _ _ _ Hu Hine) as [[]|H]. right. exact H.
  - intros u du a c x Hu H. rewrite lookup_insert in Hu.
    assert (Hf : In (a, c, x) (fringe sd)) by (apply Hin; right; exact H).
    destruct (node_eqb v u) eqn:E.
    + injection Hu as <-. apply (Hmin _ Hf).
    + exact (inv_mono I _ _ _ _ _ Hu Hf).
  - exact (inv_root I).
Qed.

End Side.

Arguments inv_sound_fringe {dir root todo sd}.
Arguments inv_sound_dists {dir root todo sd}.
Arguments inv_dists_seen {dir root todo sd}.
Arguments inv_seen_walk {dir root todo sd}.
Arguments inv_seen_fringe {dir root todo sd}.
Arguments inv_fringe_seen {dir root todo sd}.
Arguments inv_relaxed {dir root todo sd}.
Arguments inv_mono {dir root todo sd}.
Arguments inv_root {dir root todo sd}.

(** *** The invariant of the search *)

Variables s t : node.
Hypothesis s_neq_t : s <> t.

(** The direction 0 starts at the source, the direction 1 at the
    target. *)
Definition root_of (dir : bool) : node := if dir then t else s.

(** The two directions while the neighbours [todo] of a node settled in
    the direction [dir] are still to be looked at. *)
Definition Sides (dir : bool) (todo : list (node * node * edge_attrs))
    (st : bstate) : Prop :=
  SInv dir (root_of dir) todo (side_of dir st)
  /\ SInv (negb dir) (root_of (negb dir)) [] (side_of (negb dir) st).

Lemma sides_any (dir : bool) (st : bstate) :
  Sides false [] st -> Sides dir [] st.
Proof. unfold Sides. destruct dir; simpl; tauto. Qed.

Lemma sides_false (dir : bool) (st : bstate) :
  Sides dir [] st -> Sides false [] st.
Proof. unfold Sides. destruct dir; simpl; tauto. Qed.

(** Every node reached in a direction has its path there. *)
Definition Reached (st : bstate) : Prop :=
  forall d y a, lookup (seen (side_of d st)) y = Some a ->
    exists p c, lookup (paths (side_of d st)) y = Some p
                /\ dwalk g w d (root_of d) y p c.

Lemma sides_reached (dir : bool) (todo : list (node * node * edge_attrs))
    (st : bstate) :
  Sides dir todo st -> Reached st.
Proof.
  intros [I1 I2] d y a H.
  assert (I : exists todo', SInv d (root_of d) todo' (side_of d st)).
  { destruct dir, d; simpl in *; eauto. }
  destruct I as [todo' I]. exact (proj2 (inv_seen_walk I _ _ H)).
Qed.

(** The path kept so far: a walk from the source to the target, and
    there is one as soon as a node was reached in both directions. *)
Record Meet (st : bstate) : Prop := {
  meet_walk : finalpath st = [] \/ exists c, walk g w s t (finalpath st) c;
  meet_seen : forall x a b,
    lookup (seen (forward st)) x = Some a ->
    lookup (seen (backward st)) x = Some b ->
    finalpath st <> []
}.

Arguments meet_walk {st}.
Arguments meet_seen {st}.

Lemma meet_ext (st st' : bstate) :
  seen (forward st') = seen (forward st) ->
  seen (backward st') = seen (backward st) ->
  finalpath st' = finalpath st ->
  Meet st -> Meet st'.
Proof.
  intros Hf Hb Hp M. constructor.
  - rewrite Hp. exact (meet_walk M).
  - rewrite Hf, Hb, Hp. exact (meet_seen M).
Qed.

Lemma meet_inv (x : node) (st : bstate) :
  Reached st ->
  (finalpath st = [] \/ exists c, walk g w s t (finalpath st) c) ->
  (forall y a b, y <> x ->
     lookup (seen (forward st)) y = Some a ->
     lookup (seen (backward st)) y = Some b -> finalpath st <> []) ->
  exists st', meet w x st = Ok st'
    /\ forward st' = forward st /\ backward st' = backward st
    /\ Meet st'.
Proof.
  intros R Hw Hs. unfold meet.
  assert (Hkeep : forall c : bool,
            (c = false -> finalpath st <> []
                          \/ lookup (seen (forward st)) x = None
                          \/ lookup (seen (backward st)) x = None) ->
            Meet st \/ c = true).
  { intros [|] Hc; [right; reflexivity|left]. constructor; [exact Hw|].
    intros y a b Hf Hb. destruct (node_eqb y x) eqn:E.
    - apply node_eqb_eq in E. subst y.
      destruct (Hc eq_refl) as [H|[H|H]]; [exact H|congruence|congruence].
    - apply node_eqb_neq in E. exact (Hs y a b E Hf Hb). }
  destruct (lookup (seen (forward st)) x) as [a|] eqn:Ef.
  - destruct (lookup (seen (backward st)) x) as [b|] eqn:Eb.
    + destruct (R false x a Ef) as (pf & cf & Hpf & Hwf).
      destruct (R true x b Eb) as (pb & cb & Hpb & Hwb).
      simpl in Hpf, Hpb, Hwf, Hwb. rewrite Hpf, Hpb. cbv zeta.
      match goal with |- context [if ?c then _ else _] =>
        destruct c eqn:Ec end.
      * eexists. split; [reflexivity|]. simpl.
        split; [reflexivity|]. split; [reflexivity|].
        destruct (walk_join g w s t x pf pb cf cb Hwf Hwb) as (c & Hc & _).
        constructor; simpl.
        -- right. exists c. exact Hc.
        -- intros _ _ _ _ _ E.
           apply (dwalk_not_nil _ _ _ _ _ _ _ Hwf).
           destruct pf; [reflexivity|discriminate E].
      * exists st. split; [reflexivity|]. split; [reflexivity|].
        split; [reflexivity|].
        destruct (Hkeep false) as [M|E]; [|exact M|discriminate E].
        intros _. left. intro E. rewrite E in Ec. discriminate Ec.
    + exists st. split; [reflexivity|]. split; [reflexivity|].
      split; [reflexivity|].
      destruct (Hkeep false) as [M|E]; [|exact M|discriminate E].
      intros _. right. right. reflexivity.
  - exists st. split; [reflexivity|]. split; [reflexivity|].
    split; [reflexivity|].
    destruct (Hkeep false) as [M|E]; [|exact M|discriminate E].
    intros _. right. left. reflexivity.
Qed.

Lemma seen_push_other (dir : bool) (x y : node) (a : Float64.float)
    (p : list node) (st : bstate) :
  x <> y ->
  lookup (seen (forward (push dir x a p st))) y
  = lookup (seen (forward st)) y
  /\ lookup (seen (backward (push dir x a p st))) y
     = lookup (seen (backward st)) y.
Proof.
  intro H. destruct dir; simpl; split; try reflexivity;
    apply lookup_insert_neq; exact H.
Qed.

(** One neighbour [x] of the node [v] settled at distance [d]: either it
    is passed over, or it is pushed and the test of [meet] is made. *)
Lemma relax_head (dir : bool) (v : node) (d : Float64.float) (x : node)
    (e : edge_attrs) (rest : list (node * edge_attrs)) (st : bstate) :
  Sides dir ((v, x, e) :: map (fun n => (v, fst n, snd n)) rest) st ->
  Meet st ->
  lookup (dists (side_of dir st)) v = Some d ->
  (forall u du, lookup (dists (side_of dir st)) u = Some du -> fle du d) ->
  dedge g dir v x e ->
  (relax w dir v d ((x, e) :: rest) st = relax w dir v d rest st
   /\ Sides dir (map (fun n => (v, fst n, snd n)) rest) st)
  \/ (exists pv st1,
        lookup (paths (side_of dir st)) v = Some pv
        /\ meet w x (push dir x (plus w d (read_cost w e)) (pv ++ [x]) st)
           = Ok st1
        /\ relax w dir v d ((x, e) :: rest) st = relax w dir v d rest st1
        /\ forward st1
           = forward (push dir x (plus w d (read_cost w e)) (pv ++ [x]) st)
        /\ backward st1
           = backward (push dir x (plus w d (read_cost w e)) (pv ++ [x]) st)
        /\ Sides dir (map (fun n => (v, fst n, snd n)) rest)
             (push dir x (plus w d (read_cost w e)) (pv ++ [x]) st)
        /\ Meet st1).
Proof.
  intros [I Io] M Hv Hmax Hin.
  rewrite relax_cons. cbv zeta.
  pose proof (inv_sound_dists I _ _ Hv) as Hd.
  destruct (plus_sound d e Hd (dedge_cost _ _ _ _ Hin)) as [Ha Hda].
  set (a := plus w d (read_cost w e)) in *.
  destruct (lookup (dists (side_of dir st)) x) as [dx|] eqn:Ex.
  - left.
    assert (Hle : fle dx a).
    { apply Float64Facts.fle_trans with d; [exact (Hmax _ _ Ex)|exact Hda]. }
    rewrite (Float64Facts.fle_ltb _ _ Hle).
    split; [reflexivity|]. split; [|exact Io].
    apply (skip_inv dir (root_of dir) v x d e _ _ I Hv).
    destruct (inv_dists_seen I _ _ Ex) as (sx & Hsx & _ & H2).
    exists sx. split; [exact Hsx|].
    apply Float64Facts.fle_trans with dx; assumption.
  - assert (Hpush :
      (forall sx, lookup (seen (side_of dir st)) x = Some sx ->
         Float64.ltb a sx = true) ->
      exists pv st1,
        lookup (paths (side_of dir st)) v = Some pv
        /\ meet w x (push dir x a (pv ++ [x]) st) = Ok st1
        /\ forward st1 = forward (push dir x a (pv ++ [x]) st)
        /\ backward st1 = backward (push dir x a (pv ++ [x]) st)
        /\ Sides dir (map (fun n => (v, fst n, snd n)) rest)
             (push dir x a (pv ++ [x]) st)
        /\ Meet st1).
    { intro Hbetter.
      destruct (inv_dists_seen I _ _ Hv) as (sv & Hsv & _).
      destruct (inv_seen_walk I _ _ Hsv) as (_ & pv & cv & Hpv & _).
      pose proof (push_inv dir (root_of dir) v x d e _ (side_of dir st) pv
                    (counter st) I Hv Hmax Hin Ex Hbetter Hpv) as I'.
      fold a in I'.
      assert (S' : Sides dir (map (fun n => (v, fst n, snd n)) rest)
                     (push dir x a (pv ++ [x]) st)).
      { split; [rewrite side_of_push; exact I'|].
        rewrite side_of_push_other. exact Io. }
      destruct (meet_inv x (push dir x a (pv ++ [x]) st)
                  (sides_reached _ _ _ S'))
        as (st1 & Em & Ef & Eb & M1).
      - rewrite (proj1 (final_of_push dir x a (pv ++ [x]) st)).
        exact (meet_walk M).
      - intros y a' b' Hne Hf Hb.
        rewrite (proj1 (final_of_push dir x a (pv ++ [x]) st)).
        assert (Hne' : x <> y) by congruence.
        destruct (seen_push_other dir x y a (pv ++ [x]) st Hne') as [E1 E2].
        rewrite E1 in Hf. rewrite E2 in Hb.
        exact (meet_seen M y a' b' Hf Hb).
      - exists pv, st1. split; [exact Hpv|]. split; [exact Em|].
        split; [exact Ef|]. split; [exact Eb|]. split; [exact S'|exact M1]. }
    destruct (lookup (seen (side_of dir st)) x) as [sx|] eqn:Es.
    + destruct (Float64.ltb a sx) eqn:L.
      * right. destruct Hpush as (pv & st1 & Hpv & Em & Ef & Eb & S' & M1).
        { intros sx' H. injection H as <-. exact L. }
        exists pv, st1. rewrite Hpv, Em. split; [reflexivity|].
        split; [reflexivity|]. split; [reflexivity|]. split; [exact Ef|].
        split; [exact Eb|]. split; [exact S'|exact M1].
      * left. split; [reflexivity|]. split; [|exact Io].
        apply (skip_inv dir (root_of dir) v x d e _ _ I Hv).
        exists sx. split; [exact Es|].
        apply Float64Facts.ltb_false_fle.
        -- apply sound_nonneg. exact Ha.
        -- apply sound_nonneg. exact (proj1 (inv_seen_walk I _ _ Es)).
        -- exact L.
    + right. destruct Hpush as (pv & st1 & Hpv & Em & Ef & Eb & S' & M1).
      { intros sx' H. discriminate H. }
      exists pv, st1. rewrite Hpv, Em. split; [reflexivity|].
      split; [reflexivity|]. split; [reflexivity|]. split; [exact Ef|].
      split; [exact Eb|]. split; [exact S'|exact M1].
Qed.

(** The state after the test of [meet] has the directions of the state
    before it. *)
Lemma sides_ext (dir : bool) (todo : list (node * node * edge_attrs))
    (st st' : bstate) :
  forward st' = forward st -> backward st' = backward st ->
  Sides dir todo st -> Sides dir todo st'.
Proof.
  intros Ef Eb [S1 S2]. split.
  - rewrite (side_of_ext dir _ _ Ef Eb). exact S1.
  - rewrite (side_of_ext (negb dir) _ _ Ef Eb). exact S2.
Qed.

(** The loop over the neighbours keeps the invariant, and raises
    nothing. *)
Lemma relax_inv (dir : bool) (v : node) (d : Float64.float)
    (nbrs : list (node * edge_attrs)) (st : bstate) :
  Sides dir (map (fun n => (v, fst n, snd n)) nbrs) st -> Meet st ->
  lookup (dists (side_of dir st)) v = Some d ->
  (forall u du, lookup (dists (side_of dir st)) u = Some du -> fle du d) ->
  (forall x e, In (x, e) nbrs -> dedge g dir v x e) ->
  exists st', relax w dir v d nbrs st = Ok st' /\ Sides dir [] st' /\ Meet st'.
Proof.
  revert st. induction nbrs as [|[x e] rest IH]; intros st S M Hv Hmax Hn.
  - exists st. split; [reflexivity|]. split; assumption.
  - assert (Hin : dedge g dir v x e) by (apply Hn; left; reflexivity).
    assert (Hn' : forall x' e', In (x', e') rest -> dedge g dir v x' e')
      by (intros x' e' H; apply Hn; right; exact H).
    destruct (relax_head dir v d x e rest st S M Hv Hmax Hin)
      as [[Er S']|(pv & st1 & Hpv & Em & Er & Ef & Eb & S' & M1)];
      rewrite Er.
    + apply IH; assumption.
    + apply IH.
      * exact (sides_ext _ _ _ _ Ef Eb S').
      * exact M1.
      * rewrite (side_of_ext dir _ _ Ef Eb), side_of_push. exact Hv.
      * rewrite (side_of_ext dir _ _ Ef Eb), side_of_push. exact Hmax.
      * exact Hn'.
Qed.

(** Where the search stands: before its first turn, after the turn
    that settled the source, or later, when the source is settled in the
    direction 0 and the target in the direction 1. *)
Definition Phase (dir : bool) (st : bstate) : Prop :=
  (dir = true /\ st = initial_state s t)
  \/ (dir = false
      /\ (exists a, lookup (dists (forward st)) s = Some a)
      /\ (forall x a, lookup (dists (forward st)) x = Some a -> x = s)
      /\ dists (backward st) = []
      /\ fringe (backward st) = [(Num 0, 1%nat, t)])
  \/ ((exists a, lookup (dists (forward st)) s = Some a)
      /\ exists b, lookup (dists (backward st)) t = Some b).

(** No node is settled in both directions while the search goes on. *)
Definition Disjoint (st : bstate) : Prop :=
  forall x a b, lookup (dists (forward st)) x = Some a ->
    lookup (dists (backward st)) x = Some b -> False.

Record Inv (dir : bool) (st : bstate) : Prop := {
  inv_sides : Sides false [] st;
  inv_meet : Meet st;
  inv_phase : Phase dir st;
  inv_disjoint : Disjoint st
}.

Arguments inv_sides {dir st}.
Arguments inv_meet {dir st}.
Arguments inv_phase {dir st}.
Arguments inv_disjoint {dir st}.

Lemma initial_inv : Inv true (initial_state s t).
Proof.
  constructor.
  - split; simpl.
    + exact (initial_side_inv false s 0).
    + exact (initial_side_inv true t 1).
  - constructor; simpl.
    + left. reflexivity.
    + intros x a b Hf Hb. unfold lookup in Hf, Hb. simpl in Hf, Hb.
      destruct (node_eqb s x) eqn:E1; [|discriminate].
      destruct (node_eqb t x) eqn:E2; [|discriminate].
      apply node_eqb_eq in E1, E2. exfalso. apply s_neq_t. congruence.
  - left. split; reflexivity.
  - intros x a b H. discriminate H.
Qed.

Lemma lookup_insert_some {A} (m : list (node * A)) (k k' : node) (v : A) :
  (exists a, lookup m k' = Some a) ->
  exists a, lookup (insert k v m) k' = Some a.
Proof.
  intros [a H]. rewrite lookup_insert. destruct (node_eqb k k'); eauto.
Qed.

Lemma phase_continue (dir : bool) (st : bstate) (rest : list entry)
    (v : node) (dv : Float64.float) :
  Phase dir st ->
  lookup (dists (side_of (negb dir) st)) v = Some dv ->
  Phase (negb dir) (popped (negb dir) rest st).
Proof.
  intros [[-> ->]|[(-> & _ & _ & Hb & _)|[Hs Ht]]] Hv.
  - discriminate Hv.
  - simpl in Hv. rewrite Hb in Hv. discriminate Hv.
  - right. right. destruct dir; simpl; split; assumption.
Qed.

Lemma phase_settle (dir : bool) (st st' : bstate) (d : Float64.float)
    (cnt : nat) (v : node) (rest : list entry) :
  Phase dir st ->
  pop_min (fringe (side_of (negb dir) st)) = Some ((d, cnt, v), rest) ->
  dists (side_of (negb dir) st') = insert v d (dists (side_of (negb dir) st)) ->
  side_of (negb (negb dir)) st' = side_of (negb (negb dir)) st ->
  Phase (negb dir) st'.
Proof.
  intros [[-> ->]|[(-> & Hs & Hall & Hb & Hf)|[Hs Ht]]] Hp Hd Ho.
  - simpl in Hp, Hd, Ho. injection Hp as <- _ <- _.
    right. left. split; [reflexivity|]. rewrite Hd, Ho. simpl.
    split; [|split; [|split; reflexivity]].
    + exists (Num 0). apply lookup_insert_eq.
    + intros x a H. rewrite lookup_insert in H.
      destruct (node_eqb s x) eqn:E; [|discriminate H].
      apply node_eqb_eq in E. congruence.
  - simpl in Hp, Hd, Ho. rewrite Hf in Hp. simpl in Hp.
    injection Hp as <- _ <- _.
    right. right. rewrite Hd, Ho. split; [exact Hs|].
    exists (Num 0). apply lookup_insert_eq.
  - right. right. destruct dir; simpl in Hd, Ho; rewrite Hd, Ho.
    + split; [apply lookup_insert_some; exact Hs|exact Ht].
    + split; [exact Hs|apply lookup_insert_some; exact Ht].
Qed.

Lemma disjoint_settle (dir : bool) (st st' : bstate) (v : node)
    (d : Float64.float) :
  Disjoint st ->
  lookup (dists (side_of (negb dir) st)) v = None ->
  dists (side_of dir st') = insert v d (dists (side_of dir st)) ->
  side_of (negb dir) st' = side_of (negb dir) st ->
  Disjoint st'.
Proof.
  intros D Hv Hd Ho x a b Ha Hb.
  destruct dir; simpl in Hv, Hd, Ho.
  - rewrite Ho in Ha. rewrite Hd, lookup_insert in Hb.
    destruct (node_eqb v x) eqn:E.
    + apply node_eqb_eq in E. subst x. congruence.
    + exact (D x a b Ha Hb).
  - rewrite Ho in Hb. rewrite Hd, lookup_insert in Ha.
    destruct (node_eqb v x) eqn:E.
    + apply node_eqb_eq in E. subst x. congruence.
    + exact (D x a b Ha Hb).
Qed.

(** When a heap is empty at the beginning of a turn, no walk leads from
    the source to the target. *)
Lemma exhausted_no_walk (dir : bool) (st : bstate) :
  Inv dir st ->
  fringe (forward st) = [] \/ fringe (backward st) = [] ->
  forall q c, ~ walk g w s t q c.
Proof.
  intros I He q c Hq. destruct (inv_sides I) as [If Ib]. simpl in If, Ib.
  destruct He as [He|He].
  - apply dwalk_forward in Hq.
    destruct (closure false s (forward st) t q c If He Hq) as (a & Ha).
    destruct (inv_phase I) as [[_ ->]|[(_ & _ & Hall & _)|[_ [b Hb]]]].
    + discriminate He.
    + apply s_neq_t. symmetry. exact (Hall t a Ha).
    + exact (inv_disjoint I t a b Ha Hb).
  - destruct (walk_backward g w s t q c Hq) as (c' & Hq' & _).
    destruct (closure true t (backward st) s (rev q) c' Ib He Hq') as (b & Hb).
    destruct (inv_phase I) as [[_ ->]|[(_ & _ & _ & _ & Hf)|[[a Ha] _]]].
    + discriminate He.
    + rewrite Hf in He. discriminate He.
    + exact (inv_disjoint I s a b Ha Hb).
Qed.

(** What the search returns: a walk from the source to the target, or
    the exception for a missing path when there is no walk. *)
Definition Outcome (r : result (list node)) : Prop :=
  (exists p c, r = Ok p /\ walk g w s t p c)
  \/ (r = Raise NetworkXNoPath /\ forall q c, ~ walk g w s t q c).

Lemma is_empty_nil {A} (l : list A) : is_empty l = true -> l = [].
Proof. destruct l; [reflexivity|discriminate]. Qed.

(** The facts about a turn that the proofs below share: the entry taken
    off the heap of the turn's direction. *)
Lemma turn_entry (dir : bool) (st : bstate) (d : Float64.float) (cnt : nat)
    (v : node) (rest : list entry) :
  Sides false [] st ->
  pop_min (fringe (side_of dir st)) = Some ((d, cnt, v), rest) ->
  (forall e, In e (fringe (side_of dir st)) <-> e = (d, cnt, v) \/ In e rest)
  /\ (forall e, In e (fringe (side_of dir st)) -> fle d (entry_dist e)).
Proof.
  intros S Hp. apply (sides_any dir) in S. destruct S as [I _].
  split; [exact (proj1 (pop_min_some _ _ _ Hp))|].
  apply (pop_min_least _ _ _) with (2 := Hp).
  intros [[a c] x] He. apply sound_nonneg.
  exact (inv_sound_fringe I a c x He).
Qed.

(** A turn whose entry is the one of a node settled already. *)
Lemma turn_continue (dir : bool) (st : bstate) (d : Float64.float)
    (cnt : nat) (v : node) (rest : list entry) (dv : Float64.float) :
  Inv dir st ->
  pop_min (fringe (side_of (negb dir) st)) = Some ((d, cnt, v), rest) ->
  lookup (dists (side_of (negb dir) st)) v = Some dv ->
  Inv (negb dir) (popped (negb dir) rest st).
Proof.
  intros I Ep Ev.
  destruct (turn_entry (negb dir) st d cnt v rest (inv_sides I) Ep)
    as [Hin Hmin].
  pose proof (sides_any (negb dir) st (inv_sides I)) as [Ime Io].
  constructor.
  - apply (sides_false (negb dir)). split.
    + rewrite side_of_popped.
      apply (drop_entry_inv (negb dir) (root_of (negb dir)) _
               (d, cnt, v) rest dv Ime Hin Ev).
    + rewrite side_of_popped_other. exact Io.
  - apply (meet_ext st); [| | |exact (inv_meet I)];
      destruct dir; reflexivity.
  - exact (phase_continue dir st rest v dv (inv_phase I) Ev).
  - intros x a b Ha Hb. apply (inv_disjoint I x a b).
    + destruct dir; exact Ha.
    + destruct dir; exact Hb.
Qed.

(** A turn that settles a node settled in the other direction too: the
    path kept is returned, and it is a walk. *)
Lemma turn_return (dir : bool) (st : bstate) (d : Float64.float)
    (cnt : nat) (v : node) (rest : list entry) (b : Float64.float) :
  Inv dir st ->
  pop_min (fringe (side_of (negb dir) st)) = Some ((d, cnt, v), rest) ->
  lookup (dists (side_of (negb (negb dir)) st)) v = Some b ->
  exists c, walk g w s t (finalpath st) c.
Proof.
  intros I Ep Eo.
  destruct (turn_entry (negb dir) st d cnt v rest (inv_sides I) Ep)
    as [Hin _].
  pose proof (sides_any (negb dir) st (inv_sides I)) as [Ime Io].
  assert (Hpop : In (d, cnt, v) (fringe (side_of (negb dir) st)))
    by (apply Hin; left; reflexivity).
  destruct (inv_fringe_seen Ime _ _ _ Hpop) as (sv & Hsv & _).
  destruct (inv_dists_seen Io _ _ Eo) as (so & Hso & _).
  assert (Hne : finalpath st <> []).
  { destruct dir; simpl in Hsv, Hso.
    - exact (meet_seen (inv_meet I) v _ _ Hsv Hso).
    - exact (meet_seen (inv_meet I) v _ _ Hso Hsv). }
  destruct (meet_walk (inv_meet I)) as [E|[c Hc]]; [contradiction|].
  exists c. exact Hc.
Qed.

(** The state in which the neighbours of the node just settled are
    looked at. *)
Lemma settled_ready (dir : bool) (st : bstate) (d : Float64.float)
    (cnt : nat) (v : node) (rest : list entry) :
  Inv dir st ->
  pop_min (fringe (side_of (negb dir) st)) = Some ((d, cnt, v), rest) ->
  lookup (dists (side_of (negb dir) st)) v = None ->
  let st1 := settled (negb dir) v d rest st in
  Sides (negb dir)
    (map (fun n => (v, fst n, snd n)) (neighbours g (negb dir) v)) st1
  /\ Meet st1
  /\ lookup (dists (side_of (negb dir) st1)) v = Some d
  /\ (forall u du, lookup (dists (side_of (negb dir) st1)) u = Some du ->
        fle du d)
  /\ (forall x e, In (x, e) (neighbours g (negb dir) v) ->
        dedge g (negb dir) v x e).
Proof.
  intros I Ep Ev st1. unfold st1.
  destruct (turn_entry (negb dir) st d cnt v rest (inv_sides I) Ep)
    as [Hin Hmin].
  pose proof (sides_any (negb dir) st (inv_sides I)) as [Ime Io].
  destruct (least_entry_facts (negb dir) (root_of (negb dir)) _ d cnt v
              rest Ime Hin Hmin Ev) as (Hd & _ & Hmax).
  pose proof (settle_inv (negb dir) (root_of (negb dir)) _ d cnt v
                rest Ime Hin Hmin Ev) as Is.
  split; [|split; [|split; [|split]]].
  - split; [rewrite side_of_settled; exact Is|].
    rewrite side_of_settled_other. exact Io.
  - apply (meet_ext st); [| | |exact (inv_meet I)];
      destruct dir; reflexivity.
  - rewrite side_of_settled. simpl. apply lookup_insert_eq.
  - rewrite side_of_settled. simpl. intros u du Hu.
    rewrite lookup_insert in Hu. destruct (node_eqb v u).
    + injection Hu as <-. apply sound_refl. exact Hd.
    + exact (Hmax _ _ Hu).
  - intros x e. apply neighbours_dedge.
Qed.

(** After the loop over the neighbours the search is ready for its next
    turn. *)
Lemma relaxed_inv (dir : bool) (st st' : bstate) (d : Float64.float)
    (cnt : nat) (v : node) (rest : list entry) :
  Inv dir st ->
  pop_min (fringe (side_of (negb dir) st)) = Some ((d, cnt, v), rest) ->
  lookup (dists (side_of (negb (negb dir)) st)) v = None ->
  relax w (negb dir) v d (neighbours g (negb dir) v)
    (settled (negb dir) v d rest st) = Ok st' ->
  Sides (negb dir) [] st' -> Meet st' ->
  Inv (negb dir) st'.
Proof.
  intros I Ep Eo Er S' M'.
  apply relax_frame in Er. destruct Er as (Hdd & Hoo & _).
  rewrite side_of_settled in Hdd. simpl in Hdd.
  rewrite side_of_settled_other in Hoo.
  constructor.
  - exact (sides_false _ _ S').
  - exact M'.
  - exact (phase_settle dir st st' d cnt v rest (inv_phase I) Ep Hdd Hoo).
  - exact (disjoint_settle (negb dir) st st' v d (inv_disjoint I) Eo Hdd Hoo).
Qed.

Lemma turn_relax (dir : bool) (st : bstate) (d : Float64.float)
    (cnt : nat) (v : node) (rest : list entry) :
  Inv dir st ->
  pop_min (fringe (side_of (negb dir) st)) = Some ((d, cnt, v), rest) ->
  lookup (dists (side_of (negb dir) st)) v = None ->
  lookup (dists (side_of (negb (negb dir)) st)) v = None ->
  exists st',
    relax w (negb dir) v d (neighbours g (negb dir) v)
      (settled (negb dir) v d rest st) = Ok st'
    /\ Inv (negb dir) st'.
Proof.
  intros I Ep Ev Eo.
  destruct (settled_ready dir st d cnt v rest I Ep Ev)
    as (S1 & M1 & Hv & Hmax & Hn).
  destruct (relax_inv (negb dir) v d (neighbours g (negb dir) v)
              (settled (negb dir) v d rest st) S1 M1 Hv Hmax Hn)
    as (st' & Er & S' & M').
  exists st'. split; [exact Er|].
  exact (relaxed_inv dir st st' d cnt v rest I Ep Eo Er S' M').
Qed.

Lemma search_inv (turns : nat) (dir : bool) (st : bstate)
    (r : result (list node)) :
  Inv dir st -> search turns g w dir st = Some r -> Outcome r.
Proof.
  revert dir st. induction turns as [|turns IH]; intros dir st I;
    [discriminate|].
  rewrite search_turn.
  destruct (is_empty (fringe (forward st)) || is_empty (fringe (backward st)))
    eqn:Ee.
  - intro H. injection H as <-. right. split; [reflexivity|].
    apply (exhausted_no_walk dir st I).
    apply orb_true_iff in Ee. destruct Ee as [E|E]; apply is_empty_nil in E; auto.
  - destruct (pop_min (fringe (side_of (negb dir) st)))
      as [[[[d cnt] v] rest]|] eqn:Ep.
    + destruct (lookup (dists (side_of (negb dir) st)) v) as [dv|] eqn:Ev.
      * apply IH. exact (turn_continue dir st d cnt v rest dv I Ep Ev).
      * rewrite side_of_settled_other.
        destruct (lookup (dists (side_of (negb (negb dir)) st)) v)
          as [b|] eqn:Eo.
        -- intro H. injection H as <-. left.
           rewrite (proj1 (final_of_settled (negb dir) v d rest st)).
           destruct (turn_return dir st d cnt v rest b I Ep Eo) as [c Hc].
           exists (finalpath st), c. split; [reflexivity|exact Hc].
        -- destruct (turn_relax dir st d cnt v rest I Ep Ev Eo)
             as (st' & Er & I').
           rewrite Er. apply IH. exact I'.
    + intro H. injection H as <-. right. split; [reflexivity|].
      apply pop_min_none in Ep. apply (exhausted_no_walk dir st I).
      destruct dir; simpl in Ep; auto.
Qed.

(** From the initial state the search returns, and what it returns is
    right. *)
Lemma search_outcome :
  exists r, search (turns_bound g) g w true (initial_state s t) = Some r
            /\ Outcome r.
Proof.
  destruct (search (turns_bound g) g w true (initial_state s t)) as [r|] eqn:E.
  - exists r. split; [reflexivity|].
    exact (search_inv _ _ _ _ initial_inv E).
  - exfalso. exact (search_within_turns g w s t E).
Qed.

(** *** Sums that are exact *)

Lemma fle_num_left (a : Float64.float) (q : Q) :
  fle a (Num q) -> exists q', a = Num q' /\ q' <= q.
Proof.
  destruct a as [q'|[|]|]; simpl; try tauto. intro H. exists q'. auto.
Qed.

Section Exact.

(** [fine n q]: [q] can be a distance after [n] turns of the search.  Up
    to the bound [N] on the turns, the sum of such a distance and the
    cost of an edge, and the sum of two such distances, are computed
    without rounding. *)
Variable fine : nat -> Q -> Prop.
Variable N : nat.
Hypothesis fine_zero : fine 0 0.
Hypothesis fine_mono :
  forall n m q, (n <= m)%nat -> fine n q -> fine m q.
Hypothesis plus_step :
  forall n q u x e, (n < N)%nat -> fine n q -> In (u, x, e) (edges g) ->
    exists z, plus w (Num q) (read_cost w e) = Num z
              /\ z == q + edge_cost w e /\ fine (S n) z.
Hypothesis plus_meet :
  forall q1 q2, fine N q1 -> fine N q2 ->
    exists z, plus w (Num q1) (Num q2) = Num z /\ z == q1 + q2.

Lemma plus_dedge (dir : bool) (n : nat) (q : Q) (u x : node)
    (e : edge_attrs) :
  (n < N)%nat -> fine n q -> dedge g dir u x e ->
  exists z, plus w (Num q) (read_cost w e) = Num z
            /\ z == q + edge_cost w e /\ fine (S n) z.
Proof.
  intros Hn Hq He. destruct dir; simpl in He;
    exact (plus_step n q _ _ e Hn Hq He).
Qed.

Section SideExact.

Variable dir : bool.
Variable root : node.

(** With exact sums, what a direction holds after [n] turns: the
    distance of a node reached is the cost of its path, and the distance
    of a settled node is the least cost of a walk to it. *)
Record EInv (n : nat) (sd : side) : Prop := {
  e_seen : forall x a, lookup (seen sd) x = Some a ->
    exists q p c, a = Num q /\ fine n q /\ lookup (paths sd) x = Some p
                  /\ dwalk g w dir root x p c /\ c == q;
  e_fringe : forall a cnt x, In (a, cnt, x) (fringe sd) ->
    exists q, a = Num q /\ fine n q;
  e_dists : forall x a, lookup (dists sd) x = Some a ->
    exists q, a = Num q /\ fine n q
              /\ forall p c, dwalk g w dir root x p c -> q <= c
}.

Arguments e_seen {n sd}.
Arguments e_fringe {n sd}.
Arguments e_dists {n sd}.

Lemma einv_mono (n m : nat) (sd : side) :
  (n <= m)%nat -> EInv n sd -> EInv m sd.
Proof.
  intros Hnm E. constructor.
  - intros x a H. destruct (e_seen E _ _ H) as (q & p & c & Ha & Hf & Hr).
    exists q, p, c. split; [exact Ha|]. split; [|exact Hr].
    exact (fine_mono _ _ _ Hnm Hf).
  - intros a cnt x H. destruct (e_fringe E _ _ _ H) as (q & Ha & Hf).
    exists q. split; [exact Ha|exact (fine_mono _ _ _ Hnm Hf)].
  - intros x a H. destruct (e_dists E _ _ H) as (q & Ha & Hf & Hr).
    exists q. split; [exact Ha|]. split; [|exact Hr].
    exact (fine_mono _ _ _ Hnm Hf).
Qed.

Lemma initial_einv (cnt : nat) :
  EInv 0 (mkSide [] [(root, Num 0)] [(root, [root])] [(Num 0, cnt, root)]).
Proof.
  constructor; simpl.
  - intros x a H. unfold lookup in *. simpl in *.
    destruct (node_eqb root x) eqn:E; [|discriminate].
    apply node_eqb_eq in E. subst x. simpl in H. injection H as <-.
    exists 0, [root], 0. split; [reflexivity|]. split; [exact fine_zero|].
    split; [reflexivity|]. split; [constructor|reflexivity].
  - intros a c x [H|[]]. injection H as <- _ _. exists 0.
    split; [reflexivity|exact fine_zero].
  - intros x a H. discriminate H.
Qed.

(** A walk from the root ends at a settled node that is not farther
    than the walk is long, or the heap holds an entry that is not. *)
Lemma frontier (n : nat) (sd : side) (x : node) (p : list node) (c : Q) :
  (n < N)%nat -> SInv dir root [] sd -> EInv n sd ->
  dwalk g w dir root x p c ->
  (exists q, lookup (dists sd) x = Some (Num q) /\ q <= c)
  \/ (exists q cnt y, In (Num q, cnt, y) (fringe sd) /\ q <= c).
Proof.
  intros Hn I E H. induction H as [|v x e p c H IH Hin].
  - destruct (inv_root I) as (a0 & Hs & Hs0).
    destruct (lookup (dists sd) root) as [a|] eqn:Ed.
    + left. destruct (e_dists E _ _ Ed) as (q & -> & _ & Hopt).
      exists q. split; [reflexivity|]. apply (Hopt [root]). constructor.
    + right. destruct (inv_seen_fringe I _ _ Hs Ed) as (a' & cnt & Hf & _ & H2).
      destruct (e_fringe E _ _ _ Hf) as (q & -> & _).
      exists q, cnt, root. split; [exact Hf|].
      exact (Float64Facts.fle_trans _ _ _ H2 Hs0).
  - pose proof (dedge_cost _ _ _ _ Hin) as Hc.
    destruct IH as [(qv & Hdv & Hle)|(q & cnt & y & Hf & Hle)].
    + destruct (inv_relaxed I _ _ _ _ Hdv Hin) as [[]|(sx & Hsx & Hle')].
      destruct (e_dists E _ _ Hdv) as (qv' & Eq & Hfine & _).
      injection Eq as <-.
      destruct (plus_dedge dir n qv v x e Hn Hfine Hin) as (z & Hz & Hzv & _).
      rewrite Hz in Hle'.
      destruct (e_seen E _ _ Hsx) as (qs & _ & _ & -> & _).
      change (qs <= z) in Hle'.
      destruct (lookup (dists sd) x) as [a|] eqn:Ed.
      * left. destruct (e_dists E _ _ Ed) as (qa & -> & _).
        exists qa. split; [reflexivity|].
        destruct (inv_dists_seen I _ _ Ed) as (a' & Ha' & H1 & _).
        rewrite Hsx in Ha'. injection Ha' as <-.
        change (qa <= qs) in H1. lra.
      * right.
        destruct (inv_seen_fringe I _ _ Hsx Ed) as (a' & cnt & Hf & _ & H2).
        destruct (e_fringe E _ _ _ Hf) as (q' & -> & _).
        exists q', cnt, x. split; [exact Hf|].
        change (q' <= qs) in H2. lra.
    + right. exists q, cnt, y. split; [exact Hf|lra].
Qed.

Lemma drop_einv (n : nat) (sd : side) (m : entry) (rest : list entry) :
  EInv n sd ->
  (forall e, In e (fringe sd) <-> e = m \/ In e rest) ->
  EInv n (mkSide (dists sd) (seen sd) (paths sd) rest).
Proof.
  intros E Hin. constructor; simpl.
  - exact (e_seen E).
  - intros a cnt x H. apply (e_fringe E a cnt x). apply Hin. right. exact H.
  - exact (e_dists E).
Qed.

(** The distance at which a node is settled is the least cost of a walk
    to it. *)
Lemma settle_einv (n : nat) (sd : side) (d : Float64.float) (cnt : nat)
    (v : node) (rest : list entry) :
  (n < N)%nat -> SInv dir root [] sd -> EInv n sd ->
  (forall e, In e (fringe sd) <-> e = (d, cnt, v) \/ In e rest) ->
  (forall e, In e (fringe sd) -> fle d (entry_dist e)) ->
  lookup (dists sd) v = None ->
  EInv n (mkSide (insert v d (dists sd)) (seen sd) (paths sd) rest).
Proof.
  intros Hn I E Hin Hmin Hv.
  assert (Hpop : In (d, cnt, v) (fringe sd)) by (apply Hin; left; reflexivity).
  constructor; simpl.
  - exact (e_seen E).
  - intros a c x H. apply (e_fringe E a c x). apply Hin. right. exact H.
  - intros x a H. rewrite lookup_insert in H.
    destruct (node_eqb v x) eqn:Ex; [|exact (e_dists E _ _ H)].
    apply node_eqb_eq in Ex. subst x. injection H as <-.
    destruct (e_fringe E _ _ _ Hpop) as (qd & -> & Hf).
    exists qd. split; [reflexivity|]. split; [exact Hf|].
    intros p c Hw.
    destruct (frontier n sd v p c Hn I E Hw)
      as [(q & Hq & _)|(q & cnt' & y & Hy & Hle)]; [congruence|].
    pose proof (Hmin _ Hy) as Hm. change (qd <= q) in Hm. lra.
Qed.

Lemma push_einv (n : nat) (v x : node) (qd : Q) (e : edge_attrs)
    (rest : list (node * node * edge_attrs)) (sd : side) (pv : list node)
    (cnt : nat) :
  (n < N)%nat -> SInv dir root ((v, x, e) :: rest) sd -> EInv (S n) sd ->
  lookup (dists sd) v = Some (Num qd) -> fine n qd ->
  dedge g dir v x e ->
  lookup (paths sd) v = Some pv ->
  EInv (S n)
    (mkSide (dists sd)
            (insert x (plus w (Num qd) (read_cost w e)) (seen sd))
            (insert x (pv ++ [x]) (paths sd))
            ((plus w (Num qd) (read_cost w e), cnt, x) :: fringe sd)).
Proof.
  intros Hn I E Hv Hfine Hin Hpv.
  destruct (plus_dedge dir n qd v x e Hn Hfine Hin) as (z & Hz & Hzv & Hzf).
  rewrite Hz.
  destruct (inv_dists_seen I _ _ Hv) as (sv & Hsv & H1 & H2).
  destruct (e_seen E _ _ Hsv) as (qs & p0 & cv & -> & _ & Hp0 & Hwalk & Hcv).
  rewrite Hpv in Hp0. injection Hp0 as <-.
  change (qd <= qs) in H1. change (qs <= qd) in H2.
  constructor; simpl.
  - intros x' a H. rewrite lookup_insert in H. rewrite lookup_insert.
    destruct (node_eqb x x') eqn:Ex; [|exact (e_seen E _ _ H)].
    apply node_eqb_eq in Ex. subst x'. injection H as <-.
    exists z, (pv ++ [x]), (cv + edge_cost w e). split; [reflexivity|].
    split; [exact Hzf|]. split; [reflexivity|].
    split; [eapply dwalk_step; eassumption|]. lra.
  - intros a c x' [H|H].
    + injection H as <- _ _. exists z. split; [reflexivity|exact Hzf].
    + exact (e_fringe E _ _ _ H).
  - exact (e_dists E).
Qed.

(** A walk from the root ends at a settled node, or it leaves the
    settled nodes at a node reached at a distance that is not more than
    the cost of the walk up to it. *)
Lemma split_walk (n : nat) (sd : side) (x : node) (p : list node) (c : Q) :
  (n < N)%nat -> SInv dir root [] sd -> EInv n sd ->
  dwalk g w dir root x p c ->
  (exists q, lookup (dists sd) x = Some (Num q) /\ q <= c)
  \/ (exists z qz p2 c1 c2,
        lookup (dists sd) z = None
        /\ lookup (seen sd) z = Some (Num qz) /\ qz <= c1
        /\ dwalk g w dir z x p2 c2 /\ c1 + c2 <= c).
Proof.
  intros Hn I E H. induction H as [|v x e p c H IH Hin].
  - destruct (lookup (dists sd) root) as [a|] eqn:Ed.
    + left. destruct (e_dists E _ _ Ed) as (q & -> & _ & Hopt).
      exists q. split; [reflexivity|]. apply (Hopt [root]). constructor.
    + right. destruct (inv_root I) as (a0 & Hs & Hs0).
      destruct (e_seen E _ _ Hs) as (q0 & _ & _ & -> & _).
      change (q0 <= 0) in Hs0.
      exists root, q0, [root], 0, 0. split; [exact Ed|].
      split; [exact Hs|]. split; [exact Hs0|]. split; [constructor|lra].
  - pose proof (dedge_cost _ _ _ _ Hin) as Hc.
    destruct (lookup (dists sd) x) as [a|] eqn:Ed.
    + left. destruct (e_dists E _ _ Ed) as (q & -> & _ & Hopt).
      exists q. split; [reflexivity|].
      apply (Hopt (p ++ [x])). eapply dwalk_step; eassumption.
    + right. destruct IH as [(qv & Hdv & Hle)|(z & qz & p2 & c1 & c2 & IH)].
      * destruct (inv_relaxed I _ _ _ _ Hdv Hin) as [[]|(sx & Hsx & Hle')].
        destruct (e_dists E _ _ Hdv) as (qv' & Eq & Hfine & _).
        injection Eq as <-.
        destruct (plus_dedge dir n qv v x e Hn Hfine Hin) as (z & Hz & Hzv & _).
        rewrite Hz in Hle'.
        destruct (e_seen E _ _ Hsx) as (qs & _ & _ & -> & _).
        change (qs <= z) in Hle'.
        exists x, qs, [x], (c + edge_cost w e), 0. split; [exact Ed|].
        split; [exact Hsx|]. split; [lra|]. split; [constructor|lra].
      * destruct IH as (Hz & Hsz & Hqz & Hw2 & Hsum).
        exists z, qz, (p2 ++ [x]), c1, (c2 + edge_cost w e).
        split; [exact Hz|]. split; [exact Hsz|]. split; [exact Hqz|].
        split; [eapply dwalk_step; eassumption|lra].
Qed.

End SideExact.

Arguments e_seen {dir root n sd}.
Arguments e_fringe {dir root n sd}.
Arguments e_dists {dir root n sd}.

(** The two directions after [n] turns. *)
Definition ESides (n : nat) (st : bstate) : Prop :=
  forall d, EInv d (root_of d) n (side_of d st).

Lemma esides_intro (dir : bool) (n : nat) (st : bstate) :
  EInv dir (root_of dir) n (side_of dir st) ->
  EInv (negb dir) (root_of (negb dir)) n (side_of (negb dir) st) ->
  ESides n st.
Proof. intros H1 H2 d. destruct dir, d; simpl in *; assumption. Qed.

Lemma esides_mono (n m : nat) (st : bstate) :
  (n <= m)%nat -> ESides n st -> ESides m st.
Proof. intros H E d. exact (einv_mono d (root_of d) n m _ H (E d)). Qed.

Lemma esides_ext (n : nat) (st st' : bstate) :
  forward st' = forward st -> backward st' = backward st ->
  ESides n st -> ESides n st'.
Proof.
  intros Ef Eb E d. rewrite (side_of_ext d _ _ Ef Eb). exact (E d).
Qed.

(** The path kept so far and its length: the length is the cost of the
    path, and it is not more than the sum of the two distances of any
    node reached in both directions. *)
Record Best (st : bstate) : Prop := {
  best_dist : finalpath st <> [] ->
    exists q c, finaldist st = Some (Num q)
                /\ walk g w s t (finalpath st) c /\ c == q;
  best_seen : forall x a b,
    lookup (seen (forward st)) x = Some (Num a) ->
    lookup (seen (backward st)) x = Some (Num b) ->
    exists q, finaldist st = Some (Num q) /\ q <= a + b
}.

Arguments best_dist {st}.
Arguments best_seen {st}.

Lemma best_ext (st st' : bstate) :
  seen (forward st') = seen (forward st) ->
  seen (backward st') = seen (backward st) ->
  finalpath st' = finalpath st -> finaldist st' = finaldist st ->
  Best st -> Best st'.
Proof.
  intros Hf Hb Hp Hd B. constructor.
  - rewrite Hp, Hd. exact (best_dist B).
  - rewrite Hf, Hb, Hd. exact (best_seen B).
Qed.

Lemma best_seen_sides (st : bstate) (dir : bool) (x : node) (a b : Q) :
  Best st ->
  lookup (seen (side_of dir st)) x = Some (Num a) ->
  lookup (seen (side_of (negb dir) st)) x = Some (Num b) ->
  exists q, finaldist st = Some (Num q) /\ q <= a + b.
Proof.
  intros B Ha Hb. destruct dir; simpl in Ha, Hb.
  - destruct (best_seen B x b a Hb Ha) as (q & Hq & Hle).
    exists q. split; [exact Hq|lra].
  - exact (best_seen B x a b Ha Hb).
Qed.

Lemma meet_exact (n : nat) (x : node) (st st' : bstate) :
  (n <= N)%nat -> ESides n st ->
  (finalpath st <> [] ->
     exists q c, finaldist st = Some (Num q)
                 /\ walk g w s t (finalpath st) c /\ c == q) ->
  (forall y a b, y <> x ->
     lookup (seen (forward st)) y = Some (Num a) ->
     lookup (seen (backward st)) y = Some (Num b) ->
     exists q, finaldist st = Some (Num q) /\ q <= a + b) ->
  (forall y a b, y <> x ->
     lookup (seen (forward st)) y = Some a ->
     lookup (seen (backward st)) y = Some b -> finalpath st <> []) ->
  meet w x st = Ok st' -> Best st'.
Proof.
  intros Hn E Hd Hs Hne. unfold meet.
  assert (Hkeep :
    (forall a b, lookup (seen (forward st)) x = Some (Num a) ->
       lookup (seen (backward st)) x = Some (Num b) ->
       exists q, finaldist st = Some (Num q) /\ q <= a + b) ->
    Best st).
  { intro Hx. constructor; [exact Hd|]. intros y a b Hf Hb.
    destruct (node_eqb y x) eqn:Ey.
    - apply node_eqb_eq in Ey. subst y. exact (Hx a b Hf Hb).
    - apply node_eqb_neq in Ey. exact (Hs y a b Ey Hf Hb). }
  destruct (lookup (seen (forward st)) x) as [a0|] eqn:Ef;
    [|intro H; injection H as <-; apply Hkeep; intros a b H; discriminate H].
  destruct (lookup (seen (backward st)) x) as [b0|] eqn:Eb;
    [|intro H; injection H as <-; apply Hkeep; intros a b _ H; discriminate H].
  destruct (e_seen (E false) _ _ Ef) as (qa & pf & cf & -> & Hfa & Hpf & Hwf & Hcf).
  destruct (e_seen (E true) _ _ Eb) as (qb & pb & cb & -> & Hfb & Hpb & Hwb & Hcb).
  simpl in Hpf, Hpb, Hwf, Hwb. rewrite Hpf, Hpb.
  destruct (plus_meet qa qb (fine_mono _ _ _ Hn Hfa) (fine_mono _ _ _ Hn Hfb))
    as (z & Hz & Hzv).
  rewrite Hz. cbv zeta.
  destruct (walk_join g w s t x pf pb cf cb Hwf Hwb) as (c & Hc & Hcv).
  assert (Hnew : forall q0,
            (finalpath st <> [] -> finaldist st = Some (Num q0) /\ z <= q0) ->
            Best (mkB (forward st) (backward st) (counter st)
                      (Some (Num z)) (pf ++ tl (rev pb)))).
  { intros q0 Hq0. constructor; simpl.
    - intros _. exists z, c. split; [reflexivity|]. split; [exact Hc|]. lra.
    - intros y a b Hf Hb. exists z. split; [reflexivity|].
      destruct (node_eqb y x) eqn:Ey.
      + apply node_eqb_eq in Ey. subst y. rewrite Ef in Hf. rewrite Eb in Hb.
        injection Hf as <-. injection Hb as <-. lra.
      + apply node_eqb_neq in Ey.
        destruct (Hq0 (Hne y _ _ Ey Hf Hb)) as [Hfd Hle].
        destruct (Hs y a b Ey Hf Hb) as (q & Hq & Hqle).
        rewrite Hfd in Hq. injection Hq as <-. lra. }
  destruct (finalpath st) as [|n0 l0] eqn:Ep.
  - intro H. injection H as <-. apply (Hnew 0). intro H. contradiction.
  - destruct Hd as (q0 & c0 & Hq0 & _); [discriminate|].
    rewrite Hq0. simpl Float64.ltb.
    destruct (Qltb z q0) eqn:L; intro H; injection H as <-.
    + apply (Hnew q0). intros _. split; [exact Hq0|].
      apply Qltb_lt in L. lra.
    + rewrite <- Ep in *. apply Hkeep. intros a b Hf Hb.
      injection Hf as <-. injection Hb as <-.
      exists q0. split; [exact Hq0|]. apply Qltb_false in L. lra.
Qed.

(** The loop over the neighbours keeps the exact distances. *)
Lemma relax_exact (n : nat) (dir : bool) (v : node) (qd : Q)
    (nbrs : list (node * edge_attrs)) (st st' : bstate) :
  (n < N)%nat ->
  Sides dir (map (fun n => (v, fst n, snd n)) nbrs) st -> Meet st ->
  lookup (dists (side_of dir st)) v = Some (Num qd) ->
  (forall u du, lookup (dists (side_of dir st)) u = Some du ->
     fle du (Num qd)) ->
  (forall x e, In (x, e) nbrs -> dedge g dir v x e) ->
  fine n qd -> ESides (S n) st -> Best st ->
  relax w dir v (Num qd) nbrs st = Ok st' ->
  ESides (S n) st' /\ Best st'.
Proof.
  intro Hlt. revert st.
  induction nbrs as [|[x e] rest IH]; intros st Sd M Hv Hmax Hn Hfine E B.
  - simpl. intro H. injection H as <-. split; assumption.
  - assert (Hin : dedge g dir v x e) by (apply Hn; left; reflexivity).
    assert (Hn' : forall x' e', In (x', e') rest -> dedge g dir v x' e')
      by (intros x' e' H; apply Hn; right; exact H).
    destruct (relax_head dir v (Num qd) x e rest st Sd M Hv Hmax Hin)
      as [[Er S']|(pv & st1 & Hpv & Em & Er & Ef & Eb & S' & M1)];
      rewrite Er.
    + apply IH; assumption.
    + set (a := plus w (Num qd) (read_cost w e)) in *.
      assert (E' : ESides (S n) (push dir x a (pv ++ [x]) st)).
      { apply (esides_intro dir).
        - rewrite side_of_push.
          exact (push_einv dir (root_of dir) n v x qd e _ _ pv (counter st)
                   Hlt (proj1 Sd) (E dir) Hv Hfine Hin Hpv).
        - rewrite side_of_push_other. exact (E (negb dir)). }
      assert (B1 : Best st1).
      { apply (meet_exact (S n) x (push dir x a (pv ++ [x]) st) st1);
          [lia|exact E'| | | |exact Em].
        - destruct (final_of_push dir x a (pv ++ [x]) st) as [-> ->].
          exact (best_dist B).
        - intros y a' b' Hne Hf Hb.
          rewrite (proj2 (final_of_push dir x a (pv ++ [x]) st)).
          assert (Hne' : x <> y) by congruence.
          destruct (seen_push_other dir x y a (pv ++ [x]) st Hne') as [E1 E2].
          rewrite E1 in Hf. rewrite E2 in Hb.
          exact (best_seen B y a' b' Hf Hb).
        - intros y a' b' Hne Hf Hb.
          rewrite (proj1 (final_of_push dir x a (pv ++ [x]) st)).
          assert (Hne' : x <> y) by congruence.
          destruct (seen_push_other dir x y a (pv ++ [x]) st Hne') as [E1 E2].
          rewrite E1 in Hf. rewrite E2 in Hb.
          exact (meet_seen M y a' b' Hf Hb). }
      apply IH.
      * exact (sides_ext _ _ _ _ Ef Eb S').
      * exact M1.
      * rewrite (side_of_ext dir _ _ Ef Eb), side_of_push. exact Hv.
      * rewrite (side_of_ext dir _ _ Ef Eb), side_of_push. exact Hmax.
      * exact Hn'.
      * exact Hfine.
      * exact (esides_ext _ _ _ Ef Eb E').
      * exact B1.
Qed.

(** A walk from the source to the target, read in a direction. *)
Lemma walk_in_direction (dir : bool) (q : list node) (c : Q) :
  walk g w s t q c ->
  exists p c', dwalk g w dir (root_of dir) (root_of (negb dir)) p c'
               /\ c' == c.
Proof.
  intro H. destruct dir; simpl.
  - destruct (walk_backward g w s t q c H) as (c' & Hw & Hc).
    exists (rev q), c'. split; assumption.
  - exists q, c. split; [apply dwalk_forward; exact H|reflexivity].
Qed.

(** When a node is settled in both directions, no walk from the source
    to the target costs less than the path kept. *)
Lemma return_optimal (n : nat) (dir : bool) (st : bstate)
    (d : Float64.float) (cnt : nat) (v : node) (rest : list entry)
    (b : Float64.float) :
  (n < N)%nat -> Inv dir st -> ESides n st -> Best st ->
  pop_min (fringe (side_of (negb dir) st)) = Some ((d, cnt, v), rest) ->
  lookup (dists (side_of (negb dir) st)) v = None ->
  lookup (dists (side_of (negb (negb dir)) st)) v = Some b ->
  exists c, walk g w s t (finalpath st) c
            /\ forall q c', walk g w s t q c' -> c <= c'.
Proof.
  intros Hn I E B Ep Ev Eo.
  destruct (turn_entry (negb dir) st d cnt v rest (inv_sides I) Ep)
    as [Hin Hmin].
  pose proof (sides_any (negb dir) st (inv_sides I)) as [Ime Io].
  pose proof (E (negb dir)) as Eme. pose proof (E (negb (negb dir))) as Eot.
  destruct (least_entry_facts (negb dir) (root_of (negb dir)) _ d cnt v
              rest Ime Hin Hmin Ev) as (_ & (sv & Hsv & Hsvd & Hdsv) & _).
  assert (Hpop : In (d, cnt, v) (fringe (side_of (negb dir) st)))
    by (apply Hin; left; reflexivity).
  destruct (e_fringe Eme _ _ _ Hpop) as (qd & -> & _).
  destruct (e_seen Eme _ _ Hsv) as (qsv & _ & _ & -> & _).
  change (qsv <= qd) in Hsvd. change (qd <= qsv) in Hdsv.
  destruct (e_dists Eot _ _ Eo) as (qb & -> & _).
  destruct (inv_dists_seen Io _ _ Eo) as (so & Hso & Hbs & Hsb).
  destruct (e_seen Eot _ _ Hso) as (qso & _ & _ & -> & _).
  change (qb <= qso) in Hbs. change (qso <= qb) in Hsb.
  destruct (best_seen_sides st (negb dir) v qsv qso B Hsv Hso)
    as (mu & Hmu & Hmule).
  assert (Hne : finalpath st <> []).
  { destruct dir; simpl in Hsv, Hso.
    - exact (meet_seen (inv_meet I) v _ _ Hsv Hso).
    - exact (meet_seen (inv_meet I) v _ _ Hso Hsv). }
  destruct (best_dist B Hne) as (q0 & c0 & Hq0 & Hw0 & Hc0).
  rewrite Hmu in Hq0. injection Hq0 as <-.
  exists c0. split; [exact Hw0|]. intros q c' Hq.
  destruct (walk_in_direction (negb dir) q c' Hq) as (p & c'' & Hp & Hc'').
  destruct (split_walk (negb dir) (root_of (negb dir)) n _ _ p c'' Hn Ime Eme Hp)
    as [(q1 & Hq1 & Hle1)|(z & qz & p2 & c1 & c2 & Hz & Hsz & Hqz & Hw2 & Hsum)].
  - destruct (inv_dists_seen Ime _ _ Hq1) as (s1 & Hs1 & H1 & H2).
    destruct (e_seen Eme _ _ Hs1) as (qs1 & _ & _ & -> & _).
    change (q1 <= qs1) in H1. change (qs1 <= q1) in H2.
    destruct (inv_root Io) as (a0 & Ha0 & Ha0le).
    destruct (e_seen Eot _ _ Ha0) as (q0' & _ & _ & -> & _).
    change (q0' <= 0) in Ha0le.
    destruct (best_seen_sides st (negb dir) _ qs1 q0' B Hs1 Ha0)
      as (mu' & Hmu' & Hmule').
    rewrite Hmu in Hmu'. injection Hmu' as <-. lra.
  - destruct (dwalk_rev g w (negb dir) z _ p2 c2 Hw2) as (c2' & Hw2' & Hc2').
    destruct (frontier (negb (negb dir)) (root_of (negb (negb dir))) n _ z
                (rev p2) c2' Hn Io Eot Hw2')
      as [(q2 & Hq2 & Hle2)|(q3 & cnt' & y & Hy & Hle3)].
    + destruct (inv_dists_seen Io _ _ Hq2) as (s2 & Hs2 & H1 & H2).
      destruct (e_seen Eot _ _ Hs2) as (qs2 & _ & _ & -> & _).
      change (q2 <= qs2) in H1. change (qs2 <= q2) in H2.
      destruct (best_seen_sides st (negb dir) z qz qs2 B Hsz Hs2)
        as (mu' & Hmu' & Hmule').
      rewrite Hmu in Hmu'. injection Hmu' as <-. lra.
    + pose proof (inv_mono Io _ _ _ _ _ Eo Hy) as Hb3.
      change (qb <= q3) in Hb3.
      destruct (inv_seen_fringe Ime _ _ Hsz Hz) as (a' & cnt'' & Hf & H1 & H2).
      destruct (e_fringe Eme _ _ _ Hf) as (qa' & -> & _).
      change (qz <= qa') in H1. change (qa' <= qz) in H2.
      pose proof (Hmin _ Hf) as Hm. change (qd <= qa') in Hm. lra.
Qed.

Hypothesis N_bound : (turns_bound g <= N)%nat.

(** A path that the search returns costs no more than any walk from the
    source to the target. *)
Lemma search_exact (turns n : nat) (dir : bool) (st : bstate)
    (p : list node) :
  (n + turns <= N)%nat -> Inv dir st -> ESides n st -> Best st ->
  search turns g w dir st = Some (Ok p) ->
  exists c, walk g w s t p c /\ forall q c', walk g w s t q c' -> c <= c'.
Proof.
  revert n dir st. induction turns as [|turns IH]; intros n dir st Hn I E B;
    [discriminate|].
  rewrite search_turn.
  destruct (is_empty (fringe (forward st)) || is_empty (fringe (backward st)));
    [discriminate|].
  destruct (pop_min (fringe (side_of (negb dir) st)))
    as [[[[d cnt] v] rest]|] eqn:Ep; [|discriminate].
  destruct (turn_entry (negb dir) st d cnt v rest (inv_sides I) Ep)
    as [Hin Hmin].
  pose proof (sides_any (negb dir) st (inv_sides I)) as [Ime Io].
  assert (Hlt : (n < N)%nat) by lia.
  destruct (lookup (dists (side_of (negb dir) st)) v) as [dv|] eqn:Ev.
  - apply (IH (S n)); [lia| | |].
    + exact (turn_continue dir st d cnt v rest dv I Ep Ev).
    + apply (esides_mono n); [lia|]. apply (esides_intro (negb dir)).
      * rewrite side_of_popped.
        exact (drop_einv (negb dir) (root_of (negb dir)) n _ _ rest
                 (E (negb dir)) Hin).
      * rewrite side_of_popped_other. exact (E (negb (negb dir))).
    + apply (best_ext st); [| | | |exact B]; destruct dir; reflexivity.
  - rewrite side_of_settled_other.
    destruct (lookup (dists (side_of (negb (negb dir)) st)) v) as [b|] eqn:Eo.
    + intro H. injection H as <-.
      rewrite (proj1 (final_of_settled (negb dir) v d rest st)).
      exact (return_optimal n dir st d cnt v rest b Hlt I E B Ep Ev Eo).
    + destruct (settled_ready dir st d cnt v rest I Ep Ev)
        as (S1 & M1 & Hv & Hmax & Hnb).
      destruct (relax_inv (negb dir) v d (neighbours g (negb dir) v)
                  (settled (negb dir) v d rest st) S1 M1 Hv Hmax Hnb)
        as (st' & Er & S' & M').
      rewrite Er.
      pose proof (relaxed_inv dir st st' d cnt v rest I Ep Eo Er S' M') as I'.
      assert (Hpop : In (d, cnt, v) (fringe (side_of (negb dir) st)))
        by (apply Hin; left; reflexivity).
      destruct (e_fringe (E (negb dir)) _ _ _ Hpop) as (qd & -> & Hfine).
      destruct (relax_exact n (negb dir) v qd (neighbours g (negb dir) v)
                  (settled (negb dir) v (Num qd) rest st) st'
                  Hlt S1 M1 Hv Hmax Hnb Hfine) as [E' B'].
      * apply (esides_mono n); [lia|]. apply (esides_intro (negb dir)).
        -- rewrite side_of_settled.
           exact (settle_einv (negb dir) (root_of (negb dir)) n _ _ cnt v rest
                    Hlt Ime (E (negb dir)) Hin Hmin Ev).
        -- rewrite side_of_settled_other. exact (E (negb (negb dir))).
      * apply (best_ext st); [| | | |exact B]; destruct dir; reflexivity.
      * exact Er.
      * apply (IH (S n)); [lia|exact I'|exact E'|exact B'].
Qed.

Lemma initial_exact :
  ESides 0 (initial_state s t) /\ Best (initial_state s t).
Proof.
  split.
  - intros [|]; simpl.
    + exact (initial_einv true t 1).
    + exact (initial_einv false s 0).
  - constructor; simpl.
    + intro H. contradiction.
    + intros x a b Hf Hb. unfold lookup in Hf, Hb. simpl in Hf, Hb.
      destruct (node_eqb s x) eqn:E1; [|discriminate].
      destruct (node_eqb t x) eqn:E2; [|discriminate].
      apply node_eqb_eq in E1, E2. exfalso. apply s_neq_t. congruence.
Qed.

(** What the search returns when the sums are exact: a walk of least
    cost, or the exception for a missing path when there is no walk. *)
Definition Optimal (r : result (list node)) : Prop :=
  (exists p c, r = Ok p /\ walk g w s t p c
               /\ forall q c', walk g w s t q c' -> c <= c')
  \/ (r = Raise NetworkXNoPath /\ forall q c, ~ walk g w s t q c).

Lemma search_optimal :
  exists r, search (turns_bound g) g w true (initial_state s t) = Some r
            /\ Optimal r.
Proof.
  destruct search_outcome as (r & Hr & [(p & c & -> & Hw)|[-> Hno]]).
  - exists (Ok p). split; [exact Hr|]. left.
    destruct initial_exact as [E B].
    destruct (search_exact (turns_bound g) 0 true (initial_state s t) p
                N_bound initial_inv E B Hr) as (c' & Hw' & Hopt).
    exists p, c'. split; [reflexivity|]. split; assumption.
  - exists (Raise NetworkXNoPath). split; [exact Hr|]. right.
    split; [reflexivity|exact Hno].
Qed.

End Exact.

End Search.

(** *** [nx.shortest_path] and [get_shortest_path] *)

(** The test that no cost read by the search is negative. *)
Definition nonneg_costsb (g : DiGraph) (w : weight_name) : bool :=
  forallb (fun e => Qle_bool 0 (edge_cost w (snd e))) (edges g).

Lemma nonneg_costsb_sound (g : DiGraph) (w : weight_name) :
  nonneg_costsb g w = true -> nonneg_costs g w.
Proof.
  unfold nonneg_costsb. rewrite forallb_forall. intros H u x e Hin.
  apply Qle_bool_iff. apply (H (u, x, e) Hin).
Qed.

Lemma has_node_contains (g : DiGraph) (n : node) :
  has_node g n = true -> contains g n = true.
Proof. intro H. unfold contains. rewrite H. reflexivity. Qed.

Lemma edge_end_contains (g : DiGraph) (u x : node) (e : edge_attrs) :
  In (u, x, e) (edges g) -> contains g x = true.
Proof.
  intro H. unfold contains. apply orb_true_iff. right.
  apply existsb_exists. exists (u, x, e). split; [exact H|]. simpl.
  rewrite (node_eqb_refl x). apply orb_true_r.
Qed.

Lemma walk_contains (g : DiGraph) (w : weight_name) (s t : node)
    (p : list node) (c : Q) :
  walk g w s t p c -> contains g s = true -> contains g t = true.
Proof.
  intros H Hs. destruct H as [|v x e p c H Hin]; [exact Hs|].
  exact (edge_end_contains g v x e Hin).
Qed.

(** Between two nodes of the graph, and with costs that are not
    negative, the search returns a walk from the first to the second, or
    raises [NetworkXNoPath] when there is no walk at all. *)
Lemma shortest_path_outcome (g : DiGraph) (w : weight_name) (s t : node) :
  nonneg_costs g w -> contains g s = true -> contains g t = true ->
  (exists p c, shortest_path g s t w = Some (Ok p) /\ walk g w s t p c)
  \/ (shortest_path g s t w = Some (Raise NetworkXNoPath)
      /\ forall q c, ~ walk g w s t q c).
Proof.
  intros Hn Hs Ht. unfold shortest_path. rewrite Hs, Ht. cbn [negb].
  destruct (node_eqb s t) eqn:E.
  - apply node_eqb_eq in E. subst t. left. exists [s], 0%Q.
    split; [reflexivity|constructor].
  - apply node_eqb_neq in E.
    destruct (search_outcome g w Hn s t E)
      as (r & Hr & [(p & c & -> & Hw)|[-> Hno]]); rewrite Hr.
    + left. exists p, c. split; [reflexivity|exact Hw].
    + right. split; [reflexivity|exact Hno].
Qed.

(** The same when the sums of the search are exact: the walk returned
    is one of least cost. *)
Lemma shortest_path_least (g : DiGraph) (w : weight_name) (s t : node) :
  nonneg_costs g w -> contains g s = true -> contains g t = true ->
  (s <> t ->
   exists r, search (turns_bound g) g w true (initial_state s t) = Some r
             /\ Optimal g w s t r) ->
  (exists p c, shortest_path g s t w = Some (Ok p) /\ walk g w s t p c
               /\ forall q c', walk g w s t q c' -> (c <= c')%Q)
  \/ (shortest_path g s t w = Some (Raise NetworkXNoPath)
      /\ forall q c, ~ walk g w s t q c).
Proof.
  intros Hn Hs Ht Hopt. unfold shortest_path. rewrite Hs, Ht. cbn [negb].
  destruct (node_eqb s t) eqn:E.
  - apply node_eqb_eq in E. subst t. left. exists [s], 0%Q.
    split; [reflexivity|]. split; [constructor|].
    intros q c' Hq. exact (walk_cost_nonneg g w s s q c' Hn Hq).
  - apply node_eqb_neq in E.
    destruct (Hopt E) as (r & Hr & [(p & c & -> & Hw & Hmin)|[-> Hno]]);
      rewrite Hr.
    + left. exists p, c. split; [reflexivity|]. split; assumption.
    + right. split; [reflexivity|exact Hno].
Qed.

Lemma shortest_path_missing (g : DiGraph) (w : weight_name) (s t : node) :
  contains g s = false \/ contains g t = false ->
  shortest_path g s t w = Some (Raise NodeNotFound).
Proof.
  intro H. unfold shortest_path. destruct (contains g s); simpl.
  - destruct H as [H|H]; [discriminate H|]. rewrite H. reflexivity.
  - reflexivity.
Qed.

(** The bound on the turns is never reached, whatever the costs. *)
Lemma get_shortest_path_returns (self : ValueGraph) (s t : node)
    (weight : option weight_name) :
  get_shortest_path self s t weight <> None.
Proof.
  unfold get_shortest_path, shortest_path.
  destruct (negb (contains (graph self) s)); [discriminate|].
  destruct (negb (contains (graph self) t)); [discriminate|].
  destruct (node_eqb s t); [discriminate|].
  match goal with
  | |- context [search ?n ?g ?w true ?st] =>
      pose proof (search_within_turns g w s t) as H;
      destruct (search n g w true st) as [[p|e]|]
  end.
  - discriminate.
  - destruct e; discriminate.
  - congruence.
Qed.

(** No walk, as a property of a graph and two nodes. *)
Definition unreachable (g : DiGraph) (w : weight_name) (s t : node) : Prop :=
  forall q c, ~ walk g w s t q c.

(** The failure as the specification words it: a pair of nodes without a
    path makes the call raise. *)
Definition unreachable_is_reported : Prop :=
  forall self s t,
    has_node (graph self) s = true -> has_node (graph self) t = true ->
    unreachable (graph self) by_confidence s t ->
    exists e, get_shortest_path self s t None = Some (Raise e).

(** A session with two items and no observation: item 2 is the base unit,
    item 1 is gold. *)
Definition two_items : Session :=
  mkSession [ mkItem 1 "Gold" "GOLD" "precious_metal";
              mkItem 2 "Standard Value Unit" "SVU" "svu" ] [] [].

Definition two_items_graph : ValueGraph :=
  snd (build_graph (init two_items) 0 10 (7 # 10)).

Lemma two_items_unreachable :
  unreachable (graph two_items_graph) by_confidence (Item 2) (Item 1).
Proof.
  intros q c H. inversion H as [|v x e p c0 Hw Hin]; subst.
  simpl in Hin. exact Hin.
Qed.

(** C1, counterexample: with GOLD and the base unit in the graph and no
    path between them, the call returns the empty list and raises
    nothing. *)
Lemma unreachable_pair_gets_empty_list :
  fst (build_graph (init two_items) 0 10 (7 # 10)) = Ok tt
  /\ get_shortest_path two_items_graph (Item 2) (Item 1) None = Some (Ok [])
  /\ ~ unreachable_is_reported.
Proof.
  split; [reflexivity|]. split; [reflexivity|].
  intro H.
  destruct (H two_items_graph (Item 2) (Item 1) eq_refl eq_refl
              two_items_unreachable) as [e He].
  discriminate He.
Qed.

(** C1, amended: for every graph whose costs are not negative and every
    pair of its nodes with no directed path from the first to the second,
    [get_shortest_path] returns the empty list: the exception of the
    search for a missing path is caught, and nothing is raised. *)
Theorem unreachable_returns_empty_list (self : ValueGraph) (s t : node)
    (weight : option weight_name) :
  let w := match weight with Some w => w | None => by_confidence end in
  nonneg_costsb (graph self) w = true ->
  has_node (graph self) s = true ->
  has_node (graph self) t = true ->
  unreachable (graph self) w s t ->
  get_shortest_path self s t weight = Some (Ok []).
Proof.
  intros w Hn Hs Ht Hu. unfold get_shortest_path. fold w.
  destruct (shortest_path_outcome (graph self) w s t
              (nonneg_costsb_sound _ _ Hn) (has_node_contains _ _ Hs)
              (has_node_contains _ _ Ht))
    as [(p & c & _ & Hw)|[Hr _]].
  - exfalso. apply (Hu p c Hw).
  - rewrite Hr. reflexivity.
Qed.

Lemma unreachable_returns_empty_list_witness :
  nonneg_costsb (graph two_items_graph) by_confidence = true
  /\ has_node (graph two_items_graph) (Item 2) = true
  /\ has_node (graph two_items_graph) (Item 1) = true
  /\ unreachable (graph two_items_graph) by_confidence (Item 2) (Item 1)
  /\ get_shortest_path two_items_graph (Item 2) (Item 1) None = Some (Ok []).
Proof.
  split; [reflexivity|]. split; [reflexivity|]. split; [reflexivity|].
  split; [exact two_items_unreachable|].
  apply (unreachable_returns_empty_list two_items_graph (Item 2) (Item 1) None).
  - reflexivity.
  - reflexivity.
  - reflexivity.
  - exact two_items_unreachable.
Defined.

(** *** Costs whose sums are exact *)

Lemma absent_costs_nonneg (g : DiGraph) : nonneg_costs g by_absent.
Proof. intros u x e _. simpl. unfold Qle. simpl. lia. Qed.

(** With the default cost every distance is an integer, and integers are
    added exactly. *)
Lemma absent_search_optimal (g : DiGraph) (s t : node) :
  s <> t ->
  exists r,
    search (turns_bound g) g by_absent true (initial_state s t) = Some r
    /\ Optimal g by_absent s t r.
Proof.
  intro Hst.
  apply (search_optimal g by_absent (absent_costs_nonneg g) s t Hst
           (fun _ _ => True) (turns_bound g)).
  - exact I.
  - intros. exact I.
  - intros n q u x e _ _ _. rewrite read_cost_absent, plus_absent.
    exists (Qred (q + 1)). split; [reflexivity|].
    split; [apply Qred_correct|exact I].
  - intros q1 q2 _ _. rewrite plus_absent. exists (Qred (q1 + q2)).
    split; [reflexivity|apply Qred_correct].
  - apply Nat.le_refl.
Qed.

(** [x] is [m / 2 ^ k] for an integer [m] from 0 to [M]. *)
Definition on_grid (k M : Z) (x : Q) : bool :=
  let y := Qred (x * inject_Z (2 ^ k)) in
  (Qden y =? 1)%positive && (0 <=? Qnum y)%Z && (Qnum y <=? M)%Z.

(** The values of the attribute [f] on the edges of [g] are multiples of
    [1 / 2 ^ k] from 0 to [M / 2 ^ k], and [M] is small enough for the
    sums of as many of them as the search can add to have 53 bits at
    most: binary64 arithmetic adds such numbers without rounding. *)
Definition dyadic_costs (g : DiGraph) (f : edge_attrs -> Q) (k M : Z)
    : bool :=
  (0 <=? k)%Z && (k <=? 1074)%Z && (0 <=? M)%Z
  && (2 * Z.of_nat (turns_bound g) * M <? 2 ^ 53)%Z
  && forallb (fun e => on_grid k M (f (snd e))) (edges g).

(** The distances that the search can hold after [n] turns. *)
Definition grid (k M : Z) (n : nat) (q : Q) : Prop :=
  exists m : Z,
    (0 <= m <= Z.of_nat n * M)%Z
    /\ (q == inject_Z m * Float64.pow2 (- k))%Q.

Lemma on_grid_spec (k M : Z) (x : Q) :
  (0 <= k)%Z -> on_grid k M x = true ->
  exists m : Z,
    (0 <= m <= M)%Z /\ (x == inject_Z m * Float64.pow2 (- k))%Q.
Proof.
  intros Hk H. unfold on_grid in H. cbv zeta in H.
  apply andb_true_iff in H. destruct H as [H H3].
  apply andb_true_iff in H. destruct H as [H1 H2].
  apply Pos.eqb_eq in H1. apply Z.leb_le in H2, H3.
  pose proof (Qred_correct (x * inject_Z (2 ^ k))) as Hy.
  set (y := Qred (x * inject_Z (2 ^ k))) in *.
  exists (Qnum y). split; [lia|].
  assert (Ey : (y == inject_Z (Qnum y))%Q).
  { destruct y as [a b]. simpl in *. subst b. reflexivity. }
  rewrite <- Ey, Hy, <- (Float64Facts.pow2_Z k Hk), <- Qmult_assoc,
    <- Float64Facts.pow2_add.
  replace (k + - k)%Z with 0%Z by lia. unfold Float64.pow2. simpl. ring.
Qed.

Lemma dyadic_costs_spec (g : DiGraph) (f : edge_attrs -> Q) (k M : Z) :
  dyadic_costs g f k M = true ->
  (0 <= k <= 1074)%Z /\ (0 <= M)%Z
  /\ (2 * Z.of_nat (turns_bound g) * M < 2 ^ 53)%Z
  /\ forall u x e, In (u, x, e) (edges g) ->
       exists m : Z,
         (0 <= m <= M)%Z /\ (f e == inject_Z m * Float64.pow2 (- k))%Q.
Proof.
  unfold dyadic_costs. intro H.
  apply andb_true_iff in H. destruct H as [H H5].
  apply andb_true_iff in H. destruct H as [H H4].
  apply andb_true_iff in H. destruct H as [H H3].
  apply andb_true_iff in H. destruct H as [H1 H2].
  apply Z.leb_le in H1, H2, H3. apply Z.ltb_lt in H4.
  split; [lia|]. split; [exact H3|]. split; [exact H4|].
  intros u x e Hin. rewrite forallb_forall in H5.
  exact (on_grid_spec k M (f e) H1 (H5 (u, x, e) Hin)).
Qed.

Lemma grid_value_nonneg (k m : Z) :
  (0 <= m)%Z -> (0 <= inject_Z m * Float64.pow2 (- k))%Q.
Proof.
  intro H. apply Qmult_le_0_compat.
  - unfold Qle. simpl. lia.
  - apply Qlt_le_weak. apply Float64Facts.pow2_pos.
Qed.

Lemma dyadic_costs_nonneg (g : DiGraph) (w : weight_name) (k M : Z) :
  dyadic_costs g (edge_cost w) k M = true -> nonneg_costs g w.
Proof.
  intros H u x e Hin.
  destruct (dyadic_costs_spec _ _ _ _ H) as (_ & _ & _ & Hg).
  destruct (Hg u x e Hin) as (m & Hm & ->).
  apply grid_value_nonneg. lia.
Qed.

(** The sum of two numbers of the grid, when it has 53 bits at most, is
    what binary64 addition returns. *)
Lemma grid_add (k m1 m2 : Z) (q1 q2 : Q) :
  (0 <= k <= 1074)%Z -> (0 <= m1)%Z -> (0 <= m2)%Z ->
  (m1 + m2 < 2 ^ 53)%Z ->
  (q1 == inject_Z m1 * Float64.pow2 (- k))%Q ->
  (q2 == inject_Z m2 * Float64.pow2 (- k))%Q ->
  exists z, Float64.add (Float64.Num q1) (Float64.Num q2) = Float64.Num z
            /\ (z == q1 + q2)%Q
            /\ (z == inject_Z (m1 + m2) * Float64.pow2 (- k))%Q.
Proof.
  intros Hk H1 H2 Hlt E1 E2.
  assert (Es : (q1 + q2 == inject_Z (m1 + m2) * Float64.pow2 (- k))%Q).
  { rewrite E1, E2, inject_Z_plus. ring. }
  assert (Hr : Float64Facts.rep (q1 + q2)).
  { apply (Float64Facts.rep_eq (inject_Z (m1 + m2) * Float64.pow2 (- k)));
      [symmetry; exact Es|].
    apply Float64Facts.rep_dyadic; lia. }
  destruct (Float64Facts.round_exact _ Hr) as (z & Hz & Hzv).
  exists z. split; [exact Hz|]. split; [exact Hzv|].
  rewrite Hzv. exact Es.
Qed.

Lemma grid_read (k m : Z) (x : Q) :
  (0 <= k <= 1074)%Z -> (0 <= m < 2 ^ 53)%Z ->
  (x == inject_Z m * Float64.pow2 (- k))%Q ->
  exists c, Float64.round x = Float64.Num c /\ (c == x)%Q.
Proof.
  intros Hk Hm E. apply Float64Facts.round_exact.
  apply (Float64Facts.rep_eq (inject_Z m * Float64.pow2 (- k)));
    [symmetry; exact E|].
  apply Float64Facts.rep_dyadic; lia.
Qed.

(** With costs on such a grid every sum of the search is exact. *)
Lemma dyadic_search_optimal (g : DiGraph) (w : weight_name) (k M : Z)
    (s t : node) :
  w <> by_absent -> dyadic_costs g (edge_cost w) k M = true -> s <> t ->
  exists r,
    search (turns_bound g) g w true (initial_state s t) = Some r
    /\ Optimal g w s t r.
Proof.
  intros Hw Hd Hst.
  destruct (dyadic_costs_spec _ _ _ _ Hd) as (Hk & HM & Hb & Hg).
  apply (search_optimal g w (dyadic_costs_nonneg g w k M Hd) s t Hst
           (grid k M) (turns_bound g)).
  - exists 0%Z. split; [lia|]. ring.
  - intros n m q Hnm (z & Hz & Hq). exists z. split; [nia|exact Hq].
  - intros n q u x e Hn (m & Hm & Hq) Hin.
    destruct (Hg u x e Hin) as (mc & Hmc & Hc).
    assert (Hn' : (Z.of_nat n + 1 <= Z.of_nat (turns_bound g))%Z) by lia.
    assert (Hsum : (m + mc <= (Z.of_nat n + 1) * M)%Z) by nia.
    assert (Hlim : ((Z.of_nat n + 1) * M <= 2 * Z.of_nat (turns_bound g) * M)%Z)
      by nia.
    destruct (grid_read k mc (edge_cost w e) Hk) as (c & Hr & Hcv);
      [nia|exact Hc|].
    unfold read_cost. rewrite Hr, (plus_float w _ _ Hw).
    destruct (grid_add k m mc q c Hk) as (z & Hz & Hzv & Hzg);
      [lia|lia|lia|exact Hq|rewrite Hcv; exact Hc|].
    exists z. split; [exact Hz|]. split; [rewrite Hzv, Hcv; reflexivity|].
    exists (m + mc)%Z. split; [|exact Hzg].
    rewrite Nat2Z.inj_succ. lia.
  - intros q1 q2 (m1 & Hm1 & Hq1) (m2 & Hm2 & Hq2).
    rewrite (plus_float w _ _ Hw).
    destruct (grid_add k m1 m2 q1 q2 Hk) as (z & Hz & Hzv & _);
      [lia|lia|nia|exact Hq1|exact Hq2|].
    exists z. split; assumption.
  - apply Nat.le_refl.
Qed.

(** *** Routes and the sum of an attribute along them *)

(** [route g s t p es]: [p] lists the nodes of a directed route of [g]
    from [s] to [t], and [es] the attributes of its edges in order. *)
Inductive route (g : DiGraph) (s : node)
    : node -> list node -> list edge_attrs -> Prop :=
| route_start : route g s s [s] []
| route_step (v x : node) (e : edge_attrs) (p : list node)
    (es : list edge_attrs) :
    route g s v p es ->
    In (v, x, e) (edges g) ->
    route g s x (p ++ [x]) (es ++ [e]).

(** The sum of the attribute [f] over the edges [es]. *)
Definition attribute_sum (f : edge_attrs -> Q) (es : list edge_attrs) : Q :=
  fold_right (fun e acc => (f e + acc)%Q) 0%Q es.

Lemma attribute_sum_snoc (f : edge_attrs -> Q) (es : list edge_attrs)
    (e : edge_attrs) :
  (attribute_sum f (es ++ [e]) == attribute_sum f es + f e)%Q.
Proof.
  induction es as [|a es IH]; simpl.
  - ring.
  - rewrite IH. ring.
Qed.

Lemma walk_route (g : DiGraph) (w : weight_name) (s t : node)
    (p : list node) (c : Q) :
  walk g w s t p c ->
  exists es, route g s t p es /\ (c == attribute_sum (edge_cost w) es)%Q.
Proof.
  induction 1 as [|v x e p c H IH Hin].
  - exists []. split; [constructor|reflexivity].
  - destruct IH as (es & Hr & Hc). exists (es ++ [e]).
    split; [apply route_step with v; assumption|].
    rewrite attribute_sum_snoc, Hc. reflexivity.
Qed.

Lemma route_walk (g : DiGraph) (w : weight_name) (s t : node)
    (p : list node) (es : list edge_attrs) :
  route g s t p es ->
  exists c, walk g w s t p c /\ (c == attribute_sum (edge_cost w) es)%Q.
Proof.
  induction 1 as [|v x e p es H IH Hin].
  - exists 0%Q. split; [constructor|reflexivity].
  - destruct IH as (c & Hw & Hc). exists (c + edge_cost w e)%Q.
    split; [apply walk_step with v; assumption|].
    rewrite attribute_sum_snoc, Hc. reflexivity.
Qed.

(** With the name of an attribute whose values are on such a grid,
    [get_shortest_path] returns a route that has the least sum of the
    attribute among the routes between the two nodes. *)
Lemma attribute_route_least (self : ValueGraph) (w : weight_name)
    (s t : node) (k M : Z) (q0 : list node) (es0 : list edge_attrs) :
  w <> by_absent ->
  dyadic_costs (graph self) (edge_cost w) k M = true ->
  has_node (graph self) s = true ->
  has_node (graph self) t = true ->
  route (graph self) s t q0 es0 ->
  exists p es,
    get_shortest_path self s t (Some w) = Some (Ok p)
    /\ route (graph self) s t p es
    /\ forall q es', route (graph self) s t q es' ->
         (attribute_sum (edge_cost w) es <= attribute_sum (edge_cost w) es')%Q.
Proof.
  intros Hw Hd Hs Ht H0. unfold get_shortest_path.
  destruct (shortest_path_least (graph self) w s t
              (dyadic_costs_nonneg _ w k M Hd)
              (has_node_contains _ _ Hs) (has_node_contains _ _ Ht)
              (dyadic_search_optimal (graph self) w k M s t Hw Hd))
    as [(p & c & Hp & Hwk & Hmin)|[_ Hno]].
  - rewrite Hp. destruct (walk_route _ _ _ _ _ _ Hwk) as (es & Hr & Hc).
    exists p, es. split; [reflexivity|]. split; [exact Hr|].
    intros q es' Hq. destruct (route_walk _ w _ _ _ _ Hq) as (c' & Hw' & Hc').
    pose proof (Hmin q c' Hw'). rewrite <- Hc, <- Hc'. assumption.
  - exfalso. destruct (route_walk _ w _ _ _ _ H0) as (c0 & Hw0 & _).
    exact (Hno q0 c0 Hw0).
Qed.

(** A graph with two routes from the base node to item 1: a direct edge
    of confidence 0.9, and two edges of confidence 0.2 through item 2. *)
Definition two_routes : DiGraph :=
  add_edge
    (add_edge
       (add_edge empty_graph SVU (Item 1)
          (mkEdge (5 # 1) 0 "alpha" (9 # 10) price_edge))
       SVU (Item 2) (mkEdge (2 # 1) 0 "beta" (2 # 10) price_edge))
    (Item 2) (Item 1) (mkEdge (3 # 1) 0 "beta" (2 # 10) exchange_rate_edge).

Definition two_routes_graph : ValueGraph :=
  mkValueGraph (mkSession [] [] []) two_routes None.

(** The route of low confidence is the one returned: 0.2 + 0.2 < 0.9. *)
Example two_routes_path :
  get_shortest_path two_routes_graph SVU (Item 1) None
  = Some (Ok [SVU; Item 2; Item 1]).
Proof. vm_compute. reflexivity. Qed.

(** With the cost 1 - confidence the direct edge would be the cheaper
    route: 0.1 against 0.8 + 0.8. *)
Example two_routes_inverse_confidence :
  get_edge two_routes SVU (Item 1)
    = Some (mkEdge (5 # 1) 0 "alpha" (9 # 10) price_edge)
  /\ (1 - (9 # 10) < (1 - (2 # 10)) + (1 - (2 # 10)))%Q
  /\ ((2 # 10) + (2 # 10) < 9 # 10)%Q.
Proof.
  split; [reflexivity|]. split; reflexivity.
Qed.

Definition direct_route : list node := [SVU; Item 1].

(** The same routes with confidences that binary64 holds exactly: 0.75
    on the direct edge, 0.25 on each of the two edges through item 2;
    the prices and rates are 6, and 2 and 3. *)
Definition quarters : DiGraph :=
  add_edge
    (add_edge
       (add_edge empty_graph SVU (Item 1)
          (mkEdge (6 # 1) 0 "alpha" (3 # 4) price_edge))
       SVU (Item 2) (mkEdge (2 # 1) 0 "beta" (1 # 4) price_edge))
    (Item 2) (Item 1) (mkEdge (3 # 1) 0 "beta" (1 # 4) exchange_rate_edge).

Definition quarters_graph : ValueGraph :=
  mkValueGraph (mkSession [] [] []) quarters None.

Lemma quarters_direct_route :
  route quarters SVU (Item 1) direct_route
    [mkEdge (6 # 1) 0 "alpha" (3 # 4) price_edge].
Proof.
  exact (route_step quarters SVU SVU (Item 1)
           (mkEdge (6 # 1) 0 "alpha" (3 # 4) price_edge) [SVU] []
           (route_start quarters SVU) (or_introl eq_refl)).
Qed.

(** Sums that are rounded can tie where the exact sums differ: with the
    binary64s nearest to 0.1 and 0.2 on the edges through item 2, and
    their rounded sum 0.30000000000000004 on the direct edge, the direct
    edge is returned, though the exact sum of the other two confidences
    is smaller. *)
Definition tied_routes : DiGraph :=
  add_edge
    (add_edge
       (add_edge empty_graph SVU (Item 1)
          (mkEdge (5 # 1) 0 "alpha"
             (5404319552844596 # 18014398509481984) price_edge))
       SVU (Item 2)
       (mkEdge (2 # 1) 0 "beta"
          (3602879701896397 # 36028797018963968) price_edge))
    (Item 2) (Item 1)
    (mkEdge (3 # 1) 0 "beta"
       (3602879701896397 # 18014398509481984) exchange_rate_edge).

Example tied_routes_path :
  get_shortest_path (mkValueGraph (mkSession [] [] []) tied_routes None)
    SVU (Item 1) None
  = Some (Ok [SVU; Item 1])
  /\ ((3602879701896397 # 36028797018963968)
      + (3602879701896397 # 18014398509481984)
      < 5404319552844596 # 18014398509481984)%Q
  /\ Float64.add (Float64.Num (3602879701896397 # 36028797018963968))
       (Float64.Num (3602879701896397 # 18014398509481984))
     = Float64.Num (1351079888211149 # 4503599627370496).
Proof.
  split; [vm_compute; reflexivity|]. split; [reflexivity|].
  vm_compute. reflexivity.
Qed.



(** *** The edges that [build_graph] leaves *)

Lemma edge_is_key (u v : node) (e : node * node * edge_attrs) :
  edge_is u v e = true <-> fst e = (u, v).
Proof.
  destruct e as [[a b] x]. unfold edge_is. simpl.
  rewrite andb_true_iff, !node_eqb_eq. split.
  - intros [-> ->]. reflexivity.
  - intro H. injection H as -> ->. split; reflexivity.
Qed.

Lemma find_app {A} (f : A -> bool) (l1 l2 : list A) :
  find f (l1 ++ l2)
  = match find f l1 with
    | Some x => Some x
    | None => find f l2
    end.
Proof.
  induction l1 as [|x t IH]; simpl; [reflexivity|].
  destruct (f x); [reflexivity|exact IH].
Qed.

Lemma find_none_existsb {A} (f : A -> bool) (l : list A) :
  existsb f l = false -> find f l = None.
Proof.
  induction l as [|x t IH]; simpl; [reflexivity|].
  destruct (f x); simpl; [discriminate|exact IH].
Qed.

(** Writing the attributes [a] over those of the pair [(u, v)]. *)
Definition overwrite (u v : node) (a : edge_attrs)
    (e : node * node * edge_attrs) : node * node * edge_attrs :=
  if edge_is u v e then (u, v, a) else e.

Lemma overwrite_key (u v : node) (a : edge_attrs)
    (l : list (node * node * edge_attrs)) :
  map fst (map (overwrite u v a) l) = map fst l.
Proof.
  induction l as [|e t IH]; simpl; [reflexivity|]. rewrite IH. f_equal.
  unfold overwrite. destruct (edge_is u v e) eqn:E; [|reflexivity].
  apply edge_is_key in E. symmetry. exact E.
Qed.

Lemma find_overwrite_absent (u v u' v' : node) (a : edge_attrs)
    (l : list (node * node * edge_attrs)) :
  existsb (edge_is u v) l = false ->
  find (edge_is u' v') (map (overwrite u v a) l) = find (edge_is u' v') l.
Proof.
  induction l as [|e t IH]; simpl; [reflexivity|].
  intro X. apply orb_false_iff in X. destruct X as [X1 X2].
  unfold overwrite at 1 2. rewrite X1, (IH X2). reflexivity.
Qed.

Lemma find_overwrite (u v u' v' : node) (a : edge_attrs)
    (l : list (node * node * edge_attrs)) :
  existsb (edge_is u v) l = true ->
  option_map snd (find (edge_is u' v') (map (overwrite u v a) l))
  = if node_eqb u u' && node_eqb v v' then Some a
    else option_map snd (find (edge_is u' v') l).
Proof.
  induction l as [|e t IH]; simpl; [discriminate|].
  destruct (edge_is u v e) eqn:E; simpl.
  - intros _.
    assert (Ho : overwrite u v a e = (u, v, a))
      by (unfold overwrite; rewrite E; reflexivity).
    rewrite Ho.
    assert (Hn : edge_is u' v' (u, v, a) = node_eqb u u' && node_eqb v v')
      by reflexivity.
    rewrite Hn.
    destruct (node_eqb u u' && node_eqb v v') eqn:K; [reflexivity|].
    assert (Hk : edge_is u' v' e = false).
    { destruct (edge_is u' v' e) eqn:E'; [|reflexivity].
      apply edge_is_key in E. apply edge_is_key in E'.
      rewrite E in E'. injection E' as -> ->.
      rewrite !node_eqb_refl in K. discriminate. }
    rewrite Hk.
    destruct (existsb (edge_is u v) t) eqn:X.
    + rewrite (IH eq_refl). reflexivity.
    + rewrite (find_overwrite_absent _ _ _ _ _ _ X). reflexivity.
  - intro X.
    assert (Ho : overwrite u v a e = e)
      by (unfold overwrite; rewrite E; reflexivity).
    rewrite Ho. destruct (edge_is u' v' e) eqn:E'.
    + simpl. destruct (node_eqb u u' && node_eqb v v') eqn:K; [|reflexivity].
      apply andb_true_iff in K. destruct K as [K1 K2].
      apply node_eqb_eq in K1. apply node_eqb_eq in K2. subst u' v'.
      congruence.
    + apply IH. exact X.
Qed.

Lemma has_node_touch (g : DiGraph) (n m : node) :
  edges (touch_node g n) = edges g.
Proof. unfold touch_node. destruct (has_node g n); reflexivity. Qed.

Lemma add_edge_edges (g : DiGraph) (u v : node) (a : edge_attrs) :
  edges (add_edge g u v a)
  = if existsb (edge_is u v) (edges g)
    then map (overwrite u v a) (edges g)
    else edges g ++ [(u, v, a)].
Proof.
  unfold add_edge, has_edge.
  rewrite !(has_node_touch _ _ u).
  destruct (existsb (edge_is u v) (edges g)); reflexivity.
Qed.

Lemma get_edge_add_edge (g : DiGraph) (u v u' v' : node) (a : edge_attrs) :
  get_edge (add_edge g u v a) u' v'
  = if node_eqb u u' && node_eqb v v' then Some a else get_edge g u' v'.
Proof.
  unfold get_edge. rewrite add_edge_edges.
  destruct (existsb (edge_is u v) (edges g)) eqn:X.
  - apply find_overwrite. exact X.
  - rewrite find_app.
    destruct (node_eqb u u' && node_eqb v v') eqn:K.
    + apply andb_true_iff in K. destruct K as [K1 K2].
      apply node_eqb_eq in K1. apply node_eqb_eq in K2. subst u' v'.
      rewrite (find_none_existsb _ _ X). simpl.
      unfold edge_is. simpl. rewrite !node_eqb_refl. reflexivity.
    + destruct (find (edge_is u' v') (edges g)); [reflexivity|].
      simpl. unfold edge_is. simpl. rewrite K. reflexivity.
Qed.

Lemma add_edge_keys_nodup (g : DiGraph) (u v : node) (a : edge_attrs) :
  NoDup (map fst (edges g)) -> NoDup (map fst (edges (add_edge g u v a))).
Proof.
  intro H. rewrite add_edge_edges.
  destruct (existsb (edge_is u v) (edges g)) eqn:X.
  - rewrite overwrite_key. exact H.
  - rewrite map_app. simpl. apply NoDup_app.
    + exact H.
    + constructor; [intros []|constructor].
    + intros k Hk [<-|[]]. apply in_map_iff in Hk.
      destruct Hk as (e & He & Hin).
      assert (Ht : existsb (edge_is u v) (edges g) = true).
      { apply existsb_exists. exists e. split; [exact Hin|].
        apply edge_is_key. exact He. }
      congruence.
Qed.

(** An observation as the call of [add_edge] that it causes. *)
Definition price_observation (p : PriceRow) : node * node * edge_attrs :=
  (SVU, Item (p_item_id p),
   mkEdge (p_price p) (p_timestamp p) (p_source p)
          (conf_of (p_confidence p)) price_edge).

Definition rate_observation (r : ExchangeRateRow) : node * node * edge_attrs :=
  (Item (r_source_item_id r), Item (r_target_item_id r),
   mkEdge (r_rate r) (r_timestamp r) (r_source r)
          (conf_of (r_confidence r)) exchange_rate_edge).

(** The qualifying observations in the order in which [build_graph] adds
    their edges: the prices, then the rates. *)
Definition observations (db_session : Session) (start_date end_date : Z)
    (min_confidence : Q) : list (node * node * edge_attrs) :=
  map price_observation
      (qualifying_prices db_session start_date end_date min_confidence)
  ++ map rate_observation
       (qualifying_rates db_session start_date end_date min_confidence).

Definition add_observation (g : DiGraph) (o : node * node * edge_attrs)
    : DiGraph :=
  add_edge g (fst (fst o)) (snd (fst o)) (snd o).

Definition items_graph (db_session : Session) : DiGraph :=
  fold_left (fun g item =>
               add_node g (Item (i_id item)) (i_name item)
                 (i_symbol item) (i_type item))
            (items db_session) empty_graph.

Lemma add_node_edges (g : DiGraph) (n : node) (nm sy ty : string) :
  edges (add_node g n nm sy ty) = edges g.
Proof. unfold add_node. destruct (has_node g n); reflexivity. Qed.

Lemma items_graph_edges (db_session : Session) :
  edges (items_graph db_session) = [].
Proof.
  unfold items_graph.
  assert (H : forall l g, edges g = [] ->
            edges (fold_left (fun g item =>
                     add_node g (Item (i_id item)) (i_name item)
                       (i_symbol item) (i_type item)) l g) = []).
  { induction l as [|i t IH]; intros g Hg; simpl; [exact Hg|].
    apply IH. rewrite add_node_edges. exact Hg. }
  apply H. reflexivity.
Qed.

Lemma build_edges_fold (db_session : Session) (start_date end_date : Z)
    (min_confidence : Q) :
  build_edges db_session start_date end_date min_confidence
  = fold_left add_observation
      (observations db_session start_date end_date min_confidence)
      (items_graph db_session).
Proof.
  unfold build_edges, observations. rewrite fold_left_app.
  fold (items_graph db_session).
  assert (Hp : forall l g, fold_left add_price_edge l g
                 = fold_left add_observation (map price_observation l) g).
  { induction l as [|p t IH]; intro g; simpl; [reflexivity|]. apply IH. }
  assert (Hr : forall l g, fold_left add_rate_edge l g
                 = fold_left add_observation (map rate_observation l) g).
  { induction l as [|r t IH]; intro g; simpl; [reflexivity|]. apply IH. }
  rewrite Hp, Hr. reflexivity.
Qed.

Lemma fold_observations_edge (obs : list (node * node * edge_attrs))
    (g : DiGraph) (u v : node) :
  get_edge (fold_left add_observation obs g) u v
  = match find (edge_is u v) (rev obs) with
    | Some o => Some (snd o)
    | None => get_edge g u v
    end.
Proof.
  revert g. induction obs as [|o t IH]; intro g; simpl; [reflexivity|].
  rewrite IH, find_app.
  destruct (find (edge_is u v) (rev t)); [reflexivity|].
  unfold add_observation. rewrite get_edge_add_edge. simpl.
  unfold edge_is. destruct (node_eqb (fst (fst o)) u && node_eqb (snd (fst o)) v);
    reflexivity.
Qed.

Lemma fold_observations_nodup (obs : list (node * node * edge_attrs))
    (g : DiGraph) :
  NoDup (map fst (edges g)) ->
  NoDup (map fst (edges (fold_left add_observation obs g))).
Proof.
  revert g. induction obs as [|o t IH]; intros g H; simpl; [exact H|].
  apply IH. apply add_edge_keys_nodup. exact H.
Qed.

(** [_compute_node_attributes] writes on the nodes only. *)
Lemma node_attributes_loop_edges (todo : list node) (g : DiGraph) :
  edges (snd (node_attributes_loop todo g)) = edges g.
Proof.
  revert g. induction todo as [|n rest IH]; intro g; simpl; [reflexivity|].
  destruct (node_attributes_step g n) as [g'|e] eqn:E; [|reflexivity].
  rewrite IH. unfold node_attributes_step in E.
  destruct (map_result _ _) as [ps|e]; simpl in E; [|discriminate].
  injection E as <-. reflexivity.
Qed.

Lemma build_graph_edges (self : ValueGraph) (start_date end_date : Z)
    (min_confidence : Q) :
  edges (graph (snd (build_graph self start_date end_date min_confidence)))
  = edges (build_edges (db self) start_date end_date min_confidence).
Proof.
  unfold build_graph, compute_node_attributes.
  pose proof (node_attributes_loop_edges
    (map fst (nodes (build_edges (db self) start_date end_date min_confidence)))
    (build_edges (db self) start_date end_date min_confidence)) as H.
  destruct (node_attributes_loop _ _) as [[u|e] g']; simpl in *; exact H.
Qed.

(** Every edge of a built graph is a qualifying observation, so its
    confidence is at least the threshold of the build. *)
Lemma add_edge_in (g : DiGraph) (u v : node) (a : edge_attrs)
    (e : node * node * edge_attrs) :
  In e (edges (add_edge g u v a)) -> In e (edges g) \/ e = (u, v, a).
Proof.
  rewrite add_edge_edges.
  destruct (existsb (edge_is u v) (edges g)).
  - intro H. apply in_map_iff in H. destruct H as (e0 & He & Hin).
    unfold overwrite in He. destruct (edge_is u v e0).
    + right. symmetry. exact He.
    + left. subst e0. exact Hin.
  - intro H. apply in_app_or in H. destruct H as [H|[H|[]]].
    + left. exact H.
    + right. symmetry. exact H.
Qed.

Lemma fold_observations_in (obs : list (node * node * edge_attrs))
    (g : DiGraph) (e : node * node * edge_attrs) :
  In e (edges (fold_left add_observation obs g)) ->
  In e (edges g) \/ In e obs.
Proof.
  revert g. induction obs as [|o t IH]; intros g H; simpl in *.
  - left. exact H.
  - apply IH in H. destruct H as [H|H]; [|right; right; exact H].
    unfold add_observation in H. apply add_edge_in in H.
    destruct H as [H|H]; [left; exact H|].
    right. left. destruct o as [[a b] c]. symmetry. exact H.
Qed.

Lemma built_edges_observed (self : ValueGraph) (start_date end_date : Z)
    (min_confidence : Q) (e : node * node * edge_attrs) :
  In e (edges (graph (snd (build_graph self start_date end_date
                             min_confidence)))) ->
  In e (observations (db self) start_date end_date min_confidence).
Proof.
  rewrite build_graph_edges, build_edges_fold. intro H.
  apply fold_observations_in in H. rewrite items_graph_edges in H.
  destruct H as [[]|H]. exact H.
Qed.

Lemma qualifies_confidence (start_date end_date : Z) (min_confidence : Q)
    (ts : Z) (c : option Q) :
  qualifies start_date end_date min_confidence ts c = true ->
  (min_confidence <= conf_of c)%Q.
Proof.
  unfold qualifies. intro H. apply andb_true_iff in H. destruct H as [_ H].
  destruct c as [q|]; [|discriminate]. simpl. apply Qle_bool_iff. exact H.
Qed.

Lemma observations_confidence (db_session : Session)
    (start_date end_date : Z) (min_confidence : Q)
    (u x : node) (a : edge_attrs) :
  In (u, x, a) (observations db_session start_date end_date min_confidence) ->
  (min_confidence <= confidence a)%Q.
Proof.
  unfold observations, qualifying_prices, qualifying_rates. intro H.
  apply in_app_or in H. destruct H as [H|H]; apply in_map_iff in H;
    destruct H as (r & Hr & Hin); apply filter_In in Hin;
    destruct Hin as [_ Hq]; apply qualifies_confidence in Hq;
    injection Hr as _ _ <-; exact Hq.
Qed.

Lemma built_costs_nonneg (self : ValueGraph) (start_date end_date : Z)
    (min_confidence : Q) :
  (0 <= min_confidence)%Q ->
  nonneg_costs (graph (snd (build_graph self start_date end_date
                              min_confidence))) by_confidence.
Proof.
  intros Hm u x a Hin. apply built_edges_observed in Hin.
  apply observations_confidence in Hin. simpl. lra.
Qed.

(** The graph that a call of [build_graph] leaves in the object; the
    edges are in it whether or not the computation of the node attributes
    that follows raises. *)
Definition built (self : ValueGraph) (start_date end_date : Z)
    (min_confidence : Q) : DiGraph :=
  graph (snd (build_graph self start_date end_date min_confidence)).

(** No deduplication, as the specification words it: the edge of every
    qualifying observation is in the graph. *)
Definition keeps_every_observation : Prop :=
  forall self start_date end_date min_confidence o,
    In o (observations (db self) start_date end_date min_confidence) ->
    In o (edges (built self start_date end_date min_confidence)).

(** Two prices of item 1 at the same instant, 5.0 and then 6.0. *)
Definition twice_priced : Session :=
  mkSession [ mkItem 1 "Gold" "GOLD" "precious_metal" ]
            [ mkPrice 1 (5 # 1) 3 "alpha" (Some (9 # 10));
              mkPrice 1 (6 # 1) 3 "beta" (Some (8 # 10)) ]
            [].

(** C7, counterexample: of two qualifying prices of one item only the
    second is in the graph; the edge of the first was written over. *)
Lemma second_price_overwrites_first :
  edges (built (init twice_priced) 0 10 (7 # 10))
    = [ (SVU, Item 1, mkEdge (6 # 1) 3 "beta" (8 # 10) price_edge) ]
  /\ ~ keeps_every_observation.
Proof.
  split; [reflexivity|].
  intro H.
  specialize (H (init twice_priced) 0%Z 10%Z (7 # 10)
                (SVU, Item 1, mkEdge (5 # 1) 3 "alpha" (9 # 10) price_edge)).
  assert (Hin : In (SVU, Item 1, mkEdge (5 # 1) 3 "alpha" (9 # 10) price_edge)
                  (observations (db (init twice_priced)) 0 10 (7 # 10)))
    by (left; reflexivity).
  apply H in Hin. destruct Hin as [Hin|[]]. discriminate Hin.
Qed.

(** C7, amended: the graph is a simple directed graph, so building it
    keeps one edge per ordered pair of nodes: the edge from the base node
    to an item (for prices) or from the source item to the target item
    (for rates) carries the attributes of the last qualifying observation
    for that pair, in the order prices then rates, and a pair without a
    qualifying observation has no edge. *)
Theorem build_keeps_last_observation_per_pair (self : ValueGraph)
    (start_date end_date : Z) (min_confidence : Q) :
  let g := built self start_date end_date min_confidence in
  let obs := observations (db self) start_date end_date min_confidence in
  NoDup (map fst (edges g))
  /\ forall u v,
       get_edge g u v = option_map snd (find (edge_is u v) (rev obs)).
Proof.
  intros g obs. subst g obs. unfold built, get_edge.
  rewrite build_graph_edges, build_edges_fold. split.
  - apply fold_observations_nodup. rewrite items_graph_edges. constructor.
  - intros u v.
    pose proof (fold_observations_edge
      (observations (db self) start_date end_date min_confidence)
      (items_graph (db self)) u v) as H.
    unfold get_edge in H. rewrite H, items_graph_edges.
    destruct (find (edge_is u v) (rev _)); reflexivity.
Qed.

(** *** The volatility of the nodes *)

Definition node_volatility (g : DiGraph) (n : node) : option fval :=
  match get_node g n with
  | Some a => volatility a
  | None => None
  end.

Definition incident_weights (g : DiGraph) (n : node) : list Q :=
  map (fun e => weight (snd e)) (in_edges g n ++ out_edges g n).

(** The volatility as the specification defines it. *)
Definition specified_volatility (ws : list Q) : fval :=
  match ws with
  | [] | [_] => FNum 0
  | _ :: _ :: _ => fdiv (std ws) (mean ws)
  end.

Definition volatility_as_specified : Prop :=
  forall self start_date end_date min_confidence n,
    let g := built self start_date end_date min_confidence in
    has_node g n = true ->
    node_volatility g n = Some (specified_volatility (incident_weights g n)).

(** One item with one qualifying price. *)
Definition once_priced : Session :=
  mkSession [ mkItem 1 "Gold" "GOLD" "precious_metal" ]
            [ mkPrice 1 (5 # 1) 3 "alpha" (Some (9 # 10)) ]
            [].

(** C6: for a node with one incident edge the computation of the
    attributes stops on the first edge tuple, which is indexed by a
    string: [build_graph] raises [TypeError] and the node is left without
    a volatility, where the list of its incident weights has one weight
    and the volatility is to be 0.0. *)
Lemma one_edge_node_has_no_volatility :
  fst (build_graph (init once_priced) 0 10 (7 # 10)) = Raise TypeError
  /\ incident_weights (built (init once_priced) 0 10 (7 # 10)) (Item 1)
     = [ (5 # 1)%Q ]
  /\ node_volatility (built (init once_priced) 0 10 (7 # 10)) (Item 1) = None
  /\ ~ volatility_as_specified.
Proof.
  split; [reflexivity|]. split; [reflexivity|]. split; [reflexivity|].
  intro H.
  specialize (H (init once_priced) 0%Z 10%Z (7 # 10) (Item 1) eq_refl).
  discriminate H.
Qed.

(** With an incident edge somewhere the loop over the nodes raises. *)
Definition incident (g : DiGraph) (n : node)
    : list (node * node * edge_attrs) :=
  in_edges g n ++ out_edges g n.

Lemma node_attributes_step_raises (g : DiGraph) (n : node) :
  incident g n <> [] -> node_attributes_step g n = Raise TypeError.
Proof.
  unfold incident, node_attributes_step. intro H.
  destruct (in_edges g n ++ out_edges g n) as [|e t]; [congruence|].
  reflexivity.
Qed.

Lemma node_attributes_step_edges (g g' : DiGraph) (n : node) :
  node_attributes_step g n = Ok g' -> edges g' = edges g.
Proof.
  unfold node_attributes_step.
  destruct (map_result _ _) as [ps|e]; simpl; [|discriminate].
  intro H. injection H as <-. reflexivity.
Qed.

Lemma node_attributes_loop_raises (todo : list node) (g : DiGraph) :
  (exists n, In n todo /\ incident g n <> []) ->
  fst (node_attributes_loop todo g) = Raise TypeError.
Proof.
  revert g. induction todo as [|m rest IH]; intros g (n & Hin & Hn).
  - destruct Hin.
  - simpl. destruct (incident g m) as [|e t] eqn:Em.
    + destruct (node_attributes_step g m) as [g'|x] eqn:Es.
      * apply IH. exists n. split.
        -- destruct Hin as [->|Hin]; [congruence|exact Hin].
        -- unfold incident, in_edges, out_edges in *.
           rewrite (node_attributes_step_edges _ _ _ Es). exact Hn.
      * unfold node_attributes_step in Es. unfold incident in Em.
        rewrite Em in Es. discriminate Es.
    + rewrite node_attributes_step_raises; [reflexivity|].
      rewrite Em. discriminate.
Qed.

Lemma get_node_update (n m : node) (f : node_attrs -> node_attrs)
    (l : list (node * node_attrs)) (es : list (node * node * edge_attrs)) :
  get_node (mkDiGraph (update_node n f l) es) m
  = if node_eqb n m then option_map f (get_node (mkDiGraph l es) m)
    else get_node (mkDiGraph l es) m.
Proof.
  unfold get_node. simpl. induction l as [|[k a] t IH]; simpl.
  - destruct (node_eqb n m); reflexivity.
  - destruct (node_eqb k n) eqn:Ekn; simpl.
    + apply node_eqb_eq in Ekn. subst k.
      destruct (node_eqb n m) eqn:Enm; simpl; [reflexivity|exact IH].
    + destruct (node_eqb k m) eqn:Ekm; simpl; [|exact IH].
      destruct (node_eqb n m) eqn:Enm; [|reflexivity].
      apply node_eqb_eq in Ekm. apply node_eqb_eq in Enm. subst.
      rewrite node_eqb_refl in Ekn. discriminate.
Qed.

Lemma has_node_update (n m : node) (f : node_attrs -> node_attrs)
    (l : list (node * node_attrs)) (es : list (node * node * edge_attrs)) :
  has_node (mkDiGraph (update_node n f l) es) m = has_node (mkDiGraph l es) m.
Proof.
  unfold has_node. simpl. induction l as [|[k a] t IH]; simpl; [reflexivity|].
  rewrite IH. destruct (node_eqb k n); reflexivity.
Qed.

Lemma has_node_get_node (g : DiGraph) (n : node) :
  has_node g n = true -> exists a, get_node g n = Some a.
Proof.
  unfold has_node, get_node. induction (nodes g) as [|[k a] t IH]; simpl.
  - discriminate.
  - destruct (node_eqb k n); simpl; [intros _; eexists; reflexivity|exact IH].
Qed.

(** Without edges every step of the loop writes a volatility of 0.0 and
    degrees of zero. *)
Lemma node_attributes_step_no_edges (g : DiGraph) (n : node) :
  edges g = [] ->
  node_attributes_step g n
  = Ok (mkDiGraph
          (update_node n
             (fun a => mkNode (name a) (symbol a) (item_type a)
                         (Some (FNum 0)) (Some 0%nat) (Some 0%nat))
             (nodes g))
          []).
Proof.
  intro H. unfold node_attributes_step, in_edges, out_edges. rewrite H.
  reflexivity.
Qed.

Lemma node_attributes_loop_no_edges (todo : list node) (g : DiGraph) :
  edges g = [] ->
  exists g',
    node_attributes_loop todo g = (Ok tt, g')
    /\ (forall n, has_node g' n = has_node g n)
    /\ (forall n, has_node g n = true ->
          In n todo \/ node_volatility g n = Some (FNum 0) ->
          node_volatility g' n = Some (FNum 0)).
Proof.
  revert g. induction todo as [|m rest IH]; intros g Hg; simpl.
  - exists g. split; [reflexivity|]. split; [reflexivity|].
    intros n _ [[]|H]. exact H.
  - rewrite (node_attributes_step_no_edges g m Hg).
    destruct (IH (mkDiGraph
                    (update_node m
                       (fun a => mkNode (name a) (symbol a) (item_type a)
                                   (Some (FNum 0)) (Some 0%nat) (Some 0%nat))
                       (nodes g)) []) eq_refl)
      as (g' & Hl & Hh & Hv).
    exists g'. split; [exact Hl|]. split.
    + intro n. rewrite Hh, has_node_update. unfold has_node. reflexivity.
    + intros n Hn Hc. apply Hv.
      * rewrite has_node_update. exact Hn.
      * destruct (node_eqb m n) eqn:E.
        -- right. unfold node_volatility. rewrite get_node_update, E.
           destruct (has_node_get_node g n Hn) as [a Ha].
           unfold get_node in Ha |- *. simpl. rewrite Ha. reflexivity.
        -- destruct Hc as [[Hc|Hc]|Hc].
           ++ subst m. rewrite node_eqb_refl in E. discriminate.
           ++ left. exact Hc.
           ++ right. unfold node_volatility. rewrite get_node_update, E.
              unfold node_volatility, get_node in Hc |- *. exact Hc.
Qed.

Lemma has_node_in (g : DiGraph) (n : node) :
  has_node g n = true -> In n (map fst (nodes g)).
Proof.
  unfold has_node. rewrite existsb_exists. intros ([k a] & Hin & E).
  simpl in E. apply node_eqb_eq in E. subst k.
  apply in_map_iff. exists (n, a). split; [reflexivity|exact Hin].
Qed.

Lemma build_edges_no_observation (db_session : Session)
    (start_date end_date : Z) (min_confidence : Q) :
  qualifying_prices db_session start_date end_date min_confidence = [] ->
  qualifying_rates db_session start_date end_date min_confidence = [] ->
  build_edges db_session start_date end_date min_confidence
  = items_graph db_session.
Proof.
  intros Hp Hr. unfold build_edges. rewrite Hp, Hr. reflexivity.
Qed.

(** *** More on the paths returned *)

(** A list of nodes in which every node has an edge to the next one. *)
Fixpoint is_path (g : DiGraph) (p : list node) : bool :=
  match p with
  | [] => false
  | x :: t =>
      match t with
      | [] => true
      | y :: _ => has_edge g x y && is_path g t
      end
  end.

Lemma is_path_snoc (g : DiGraph) (p : list node) (d x : node) :
  is_path g p = true -> has_edge g (last p d) x = true ->
  is_path g (p ++ [x]) = true.
Proof.
  induction p as [|a t IH]; [discriminate|].
  destruct t as [|b t'].
  - simpl. intros _ H. rewrite H. reflexivity.
  - intros Hp Hl. change (is_path g (a :: b :: t') = true) in Hp.
    simpl in Hp. apply andb_true_iff in Hp. destruct Hp as [Hab Hp].
    change ((a :: b :: t') ++ [x]) with (a :: (b :: t') ++ [x]).
    change (last (a :: b :: t') d) with (last (b :: t') d) in Hl.
    specialize (IH Hp Hl).
    change (has_edge g a b && is_path g ((b :: t') ++ [x]) = true).
    rewrite Hab, IH. reflexivity.
Qed.

Lemma walk_shape (g : DiGraph) (w : weight_name) (s t : node)
    (p : list node) (c : Q) :
  walk g w s t p c ->
  hd_error p = Some s /\ last p s = t /\ is_path g p = true.
Proof.
  induction 1 as [|v x e p c Hw IH Hin].
  - repeat split.
  - destruct IH as (Hh & Hl & Hp). split; [|split].
    + destruct p; [discriminate|exact Hh].
    + apply last_last.
    + apply (is_path_snoc g p s x Hp). rewrite Hl.
      unfold has_edge. apply existsb_exists. exists (v, x, e).
      split; [exact Hin|]. unfold edge_is. simpl.
      rewrite !node_eqb_refl. reflexivity.
Qed.

Lemma walk_not_nil (g : DiGraph) (w : weight_name) (s t : node)
    (p : list node) (c : Q) :
  walk g w s t p c -> p <> [].
Proof.
  intros H E. apply walk_shape in H. subst p. destruct H as [H _].
  discriminate H.
Qed.

Definition weight_of (weight : option weight_name) : weight_name :=
  match weight with
  | Some w => w
  | None => by_confidence
  end.

Lemma get_shortest_path_outcome (self : ValueGraph) (s t : node)
    (weight : option weight_name) :
  nonneg_costs (graph self) (weight_of weight) ->
  contains (graph self) s = true -> contains (graph self) t = true ->
  (exists p c,
     get_shortest_path self s t weight = Some (Ok p)
     /\ walk (graph self) (weight_of weight) s t p c)
  \/ (get_shortest_path self s t weight = Some (Ok [])
      /\ unreachable (graph self) (weight_of weight) s t).
Proof.
  intros Hn Hs Ht. unfold get_shortest_path. fold (weight_of weight).
  destruct (shortest_path_outcome (graph self) (weight_of weight) s t
              Hn Hs Ht)
    as [(p & c & Hp & Hw)|[Hr Hu]].
  - left. exists p, c. rewrite Hp. split; [reflexivity|exact Hw].
  - right. rewrite Hr. split; [reflexivity|exact Hu].
Qed.

Lemma get_shortest_path_missing (self : ValueGraph) (s t : node)
    (weight : option weight_name) :
  contains (graph self) s = false \/ contains (graph self) t = false ->
  get_shortest_path self s t weight = Some (Raise NodeNotFound).
Proof.
  intro H. unfold get_shortest_path.
  rewrite (shortest_path_missing (graph self) _ s t H). reflexivity.
Qed.

(** With costs that are not negative, a list that the call returns is
    empty exactly when no path leads from the source to the target, and
    any other list it returns starts at the source, ends at the target
    and follows edges of the graph. *)
Theorem returned_list_is_a_path_or_empty (self : ValueGraph) (s t : node)
    (weight : option weight_name) (p : list node) :
  nonneg_costsb (graph self) (weight_of weight) = true ->
  get_shortest_path self s t weight = Some (Ok p) ->
  (p = [] <-> unreachable (graph self) (weight_of weight) s t)
  /\ (p <> [] ->
      hd_error p = Some s /\ last p s = t /\ is_path (graph self) p = true).
Proof.
  intros Hn Hp.
  destruct (contains (graph self) s) eqn:Hs;
    [|rewrite (get_shortest_path_missing self s t weight (or_introl Hs)) in Hp;
      discriminate Hp].
  destruct (contains (graph self) t) eqn:Ht;
    [|rewrite (get_shortest_path_missing self s t weight (or_intror Ht)) in Hp;
      discriminate Hp].
  destruct (get_shortest_path_outcome self s t weight
              (nonneg_costsb_sound _ _ Hn) Hs Ht)
    as [(p0 & c & Hp0 & Hw)|[Hp0 Hu]];
    rewrite Hp0 in Hp; injection Hp as <-.
  - split.
    + split.
      * intro E. exfalso. apply (walk_not_nil _ _ _ _ _ _ Hw E).
      * intro Hu. exfalso. apply (Hu p0 c Hw).
    + intros _. apply (walk_shape _ _ _ _ _ _ Hw).
  - split.
    + split; [intros _; exact Hu|reflexivity].
    + intro H. congruence.
Qed.

Lemma returned_list_is_a_path_or_empty_witness :
  nonneg_costsb (graph two_routes_graph) (weight_of None) = true
  /\ get_shortest_path two_routes_graph SVU (Item 1) None
     = Some (Ok [SVU; Item 2; Item 1])
  /\ (([SVU; Item 2; Item 1] = []
       <-> unreachable (graph two_routes_graph) (weight_of None) SVU (Item 1))
      /\ ([SVU; Item 2; Item 1] <> [] ->
          hd_error [SVU; Item 2; Item 1] = Some SVU
          /\ last [SVU; Item 2; Item 1] SVU = Item 1
          /\ is_path (graph two_routes_graph) [SVU; Item 2; Item 1] = true)).
Proof.
  split; [reflexivity|]. split; [vm_compute; reflexivity|].
  apply (returned_list_is_a_path_or_empty two_routes_graph SVU (Item 1) None
           [SVU; Item 2; Item 1]); [reflexivity|vm_compute; reflexivity].
Defined.

(** With costs that are not negative the call raises exactly when the
    source or the target is not a node of the graph, and what it raises
    then is [NodeNotFound]. *)
Theorem call_raises_only_for_missing_node (self : ValueGraph) (s t : node)
    (weight : option weight_name) (e : exn) :
  nonneg_costsb (graph self) (weight_of weight) = true ->
  (get_shortest_path self s t weight = Some (Raise e)
   <-> (contains (graph self) s = false \/ contains (graph self) t = false)
       /\ e = NodeNotFound).
Proof.
  intro Hn. split.
  - intro H.
    destruct (contains (graph self) s) eqn:Hs;
      [|rewrite (get_shortest_path_missing self s t weight (or_introl Hs)) in H;
        injection H as <-; auto].
    destruct (contains (graph self) t) eqn:Ht;
      [|rewrite (get_shortest_path_missing self s t weight (or_intror Ht)) in H;
        injection H as <-; auto].
    destruct (get_shortest_path_outcome self s t weight
                (nonneg_costsb_sound _ _ Hn) Hs Ht)
      as [(p0 & c & Hp0 & _)|[Hp0 _]]; rewrite Hp0 in H; discriminate H.
  - intros [H ->]. exact (get_shortest_path_missing self s t weight H).
Qed.

Lemma call_raises_only_for_missing_node_witness :
  nonneg_costsb (graph two_items_graph) (weight_of None) = true
  /\ has_node (graph two_items_graph) (Item 1) = true
  /\ get_shortest_path two_items_graph (Item 1) (Item 99) None
     = Some (Raise NodeNotFound)
  /\ (get_shortest_path two_items_graph (Item 1) (Item 99) None
        = Some (Raise NodeNotFound)
      <-> (contains (graph two_items_graph) (Item 1) = false
           \/ contains (graph two_items_graph) (Item 99) = false)
          /\ NodeNotFound = NodeNotFound).
Proof.
  split; [reflexivity|]. split; [reflexivity|]. split; [reflexivity|].
  apply (call_raises_only_for_missing_node two_items_graph (Item 1) (Item 99)
           None NodeNotFound). reflexivity.
Defined.

(** With the name of an attribute that no edge has, every edge costs one
    and the cost of a walk is the number of its edges. *)
Lemma walk_absent_cost (g : DiGraph) (s t : node) (p : list node) (c : Q) :
  walk g by_absent s t p c ->
  (c == inject_Z (Z.of_nat (List.length p) - 1))%Q.
Proof.
  induction 1 as [|v x e p c Hw IH Hin].
  - reflexivity.
  - rewrite length_app. simpl List.length. rewrite IH. simpl edge_cost.
    rewrite Nat2Z.inj_add. simpl Z.of_nat.
    replace (Z.of_nat (List.length p) + 1 - 1)%Z
      with ((Z.of_nat (List.length p) - 1) + 1)%Z by lia.
    rewrite inject_Z_plus. reflexivity.
Qed.

(** With such a name the call returns a path with the fewest edges. *)
Theorem absent_weight_gives_fewest_edges (self : ValueGraph) (s t : node)
    (q0 : list node) (c0 : Q) :
  has_node (graph self) s = true ->
  walk (graph self) by_absent s t q0 c0 ->
  exists p,
    get_shortest_path self s t (Some by_absent) = Some (Ok p)
    /\ hd_error p = Some s /\ last p s = t
    /\ is_path (graph self) p = true
    /\ forall q c, walk (graph self) by_absent s t q c ->
         (List.length p <= List.length q)%nat.
Proof.
  intros Hs H0. unfold get_shortest_path.
  pose proof (has_node_contains _ _ Hs) as Hs'.
  destruct (shortest_path_least (graph self) by_absent s t
              (absent_costs_nonneg _) Hs'
              (walk_contains _ _ _ _ _ _ H0 Hs')
              (absent_search_optimal (graph self) s t))
    as [(p & c & Hp & Hw & Hopt)|[_ Hu]].
  - exists p. rewrite Hp. split; [reflexivity|].
    destruct (walk_shape _ _ _ _ _ _ Hw) as (Hh & Hl & Hi).
    split; [exact Hh|]. split; [exact Hl|]. split; [exact Hi|].
    intros q c' Hq. specialize (Hopt q c' Hq).
    rewrite (walk_absent_cost _ _ _ _ _ Hw) in Hopt.
    rewrite (walk_absent_cost _ _ _ _ _ Hq) in Hopt.
    rewrite <- Zle_Qle in Hopt. lia.
  - exfalso. apply (Hu q0 c0 H0).
Qed.

Lemma two_routes_direct_hop :
  walk two_routes by_absent SVU (Item 1) direct_route (0 + 1)%Q.
Proof.
  exact (walk_step two_routes by_absent SVU SVU (Item 1)
           (mkEdge (5 # 1) 0 "alpha" (9 # 10) price_edge) [SVU] 0%Q
           (walk_start two_routes by_absent SVU)
           (or_introl eq_refl)).
Qed.

Lemma absent_weight_gives_fewest_edges_witness :
  has_node (graph two_routes_graph) SVU = true
  /\ exists p,
       get_shortest_path two_routes_graph SVU (Item 1) (Some by_absent)
         = Some (Ok p)
       /\ hd_error p = Some SVU /\ last p SVU = Item 1
       /\ is_path (graph two_routes_graph) p = true
       /\ forall q c, walk (graph two_routes_graph) by_absent SVU (Item 1) q c ->
            (List.length p <= List.length q)%nat.
Proof.
  split; [reflexivity|].
  apply (absent_weight_gives_fewest_edges two_routes_graph SVU (Item 1)
           direct_route (0 + 1)%Q).
  - reflexivity.
  - exact two_routes_direct_hop.
Defined.

(** With [weight='weight'] the cost of an edge is the price or the rate
    on it: between two nodes joined by a route, and with prices and rates
    whose sums binary64 arithmetic computes exactly, the call returns a
    route with the least sum of them. *)
Theorem weight_argument_minimises_its_sum (self : ValueGraph) (s t : node)
    (k M : Z) (q0 : list node) (es0 : list edge_attrs) :
  dyadic_costs (graph self) weight k M = true ->
  has_node (graph self) s = true ->
  has_node (graph self) t = true ->
  route (graph self) s t q0 es0 ->
  exists p es,
    get_shortest_path self s t (Some by_weight) = Some (Ok p)
    /\ route (graph self) s t p es
    /\ forall q es', route (graph self) s t q es' ->
         (attribute_sum weight es <= attribute_sum weight es')%Q.
Proof.
  intros Hd Hs Ht H0.
  assert (Hw : by_weight <> by_absent) by discriminate.
  exact (attribute_route_least self by_weight s t k M q0 es0 Hw Hd Hs Ht H0).
Qed.

Lemma weight_argument_minimises_its_sum_witness :
  dyadic_costs (graph quarters_graph) weight 0 6 = true
  /\ has_node (graph quarters_graph) SVU = true
  /\ has_node (graph quarters_graph) (Item 1) = true
  /\ get_shortest_path quarters_graph SVU (Item 1) (Some by_weight)
     = Some (Ok [SVU; Item 2; Item 1])
  /\ exists p es,
       get_shortest_path quarters_graph SVU (Item 1) (Some by_weight)
         = Some (Ok p)
       /\ route (graph quarters_graph) SVU (Item 1) p es
       /\ forall q es', route (graph quarters_graph) SVU (Item 1) q es' ->
            (attribute_sum weight es <= attribute_sum weight es')%Q.
Proof.
  split; [reflexivity|]. split; [reflexivity|]. split; [reflexivity|].
  split; [vm_compute; reflexivity|].
  apply (weight_argument_minimises_its_sum quarters_graph SVU (Item 1)
           0 6 direct_route
           [mkEdge (6 # 1) 0 "alpha" (3 # 4) price_edge]).
  - reflexivity.
  - reflexivity.
  - reflexivity.
  - exact quarters_direct_route.
Defined.

(** *** The shape of a built graph *)

Lemma has_node_iff (g : DiGraph) (n : node) :
  has_node g n = true <-> In n (map fst (nodes g)).
Proof.
  split; [apply has_node_in|].
  intro H. apply in_map_iff in H. destruct H as ([k a] & Hk & Hin).
  simpl in Hk. subst k. unfold has_node. apply existsb_exists.
  exists (n, a). split; [exact Hin|apply node_eqb_refl].
Qed.

Lemma update_node_keys (n : node) (f : node_attrs -> node_attrs)
    (l : list (node * node_attrs)) :
  map fst (update_node n f l) = map fst l.
Proof.
  induction l as [|[k a] t IH]; simpl; [reflexivity|].
  rewrite IH. destruct (node_eqb k n); reflexivity.
Qed.

Lemma add_node_keys (g : DiGraph) (n : node) (nm sy ty : string) :
  map fst (nodes (add_node g n nm sy ty))
  = if has_node g n then map fst (nodes g) else map fst (nodes g) ++ [n].
Proof.
  unfold add_node. destruct (has_node g n); simpl.
  - apply update_node_keys.
  - rewrite map_app. reflexivity.
Qed.

Lemma touch_node_keys (g : DiGraph) (n : node) :
  map fst (nodes (touch_node g n))
  = if has_node g n then map fst (nodes g) else map fst (nodes g) ++ [n].
Proof.
  unfold touch_node. destruct (has_node g n); simpl; [reflexivity|].
  rewrite map_app. reflexivity.
Qed.

Lemma add_edge_nodes (g : DiGraph) (u v : node) (a : edge_attrs) :
  nodes (add_edge g u v a) = nodes (touch_node (touch_node g u) v).
Proof.
  unfold add_edge. destruct (has_edge _ u v); reflexivity.
Qed.

(** A graph in which no node and no ordered pair occurs twice and every
    edge joins two nodes. *)
Definition well_formed (g : DiGraph) : Prop :=
  NoDup (map fst (nodes g))
  /\ NoDup (map fst (edges g))
  /\ forall u v a, In (u, v, a) (edges g) ->
       has_node g u = true /\ has_node g v = true.

(** In such a graph the ends of the edges are among the nodes, and the
    test [n in G] is the test for a node. *)
Lemma contains_well_formed (g : DiGraph) (n : node) :
  well_formed g -> contains g n = has_node g n.
Proof.
  intros (_ & _ & Hends). unfold contains.
  destruct (has_node g n) eqn:Hn; [reflexivity|]. simpl.
  destruct (existsb _ (edges g)) eqn:E; [|reflexivity].
  apply existsb_exists in E. destruct E as ([[u v] a] & Hin & H).
  simpl in H. destruct (Hends u v a Hin) as [Hu Hv].
  apply orb_true_iff in H. destruct H as [H|H]; apply node_eqb_eq in H;
    subst n; congruence.
Qed.

Lemma keys_snoc_nodup (l : list node) (n : node) :
  NoDup l -> ~ In n l -> NoDup (l ++ [n]).
Proof.
  intros H Hn. apply NoDup_app; [exact H|constructor; [intros []|constructor]|].
  intros x Hx [<-|[]]. exact (Hn Hx).
Qed.

Lemma touch_node_well_formed (g : DiGraph) (n : node) :
  well_formed g ->
  well_formed (touch_node g n)
  /\ has_node (touch_node g n) n = true
  /\ forall m, has_node g m = true -> has_node (touch_node g n) m = true.
Proof.
  intros (Hn & He & Hends).
  assert (Hkeep : forall m, has_node g m = true ->
                    has_node (touch_node g n) m = true).
  { intros m Hm. apply has_node_iff. rewrite touch_node_keys.
    apply has_node_iff in Hm. destruct (has_node g n); [exact Hm|].
    apply in_or_app. left. exact Hm. }
  split; [|split; [|exact Hkeep]].
  - split; [|split].
    + rewrite touch_node_keys. destruct (has_node g n) eqn:E; [exact Hn|].
      apply keys_snoc_nodup; [exact Hn|]. intro H. apply has_node_iff in H.
      congruence.
    + rewrite (has_node_touch g n n). exact He.
    + intros u v a Hin. rewrite (has_node_touch g n n) in Hin.
      destruct (Hends u v a Hin) as [Hu Hv]. split; apply Hkeep; assumption.
  - apply has_node_iff. rewrite touch_node_keys.
    destruct (has_node g n) eqn:E; [apply has_node_iff; exact E|].
    apply in_or_app. right. left. reflexivity.
Qed.

Lemma add_edge_well_formed (g : DiGraph) (u v : node) (a : edge_attrs) :
  well_formed g -> well_formed (add_edge g u v a).
Proof.
  intro W.
  destruct (touch_node_well_formed g u W) as (W1 & Hu & K1).
  destruct (touch_node_well_formed (touch_node g u) v W1) as (W2 & Hv & K2).
  assert (Hh : forall m, has_node (add_edge g u v a) m
                         = has_node (touch_node (touch_node g u) v) m).
  { intro m. unfold has_node. rewrite add_edge_nodes. reflexivity. }
  destruct W as (_ & He & Hends). destruct W2 as (Hn2 & _ & _).
  split; [|split].
  - rewrite add_edge_nodes. exact Hn2.
  - apply add_edge_keys_nodup. exact He.
  - intros x y b Hin. rewrite !Hh. apply add_edge_in in Hin.
    destruct Hin as [Hin|Hin].
    + destruct (Hends x y b Hin) as [Hx Hy].
      split; apply K2; apply K1; assumption.
    + injection Hin as -> -> _. split; [apply K2; exact Hu|exact Hv].
Qed.

Lemma add_node_well_formed (g : DiGraph) (n : node) (nm sy ty : string) :
  well_formed g ->
  well_formed (add_node g n nm sy ty)
  /\ has_node (add_node g n nm sy ty) n = true
  /\ forall m, has_node g m = true -> has_node (add_node g n nm sy ty) m = true.
Proof.
  intros (Hn & He & Hends).
  assert (Hkeep : forall m, has_node g m = true ->
                    has_node (add_node g n nm sy ty) m = true).
  { intros m Hm. apply has_node_iff. rewrite add_node_keys.
    apply has_node_iff in Hm. destruct (has_node g n); [exact Hm|].
    apply in_or_app. left. exact Hm. }
  split; [|split; [|exact Hkeep]].
  - split; [|split].
    + rewrite add_node_keys. destruct (has_node g n) eqn:E; [exact Hn|].
      apply keys_snoc_nodup; [exact Hn|]. intro H. apply has_node_iff in H.
      congruence.
    + rewrite add_node_edges. exact He.
    + intros u v a Hin. rewrite add_node_edges in Hin.
      destruct (Hends u v a Hin) as [Hu Hv]. split; apply Hkeep; assumption.
  - apply has_node_iff. rewrite add_node_keys.
    destruct (has_node g n) eqn:E; [apply has_node_iff; exact E|].
    apply in_or_app. right. left. reflexivity.
Qed.

Lemma empty_graph_well_formed : well_formed empty_graph.
Proof.
  split; [constructor|]. split; [constructor|]. intros u v a [].
Qed.

Lemma items_fold_well_formed (l : list ItemRow) (g : DiGraph) :
  well_formed g ->
  let g' := fold_left (fun g item =>
                         add_node g (Item (i_id item)) (i_name item)
                           (i_symbol item) (i_type item)) l g in
  well_formed g'
  /\ (forall m, has_node g m = true -> has_node g' m = true)
  /\ forall item, In item l -> has_node g' (Item (i_id item)) = true.
Proof.
  revert g. induction l as [|x t IH]; intros g W; simpl.
  - split; [exact W|]. split; [auto|intros item []].
  - destruct (add_node_well_formed g (Item (i_id x)) (i_name x) (i_symbol x)
                (i_type x) W) as (W1 & Hx & K1).
    destruct (IH _ W1) as (W2 & K2 & Hall).
    split; [exact W2|]. split.
    + intros m Hm. apply K2. apply K1. exact Hm.
    + intros item [<-|Hin]; [apply K2; exact Hx|apply Hall; exact Hin].
Qed.

Lemma observations_fold_well_formed (obs : list (node * node * edge_attrs))
    (g : DiGraph) :
  well_formed g ->
  well_formed (fold_left add_observation obs g)
  /\ forall m, has_node g m = true ->
       has_node (fold_left add_observation obs g) m = true.
Proof.
  revert g. induction obs as [|o t IH]; intros g W; simpl.
  - split; [exact W|auto].
  - pose proof (add_edge_well_formed g (fst (fst o)) (snd (fst o)) (snd o) W)
      as W1.
    destruct (IH _ W1) as (W2 & K2). split; [exact W2|].
    intros m Hm. apply K2. unfold add_observation.
    apply has_node_iff. rewrite add_edge_nodes.
    destruct (touch_node_well_formed g (fst (fst o)) W) as (Wa & _ & Ka).
    destruct (touch_node_well_formed _ (snd (fst o)) Wa) as (_ & _ & Kb).
    apply has_node_iff. apply Kb. apply Ka. exact Hm.
Qed.

Lemma build_edges_well_formed (db_session : Session) (start_date end_date : Z)
    (min_confidence : Q) :
  well_formed (build_edges db_session start_date end_date min_confidence)
  /\ forall item, In item (items db_session) ->
       has_node (build_edges db_session start_date end_date min_confidence)
         (Item (i_id item)) = true.
Proof.
  rewrite build_edges_fold.
  destruct (items_fold_well_formed (items db_session) empty_graph
              empty_graph_well_formed) as (W1 & _ & Hall).
  fold (items_graph db_session) in W1, Hall.
  destruct (observations_fold_well_formed
              (observations db_session start_date end_date min_confidence)
              (items_graph db_session) W1) as (W2 & K).
  split; [exact W2|]. intros item Hin. apply K. apply Hall. exact Hin.
Qed.

Lemma node_attributes_step_keys (g g' : DiGraph) (n : node) :
  node_attributes_step g n = Ok g' ->
  map fst (nodes g') = map fst (nodes g).
Proof.
  unfold node_attributes_step.
  destruct (map_result _ _) as [ps|e]; simpl; [|discriminate].
  intro H. injection H as <-. simpl. apply update_node_keys.
Qed.

Lemma node_attributes_loop_keys (todo : list node) (g : DiGraph) :
  map fst (nodes (snd (node_attributes_loop todo g))) = map fst (nodes g).
Proof.
  revert g. induction todo as [|n rest IH]; intro g; simpl; [reflexivity|].
  destruct (node_attributes_step g n) as [g'|e] eqn:E; [|reflexivity].
  rewrite IH. apply (node_attributes_step_keys _ _ _ E).
Qed.

Lemma build_graph_keys (self : ValueGraph) (start_date end_date : Z)
    (min_confidence : Q) :
  map fst (nodes (built self start_date end_date min_confidence))
  = map fst (nodes (build_edges (db self) start_date end_date min_confidence)).
Proof.
  unfold built, build_graph, compute_node_attributes.
  pose proof (node_attributes_loop_keys
    (map fst (nodes (build_edges (db self) start_date end_date min_confidence)))
    (build_edges (db self) start_date end_date min_confidence)) as H.
  destruct (node_attributes_loop _ _) as [[u|e] g']; simpl in *; exact H.
Qed.

Lemma has_node_same_keys (g g' : DiGraph) (n : node) :
  map fst (nodes g) = map fst (nodes g') -> has_node g n = has_node g' n.
Proof.
  intro H. destruct (has_node g' n) eqn:E.
  - apply has_node_iff. rewrite H. apply has_node_iff. exact E.
  - destruct (has_node g n) eqn:E'; [|reflexivity].
    apply has_node_iff in E'. rewrite H in E'. apply has_node_iff in E'.
    congruence.
Qed.

(** Whatever the session holds, and whether or not the call raises, the
    graph that [build_graph] leaves has every item of the session as a
    node, no node and no ordered pair twice, and both ends of every edge
    among its nodes. *)
Theorem built_graph_is_well_formed (self : ValueGraph)
    (start_date end_date : Z) (min_confidence : Q) :
  well_formed (built self start_date end_date min_confidence)
  /\ forall item, In item (items (db self)) ->
       has_node (built self start_date end_date min_confidence)
         (Item (i_id item)) = true.
Proof.
  destruct (build_edges_well_formed (db self) start_date end_date
              min_confidence) as ((Hn & He & Hends) & Hitems).
  pose proof (build_graph_keys self start_date end_date min_confidence) as Hk.
  assert (Hh : forall n,
            has_node (built self start_date end_date min_confidence) n
            = has_node (build_edges (db self) start_date end_date
                          min_confidence) n)
    by (intro n; apply has_node_same_keys; exact Hk).
  split; [split; [|split]|].
  - rewrite Hk. exact Hn.
  - unfold built. rewrite build_graph_edges. exact He.
  - intros u v a Hin. unfold built in Hin. rewrite build_graph_edges in Hin.
    rewrite !Hh. apply (Hends u v a Hin).
  - intros item Hin. rewrite Hh. apply Hitems. exact Hin.
Qed.

(** *** When [build_graph] succeeds *)

Lemma last_observation_has_edge (obs : list (node * node * edge_attrs))
    (g : DiGraph) :
  obs <> [] -> edges (fold_left add_observation obs g) <> [].
Proof.
  intro Hne. destruct (exists_last Hne) as (l & o & ->).
  pose proof (fold_observations_edge (l ++ [o]) g (fst (fst o)) (snd (fst o)))
    as H.
  rewrite rev_app_distr in H. simpl in H.
  assert (E : edge_is (fst (fst o)) (snd (fst o)) o = true)
    by (unfold edge_is; rewrite !node_eqb_refl; reflexivity).
  rewrite E in H. unfold get_edge in H. intro Hnil. rewrite Hnil in H.
  discriminate H.
Qed.

Lemma observations_nil (db_session : Session) (start_date end_date : Z)
    (min_confidence : Q) :
  observations db_session start_date end_date min_confidence = [] ->
  qualifying_prices db_session start_date end_date min_confidence = []
  /\ qualifying_rates db_session start_date end_date min_confidence = [].
Proof.
  unfold observations. intro H. apply app_eq_nil in H. destruct H as [H1 H2].
  apply map_eq_nil in H1. apply map_eq_nil in H2. split; assumption.
Qed.

(** [build_graph] returns normally, and sets the time stamp of the
    object, exactly when no observation qualifies; with one qualifying
    observation or more it raises [TypeError] and leaves the time stamp
    as it was. *)
Theorem build_succeeds_only_without_observation (self : ValueGraph)
    (start_date end_date : Z) (min_confidence : Q) :
  let out := build_graph self start_date end_date min_confidence in
  let obs := observations (db self) start_date end_date min_confidence in
  (obs = [] ->
   fst out = Ok tt /\ vg_timestamp (snd out) = Some end_date)
  /\ (obs <> [] ->
      fst out = Raise TypeError
      /\ vg_timestamp (snd out) = vg_timestamp self).
Proof.
  intros out obs. subst out obs. split.
  - intro H. apply observations_nil in H. destruct H as [Hp Hr].
    unfold build_graph, compute_node_attributes.
    rewrite (build_edges_no_observation _ _ _ _ Hp Hr).
    destruct (node_attributes_loop_no_edges
                (map fst (nodes (items_graph (db self))))
                (items_graph (db self)) (items_graph_edges (db self)))
      as (g' & Hl & _). rewrite Hl. split; reflexivity.
  - intro Hne.
    pose proof (last_observation_has_edge _ (items_graph (db self)) Hne) as He.
    rewrite <- build_edges_fold in He.
    destruct (build_edges_well_formed (db self) start_date end_date
                min_confidence) as ((_ & _ & Hends) & _).
    destruct (edges (build_edges (db self) start_date end_date min_confidence))
      as [|[[u v] a] rest] eqn:Ee; [congruence|].
    assert (Hu : has_node (build_edges (db self) start_date end_date
                             min_confidence) u = true).
    { apply (Hends u v a). left. reflexivity. }
    assert (Hraise : fst (compute_node_attributes
                            (build_edges (db self) start_date end_date
                               min_confidence)) = Raise TypeError).
    { apply node_attributes_loop_raises. exists u.
      split; [apply has_node_in; exact Hu|].
      unfold incident, in_edges, out_edges. rewrite Ee. simpl.
      rewrite node_eqb_refl. intro H. apply app_eq_nil in H.
      destruct H as [_ H]. discriminate H. }
    unfold build_graph.
    destruct (compute_node_attributes _) as [[u0|e] g']; simpl in Hraise;
      [discriminate|].
    injection Hraise as ->. split; reflexivity.
Qed.

(** *** Reading the attributes of nodes and edges *)

Lemma get_node_in (g : DiGraph) (n : node) (a : node_attrs) :
  get_node g n = Some a -> In (n, a) (nodes g).
Proof.
  unfold get_node. destruct (find _ (nodes g)) as [[k b]|] eqn:E;
    simpl; [|discriminate].
  intro H. injection H as ->. apply find_some in E. destruct E as [Hin Hk].
  simpl in Hk. apply node_eqb_eq in Hk. subst k. exact Hin.
Qed.

Lemma get_node_snoc (l : list (node * node_attrs))
    (es es' : list (node * node * edge_attrs)) (n m : node) (b : node_attrs) :
  get_node (mkDiGraph (l ++ [(n, b)]) es) m
  = match get_node (mkDiGraph l es') m with
    | Some a => Some a
    | None => if node_eqb n m then Some b else None
    end.
Proof.
  unfold get_node. simpl. rewrite find_app.
  destruct (find _ l) as [x|]; simpl; [reflexivity|].
  destruct (node_eqb n m); reflexivity.
Qed.

Lemma get_node_none (g : DiGraph) (n : node) :
  has_node g n = false -> get_node g n = None.
Proof.
  intro H. destruct (get_node g n) as [a|] eqn:E; [|reflexivity].
  apply get_node_in in E. assert (Hn : has_node g n = true).
  { apply has_node_iff. apply in_map_iff. exists (n, a).
    split; [reflexivity|exact E]. }
  congruence.
Qed.

(** The three attributes that [add_node] writes, as they are read on a
    node of the graph. *)
Definition labelled (g : DiGraph) (m : node) (nm sy ty : string) : Prop :=
  exists a, get_node g m = Some a
            /\ name a = Some nm /\ symbol a = Some sy /\ item_type a = Some ty.

(** A node that has none of the three. *)
Definition bare (g : DiGraph) (m : node) : Prop :=
  forall a, get_node g m = Some a ->
    name a = None /\ symbol a = None /\ item_type a = None.

Lemma add_node_labelled_same (g : DiGraph) (n : node) (nm sy ty : string) :
  labelled (add_node g n nm sy ty) n nm sy ty.
Proof.
  unfold labelled, add_node. destruct (has_node g n) eqn:E.
  - destruct (has_node_get_node g n E) as (a & Ha).
    destruct g as [l es]. cbn [nodes edges] in *.
    rewrite get_node_update, node_eqb_refl, Ha.
    simpl. eexists. split; [reflexivity|]. simpl. auto.
  - destruct g as [l es]. cbn [nodes edges].
    rewrite (get_node_snoc l es es).
    rewrite (get_node_none _ _ E), node_eqb_refl.
    eexists. split; [reflexivity|]. simpl. auto.
Qed.

Lemma add_node_other (g : DiGraph) (n m : node) (nm sy ty : string) :
  node_eqb n m = false ->
  get_node (add_node g n nm sy ty) m = get_node g m.
Proof.
  intro Hnm. unfold add_node. destruct (has_node g n) eqn:E.
  - destruct g as [l es]. cbn [nodes edges].
    rewrite get_node_update, Hnm. reflexivity.
  - destruct g as [l es]. cbn [nodes edges].
    rewrite (get_node_snoc l es es), Hnm.
    destruct (get_node _ m); reflexivity.
Qed.

Lemma touch_node_get (g : DiGraph) (n m : node) :
  get_node (touch_node g n) m
  = match get_node g m with
    | Some a => Some a
    | None => if node_eqb n m then Some no_attrs else None
    end.
Proof.
  unfold touch_node. destruct (has_node g n) eqn:E.
  - destruct (get_node g m) as [a|] eqn:Ea; [reflexivity|].
    destruct (node_eqb n m) eqn:Enm; [|reflexivity].
    apply node_eqb_eq in Enm. subst m.
    destruct (has_node_get_node g n E) as (a & Ha). congruence.
  - destruct g as [l es]. cbn [nodes edges]. apply (get_node_snoc l es es).
Qed.

Lemma get_node_add_edge (g : DiGraph) (u v m : node) (a : edge_attrs) :
  get_node (add_edge g u v a) m
  = get_node (touch_node (touch_node g u) v) m.
Proof. unfold get_node. rewrite add_edge_nodes. reflexivity. Qed.

Lemma add_observation_labelled (g : DiGraph) (o : node * node * edge_attrs)
    (m : node) (nm sy ty : string) :
  labelled g m nm sy ty -> labelled (add_observation g o) m nm sy ty.
Proof.
  intros (a & Ha & Hl). exists a. split; [|exact Hl].
  unfold add_observation. rewrite get_node_add_edge, !touch_node_get, Ha.
  reflexivity.
Qed.

Lemma add_observation_bare (g : DiGraph) (o : node * node * edge_attrs)
    (m : node) :
  bare g m -> bare (add_observation g o) m.
Proof.
  intros Hb a. unfold add_observation.
  rewrite get_node_add_edge, !touch_node_get.
  destruct (get_node g m) as [b|] eqn:Eb.
  - intro H. injection H as <-. apply Hb. exact Eb.
  - destruct (node_eqb (fst (fst o)) m).
    + intro H. injection H as <-. simpl. auto.
    + destruct (node_eqb (snd (fst o)) m); [|discriminate].
      intro H. injection H as <-. simpl. auto.
Qed.

Lemma node_attributes_step_get (g g' : DiGraph) (n m : node) :
  node_attributes_step g n = Ok g' ->
  match get_node g m with
  | Some a => exists a', get_node g' m = Some a'
                         /\ name a' = name a /\ symbol a' = symbol a
                         /\ item_type a' = item_type a
  | None => get_node g' m = None
  end.
Proof.
  unfold node_attributes_step.
  destruct (map_result _ _) as [ps|e]; simpl; [|discriminate].
  intro H. injection H as <-. destruct g as [l es]. simpl.
  rewrite get_node_update.
  destruct (get_node (mkDiGraph l es) m) as [a|];
    destruct (node_eqb n m); simpl; try reflexivity;
    eexists; (split; [reflexivity|]); simpl; auto.
Qed.

Lemma node_attributes_loop_get (todo : list node) (g : DiGraph) (m : node) :
  match get_node g m with
  | Some a => exists a', get_node (snd (node_attributes_loop todo g)) m
                         = Some a'
                         /\ name a' = name a /\ symbol a' = symbol a
                         /\ item_type a' = item_type a
  | None => get_node (snd (node_attributes_loop todo g)) m = None
  end.
Proof.
  revert g. induction todo as [|n rest IH]; intro g; simpl.
  - destruct (get_node g m) as [a|]; [|reflexivity].
    exists a. auto.
  - destruct (node_attributes_step g n) as [g'|e] eqn:E; simpl.
    + pose proof (node_attributes_step_get _ _ _ m E) as H1.
      specialize (IH g').
      destruct (get_node g m) as [a|].
      * destruct H1 as (a1 & Ha1 & H1a & H1b & H1c). rewrite Ha1 in IH.
        destruct IH as (a2 & Ha2 & H2a & H2b & H2c). exists a2.
        split; [exact Ha2|]. repeat split; congruence.
      * rewrite H1 in IH. exact IH.
    + destruct (get_node g m) as [a|]; [|reflexivity]. exists a. auto.
Qed.

Lemma build_graph_get (self : ValueGraph) (start_date end_date : Z)
    (min_confidence : Q) (m : node) :
  match get_node (build_edges (db self) start_date end_date min_confidence) m
  with
  | Some a => exists a', get_node (built self start_date end_date
                                     min_confidence) m = Some a'
                         /\ name a' = name a /\ symbol a' = symbol a
                         /\ item_type a' = item_type a
  | None => get_node (built self start_date end_date min_confidence) m = None
  end.
Proof.
  unfold built, build_graph, compute_node_attributes.
  pose proof (node_attributes_loop_get
    (map fst (nodes (build_edges (db self) start_date end_date min_confidence)))
    (build_edges (db self) start_date end_date min_confidence) m) as H.
  destruct (node_attributes_loop _ _) as [[u|e] g']; simpl in *; exact H.
Qed.

Lemma items_fold_labelled (l : list ItemRow) (g : DiGraph) (id : Z)
    (it : ItemRow) :
  find (fun x => (i_id x =? id)%Z) (rev l) = Some it ->
  labelled (fold_left (fun g item =>
                         add_node g (Item (i_id item)) (i_name item)
                           (i_symbol item) (i_type item)) l g)
    (Item id) (i_name it) (i_symbol it) (i_type it).
Proof.
  induction l as [|x t IH] using rev_ind; simpl; [discriminate|].
  rewrite rev_app_distr, fold_left_app. simpl.
  destruct (i_id x =? id)%Z eqn:E.
  - intro H. injection H as <-. apply Z.eqb_eq in E. rewrite <- E.
    apply add_node_labelled_same.
  - intro H. destruct (IH H) as (a & Ha & Hl). exists a. split; [|exact Hl].
    rewrite add_node_other; [exact Ha|]. simpl. exact E.
Qed.

Lemma items_fold_bare (l : list ItemRow) (g : DiGraph) (m : node) :
  (forall it, In it l -> Item (i_id it) <> m) ->
  bare g m ->
  bare (fold_left (fun g item =>
                     add_node g (Item (i_id item)) (i_name item)
                       (i_symbol item) (i_type item)) l g) m.
Proof.
  revert g. induction l as [|x t IH]; intros g Hno Hb; simpl; [exact Hb|].
  apply IH; [intros it Hit; apply Hno; right; exact Hit|].
  intros a. rewrite add_node_other; [apply Hb|].
  apply node_eqb_neq. apply Hno. left. reflexivity.
Qed.

Lemma observations_fold_labelled (obs : list (node * node * edge_attrs))
    (g : DiGraph) (m : node) (nm sy ty : string) :
  labelled g m nm sy ty ->
  labelled (fold_left add_observation obs g) m nm sy ty.
Proof.
  revert g. induction obs as [|o t IH]; intros g H; simpl; [exact H|].
  apply IH. apply add_observation_labelled. exact H.
Qed.

Lemma observations_fold_bare (obs : list (node * node * edge_attrs))
    (g : DiGraph) (m : node) :
  bare g m -> bare (fold_left add_observation obs g) m.
Proof.
  revert g. induction obs as [|o t IH]; intros g H; simpl; [exact H|].
  apply IH. apply add_observation_bare. exact H.
Qed.

(** After [build_graph], whether it raised or not, [get_node_attributes]
    on the identifier of an item returns a dictionary with the name, the
    symbol and the type of the last row of the item table with that
    identifier. *)
Theorem item_node_carries_item_attributes (self : ValueGraph)
    (start_date end_date : Z) (min_confidence : Q) (id : Z) (it : ItemRow) :
  find (fun x => (i_id x =? id)%Z) (rev (items (db self))) = Some it ->
  exists a,
    get_node_attributes
      (snd (build_graph self start_date end_date min_confidence)) (Item id)
    = Ok a
    /\ name a = Some (i_name it)
    /\ symbol a = Some (i_symbol it)
    /\ item_type a = Some (i_type it).
Proof.
  intro Hf.
  pose proof (items_fold_labelled (items (db self)) empty_graph id it Hf) as H.
  fold (items_graph (db self)) in H.
  apply (observations_fold_labelled
           (observations (db self) start_date end_date min_confidence)) in H.
  rewrite <- build_edges_fold in H. destruct H as (a & Ha & Hn & Hs & Ht).
  pose proof (build_graph_get self start_date end_date min_confidence
                (Item id)) as Hb.
  rewrite Ha in Hb. destruct Hb as (a' & Ha' & Hn' & Hs' & Ht').
  exists a'. unfold get_node_attributes. unfold built in Ha'. rewrite Ha'.
  split; [reflexivity|]. repeat split; congruence.
Qed.

Lemma item_node_carries_item_attributes_witness :
  find (fun x => (i_id x =? 1)%Z) (rev (items (db (init once_priced))))
  = Some (mkItem 1 "Gold" "GOLD" "precious_metal")
  /\ exists a,
       get_node_attributes
         (snd (build_graph (init once_priced) 0 10 (7 # 10))) (Item 1)
       = Ok a
       /\ name a = Some "Gold"%string
       /\ symbol a = Some "GOLD"%string
       /\ item_type a = Some "precious_metal"%string.
Proof.
  split; [reflexivity|].
  apply (item_node_carries_item_attributes (init once_priced) 0 10 (7 # 10) 1
           (mkItem 1 "Gold" "GOLD" "precious_metal")).
  reflexivity.
Defined.

(** A node that no row of the item table stands for, such as the base
    node ['SVU'] or an identifier that only a price or a rate mentions,
    is either missing from the built graph, and then
    [get_node_attributes] raises [KeyError], or has no name, no symbol
    and no type. *)
Theorem node_without_item_row_is_bare (self : ValueGraph)
    (start_date end_date : Z) (min_confidence : Q) (n : node) :
  (forall it, In it (items (db self)) -> Item (i_id it) <> n) ->
  let out := get_node_attributes
               (snd (build_graph self start_date end_date min_confidence)) n in
  (has_node (built self start_date end_date min_confidence) n = false
   /\ out = Raise KeyError)
  \/ (has_node (built self start_date end_date min_confidence) n = true
      /\ exists a, out = Ok a
           /\ name a = None /\ symbol a = None /\ item_type a = None).
Proof.
  intros Hno out. subst out.
  assert (Hb : bare (build_edges (db self) start_date end_date min_confidence)
                 n).
  { rewrite build_edges_fold. apply observations_fold_bare.
    apply items_fold_bare; [exact Hno|]. intros a H. discriminate H. }
  pose proof (build_graph_get self start_date end_date min_confidence n) as Hg.
  unfold get_node_attributes. fold (built self start_date end_date
                                      min_confidence).
  destruct (has_node (built self start_date end_date min_confidence) n)
    eqn:E.
  - right. split; [reflexivity|].
    destruct (get_node (build_edges _ _ _ _) n) as [a|] eqn:Ea.
    + destruct Hg as (a' & Ha' & Hn & Hs & Ht). rewrite Ha'.
      destruct (Hb a Ea) as (B1 & B2 & B3).
      exists a'. split; [reflexivity|]. repeat split; congruence.
    + destruct (has_node_get_node _ _ E) as (a & Ha). congruence.
  - left. split; [reflexivity|]. rewrite (get_node_none _ _ E). reflexivity.
Qed.

Lemma node_without_item_row_is_bare_witness :
  (forall it, In it (items (db (init once_priced))) -> Item (i_id it) <> SVU)
  /\ has_node (built (init once_priced) 0 10 (7 # 10)) SVU = true
  /\ exists a,
       get_node_attributes
         (snd (build_graph (init once_priced) 0 10 (7 # 10))) SVU = Ok a
       /\ name a = None /\ symbol a = None /\ item_type a = None.
Proof.
  assert (H : forall it, In it (items (db (init once_priced))) ->
                Item (i_id it) <> SVU) by (intros it _; discriminate).
  split; [exact H|].
  destruct (node_without_item_row_is_bare (init once_priced) 0 10 (7 # 10)
              SVU H) as [[E _]|R].
  - vm_compute in E. discriminate E.
  - exact R.
Defined.

Lemma qualifies_between (start_date end_date : Z) (min_confidence : Q)
    (ts : Z) (c : option Q) :
  qualifies start_date end_date min_confidence ts c = true ->
  (start_date <= ts <= end_date)%Z.
Proof.
  unfold qualifies. intro H. apply andb_true_iff in H. destruct H as [H _].
  apply andb_true_iff in H. destruct H as [H1 H2].
  apply Z.leb_le in H1. apply Z.leb_le in H2. split; assumption.
Qed.

(** Every dictionary that [get_edge_attributes] returns on a built graph
    passed the filter of the queries: its confidence is at least the
    minimum and its time stamp lies between the two dates.  No edge
    points to the base node, and the edges that leave it are exactly the
    price edges. *)
Theorem edge_attributes_respect_filter (self : ValueGraph)
    (start_date end_date : Z) (min_confidence : Q) (u v : node)
    (a : edge_attrs) :
  get_edge_attributes
    (snd (build_graph self start_date end_date min_confidence)) u v = Ok a ->
  (min_confidence <= confidence a)%Q
  /\ (start_date <= timestamp a <= end_date)%Z
  /\ v <> SVU
  /\ (type a = price_edge <-> u = SVU).
Proof.
  unfold get_edge_attributes, get_edge.
  destruct (find (edge_is u v) _) as [[[u' v'] a']|] eqn:E; simpl;
    [|discriminate].
  intro H. injection H as ->. apply find_some in E. destruct E as [Hin Hk].
  apply edge_is_key in Hk. simpl in Hk. injection Hk as -> ->.
  apply built_edges_observed in Hin. unfold observations in Hin.
  apply in_app_or in Hin.
  destruct Hin as [Hin|Hin]; apply in_map_iff in Hin;
    destruct Hin as (r & Hr & Hq); apply filter_In in Hq;
    destruct Hq as [_ Hq]; injection Hr as <- <- <-; simpl;
    (split; [exact (qualifies_confidence _ _ _ _ _ Hq)|]);
    (split; [exact (qualifies_between _ _ _ _ _ Hq)|]);
    (split; [discriminate|]); split; try reflexivity; try discriminate;
    intro; reflexivity.
Qed.

Lemma edge_attributes_respect_filter_witness :
  get_edge_attributes
    (snd (build_graph (init once_priced) 0 10 (7 # 10))) SVU (Item 1)
  = Ok (mkEdge (5 # 1) 3 "alpha" (9 # 10) price_edge)
  /\ (7 # 10 <= 9 # 10)%Q
  /\ (0 <= 3 <= 10)%Z
  /\ Item 1 <> SVU
  /\ (price_edge = price_edge <-> SVU = SVU).
Proof.
  split; [reflexivity|].
  apply (edge_attributes_respect_filter (init once_priced) 0 10 (7 # 10)
           SVU (Item 1) (mkEdge (5 # 1) 3 "alpha" (9 # 10) price_edge)).
  reflexivity.
Defined.

(** *** The volatile nodes *)

Lemma map_result_in {A B} (f : A -> result B) (l : list A) (ys : list B)
    (y : B) :
  map_result f l = Ok ys -> In y ys -> exists x, In x l /\ f x = Ok y.
Proof.
  revert ys. induction l as [|x t IH]; intros ys; simpl.
  - intro H. injection H as <-. intros [].
  - destruct (f x) as [b|e] eqn:Ex; simpl; [|discriminate].
    destruct (map_result f t) as [t'|e] eqn:Et; simpl; [|discriminate].
    intro H. injection H as <-. intros [<-|Hin].
    + exists x. split; [left; reflexivity|exact Ex].
    + destruct (IH t' eq_refl Hin) as (x' & Hx' & Hf).
      exists x'. split; [right; exact Hx'|exact Hf].
Qed.

Lemma map_result_raise {A B} (f : A -> result B) (l : list A) (x : A)
    (e : exn) :
  In x l -> f x = Raise e -> exists e', map_result f l = Raise e'.
Proof.
  induction l as [|h t IH]; intros Hin Hx; [destruct Hin|]. simpl.
  destruct (f h) as [b|e0] eqn:Eh; simpl; [|eexists; reflexivity].
  destruct Hin as [->|Hin]; [congruence|].
  destruct (IH Hin Hx) as (e' & He'). rewrite He'. simpl.
  eexists. reflexivity.
Qed.

Lemma map_result_all {A B} (f : A -> result B) (g : A -> B) (l : list A) :
  (forall x, In x l -> f x = Ok (g x)) -> map_result f l = Ok (map g l).
Proof.
  induction l as [|h t IH]; intro H; simpl; [reflexivity|].
  rewrite (H h (or_introl eq_refl)). simpl.
  rewrite IH; [reflexivity|]. intros x Hx. apply H. right. exact Hx.
Qed.

Lemma volatility_item_ok (g : DiGraph) (n m : node) (v : fval) :
  volatility_item g n = Ok (m, v) -> m = n /\ node_volatility g n = Some v.
Proof.
  unfold volatility_item, node_volatility.
  destruct (get_node g n) as [a|]; [|discriminate].
  destruct (volatility a) as [w|]; [|discriminate].
  intro H. injection H as <- <-. split; reflexivity.
Qed.

Lemma in_firstn {A} (n : nat) (l : list A) (x : A) :
  In x (firstn n l) -> In x l.
Proof.
  revert l. induction n as [|n IH]; intros [|h t]; simpl; try tauto.
  intros [->|H]; [left; reflexivity|right; apply IH; exact H].
Qed.

Lemma in_slice_to {A} (top_n : Z) (l : list A) (x : A) :
  In x (slice_to top_n l) -> In x l.
Proof.
  unfold slice_to. destruct (0 <=? top_n)%Z; apply in_firstn.
Qed.

Lemma firstn_strongly_sorted {A} (R : A -> A -> Prop) (n : nat) (l : list A) :
  StronglySorted R l -> StronglySorted R (firstn n l).
Proof.
  revert l. induction n as [|n IH]; intros l Hs; [constructor|].
  destruct Hs as [|h t Hs Hall]; simpl; constructor.
  - apply IH. exact Hs.
  - rewrite Forall_forall in *. intros x Hx. apply Hall.
    apply (in_firstn _ _ _ Hx).
Qed.

Section SortOn.

Context {A : Type} (leb : A -> A -> bool) (P : A -> Prop).
Hypothesis leb_total : forall a b, leb a b = false -> leb b a = true.
Hypothesis leb_trans : forall a b c, P a -> P b -> P c ->
  leb a b = true -> leb b c = true -> leb a c = true.

Lemma insert_by_sorted_on (x : A) (l : list A) :
  P x -> Forall P l ->
  StronglySorted (fun a b => leb a b = true) l ->
  StronglySorted (fun a b => leb a b = true) (insert_by leb x l).
Proof.
  intros Px Pl Hs. induction Hs as [|h t Hs IH Hall]; simpl.
  - constructor; constructor.
  - inversion Pl as [|? ? Ph Pt]; subst. destruct (leb x h) eqn:E.
    + constructor; [constructor; assumption|].
      constructor; [exact E|].
      rewrite Forall_forall in *. intros y Hy.
      apply (leb_trans x h y); auto.
    + constructor; [apply IH; exact Pt|].
      rewrite Forall_forall in *. intros y Hy.
      apply (Permutation_in _ (insert_by_perm leb x t)) in Hy.
      destruct Hy as [<-|Hy]; [apply leb_total; exact E|apply Hall; exact Hy].
Qed.

Lemma sort_by_sorted_on (l : list A) :
  Forall P l -> StronglySorted (fun a b => leb a b = true) (sort_by leb l).
Proof.
  induction l as [|h t IH]; intro Pl; simpl; [constructor|].
  inversion Pl as [|? ? Ph Pt]; subst.
  apply insert_by_sorted_on; [exact Ph| |apply IH; exact Pt].
  rewrite Forall_forall in *. intros y Hy. apply Pt.
  apply (Permutation_in _ (sort_by_perm leb t)). exact Hy.
Qed.

End SortOn.

(** The values that pass a threshold are numbers or the positive
    infinity, and on those "not smaller" is a total order. *)
Definition comparable (v : fval) : Prop :=
  match v with
  | FNum _ | FPosInf => True
  | FNaN | FNegInf => False
  end.

Lemma fge_comparable (v : fval) (threshold : R) :
  fge v threshold = true -> comparable v.
Proof. destruct v; simpl; try discriminate; trivial. Qed.

Lemma flt_asym (a b : fval) : flt a b = true -> flt b a = false.
Proof.
  destruct a as [| | |x], b as [| | |y]; simpl; try discriminate;
    try reflexivity.
  destruct (Rlt_dec x y); [|discriminate]. intros _.
  destruct (Rlt_dec y x); [lra|reflexivity].
Qed.

Lemma not_flt_trans (a b c : fval) :
  comparable a -> comparable b -> comparable c ->
  flt a b = false -> flt b c = false -> flt a c = false.
Proof.
  destruct a as [| | |x], b as [| | |y], c as [| | |z]; simpl;
    try contradiction; try discriminate; try reflexivity; intros _ _ _.
  destruct (Rlt_dec x y); [discriminate|].
  destruct (Rlt_dec y z); [discriminate|].
  destruct (Rlt_dec x z); [lra|reflexivity].
Qed.

Lemma sort_by_volatility_sorted (l : list (node * fval)) :
  Forall (fun x => comparable (snd x)) l ->
  StronglySorted (fun a b => flt (snd a) (snd b) = false)
    (sort_by_volatility l).
Proof.
  intro Hl. unfold sort_by_volatility.
  pose proof (sort_by_sorted_on
    (fun a b : node * fval => negb (flt (snd a) (snd b)))
    (fun x => comparable (snd x))) as H.
  assert (Hs : StronglySorted
                 (fun a b => negb (flt (snd a) (snd b)) = true)
                 (sort_by (fun a b : node * fval =>
                             negb (flt (snd a) (snd b))) l)).
  { apply H; [| |exact Hl].
    - intros a b E. apply negb_false_iff in E. apply negb_true_iff.
      apply flt_asym. exact E.
    - intros a b c Pa Pb Pc E1 E2. apply negb_true_iff in E1, E2.
      apply negb_true_iff. apply (not_flt_trans _ (snd b)); assumption. }
  clear H. induction Hs as [|h t Hs IH Hall]; constructor; [exact IH|].
  rewrite Forall_forall in *. intros y Hy. apply negb_true_iff.
  apply Hall. exact Hy.
Qed.

(** Whatever the graph, the pairs that [get_volatile_nodes] returns are
    nodes of the graph with their volatility attribute, each at least
    the threshold, in falling order of volatility, and no more than
    [top_n] of them when [top_n] is not negative.  When a node of the
    graph has no volatility attribute the list is empty. *)
Theorem volatile_nodes_meet_threshold (self : ValueGraph) (threshold : R)
    (top_n : Z) :
  let out := get_volatile_nodes self threshold top_n in
  (forall n v, In (n, v) out ->
     has_node (graph self) n = true
     /\ node_volatility (graph self) n = Some v
     /\ fge v threshold = true)
  /\ StronglySorted (fun a b => flt (snd a) (snd b) = false) out
  /\ ((0 <= top_n)%Z -> (Z.of_nat (List.length out) <= top_n)%Z)
  /\ ((exists n, has_node (graph self) n = true
                 /\ node_volatility (graph self) n = None) ->
      out = []).
Proof.
  intro out. subst out. unfold get_volatile_nodes.
  destruct (map_result _ _) as [vs|e] eqn:E.
  - assert (Hc : Forall (fun x : node * fval => comparable (snd x))
                   (filter (fun x => fge (snd x) threshold) vs)).
    { apply Forall_forall. intros x Hx. apply filter_In in Hx.
      apply (fge_comparable _ threshold). apply Hx. }
    split; [|split; [|split]].
    + intros n v Hin. apply in_slice_to in Hin.
      apply (Permutation_in _ (sort_by_perm _ _)) in Hin.
      apply filter_In in Hin. destruct Hin as [Hin Hge].
      destruct (map_result_in _ _ _ _ E Hin) as (x & Hx & Hf).
      apply volatility_item_ok in Hf. destruct Hf as [-> Hv].
      split; [apply has_node_iff; exact Hx|]. split; [exact Hv|exact Hge].
    + unfold slice_to. destruct (0 <=? top_n)%Z;
        apply firstn_strongly_sorted; apply sort_by_volatility_sorted;
        exact Hc.
    + intro Hn. unfold slice_to.
      destruct (0 <=? top_n)%Z eqn:En; [|apply Z.leb_gt in En; lia].
      pose proof (firstn_le_length (Z.to_nat top_n)
                    (sort_by_volatility
                       (filter (fun x => fge (snd x) threshold) vs))) as Hl.
      lia.
    + intros (n & Hn & Hv). exfalso. apply has_node_iff in Hn.
      assert (Hr : volatility_item (graph self) n = Raise KeyError).
      { unfold volatility_item. unfold node_volatility in Hv.
        destruct (get_node (graph self) n) as [a|]; [|reflexivity].
        rewrite Hv. reflexivity. }
      destruct (map_result_raise _ _ _ _ Hn Hr) as (e' & He'). congruence.
  - split; [intros n v []|]. split; [constructor|].
    split; [simpl; lia|reflexivity].
Qed.

(** A graph whose nodes have no volatility or a volatility of 0.0. *)
Definition volatility_trivial (g : DiGraph) : Prop :=
  Forall (fun x => volatility (snd x) = None
                   \/ volatility (snd x) = Some (FNum 0)) (nodes g).

Lemma update_node_forall (P : node_attrs -> Prop) (n : node)
    (f : node_attrs -> node_attrs) (l : list (node * node_attrs)) :
  (forall a, P (f a)) ->
  Forall (fun x => P (snd x)) l ->
  Forall (fun x => P (snd x)) (update_node n f l).
Proof.
  intros Hf Hl. unfold update_node. apply Forall_forall. intros x Hx.
  apply in_map_iff in Hx. destruct Hx as (y & <- & Hy).
  rewrite Forall_forall in Hl.
  destruct (node_eqb (fst y) n); [apply Hf|apply Hl; exact Hy].
Qed.

Lemma update_node_forall_keep (P : node_attrs -> Prop) (n : node)
    (f : node_attrs -> node_attrs) (l : list (node * node_attrs)) :
  (forall a, P a -> P (f a)) ->
  Forall (fun x => P (snd x)) l ->
  Forall (fun x => P (snd x)) (update_node n f l).
Proof.
  intros Hf Hl. unfold update_node. apply Forall_forall. intros x Hx.
  apply in_map_iff in Hx. destruct Hx as (y & <- & Hy).
  rewrite Forall_forall in Hl.
  destruct (node_eqb (fst y) n); [apply Hf|]; apply Hl; exact Hy.
Qed.

Definition without_volatility (g : DiGraph) : Prop :=
  Forall (fun x => volatility (snd x) = None) (nodes g).

Lemma add_node_without_volatility (g : DiGraph) (n : node)
    (nm sy ty : string) :
  without_volatility g -> without_volatility (add_node g n nm sy ty).
Proof.
  unfold without_volatility, add_node. intro H.
  destruct (has_node g n); simpl.
  - apply (update_node_forall_keep (fun a => volatility a = None));
      [intros a Ha; exact Ha|exact H].
  - apply Forall_app. split; [exact H|]. constructor; [reflexivity|constructor].
Qed.

Lemma touch_node_without_volatility (g : DiGraph) (n : node) :
  without_volatility g -> without_volatility (touch_node g n).
Proof.
  unfold without_volatility, touch_node. intro H.
  destruct (has_node g n); simpl; [exact H|].
  apply Forall_app. split; [exact H|]. constructor; [reflexivity|constructor].
Qed.

Lemma build_edges_without_volatility (db_session : Session)
    (start_date end_date : Z) (min_confidence : Q) :
  without_volatility
    (build_edges db_session start_date end_date min_confidence).
Proof.
  rewrite build_edges_fold.
  assert (Hi : forall l g, without_volatility g ->
            without_volatility
              (fold_left (fun g item =>
                            add_node g (Item (i_id item)) (i_name item)
                              (i_symbol item) (i_type item)) l g)).
  { induction l as [|x t IH]; intros g Hg; simpl; [exact Hg|].
    apply IH. apply add_node_without_volatility. exact Hg. }
  assert (Ho : forall l g, without_volatility g ->
            without_volatility (fold_left add_observation l g)).
  { induction l as [|x t IH]; intros g Hg; simpl; [exact Hg|].
    apply IH. unfold add_observation, without_volatility.
    rewrite add_edge_nodes.
    apply touch_node_without_volatility, touch_node_without_volatility.
    exact Hg. }
  apply Ho. apply Hi. constructor.
Qed.

Lemma map_result_tuple_getitem (l : list (node * node * edge_attrs))
    (ps : list Q) :
  map_result (fun edge => tuple_getitem edge "weight") l = Ok ps ->
  l = [] /\ ps = [].
Proof.
  destruct l as [|e t]; simpl; [|discriminate].
  intro H. injection H as <-. split; reflexivity.
Qed.

Lemma node_attributes_step_trivial (g g' : DiGraph) (n : node) :
  node_attributes_step g n = Ok g' ->
  volatility_trivial g -> volatility_trivial g'.
Proof.
  unfold node_attributes_step.
  destruct (map_result _ _) as [ps|e] eqn:E; simpl; [|discriminate].
  apply map_result_tuple_getitem in E. destruct E as [_ ->].
  intro H. injection H as <-. unfold volatility_trivial. simpl.
  apply (update_node_forall_keep
           (fun a => volatility a = None \/ volatility a = Some (FNum 0))).
  intros a _. right. reflexivity.
Qed.

Lemma node_attributes_loop_trivial (todo : list node) (g : DiGraph) :
  volatility_trivial g ->
  volatility_trivial (snd (node_attributes_loop todo g)).
Proof.
  revert g. induction todo as [|n rest IH]; intros g H; simpl; [exact H|].
  destruct (node_attributes_step g n) as [g'|e] eqn:E; [|exact H].
  apply IH. apply (node_attributes_step_trivial _ _ _ E H).
Qed.

Lemma built_volatility_trivial (self : ValueGraph) (start_date end_date : Z)
    (min_confidence : Q) :
  volatility_trivial (built self start_date end_date min_confidence).
Proof.
  unfold built, build_graph, compute_node_attributes.
  pose proof (node_attributes_loop_trivial
    (map fst (nodes (build_edges (db self) start_date end_date min_confidence)))
    (build_edges (db self) start_date end_date min_confidence)) as H.
  assert (H0 : volatility_trivial
                 (build_edges (db self) start_date end_date min_confidence)).
  { pose proof (build_edges_without_volatility (db self) start_date end_date
                  min_confidence) as Hw.
    unfold without_volatility, volatility_trivial in *.
    rewrite Forall_forall in *. intros x Hx. left. apply Hw. exact Hx. }
  specialize (H H0).
  destruct (node_attributes_loop _ _) as [[u|e] g']; simpl in *; exact H.
Qed.

Lemma filter_none {A} (f : A -> bool) (l : list A) :
  (forall x, In x l -> f x = false) -> filter f l = [].
Proof.
  induction l as [|h t IH]; intro H; simpl; [reflexivity|].
  rewrite (H h (or_introl eq_refl)). apply IH.
  intros x Hx. apply H. right. exact Hx.
Qed.

Lemma slice_to_nil {A} (top_n : Z) : slice_to top_n (@nil A) = [].
Proof.
  unfold slice_to. destruct (0 <=? top_n)%Z; apply firstn_nil.
Qed.

(** On the graph that [build_graph] leaves, whether it raised or not, a
    node has no volatility or a volatility of 0.0, so that
    [get_volatile_nodes] with a positive threshold, such as the default
    0.1, returns the empty list whatever the data. *)
Theorem built_graph_has_no_volatile_node (self : ValueGraph)
    (start_date end_date : Z) (min_confidence : Q) (threshold : R)
    (top_n : Z) :
  (0 < threshold)%R ->
  get_volatile_nodes (snd (build_graph self start_date end_date
                             min_confidence)) threshold top_n = [].
Proof.
  intro Hpos. unfold get_volatile_nodes.
  fold (built self start_date end_date min_confidence).
  destruct (map_result _ _) as [vs|e] eqn:E; [|reflexivity].
  rewrite filter_none; [apply slice_to_nil|].
  intros [n v] Hin. simpl.
  destruct (map_result_in _ _ _ _ E Hin) as (x & Hx & Hf).
  unfold volatility_item in Hf.
  destruct (get_node _ x) as [a|] eqn:Ea; [|discriminate].
  destruct (volatility a) as [w|] eqn:Ew; [|discriminate].
  injection Hf as <- <-. apply get_node_in in Ea.
  pose proof (built_volatility_trivial self start_date end_date
                min_confidence) as Ht.
  unfold volatility_trivial in Ht. rewrite Forall_forall in Ht.
  destruct (Ht _ Ea) as [H|H]; simpl in H; [congruence|].
  rewrite Ew in H. injection H as ->. simpl.
  destruct (Rle_dec threshold 0); [lra|reflexivity].
Qed.

Lemma built_graph_has_no_volatile_node_witness :
  (0 < 1 / 10)%R
  /\ get_volatile_nodes (snd (build_graph (init two_items) 0 10 (7 # 10)))
       (1 / 10) 10 = [].
Proof.
  assert (H : (0 < 1 / 10)%R) by lra.
  split; [exact H|].
  exact (built_graph_has_no_volatile_node (init two_items) 0 10 (7 # 10)
           (1 / 10) 10 H).
Defined.

End GraphFacts.
